(* ===== verification/_CoqProject ===== *)
-Q . S2P
Prelude.v
GoStrings.v
GoErrors.v
Registry.v
Eraser.v
Race.v
Manifest.v
Decode.v
Locator.v
Projector.v
Argv.v
Sync.v
Trail.v
Render.v
Siblings.v
Schema.v
Shape.v
Run.v
Respect.v
Handles.v
