(* ===== verification/Prelude.v ===== *)
(** * Verification of context-menu-manager (src/main.go)

    The program reads a manifest (a tree of menu entries keyed by identifier)
    and installs it under
    [HKCU\Software\Classes\Directory\Background\shell]: for every entry it
    erases the registry subtree at the entry's key, recreates the key, writes
    the entry's values, and either recurses into the children of a folder or
    writes the command line of an item.  [main] (main.go:179) calls [run]
    and ends the process with [log.Fatal] on an error; [run] (main.go:86)
    finds, reads and decodes the manifest and calls [createContextMenu]
    (main.go:18) for each top-level entry; [createContextMenu] calls [deleteRegKeyRecursive]
    (main.go:243), the methods [Icon] and [CommandString] of the entry
    (main.go:207, 220) and itself for the children; [CommandString] calls
    [findNircmd] (main.go:138), which keeps its result in a package variable.

    ** Files, in dependency order

    - [Prelude] (this file): the development's tactics, the hint databases
      [reg] (auto) and [reg] (autorewrite), and the generic lemmas every
      component shares: on list prefixes ([prefixes], [strip_pre],
      [prefix_cases]), on folds over permuted lists whose steps commute
      ([foldl_permutation], [foldl_comm_step]) and on lists related element
      by element ([Forall2_elem_of_l], [Forall2_impl_elem]).
    - [GoStrings]: the functions of Go's [strings] package that main.go
      calls ([ReplaceAll], [ContainsAny], [Join]), the splitting of a
      registry path at backslashes ([split_path]) and [quoteWindowsPath]
      (main.go:284).
    - [GoErrors]: Go error values as a chain of [Errorf "...%w"] wrappers
      around an errno or [os.ErrNotExist], [errors_Is], and the monad
      [M S A := S -> Outcome S A] in which all effectful code is written.
      An outcome is a normal return [Ok], an error return [Err], the end of
      the process [Crash] (log.Fatal or a nil dereference) or [OutOfFuel].
      The loop [for_each] models
      [for _, x := range xs { if err := f(x); err != nil { return } }].
      [post o Q E C] is the postcondition of an outcome on all three kinds
      of return; its rules ([post_bind], [post_seq], [post_wrap],
      [post_for_each], [post_zoom]) carry the proofs about every path.
      [partial o Q E] is the weaker statement about the value or the error
      of an outcome that has one, with rules of the same form; it is used
      where the claim is what an error looks like, not that one is returned.
      [rel o1 o2 Q E C] relates the outcomes of two runs: they are of the
      same kind, with the same error or the same cause of the end of the
      process, and their results and states are related; its rules
      ([rel_bind], [rel_wrap], [rel_try], [rel_for_each], [rel_zoom]) walk
      through two executions of the same code side by side.
    - [Registry]: the namespace adapter, i.e. the part of
      golang.org/x/sys/windows/registry the program calls.  That package is
      not under src/, so these definitions are modelled from its documented
      behaviour.  The store is a finite map from absolute key paths (lists of
      segments below HKCU) to the values of the key; a key exists iff its
      path is in the map.  Open handles are a table from handle numbers to
      paths.  A set of (access, path) pairs says which operations the store
      refuses, so that every error branch of main.go can be reached.
      The invariant [reg_wf] says that the root exists, the set of keys is
      closed under parents, every segment is a valid key name and every open
      handle is below the allocation counter.  Two states are equivalent
      ([≡]) when they have the same keys, values and refusals, whatever
      handles are open; [erasable], [unrefused] and [height_below] are
      [Proper] for it.
      The seven operations are the class [RegOps]; the program is written
      against the class.  [Store] holds the operations on a store nobody else
      writes to, [Registry_ops] is the instance they make.
    - [Eraser]: [deleteRegKeyRecursive] (main.go:243-282), one definition
      per part of the function ([erase_open], [erase_children],
      [erase_delete], [erase_deferred]), its deferred close written as the
      last step and its local variable [key] returned by the body.  The
      definitions are generic in the instance of [RegOps].
    - [Race]: other writers of the namespace.  [Racy] is a store with the
      batches of changes other processes make, one batch before each
      operation of the program; [Racy_ops] is the instance of [RegOps] on
      it.  [Interfered rely St] says of an instance that each operation is
      the operation of [Store] after a change in [rely]; [shrinks] and
      [fades] are the changes that only delete keys, [gone] and [held] the
      assertions of the eraser that are stable under them.
    - [Manifest]: the types [ContextMenu], [ContextMenuType], [Manifest]
      (main.go:185-205).  A Go map is modelled as the association list of
      its entries in the order one run iterates them; a nil entry is [None].
      [menu_wf] and [entries_wf] say that identifiers are key names,
      distinct among siblings, and that no entry is nil; [menu_named] and
      [entries_named] say the same without the distinctness; [elevated]
      and [has_nil] say that some entry the program visits asks for
      elevation or is nil.
    - [Decode]: [json.Unmarshal] at the type [Manifest], on a document that
      is already parsed ([json]): the fields of main.go:185-205 by their
      tags ([field], [field_name]), the decoding of a value into each field
      type, [decode_entry] for a map entry and [Unmarshal] for the
      manifest; [Marshal], the document of a manifest by the same tags,
      states what the decoder reads back.  Modelled from the documentation
      of encoding/json.
    - [Locator]: the process environment (working directory, executable
      path, files, search path) as the record [Env], [findManifest]
      (main.go:113-134) and [findNircmd] (main.go:138-177), whose state is
      the cache [_nircmdPath] (main.go:136); [candidates] and [first_file]
      are the reference for the order of both searches.  [exec.LookPath]
      returns a path and an error, and the deferred function of
      [findNircmd] stores the path whatever the error is.
    - [Projector]: [Icon] (main.go:207-218) and [CommandString]
      (main.go:220-241); the latter runs on the cache and can end the
      process.
    - [Argv]: the process that the command starts.  [argv] is the way it
      splits its command line into the program name and the arguments
      (blanks, double quotes, backslashes before a double quote), modelled
      from the documented convention of the C runtime of the platform, which
      is not code of the repository; [intact] is the condition on a token
      under which the command line gives it back, [command_tokens] the
      tokens a command is meant to have.
    - [Sync]: [createContextMenu] (main.go:18-84) as [create_fresh]
      (lines 23-30), [set_attributes] (31-52), [create_folder] (54-61),
      [create_entries] (62-67), [create_command] (69-81), composed in
      [create_menu] and [createContextMenu]; the loop of [run]
      (main.go:104-109) as [install].  The state [World] is the registry and
      the cache.
    - [Trail]: the form of the errors: [erase_error] for the eraser,
      [entry_error] and [menu_error] for the synchronizer, [error_ids] for
      the identifiers an error names from the outside in, and [in_menu] for
      a path of identifiers that leads into a manifest.
    - [Render]: the specification of the synchronizer, [installed] and
      [installed_entries]: the program on the keys of the store alone,
      without handles, errors or cache; the proof that the code computes it,
      and its algebra (it touches the subtree of the entry only, and what
      was in that subtree before plays no part in the result).
    - [Siblings]: the specification is local (the values of a key after an
      installation depend on the values of that key before it only), so
      installations at keys of which neither is above the other commute;
      from this, the independence of [install] of the iteration order and
      its idempotence.
    - [Schema]: the names and kinds of the values the shell reads off a menu
      key ([value_typed], [key_typed], [typed_in]).
    - [Shape]: the set of keys of an entry, [menu_keys]: its key, the
      [command] key of an item, the [shell] key of a folder and the keys of
      its children.
    - [Run]: [run] (main.go:86-111) and [main] (main.go:179-183).  What
      [os.ReadFile] and [json.Unmarshal] answer is the record [Host], a
      parameter; [json_host] is the host that decodes with [Unmarshal];
      [load] is the reference for the steps before the installation,
      [exit_status] the status the process ends with.
    - [Respect]: two runs side by side.  [twin] relates two well-formed
      stores with the same keys, values and refusals, [linked] two handles
      that stand for the same key, each in its store, [grown] and
      [restored] a pair of stores before and after a step, by what became
      of the handle tables; [twins] is [twin] with the same cache.
    - [Handles]: the handles a run opens and does not close.  [opens]
      counts the calls of [registry.CreateKey] for a tree, two for every
      entry that is visited; [counted r0 k] says of a store that it keeps
      the frame of [r0] and has [k] handles more.

    ** What the theorems show

    - Registry: every operation preserves [reg_wf]; the result and final
      state of each operation on every branch ([OpenKey_Ok], ...,
      [DeleteKey_nonempty]) and as postconditions ([OpenKey_post], ...).
    - Eraser: with fuel above the height of the subtree the function
      returns on every path, never ends the process, keeps [reg_wf] and
      leaves the handle table as it found it
      ([deleteRegKeyRecursive_safe]); when the store refuses nothing below
      the target it returns [Ok] in the state where exactly the keys at or
      below the target are gone ([deleteRegKeyRecursive_erases]); a missing
      target is success with no change; a refused open is an error with no
      change; a refused open of a subkey stops the loop, with the subkeys
      before it erased and everything else as it was
      ([deleteRegKeyRecursive_fail_fast]); with [erase_fuel] it returns on
      every well-formed store ([deleteRegKeyRecursive_terminates]).
    - Race: while other processes delete keys at any moment, the eraser
      still returns on every path, and either the target and everything
      below it is gone, or the error is ERROR_KEY_DELETED
      ([deleteRegKeyRecursive_races]); the proof is against [Interfered],
      by rely and guarantee, and both instances discharge the class.
      [lost_race_at_enumeration] is a run
      that fails although the target ends up deleted; [race_with_creator] a
      run that fails because another process creates a key.
    - GoStrings: a path is its segments joined, and segments are those of
      their join ([Join_segments], [segments_Join]).
    - Decode: the document of a manifest is decoded to the manifest
      ([Unmarshal_Marshal]); every manifest the decoder returns has
      distinct identifiers among siblings at every level and icon indices
      that fit an [int] ([Unmarshal_distinct]), so that it is well formed
      once its identifiers are key names and none of its entries is nil
      ([Unmarshal_wf]).
    - Locator: what [findManifest] returns is a file in one of the two
      candidate directories, and it fails only when there is none; the
      directory of the path it returns, joined with the file name, is the
      path again ([findManifest_Dir]); what [findNircmd] returned once it
      returns again in every environment; [findManifest] returns the first
      file among the working directory and the directory of the program, in
      that order ([findManifest_order]), and [findNircmd] with an empty
      cache the first among the working directory, its [bin], the
      directory of the program, its [bin], and the search path
      ([findNircmd_order]); a call that fails stores the path
      [exec.LookPath] returned with its error, so that after a program was
      found relative to the working directory and refused, the next call
      returns that path as found ([findNircmd_error_cached],
      [findNircmd_dot]).
    - Projector: [Icon] is empty exactly when there is no icon path; the
      form of the icon value and of a command token that start with the
      placeholder; the command with and without elevation; the end of the
      process when the helper is missing; the examples of the specification
      evaluated.
    - Argv: the command line [CommandString] returns is split by the
      process into the tokens of the entry, after the helper and its
      directive for an elevated entry, when no token has a double quote, no
      token that gets quoted ends in a backslash, and the tokens that are not
      quoted are not empty and have no tab ([CommandString_argv]); a path
      without a double quote that [quoteWindowsPath] wrote is read back
      exactly when it does not end in a backslash
      ([quoteWindowsPath_argv]); the examples
      [backslash_before_closing_quote], [double_quote_in_token],
      [tab_in_token] and [empty_token] are command lines that are read back
      otherwise.
    - Sync: installing any manifest ends, and on every path keeps [reg_wf],
      the refusals and the open handles ([install_safe]); it ends the
      process only at a nil entry or at an elevated entry without helper
      ([install_crash_cause]); an item on a
      store that refuses nothing replaces the old subtree by its key, its
      values and its command key ([create_menu_item]); the loop stops at the
      first failing entry ([create_entries_fail_fast]); a nil entry ends the
      process after its key was erased and created; a refused creation
      returns the wrapped error after the old subtree was erased; an entry
      whose type is not [folder] is installed as an item.
    - Trail: every error [install] returns names a top-level entry of the
      manifest, and the identifiers it names one inside the other are a
      path of entries of the manifest down to the entry that failed
      ([install_error_trail]); the error of the eraser names the key at
      which it failed ([deleteRegKeyRecursive_trail]).  The message for a
      refused creation and for a refused open are the same
      ([create_error_ambiguous]).
    - Render: refinement: for a well-formed manifest (identifiers that are
      key names, distinct among siblings, no nil entry) whose elevated items
      find the helper, on a store that refuses nothing below the shell key,
      [createContextMenu] and [install] succeed and leave the keys
      [installed] and [installed_entries] compute
      ([createContextMenu_installs], [install_installs]); an entry installed
      over another one leaves no trace of it
      ([createContextMenu_replaces]); a second call for the same entry
      changes no key ([createContextMenu_idempotent]); the empty identifier
      names the container, so that an item with that identifier erases the
      whole menu ([create_menu_empty_id]).
    - Siblings: two iteration orders of a well-formed manifest both succeed
      and leave equivalent stores ([install_order_independent]), and so do
      two trees that differ in the order of the children of their folders
      at any depth ([shuffled], [install_order_independent_nested]); a second
      run on the state the first left ends in an equivalent store
      ([install_idempotent]); runs from equivalent stores end in
      equivalent stores, so the handles that are never closed play no part
      ([install_proper]); a run with a manifest after a run with an older
      one whose top-level identifiers it has all leaves what the run with
      the new manifest alone leaves ([install_supersedes]).
      Both are first proved of [installed_entries], by locality and
      commutation, and carried to the code by the refinement theorem.
    - Schema: every key at or below an installed entry fits the schema
      ([install_typed]), and an installation keeps the schema wherever it
      held ([install_preserves_typed]).
    - Shape: after a run that succeeds, the keys at and below the key of an
      entry of the manifest are those of [menu_keys] and no others,
      whatever an older manifest had left there ([install_keys]); below the
      key of an entry the store is what the entry alone yields
      ([installed_entries_below]); the subtree of an identifier that the
      manifest does not have at the top level is left as it was, so entries
      taken out of the manifest stay installed ([install_leaves_unnamed]);
      more generally every path that is at or below the key of no entry
      holds what it held before, but for the missing keys on the way to the
      menu, which are created ([install_frame]).
    - Run: [run] is [load] followed by [install] ([run_run_loaded]); an
      error of the steps before the installation is returned with the
      state untouched ([run_undecoded]); [main] on a well-formed store
      returns or ends the process on every path, with every handle still
      open and the invariant kept ([main_safe]); it always ends with an
      exit status, zero exactly when [run] succeeded ([main_exits]); for a
      well-formed manifest it leaves the keys [installed_entries] computes
      with the directory of the manifest ([main_installs]), and with the
      decoder of [Decode] as the host it does so for every document whose
      manifest has key names for identifiers and no null entry
      ([main_document_installs]); a manifest
      whose first entry is nil ends the process with a nil dereference
      after the key of the entry was erased ([main_null_entry]).
    - Respect: each operation of the package takes stores that are alike
      and handles that are linked to results that are alike
      ([OpenKey_rel], ..., [CloseKey_rel]); so does the eraser, by
      induction on the fuel ([deleteRegKeyRecursive_rel]), and the
      synchronizer, by induction on the entry ([create_menu_rel]); two runs
      of [main] from states that differ only in the handles that are open
      end the same way on every path, errors, refusals, nil entries and a
      missing helper included, with the same exit status and in states that
      are alike again ([main_respects]).  This is the whole-program form of
      [install_proper], which is about the runs that succeed.
    - Handles: every step of [createContextMenu] is counted
      ([create_fresh_counted], ..., [create_menu_counted]); a run that
      succeeds leaves exactly [entries_opens] handles more than it found, a
      run that fails or ends the process at most that many
      ([install_handles]).

    ** Fuel

    [deleteRegKeyRecursive] recurses on registry state, not on a Rocq
    term, so it takes fuel: one unit per level of recursion.  The theorems
    ask for [fuel > height] where the height of the subtree at the target is
    bounded by the longest key path in the store; [erase_fuel] computes a
    sufficient value from the state, and [Sync.erase] calls the function
    with it.  [create_menu] is structurally recursive on the manifest,
    [decode_entry] on the document.  Under interference the same bound is
    enough, since the height of a subtree only falls when keys are deleted
    ([height_below_shrinks]); the schedule of [Racy] is a finite list, and
    once it is used up the store is left alone, which covers every run
    because a run makes finitely many calls.

    ** Integers

    The only integer of the program is the icon index, a Go [int].  The
    decoder accepts a number for it only when it is written as an integer
    within [int_bits] = 64 bits ([int_range]); [Icon] prints it in decimal
    and does no arithmetic on it, so nothing can overflow after
    decoding.

    ** Not modelled

    The syntax of JSON: the specification takes the manifest as a document
    that is already parsed, so the step from the bytes of the file to the
    tree of the document is a parameter of [json_host] and no parser is
    modelled.  The text of the decoder's errors, and the letters outside ASCII that the decoder folds to ASCII
    letters when it matches a key with a tag.  What a file holds is a
    parameter of [run].  The text [log.Fatal] prints.
    What the shell does with the command value before it starts the
    process: the expansion of environment variables and of its own
    placeholders, both written with percent signs; [argv] reads the
    value as it was written.  The way the shell reads the [Icon] value.
    Case-insensitivity of registry key names, security descriptors other
    than the refusal set, and the limit of the system on open handles.
    [filepath.Clean] inside [filepath.Join] and [filepath.Dir], and the
    volume of a path: the two functions are those of Go on the paths
    [os.Getwd] and [os.Executable] return, which are clean, except in the
    root of a drive, where Go joins without a second separator and keeps
    the separator after the drive; [findManifest_Dir] holds in the model
    for every working directory and in Go for the clean ones.
    [strings.ReplaceAll] with the empty pattern is Go's on valid UTF-8;
    the program calls it with the placeholder only.
    Other writers are modelled for the eraser only, and only as deleting
    keys between two calls; the synchronizer is analysed on a store it has
    to itself, and a writer that creates keys is covered by an example,
    not by a theorem.  The order in which Go iterates a
    map is fixed by the list that models the map; for runs that succeed
    the order is proved not to matter, for runs that fail the entry that
    fails first depends on it. *)

From stdpp Require Export gmap strings list.

(** ** Tactics *)

(** [case_prefix p q]: split on whether [p] is a prefix of [q]. *)
Ltac case_prefix p q :=
let H := fresh "Hpre" in destruct (decide (p `prefix_of` q)) as [H|H].

(** [by_compute]: decide a closed decidable proposition by evaluation. *)
Ltac by_compute := apply (bool_decide_unpack _); vm_compute; exact I.

Create HintDb reg discriminated.
Create Rewrite HintDb reg.

(** ** Prefixes of a path *)

Section prefixes.
Context {A : Type} `{EqDecision A}.
Implicit Types (a : A) (p q l : list A).

(** All prefixes of a list, shortest first. *)
Fixpoint prefixes l : list (list A) :=
  match l with
  | [] => [[]]
  | a :: l' => [] :: ((a ::.) <$> prefixes l')
  end.

(** [strip_pre p q]: what is left of [q] after its prefix [p]. *)
Fixpoint strip_pre p q : option (list A) :=
  match p, q with
  | [], _ => Some q
  | a :: p', b :: q' => if decide (a = b) then strip_pre p' q' else None
  | _ :: _, [] => None
  end.

Lemma elem_of_prefixes p l : p ∈ prefixes l ↔ p `prefix_of` l.
Proof.
  revert p. induction l as [|a l IH]; intros p; simpl.
  - rewrite list_elem_of_singleton. split; [intros ->; done|apply prefix_nil_inv].
  - rewrite elem_of_cons, list_elem_of_fmap. split.
    + intros [->|(p' & -> & Hp')]; [apply prefix_nil|].
      apply prefix_cons, IH, Hp'.
    + destruct p as [|b p]; [by left|]. intros Hpre. right.
      pose proof (prefix_cons_inv_1 _ _ _ _ Hpre) as ->.
      exists p. split; [done|]. by eapply IH, prefix_cons_inv_2.
Qed.

Lemma prefixes_self l : l ∈ prefixes l.
Proof. by apply elem_of_prefixes. Qed.

Lemma strip_pre_Some p q r : strip_pre p q = Some r ↔ q = p ++ r.
Proof.
  revert q. induction p as [|a p IH]; intros q; simpl; [naive_solver|].
  destruct q as [|b q]; [naive_solver|].
  case_decide as Hab; [subst b; rewrite IH|]; naive_solver.
Qed.

Lemma strip_pre_app p r : strip_pre p (p ++ r) = Some r.
Proof. by apply strip_pre_Some. Qed.

Lemma strip_pre_None p q : strip_pre p q = None ↔ ¬ p `prefix_of` q.
Proof.
  split.
  - intros Hn [r ->]. by rewrite strip_pre_app in Hn.
  - intros Hn. destruct (strip_pre p q) as [r|] eqn:E; [|done].
    apply strip_pre_Some in E as ->. destruct Hn. by exists r.
Qed.

(** A prefix of [p ++ [a]] is a prefix of [p] or the whole list. *)
Lemma prefix_snoc_inv q p a :
  q `prefix_of` p ++ [a] → q `prefix_of` p ∨ q = p ++ [a].
Proof.
  intros [r Hr]. destruct r as [|b r' _] using rev_ind.
  - right. by rewrite app_nil_r in Hr.
  - left. rewrite app_assoc in Hr. apply app_inj_tail in Hr as [-> _].
    by exists r'.
Qed.

(** Two prefixes of one list are comparable. *)
Lemma prefix_cases p q l :
  p `prefix_of` l → q `prefix_of` l → p `prefix_of` q ∨ q `prefix_of` p.
Proof. intros Hp Hq. apply (prefix_weak_total _ _ _ Hp Hq). Qed.

(** A strict extension of [p] passes through one child [p ++ [a]]. *)
Lemma prefix_strict_child p q :
  p `prefix_of` q → p ≠ q → ∃ a, p ++ [a] `prefix_of` q.
Proof.
  intros [[|a r] ->] Hne; [by rewrite app_nil_r in Hne|].
  exists a, r. by rewrite <-app_assoc.
Qed.

Lemma prefix_child_ne p a b q :
  a ≠ b → p ++ [a] `prefix_of` q → ¬ p ++ [b] `prefix_of` q.
Proof.
  intros Hab [r ->] [r' Hr']. rewrite <-!app_assoc in Hr'.
  apply app_inv_head in Hr'. naive_solver.
Qed.

Lemma prefix_length_lt p q : p `prefix_of` q → p ≠ q → length p < length q.
Proof.
  intros [[|a r] ->] Hne; [by rewrite app_nil_r in Hne|].
  rewrite length_app; simpl; lia.
Qed.
End prefixes.

#[export] Hint Resolve prefix_nil prefixes_self : reg.
#[export] Hint Rewrite @strip_pre_app : reg.

(** ** Folds over a permutation *)

Section folds.
Context {A B K : Type} (f : B → A → B) (key : A → K).
Implicit Types (b : B) (l : list A).

(** A left fold whose steps commute for elements with different keys gives
    the same result on every permutation of a list with distinct keys. *)
Lemma foldl_permutation l1 l2 :
  (∀ b x y, key x ≠ key y → f (f b x) y = f (f b y) x) →
  NoDup (key <$> l1) → l1 ≡ₚ l2 → ∀ b, foldl f b l1 = foldl f b l2.
Proof.
  intros Hcomm Hnd Hperm. induction Hperm as [|x l l' _ IH|x y l|l l' l'' H1 IH1 H2 IH2];
    intros b; simpl.
  - done.
  - apply IH. by apply NoDup_cons in Hnd as [_ ?].
  - f_equal. apply Hcomm. apply NoDup_cons in Hnd as [Hy _].
    intros Heq. apply Hy. rewrite Heq. by left.
  - rewrite IH1 by done. apply IH2. by rewrite <-H1.
Qed.

(** A step that commutes with every step of a fold can be moved across it. *)
Lemma foldl_comm_step l x :
  (∀ b y, y ∈ l → f (f b x) y = f (f b y) x) →
  ∀ b, foldl f (f b x) l = f (foldl f b l) x.
Proof.
  induction l as [|y l IH]; intros Hcomm b; simpl; [done|].
  rewrite Hcomm by (by left). apply IH. intros b' z Hz. apply Hcomm. by right.
Qed.

End folds.

(** A partial function that is injective where it is defined keeps a list
    free of duplicates. *)
Lemma NoDup_omap_inj {A B} (f : A → option B) (l : list A) :
  (∀ x y b, f x = Some b → f y = Some b → x = y) → NoDup l → NoDup (omap f l).
Proof.
  intros Hinj. induction 1 as [|x l Hx Hl IH]; simpl; [constructor|].
  destruct (f x) as [b|] eqn:E; [|done]. constructor; [|done].
  intros (y & Hy & Hfy)%list_elem_of_omap. by rewrite (Hinj x y b) in Hx.
Qed.

(** A list of pairs with distinct first components is a partial function. *)
Lemma NoDup_fst_unique {A B} (l : list (A * B)) x y1 y2 :
  NoDup l.*1 → (x, y1) ∈ l → (x, y2) ∈ l → y1 = y2.
Proof.
  induction l as [|[a b] l IH]; [by intros _ ?%elem_of_nil|].
  rewrite fmap_cons. intros [Ha Hl]%NoDup_cons H1 H2.
  apply elem_of_cons in H1 as [H1|H1], H2 as [H2|H2]; simplify_eq; [done| | |by apply IH].
  - destruct Ha. apply list_elem_of_fmap. by exists (a, y2).
  - destruct Ha. apply list_elem_of_fmap. by exists (a, y1).
Qed.

(** ** Lists related element by element *)

Lemma Forall2_elem_of_l {A B} (R : A → B → Prop) l k x :
  Forall2 R l k → x ∈ l → ∃ y, y ∈ k ∧ R x y.
Proof.
  intros H [i Hi]%list_elem_of_lookup.
  destruct (Forall2_lookup_l _ _ _ _ _ H Hi) as (y & Hy & ?).
  exists y. split; [by eapply list_elem_of_lookup_2|done].
Qed.

Lemma Forall2_elem_of_r {A B} (R : A → B → Prop) l k y :
  Forall2 R l k → y ∈ k → ∃ x, x ∈ l ∧ R x y.
Proof.
  intros H [i Hi]%list_elem_of_lookup.
  destruct (Forall2_lookup_r _ _ _ _ _ H Hi) as (x & Hx & ?).
  exists x. split; [by eapply list_elem_of_lookup_2|done].
Qed.

(** A relation on lists is weakened with the elements in hand. *)
Lemma Forall2_impl_elem {A B} (R R' : A → B → Prop) l k :
  Forall2 R l k → (∀ x y, x ∈ l → y ∈ k → R x y → R' x y) → Forall2 R' l k.
Proof.
  induction 1 as [|x y l k Hxy _ IH]; intros HR; constructor.
  - apply HR; [by left..|done].
  - apply IH. intros x' y' ??. apply HR; by right.
Qed.
