(* ===== verification/GoStrings.v ===== *)
(** * Go strings as the program uses them

    Byte strings with the functions of Go's [strings] package that main.go
    calls ([strings.ReplaceAll], [strings.ContainsAny], [strings.Join]), the
    way the registry reads a key path (segments separated by backslashes) and
    [quoteWindowsPath] (main.go:284-286). *)

From Stdlib Require Import Ascii.
From stdpp Require Import gmap strings list.
From S2P Require Import Prelude.


(** ** Characters the program treats specially *)

Definition backslash : ascii := "092"%char.
Definition dquote : ascii := "034"%char.
Definition space : ascii := "032"%char.
Definition percent : ascii := "037"%char.

(** The characters of a string, as a list. *)
Fixpoint chars (s : string) : list ascii :=
  match s with
  | EmptyString => []
  | String c s' => c :: chars s'
  end.

(** ** main.go:284 *)

(** [quoteWindowsPath]: the path between two double quotes, nothing escaped. *)
Definition quoteWindowsPath (path : string) : string :=
  String dquote path +:+ String dquote EmptyString.

(** ** package strings *)

(** [strings.ReplaceAll s old new] for a non-empty [old]: the occurrences of
    [old] are found left to right and do not overlap.  [skip] counts the
    characters of a matched occurrence that are still to be dropped. *)
Fixpoint replace_go (old new : string) (skip : nat) (s : string) : string :=
  match s with
  | EmptyString => EmptyString
  | String c s' =>
      match skip with
      | S k => replace_go old new k s'
      | O =>
          if String.prefix old s
          then new +:+ replace_go old new (String.length old - 1) s'
          else String c (replace_go old new 0 s')
      end
  end.

(** A byte that continues a UTF-8 sequence: [10xxxxxx]. *)
Definition continuation (c : ascii) : bool :=
  (128 <=? nat_of_ascii c) && (nat_of_ascii c <? 192).

(** [strings.ReplaceAll s old new] for the empty [old]: it matches at the
    beginning of the string and after each UTF-8 sequence, so [new] goes
    before every byte that starts a sequence and at the end.  This is Go on
    strings of valid UTF-8; in a string that is not, Go also takes a stray
    continuation byte for a sequence. *)
Fixpoint between (new s : string) : string :=
  match s with
  | EmptyString => new
  | String c s' => (if continuation c then EmptyString else new) +:+ String c (between new s')
  end.

Definition ReplaceAll (s old new : string) : string :=
  match old with
  | EmptyString => between new s
  | _ => replace_go old new 0 s
  end.

(** [strings.ContainsAny s cs]: some character of [cs] occurs in [s]. *)
Definition ContainsAny (s cs : string) : bool :=
  existsb (λ c, bool_decide (c ∈ chars cs)) (chars s).

(** [strings.Join elems sep]. *)
Fixpoint Join (elems : list string) (sep : string) : string :=
  match elems with
  | [] => EmptyString
  | [e] => e
  | e :: rest => e +:+ sep +:+ Join rest sep
  end.

(** ** Registry key paths *)

(** The segments of a path between backslashes, empty ones included; the
    list is never empty. *)
Fixpoint segments (s : string) : list string :=
  match s with
  | EmptyString => [EmptyString]
  | String c s' =>
      if decide (c = backslash) then EmptyString :: segments s'
      else match segments s' with
           | x :: xs => String c x :: xs
           | [] => [String c EmptyString]
           end
  end.

(** A key path as the store reads it: leading, trailing and doubled
    separators name no key. *)
Definition split_path (s : string) : list string :=
  filter (λ x, x ≠ EmptyString) (segments s).

(** A name a key can have: not empty, no separator in it. *)
Definition valid_seg (s : string) : Prop :=
  s ≠ EmptyString ∧ backslash ∉ chars s.

#[export] Instance valid_seg_dec s : Decision (valid_seg s).
Proof. unfold valid_seg. apply _. Defined.

(** ** Lemmas on append *)

Lemma app_empty_r (s : string) : s +:+ EmptyString = s.
Proof. induction s as [|c s IH]; [done|]. unfold String.app in *; simpl. by rewrite IH. Qed.

Lemma app_assoc_s (a b c : string) : (a +:+ b) +:+ c = a +:+ b +:+ c.
Proof.
  induction a as [|x a IH]; [done|]. unfold String.app in *; simpl. by rewrite IH.
Qed.

Lemma app_cons_s (c : ascii) (a b : string) : String c a +:+ b = String c (a +:+ b).
Proof. done. Qed.

Lemma chars_app (a b : string) : chars (a +:+ b) = chars a ++ chars b.
Proof.
  induction a as [|x a IH]; [done|]. rewrite app_cons_s. simpl. by rewrite IH.
Qed.

Lemma chars_inj (a b : string) : chars a = chars b → a = b.
Proof.
  revert b. induction a as [|x a IH]; intros [|y b] H; simplify_eq/=; [done|].
  f_equal. by apply IH.
Qed.

Lemma length_chars (s : string) : length (chars s) = String.length s.
Proof. induction s; simpl; congruence. Qed.

#[export] Hint Rewrite app_empty_r app_assoc_s app_cons_s chars_app : reg.

(** ** Lemmas on paths *)

Lemma segments_nonempty s : segments s ≠ [].
Proof.
  destruct s as [|c s]; simpl; [done|]. case_decide; [done|].
  by destruct (segments s).
Qed.

(** A string with no separator is one segment. *)
Lemma segments_no_sep s : backslash ∉ chars s → segments s = [s].
Proof.
  induction s as [|c s IH]; simpl; [done|]. intros Hn.
  apply not_elem_of_cons in Hn as [Hc Hs]. rewrite decide_False by done.
  by rewrite IH.
Qed.

(** The segments of [a\b] are those of [a], then those of [b]. *)
Lemma segments_sep a b :
  segments (a +:+ String backslash b) = segments a ++ segments b.
Proof.
  induction a as [|c a IH].
  - change (segments (String backslash b) = [EmptyString] ++ segments b).
    simpl. by destruct (decide (backslash = backslash)).
  - rewrite app_cons_s. simpl. case_decide; [by rewrite IH|]. rewrite IH.
    pose proof (segments_nonempty a). by destruct (segments a).
Qed.

Lemma split_path_sep a b :
  split_path (a +:+ String backslash b) = split_path a ++ split_path b.
Proof. unfold split_path. by rewrite segments_sep, filter_app. Qed.

Lemma split_path_empty : split_path EmptyString = [].
Proof. done. Qed.

(** A valid name is a path of one segment. *)
Lemma split_path_valid s : valid_seg s → split_path s = [s].
Proof.
  intros [Hne Hsep]. unfold split_path. rewrite segments_no_sep by done.
  by rewrite filter_cons_True.
Qed.

(** Every segment the store reads off a path is a valid name. *)
Lemma segments_no_sep_in s : Forall (λ x, backslash ∉ chars x) (segments s).
Proof.
  induction s as [|c s IH]; simpl.
  - repeat constructor. by intros ?%elem_of_nil.
  - case_decide.
    + constructor; [by intros ?%elem_of_nil|done].
    + pose proof (segments_nonempty s).
      destruct (segments s) as [|x xs]; [done|]. inv IH.
      constructor; [|done]. simpl. by apply not_elem_of_cons.
Qed.

Lemma split_path_valid_segs s : Forall valid_seg (split_path s).
Proof.
  unfold split_path. apply Forall_forall. intros x [Hx Hin]%list_elem_of_filter.
  split; [done|]. pose proof (segments_no_sep_in s) as H.
  by eapply Forall_forall in H.
Qed.

#[export] Hint Resolve split_path_valid_segs : reg.
#[export] Hint Rewrite split_path_sep split_path_empty : reg.

(** A path with a character other than the separator names a key. *)
Lemma split_path_cons_sep s : split_path (String backslash s) = split_path s.
Proof.
  unfold split_path. cbn [segments]. destruct (decide _); [|done].
  rewrite filter_cons_False; [done|]. by intros H; apply H.
Qed.

Lemma split_path_cons_other c s : c ≠ backslash → split_path (String c s) ≠ [].
Proof.
  intros Hc. unfold split_path. cbn [segments]. destruct (decide _); [done|].
  destruct (segments s); by rewrite filter_cons_True.
Qed.

Lemma split_path_app_ne a b : split_path a ≠ [] → split_path (a +:+ b) ≠ [].
Proof.
  induction a as [|c a IH]; [done|]. rewrite app_cons_s.
  destruct (decide (c = backslash)) as [->|Hc].
  - by rewrite !split_path_cons_sep.
  - intros _. by apply split_path_cons_other.
Qed.

(** The empty pattern: one replacement more than the string has characters. *)
Example ReplaceAll_empty_pattern : ReplaceAll "oink" EmptyString "-" = "-o-i-n-k-".
Proof. reflexivity. Qed.

(** ** Lemmas on [ReplaceAll]

    Three equations determine the function for a non-empty [old]: nothing is
    replaced in the empty string; where [old] is a prefix, it is replaced
    and the scan continues after it; elsewhere the first character is kept
    and the scan continues after it. *)

Lemma prefix_true_iff (a s : string) : String.prefix a s = true ↔ ∃ b, s = a +:+ b.
Proof.
  revert s. induction a as [|x a IH]; intros s.
  - destruct s; split; eauto.
  - destruct s as [|y s]; [split; [done|by intros [? [=]]]|].
    cbn [String.prefix]. destruct (ascii_dec x y) as [->|Hne].
    + rewrite IH. split; intros [b Hb]; exists b; [by rewrite Hb|].
      by rewrite app_cons_s in Hb; injection Hb.
    + split; [done|]. intros [b Hb]. rewrite app_cons_s in Hb. congruence.
Qed.

(** Dropping the rest of a matched occurrence. *)
Lemma replace_go_skip (old new a b : string) :
  replace_go old new (String.length a) (a +:+ b) = replace_go old new 0 b.
Proof. induction a as [|x a IH]; [done|]. by rewrite app_cons_s. Qed.

Lemma replace_go_match x o (new b : string) :
  replace_go (String x o) new 0 (String x o +:+ b)
  = new +:+ replace_go (String x o) new 0 b.
Proof.
  rewrite app_cons_s. cbn [replace_go].
  replace (String.prefix (String x o) (String x (o +:+ b))) with true.
  2:{ symmetry. apply prefix_true_iff. by exists b. }
  cbn [String.length]. replace (S (String.length o) - 1) with (String.length o) by lia.
  by rewrite replace_go_skip.
Qed.

Section replace.
Context (old new : string) (Hold : old ≠ EmptyString).
Implicit Types (s a b : string) (c : ascii).

Lemma ReplaceAll_unfold s : ReplaceAll s old new = replace_go old new 0 s.
Proof. unfold ReplaceAll. by destruct old. Qed.

Lemma ReplaceAll_empty : ReplaceAll EmptyString old new = EmptyString.
Proof. by rewrite ReplaceAll_unfold. Qed.

Lemma ReplaceAll_match b : ReplaceAll (old +:+ b) old new = new +:+ ReplaceAll b old new.
Proof. unfold ReplaceAll. destruct old; [done|]. apply replace_go_match. Qed.

Lemma ReplaceAll_skip c s :
  String.prefix old (String c s) = false →
  ReplaceAll (String c s) old new = String c (ReplaceAll s old new).
Proof. intros H. rewrite !ReplaceAll_unfold. cbn [replace_go]. by rewrite H. Qed.

(** [old] occurs in [s]. *)
Definition occurs (s : string) : Prop := ∃ a b, s = a +:+ old +:+ b.

(** A string in which [old] does not occur is left as it is. *)
Lemma ReplaceAll_no_occurrence s : ¬ occurs s → ReplaceAll s old new = s.
Proof.
  induction s as [|c s IH]; intros Hno; [apply ReplaceAll_empty|].
  rewrite ReplaceAll_skip.
  - rewrite IH; [done|]. intros (a & b & ->). apply Hno. by exists (String c a), b.
  - apply not_true_is_false. intros [b Hb]%prefix_true_iff. apply Hno.
    by exists EmptyString, b.
Qed.

End replace.

(** Occurrence is decidable, by a scan of the suffixes. *)
Fixpoint occursb (old s : string) : bool :=
  String.prefix old s
  || match s with String _ s' => occursb old s' | EmptyString => false end.

Lemma occursb_spec old s : occursb old s = true ↔ occurs old s.
Proof.
  induction s as [|c s IH]; cbn [occursb]; rewrite orb_true_iff, prefix_true_iff.
  - split; [intros [[b Hb]|?]; [by exists EmptyString, b|done]|].
    intros ([|??] & b & Hb); [left; by exists b|done].
  - rewrite IH. split.
    + intros [[b Hb]|(a & b & ->)]; [by exists EmptyString, b|by exists (String c a), b].
    + intros ([|x a] & b & Hb); [left; by exists b|right].
      rewrite app_cons_s in Hb. injection Hb as -> ->. by exists a, b.
Qed.

#[export] Instance occurs_dec old s : Decision (occurs old s).
Proof. refine (cast_if (decide (occursb old s = true))); by rewrite <-occursb_spec. Defined.

(** ** Lemmas on [quoteWindowsPath], [ContainsAny] and [Join] *)

Lemma quoteWindowsPath_nonempty s : quoteWindowsPath s ≠ EmptyString.
Proof. done. Qed.

Lemma chars_quoteWindowsPath s : chars (quoteWindowsPath s) = dquote :: chars s ++ [dquote].
Proof. unfold quoteWindowsPath. by rewrite app_cons_s; simpl; rewrite chars_app. Qed.

(** Quoting is injective: the quoted form determines the path. *)
Lemma quoteWindowsPath_inj s t : quoteWindowsPath s = quoteWindowsPath t → s = t.
Proof.
  intros H. apply (f_equal chars) in H. rewrite !chars_quoteWindowsPath in H.
  injection H as H. apply app_inj_tail in H as [H _]. by apply chars_inj.
Qed.

Lemma ContainsAny_true s cs :
  ContainsAny s cs = true ↔ ∃ c, c ∈ chars s ∧ c ∈ chars cs.
Proof.
  unfold ContainsAny. rewrite existsb_exists. split.
  - intros (c & Hc & Hd). exists c. rewrite <-list_elem_of_In in Hc.
    by apply bool_decide_eq_true in Hd.
  - intros (c & Hc & Hd). exists c. rewrite <-list_elem_of_In.
    by rewrite bool_decide_eq_true.
Qed.

Lemma Join_cons e rest sep :
  rest ≠ [] → Join (e :: rest) sep = e +:+ sep +:+ Join rest sep.
Proof. by destruct rest. Qed.

Lemma Join_singleton e sep : Join [e] sep = e.
Proof. done. Qed.

(** ** Paths and their segments

    [segments] and [Join] with the separator are inverse to each other: a
    path is its segments joined, and segments without a separator in them
    are those of their join. *)

Lemma Join_cons_char c x xs sep :
  Join (String c x :: xs) sep = String c (Join (x :: xs) sep).
Proof. by destruct xs. Qed.

Lemma Join_segments s : Join (segments s) (String backslash EmptyString) = s.
Proof.
  induction s as [|c s IH]; simpl; [done|].
  pose proof (segments_nonempty s). case_decide as Hc.
  - rewrite Join_cons by done. rewrite IH. by subst c.
  - destruct (segments s) as [|x xs]; [done|]. by rewrite Join_cons_char, IH.
Qed.

Lemma segments_Join segs :
  segs ≠ [] → Forall (λ x, backslash ∉ chars x) segs →
  segments (Join segs (String backslash EmptyString)) = segs.
Proof.
  induction segs as [|e rest IH]; [done|]. intros _ [He Hrest]%Forall_cons.
  destruct rest as [|e' rest']; [by apply segments_no_sep|].
  rewrite Join_cons by done. change (String backslash EmptyString +:+ ?x) with (String backslash x).
  by rewrite segments_sep, segments_no_sep, IH.
Qed.
