(* ===== verification/GoErrors.v ===== *)
(** * Go error values and the monad of effectful code

    An error value is an errno of the operating system, the sentinel
    [os.ErrNotExist], or [fmt.Errorf] with one [%w] verb around an inner
    error.  [errors_Is] is [errors.Is] for an errno target.

    Code with effects is written in [M S A := S -> Outcome S A]: a function
    that returns [(x, nil)] ends in [Ok], one that returns a non-nil error in
    [Err], [log.Fatal] and a nil dereference in [Crash]; [OutOfFuel] is the
    model's own outcome for a recursion that was given too little fuel.  The
    state is kept in every outcome but the last, because the program never
    rolls back what it wrote.

    [post] states what an outcome is on every kind of return and is proved
    by rules that follow the structure of the code; [partial] states what
    the value or the error is when there is one; [rel] relates the outcomes
    of two runs of the same code. *)

From stdpp Require Import gmap strings list.
From S2P Require Import Prelude.

(** ** Error values *)

(** The error numbers the registry returns.  Go's [syscall.ENOENT] is
    [ERROR_FILE_NOT_FOUND] on Windows. *)
Inductive Errno :=
| ENOENT
| ERROR_ACCESS_DENIED
| ERROR_INVALID_HANDLE
| ERROR_KEY_DELETED.

#[export] Instance Errno_eq_dec : EqDecision Errno.
Proof. solve_decision. Defined.

(** [Errorf fmt args inner] is [fmt.Errorf(fmt, args..., inner)] where [fmt]
    ends in [%w]; the arguments are kept unformatted.  [ErrOther msg] is an
    error of a library the program does not inspect, by its message. *)
Inductive error :=
| Errno_error (e : Errno)
| ErrNotExist
| ErrOther (msg : string)
| Errorf (fmt : string) (args : list string) (inner : error).

#[export] Instance error_eq_dec : EqDecision error.
Proof. solve_decision. Defined.

(** [errors.Is(err, target)] for an errno [target]: walk the chain of
    wrapped errors. *)
Fixpoint errors_Is (err : error) (target : Errno) : bool :=
  match err with
  | Errno_error e => bool_decide (e = target)
  | ErrNotExist | ErrOther _ => false
  | Errorf _ _ inner => errors_Is inner target
  end.

(** The innermost error of a chain. *)
Fixpoint root_cause (err : error) : error :=
  match err with
  | Errorf _ _ inner => root_cause inner
  | _ => err
  end.

(** The format strings of the wrappers, outermost first: the breadcrumb
    trail that [log.Fatal] prints. *)
Fixpoint trail (err : error) : list string :=
  match err with
  | Errorf fmt _ inner => fmt :: trail inner
  | _ => []
  end.

(** ** Outcomes *)

Inductive crash :=
| LogFatal (e : error)
| NilDeref.

Inductive Outcome (S A : Type) :=
| Ok (a : A) (s : S)
| Err (e : error) (s : S)
| Crash (c : crash) (s : S)
| OutOfFuel.
Arguments Ok {S A} a s.
Arguments Err {S A} e s.
Arguments Crash {S A} c s.
Arguments OutOfFuel {S A}.

Definition M (S A : Type) : Type := S → Outcome S A.

Definition ret {S A} (a : A) : M S A := λ s, Ok a s.

Definition bind {S A B} (m : M S A) (f : A → M S B) : M S B :=
  λ s, match m s with
       | Ok a s' => f a s'
       | Err e s' => Err e s'
       | Crash c s' => Crash c s'
       | OutOfFuel => OutOfFuel
       end.

(** [return err] with a non-nil [err]. *)
Definition throw {S A} (e : error) : M S A := λ s, Err e s.

(** [log.Fatal(err)]: the process exits. *)
Definition fatal {S A} (e : error) : M S A := λ s, Crash (LogFatal e) s.

(** Dereference of a nil pointer. *)
Definition nil_deref {S A} : M S A := λ s, Crash NilDeref s.

Definition out_of_fuel {S A} : M S A := λ _, OutOfFuel.

(** ** Results of calls without state *)

(** [x, err := f(); if err != nil { return err }; k(x)] *)
Definition and_then {A B} (r : error + A) (k : A → error + B) : error + B :=
  match r with
  | inl err => inl err
  | inr a => k a
  end.

(** [x, err := f()] for a call [f] that does not touch the state. *)
Definition of_result {S A} (r : error + A) : M S A :=
  match r with
  | inl e => throw e
  | inr a => ret a
  end.

(** [x, err = f()]: the error becomes a value the caller inspects. *)
Definition try {S A} (m : M S A) : M S (error + A) :=
  λ s, match m s with
       | Ok a s' => Ok (inr a) s'
       | Err e s' => Ok (inl e) s'
       | Crash c s' => Crash c s'
       | OutOfFuel => OutOfFuel
       end.

(** [if err = f(); err != nil { err = wrapper(err); return }]. *)
Definition wrap {S A} (w : error → error) (m : M S A) : M S A :=
  λ s, match m s with
       | Err e s' => Err (w e) s'
       | o => o
       end.

(** A call whose error result is dropped. *)
Definition ignore_err {S A} (m : M S A) : M S unit :=
  λ s, match m s with
       | Ok _ s' => Ok tt s'
       | Err _ s' => Ok tt s'
       | Crash c s' => Crash c s'
       | OutOfFuel => OutOfFuel
       end.

Definition get {S} : M S S := λ s, Ok s s.
Definition modify {S} (f : S → S) : M S unit := λ s, Ok tt (f s).

(** Run a computation on a component of the state. *)
Definition zoom {S T A} (proj : S → T) (upd : T → S → S) (m : M T A) : M S A :=
  λ s, match m (proj s) with
       | Ok a t => Ok a (upd t s)
       | Err e t => Err e (upd t s)
       | Crash c t => Crash c (upd t s)
       | OutOfFuel => OutOfFuel
       end.

Declare Scope go_scope.
Delimit Scope go_scope with go.
Notation "x <- c1 ;; c2" := (bind c1 (λ x, c2))
  (at level 100, c1 at next level, c2 at level 200, right associativity) : go_scope.
Notation "c1 ;; c2" := (bind c1 (λ _, c2))
  (at level 100, c2 at level 200, right associativity) : go_scope.
#[global] Open Scope go_scope.

(** [for _, x := range l { if err = f(x); err != nil { return } }]. *)
Fixpoint for_each {S A} (f : A → M S unit) (l : list A) : M S unit :=
  match l with
  | [] => ret tt
  | x :: l' => f x ;; for_each f l'
  end.

(** The state an outcome leaves, if any. *)
Definition final_state {S A} (o : Outcome S A) : option S :=
  match o with
  | Ok _ s | Err _ s | Crash _ s => Some s
  | OutOfFuel => None
  end.

(** The error an outcome returns, if it is an error. *)
Definition the_error {S A} (o : Outcome S A) : option error :=
  match o with
  | Err e _ => Some e
  | _ => None
  end.

Definition is_Ok {S A} (o : Outcome S A) : bool :=
  match o with Ok _ _ => true | _ => false end.

Definition returns {S A} (o : Outcome S A) : Prop := o ≠ OutOfFuel.

(** ** Lemmas *)

Section monad.
Context {S : Type}.
Implicit Types (s : S) (e : error).

Lemma bind_Ok {A B} (m : M S A) (f : A → M S B) s a s' :
  m s = Ok a s' → (x <- m ;; f x) s = f a s'.
Proof. unfold bind. by intros ->. Qed.

Lemma bind_Err {A B} (m : M S A) (f : A → M S B) s e s' :
  m s = Err e s' → (x <- m ;; f x) s = Err e s'.
Proof. unfold bind. by intros ->. Qed.

Lemma bind_Crash {A B} (m : M S A) (f : A → M S B) s c s' :
  m s = Crash c s' → (x <- m ;; f x) s = Crash c s'.
Proof. unfold bind. by intros ->. Qed.

Lemma bind_OutOfFuel {A B} (m : M S A) (f : A → M S B) s :
  m s = OutOfFuel → (x <- m ;; f x) s = OutOfFuel.
Proof. unfold bind. by intros ->. Qed.

Lemma bind_ret_l {A B} (a : A) (f : A → M S B) s : (x <- ret a ;; f x) s = f a s.
Proof. done. Qed.

Lemma bind_ret_r {A} (m : M S A) s : (x <- m ;; ret x) s = m s.
Proof. unfold bind, ret. by destruct (m s). Qed.

Lemma bind_assoc {A B C} (m : M S A) (f : A → M S B) (g : B → M S C) s :
  (y <- (x <- m ;; f x) ;; g y) s = (x <- m ;; y <- f x ;; g y) s.
Proof. unfold bind. by destruct (m s). Qed.

(** The first three steps of a sequence, taken together. *)
Lemma bind_Ok_head {A B C D} (m : M S A) (f : A → M S B) (g : A → M S C)
    (k : M S D) s c s' :
  (x <- m ;; f x ;; g x) s = Ok c s' → (x <- m ;; f x ;; g x ;; k) s = k s'.
Proof.
  unfold bind. destruct (m s) as [a s1| | |]; [|done..].
  destruct (f a s1) as [b s2| | |]; [|done..]. by intros ->.
Qed.

(** What a successful bind is made of. *)
Lemma bind_Ok_inv {A B} (m : M S A) (f : A → M S B) s b s'' :
  (x <- m ;; f x) s = Ok b s'' → ∃ a s', m s = Ok a s' ∧ f a s' = Ok b s''.
Proof. unfold bind. destruct (m s) eqn:E; naive_solver. Qed.

Lemma try_Ok {A} (m : M S A) s a s' : m s = Ok a s' → try m s = Ok (inr a) s'.
Proof. unfold try. by intros ->. Qed.

Lemma try_Err {A} (m : M S A) s e s' : m s = Err e s' → try m s = Ok (inl e) s'.
Proof. unfold try. by intros ->. Qed.

Lemma wrap_Ok {A} w (m : M S A) s a s' : m s = Ok a s' → wrap w m s = Ok a s'.
Proof. unfold wrap. by intros ->. Qed.

Lemma wrap_Err {A} w (m : M S A) s e s' : m s = Err e s' → wrap w m s = Err (w e) s'.
Proof. unfold wrap. by intros ->. Qed.

Lemma wrap_Crash {A} w (m : M S A) s c s' : m s = Crash c s' → wrap w m s = Crash c s'.
Proof. unfold wrap. by intros ->. Qed.

Lemma ignore_err_Ok {A} (m : M S A) s a s' : m s = Ok a s' → ignore_err m s = Ok tt s'.
Proof. unfold ignore_err. by intros ->. Qed.

(** Wrapping keeps the root cause and what [errors.Is] sees. *)
Lemma zoom_Ok {T A} (proj : S → T) upd (m : M T A) s a t :
  m (proj s) = Ok a t → zoom proj upd m s = Ok a (upd t s).
Proof. unfold zoom. by intros ->. Qed.

Lemma zoom_Err {T A} (proj : S → T) upd (m : M T A) s e t :
  m (proj s) = Err e t → zoom proj upd m s = Err e (upd t s).
Proof. unfold zoom. by intros ->. Qed.

Lemma zoom_Crash {T A} (proj : S → T) upd (m : M T A) s c t :
  m (proj s) = Crash c t → zoom proj upd m s = Crash c (upd t s).
Proof. unfold zoom. by intros ->. Qed.

Lemma errors_Is_Errorf fmt args e t : errors_Is (Errorf fmt args e) t = errors_Is e t.
Proof. done. Qed.

Lemma errors_Is_root_cause e t : errors_Is e t = errors_Is (root_cause e) t.
Proof. induction e; simpl; auto. Qed.

End monad.

(** [go_ok H]: step through a bind whose first computation is known by [H]
    to succeed; [go_err H]: to fail. *)
Ltac go_ok H := rewrite (bind_Ok _ _ _ _ _ H).
Ltac go_err H := rewrite (bind_Err _ _ _ _ _ H).

(** *** The loop *)

Section loop.
Context {S : Type}.
Implicit Types (s : S) (e : error).

Lemma for_each_app {A} (f : A → M S unit) l1 l2 s :
  for_each f (l1 ++ l2) s = (for_each f l1 ;; for_each f l2) s.
Proof.
  revert s. induction l1 as [|x l1 IH]; intros s; simpl; [done|].
  unfold bind in *. destruct (f x s); auto.
Qed.

(** The loop runs every element when each step succeeds: [step] is the state
    transformer of one iteration. *)
Lemma for_each_Ok {A} (f : A → M S unit) (step : A → S → S) (I : S → Prop) l s :
  I s →
  (∀ x s, x ∈ l → I s → f x s = Ok tt (step x s) ∧ I (step x s)) →
  for_each f l s = Ok tt (foldl (flip step) s l) ∧ I (foldl (flip step) s l).
Proof.
  revert s. induction l as [|x l IH]; intros s Hs Hf; simpl; [done|].
  destruct (Hf x s) as [Hx HI]; [by left|done|].
  rewrite (bind_Ok _ _ _ _ _ Hx). apply IH; [done|].
  intros y s' Hy. apply Hf. by right.
Qed.

(** The loop under an invariant indexed by the elements already processed. *)
Lemma for_each_inv {A} (f : A → M S unit) (I : list A → S → Prop) l s :
  I [] s →
  (∀ done x s, I done s → done ++ [x] `prefix_of` l →
     ∃ s', f x s = Ok tt s' ∧ I (done ++ [x]) s') →
  ∃ s', for_each f l s = Ok tt s' ∧ I l s'.
Proof.
  intros H0 Hstep.
  cut (∀ rest done s, done ++ rest = l → I done s →
         ∃ s', for_each f rest s = Ok tt s' ∧ I l s').
  { intros Hcut. by apply (Hcut l []). }
  clear s H0. induction rest as [|x rest IH]; intros done s Hl HI; simpl.
  - exists s. split; [done|]. by rewrite <-Hl, app_nil_r.
  - destruct (Hstep done x s HI) as (s' & Hx & HI').
    { exists rest. by rewrite <-app_assoc. }
    go_ok Hx. apply (IH (done ++ [x])); [by rewrite <-app_assoc|done].
Qed.

(** Fail-fast: the first failing element ends the loop in the state that
    element left; the elements after it are never run. *)
Lemma for_each_Err {A} (f : A → M S unit) l1 x l2 s s1 e s2 :
  for_each f l1 s = Ok tt s1 → f x s1 = Err e s2 →
  for_each f (l1 ++ x :: l2) s = Err e s2.
Proof.
  intros H1 Hx. rewrite for_each_app, (bind_Ok _ _ _ _ _ H1). simpl.
  by rewrite (bind_Err _ _ _ _ _ Hx).
Qed.

Lemma for_each_Crash {A} (f : A → M S unit) l1 x l2 s s1 c s2 :
  for_each f l1 s = Ok tt s1 → f x s1 = Crash c s2 →
  for_each f (l1 ++ x :: l2) s = Crash c s2.
Proof.
  intros H1 Hx. rewrite for_each_app, (bind_Ok _ _ _ _ _ H1). simpl.
  by rewrite (bind_Crash _ _ _ _ _ Hx).
Qed.

(** A loop whose steps all return, returns. *)
Lemma for_each_returns {A} (f : A → M S unit) l s :
  (∀ x s, x ∈ l → returns (f x s)) → returns (for_each f l s).
Proof.
  revert s. induction l as [|x l IH]; intros s Hf; simpl; [done|].
  unfold bind. pose proof (Hf x s (list_elem_of_here _ _)) as Hx.
  destruct (f x s) eqn:E; try done. apply IH. intros y s' Hy. apply Hf. by right.
Qed.

End loop.

(** ** Postconditions on every path

    [post o Q E C]: the outcome [o] is a return that satisfies [Q], an error
    that satisfies [E] or a crash that satisfies [C]; it is not [OutOfFuel].
    The rules below compute the postcondition of a computation from those of
    its parts. *)

Definition post {S A} (o : Outcome S A)
    (Q : A → S → Prop) (E : error → S → Prop) (C : crash → S → Prop) : Prop :=
  match o with
  | Ok a s => Q a s
  | Err e s => E e s
  | Crash c s => C c s
  | OutOfFuel => False
  end.

Section post.
Context {S : Type}.
Implicit Types (s : S) (E : error → S → Prop) (C : crash → S → Prop).

Lemma post_returns {A} (o : Outcome S A) Q E C : post o Q E C → returns o.
Proof. by destruct o. Qed.

Lemma post_mono {A} (o : Outcome S A) (Q Q' : A → S → Prop) E E' C C' :
  post o Q E C →
  (∀ a s, Q a s → Q' a s) → (∀ e s, E e s → E' e s) → (∀ c s, C c s → C' c s) →
  post o Q' E' C'.
Proof. destruct o; simpl; auto. Qed.

Lemma post_ret {A} (a : A) s (Q : A → S → Prop) E C : Q a s → post (ret a s) Q E C.
Proof. done. Qed.

Lemma post_throw {A} e s (Q : A → S → Prop) E C : E e s → post (throw e s) Q E C.
Proof. done. Qed.

Lemma post_bind {A B} (m : M S A) (f : A → M S B) s (Q : B → S → Prop) E C :
  post (m s) (λ a s', post (f a s') Q E C) E C → post ((x <- m ;; f x) s) Q E C.
Proof. unfold bind. by destruct (m s). Qed.

(** Two postconditions of the same outcome. *)
Lemma post_and {A} (o : Outcome S A) (Q Q' : A → S → Prop) E E' C C' :
  post o Q E C → post o Q' E' C' →
  post o (λ a s, Q a s ∧ Q' a s) (λ e s, E e s ∧ E' e s) (λ c s, C c s ∧ C' c s).
Proof. by destruct o. Qed.

(** The rule of sequence: an intermediate condition [R]. *)
Lemma post_seq {A B} (m : M S A) (f : A → M S B) s (R : A → S → Prop)
    (Q : B → S → Prop) E C :
  post (m s) R E C → (∀ a s', R a s' → post (f a s') Q E C) →
  post ((x <- m ;; f x) s) Q E C.
Proof. intros Hm Hf. apply post_bind. eapply post_mono; eauto. Qed.

Lemma post_try {A} (m : M S A) s (Q : error + A → S → Prop) E C :
  post (m s) (λ a, Q (inr a)) (λ e, Q (inl e)) C → post (try m s) Q E C.
Proof. unfold try. by destruct (m s). Qed.

Lemma post_wrap {A} w (m : M S A) s (Q : A → S → Prop) E C :
  post (m s) Q (λ e, E (w e)) C → post (wrap w m s) Q E C.
Proof. unfold wrap. by destruct (m s). Qed.

Lemma post_ignore_err {A} (m : M S A) s (Q : unit → S → Prop) E C :
  post (m s) (λ _, Q tt) (λ _, Q tt) C → post (ignore_err m s) Q E C.
Proof. unfold ignore_err. by destruct (m s). Qed.

Lemma post_zoom {T A} (proj : S → T) (upd : T → S → S) (m : M T A) s
    (Q : A → S → Prop) E C :
  post (m (proj s)) (λ a t, Q a (upd t s)) (λ e t, E e (upd t s)) (λ c t, C c (upd t s)) →
  post (zoom proj upd m s) Q E C.
Proof. unfold zoom. by destruct (m (proj s)). Qed.

Lemma post_of_result {A} (r : error + A) s (Q : A → S → Prop) E C :
  (∀ a, r = inr a → Q a s) → (∀ e, r = inl e → E e s) → post (of_result r s) Q E C.
Proof. destruct r; simpl; auto. Qed.

(** A conditional step. *)
Lemma post_when (b : bool) (m : M S unit) s (Q : unit → S → Prop) E C :
  (b = true → post (m s) Q E C) → (b = false → Q tt s) →
  post ((if b then m else ret tt) s) Q E C.
Proof. destruct b; [auto|]. intros _ H. by apply H. Qed.

(** The loop: an invariant that every step keeps holds at the end; an error
    or a crash of a step is that of the loop. *)
Lemma post_for_each {A} (f : A → M S unit) l s (I : S → Prop) E C :
  I s →
  (∀ x s, x ∈ l → I s → post (f x s) (λ _, I) E C) →
  post (for_each f l s) (λ _, I) E C.
Proof.
  revert s. induction l as [|x l IH]; intros s Hs Hf; simpl; [done|].
  apply post_bind. eapply post_mono; [apply Hf; [by left|done]| |done|done].
  intros ? s' Hs'. apply IH; [done|]. intros y s'' Hy. apply Hf. by right.
Qed.

(** The loop under an invariant indexed by the elements already processed. *)
Lemma post_for_each_inv {A} (f : A → M S unit) l s (I : list A → S → Prop) E C :
  I [] s →
  (∀ done x s, done ++ [x] `prefix_of` l → I done s →
     post (f x s) (λ _, I (done ++ [x])) E C) →
  post (for_each f l s) (λ _, I l) E C.
Proof.
  intros H0 Hstep.
  cut (∀ rest done s, done ++ rest = l → I done s →
         post (for_each f rest s) (λ _, I l) E C).
  { intros Hcut. by apply (Hcut l []). }
  clear s H0. induction rest as [|x rest IH]; intros done s Hl HI; simpl.
  - by rewrite <-Hl, app_nil_r.
  - eapply post_seq; [apply (Hstep done); [|done]|].
    + exists rest. by rewrite <-app_assoc.
    + intros ? s' HI'. apply (IH (done ++ [x])); [by rewrite <-app_assoc|done].
Qed.

(** ** Outcomes seen through a function of the state *)

Definition omap_state {T A} (f : S → T) (o : Outcome S A) : Outcome T A :=
  match o with
  | Ok a s => Ok a (f s)
  | Err e s => Err e (f s)
  | Crash c s => Crash c (f s)
  | OutOfFuel => OutOfFuel
  end.

Lemma post_omap_state {T A} (f : S → T) (o : Outcome S A)
    (Q : A → T → Prop) (E : error → T → Prop) (C : crash → T → Prop) :
  post (omap_state f o) Q E C
  ↔ post o (λ a s, Q a (f s)) (λ e s, E e (f s)) (λ c s, C c (f s)).
Proof. by destruct o. Qed.

End post.

(** ** What a computation returns, when it returns

    [partial o Q E]: a result of [o] satisfies [Q] and an error of [o]
    satisfies [E]; nothing is said of the state, of a crash, or of a run
    that was given too little fuel. *)

Definition partial {S A} (o : Outcome S A) (Q : A → Prop) (E : error → Prop) : Prop :=
  match o with
  | Ok a _ => Q a
  | Err e _ => E e
  | _ => True
  end.

Section partial.
Context {S : Type}.
Implicit Types (s : S) (E : error → Prop).

Lemma partial_mono {A} (o : Outcome S A) (Q Q' : A → Prop) E E' :
  partial o Q E → (∀ a, Q a → Q' a) → (∀ e, E e → E' e) → partial o Q' E'.
Proof. destruct o; simpl; auto. Qed.

Lemma partial_True {A} (o : Outcome S A) : partial o (λ _, True) (λ _, True).
Proof. by destruct o. Qed.

Lemma partial_of_post {A} (o : Outcome S A) (Q' : A → S → Prop)
    (E' : error → S → Prop) (C : crash → S → Prop) (Q : A → Prop) E :
  post o Q' E' C → (∀ a s, Q' a s → Q a) → (∀ e s, E' e s → E e) → partial o Q E.
Proof. destruct o; simpl; eauto. Qed.

Lemma partial_ret {A} (a : A) s (Q : A → Prop) E : Q a → partial (ret a s) Q E.
Proof. done. Qed.

Lemma partial_throw {A} e s (Q : A → Prop) E : E e → partial (throw e s) Q E.
Proof. done. Qed.

Lemma partial_bind {A B} (m : M S A) (f : A → M S B) s (R : A → Prop)
    (Q : B → Prop) E :
  partial (m s) R E → (∀ a s', R a → partial (f a s') Q E) →
  partial ((x <- m ;; f x) s) Q E.
Proof. unfold bind. destruct (m s); simpl; auto. Qed.

Lemma partial_try {A} (m : M S A) s (Q : error + A → Prop) E :
  partial (m s) (λ a, Q (inr a)) (λ e, Q (inl e)) → partial (try m s) Q E.
Proof. unfold try. by destruct (m s). Qed.

(** The error a caller got as a value satisfies [E]. *)
Definition failed {A} (E : error → Prop) (r : error + A) : Prop :=
  match r with
  | inl e => E e
  | inr _ => True
  end.

Lemma partial_try_failed {A} (m : M S A) s E E' :
  partial (m s) (λ _, True) E → partial (try m s) (failed E) E'.
Proof. unfold try. by destruct (m s). Qed.

Lemma partial_try_True {A} (m : M S A) s E : partial (try m s) (λ _, True) E.
Proof. unfold try. by destruct (m s). Qed.

(** The wrapper is around whatever error the call returned. *)
Lemma partial_wrap {A} w (m : M S A) s (Q : A → Prop) E :
  partial (m s) Q (λ e, E (w e)) → partial (wrap w m s) Q E.
Proof. unfold wrap. by destruct (m s). Qed.

Lemma partial_wrapped {A} w (m : M S A) s E :
  (∀ e, E (w e)) → partial (wrap w m s) (λ _, True) E.
Proof. intros H. unfold wrap. destruct (m s); simpl; auto. Qed.

Lemma partial_ignore_err {A} (m : M S A) s (Q : unit → Prop) E :
  Q tt → partial (ignore_err m s) Q E.
Proof. unfold ignore_err. by destruct (m s). Qed.

Lemma partial_zoom {T A} (proj : S → T) (upd : T → S → S) (m : M T A) s
    (Q : A → Prop) E :
  partial (m (proj s)) Q E → partial (zoom proj upd m s) Q E.
Proof. unfold zoom. by destruct (m (proj s)). Qed.

(** An error of the loop is an error of one of its steps. *)
Lemma partial_for_each {A} (f : A → M S unit) l s E :
  (∀ x s, x ∈ l → partial (f x s) (λ _, True) E) →
  partial (for_each f l s) (λ _, True) E.
Proof.
  revert s. induction l as [|x l IH]; intros s Hf; simpl; [done|].
  eapply partial_bind; [apply Hf; by left|]. intros _ s' _. apply IH.
  intros y s'' Hy. apply Hf. by right.
Qed.

End partial.

#[export] Hint Resolve post_ret post_throw : reg.
#[export] Hint Rewrite @errors_Is_Errorf : reg.

(** ** Two runs side by side

    [rel o1 o2 Q E C]: the outcomes of two runs are of the same kind; two
    results with their states are related by [Q]; two error returns carry
    the same error [e] and their states are related by [E e]; two ends of
    the process have the same cause [c] and their states are related by
    [C c].  The rules follow the structure of the code, as those of [post]
    do. *)

Definition rel {S1 S2 A1 A2} (o1 : Outcome S1 A1) (o2 : Outcome S2 A2)
    (Q : A1 → S1 → A2 → S2 → Prop) (E : error → S1 → S2 → Prop)
    (C : crash → S1 → S2 → Prop) : Prop :=
  match o1, o2 with
  | Ok a1 s1, Ok a2 s2 => Q a1 s1 a2 s2
  | Err e1 s1, Err e2 s2 => e1 = e2 ∧ E e1 s1 s2
  | Crash c1 s1, Crash c2 s2 => c1 = c2 ∧ C c1 s1 s2
  | OutOfFuel, OutOfFuel => True
  | _, _ => False
  end.

Section rel.
Context {S1 S2 : Type}.
Implicit Types (E : error → S1 → S2 → Prop) (C : crash → S1 → S2 → Prop).

Lemma rel_mono {A1 A2} (o1 : Outcome S1 A1) (o2 : Outcome S2 A2)
    (Q Q' : A1 → S1 → A2 → S2 → Prop) E E' C C' :
  rel o1 o2 Q E C →
  (∀ a1 s1 a2 s2, Q a1 s1 a2 s2 → Q' a1 s1 a2 s2) →
  (∀ e s1 s2, E e s1 s2 → E' e s1 s2) → (∀ c s1 s2, C c s1 s2 → C' c s1 s2) →
  rel o1 o2 Q' E' C'.
Proof. destruct o1, o2; simpl; try done; [auto|intros []; auto..]. Qed.

Lemma rel_ret {A1 A2} (a1 : A1) (a2 : A2) s1 s2 (Q : A1 → S1 → A2 → S2 → Prop) E C :
  Q a1 s1 a2 s2 → rel (ret a1 s1) (ret a2 s2) Q E C.
Proof. done. Qed.

Lemma rel_throw {A1 A2} e s1 s2 (Q : A1 → S1 → A2 → S2 → Prop) E C :
  E e s1 s2 → rel (throw e s1) (throw e s2) Q E C.
Proof. done. Qed.

Lemma rel_crash {A1 A2} c s1 s2 (Q : A1 → S1 → A2 → S2 → Prop) E C :
  C c s1 s2 → rel (Crash c s1) (Crash c s2) Q E C.
Proof. done. Qed.

Lemma rel_bind {A1 A2 B1 B2} (m1 : M S1 A1) (m2 : M S2 A2) (f1 : A1 → M S1 B1)
    (f2 : A2 → M S2 B2) s1 s2 (R : A1 → S1 → A2 → S2 → Prop)
    (Q : B1 → S1 → B2 → S2 → Prop) E C :
  rel (m1 s1) (m2 s2) R E C →
  (∀ a1 s1' a2 s2', R a1 s1' a2 s2' → rel (f1 a1 s1') (f2 a2 s2') Q E C) →
  rel ((x <- m1 ;; f1 x) s1) ((x <- m2 ;; f2 x) s2) Q E C.
Proof. unfold bind. destruct (m1 s1), (m2 s2); simpl; auto; done. Qed.

Lemma rel_try {A1 A2} (m1 : M S1 A1) (m2 : M S2 A2) s1 s2
    (Q : error + A1 → S1 → error + A2 → S2 → Prop) E C :
  rel (m1 s1) (m2 s2) (λ a1 s1' a2 s2', Q (inr a1) s1' (inr a2) s2')
      (λ e s1' s2', Q (inl e) s1' (inl e) s2') C →
  rel (try m1 s1) (try m2 s2) Q E C.
Proof. unfold try. destruct (m1 s1), (m2 s2); simpl; try done. by intros [-> ?]. Qed.

Lemma rel_wrap {A1 A2} w (m1 : M S1 A1) (m2 : M S2 A2) s1 s2
    (Q : A1 → S1 → A2 → S2 → Prop) E C :
  rel (m1 s1) (m2 s2) Q (λ e, E (w e)) C → rel (wrap w m1 s1) (wrap w m2 s2) Q E C.
Proof. unfold wrap. destruct (m1 s1), (m2 s2); simpl; try done. by intros [-> ?]. Qed.

Lemma rel_zoom {T1 T2 A1 A2} (p1 : S1 → T1) u1 (p2 : S2 → T2) u2
    (m1 : M T1 A1) (m2 : M T2 A2) s1 s2 (Q : A1 → S1 → A2 → S2 → Prop) E C :
  rel (m1 (p1 s1)) (m2 (p2 s2)) (λ a1 t1 a2 t2, Q a1 (u1 t1 s1) a2 (u2 t2 s2))
      (λ e t1 t2, E e (u1 t1 s1) (u2 t2 s2)) (λ c t1 t2, C c (u1 t1 s1) (u2 t2 s2)) →
  rel (zoom p1 u1 m1 s1) (zoom p2 u2 m2 s2) Q E C.
Proof. unfold zoom. by destruct (m1 (p1 s1)), (m2 (p2 s2)). Qed.

(** The loop over the same list on both sides, with an invariant that
    relates the two states. *)
Lemma rel_for_each {A} (f1 : A → M S1 unit) (f2 : A → M S2 unit) l s1 s2
    (J : S1 → S2 → Prop) E C :
  J s1 s2 →
  (∀ x s1 s2, x ∈ l → J s1 s2 → rel (f1 x s1) (f2 x s2) (λ _ s1' _ s2', J s1' s2') E C) →
  rel (for_each f1 l s1) (for_each f2 l s2) (λ _ s1' _ s2', J s1' s2') E C.
Proof.
  revert s1 s2. induction l as [|x l IH]; intros s1 s2 HJ Hf; [done|]. simpl.
  eapply rel_bind; [apply Hf; [by left|done]|]. intros ? s1' ? s2' HJ'. cbv beta in HJ'.
  apply IH; [done|]. intros y ????. apply Hf; [by right|done].
Qed.

End rel.
