(* ===== verification/Registry.v ===== *)
(** * The namespace adapter: the registry operations main.go calls

    The package golang.org/x/sys/windows/registry is not part of the
    repository; its operations are modelled from their documented behaviour.

    - A key is named by its absolute path below [HKEY_CURRENT_USER], a list
      of segments.  The store maps the path of every existing key to the
      values of that key.
    - A [Key] is a handle: the zero handle, the predefined root, or a handle
      the process opened.  The table [handles] maps open handles to the path
      they were opened on; a path given to an operation is relative to a
      handle.
    - [refused] is the set of (access, path) pairs the store rejects with
      [ERROR_ACCESS_DENIED]; it never changes.

    [reg_wf] is the invariant of the store; every operation preserves it.

    The program calls the package through the interface [RegOps]: a class of
    the seven operations on a state [S].  The module [Store] holds their
    model on [Registry], and [Registry_ops] makes it the implementation the
    theorems of the sequential program are about; [Race] gives a second
    implementation, in which other processes change the store between the
    calls. *)

From stdpp Require Import gmap strings list.
From S2P Require Import Prelude GoStrings GoErrors.

(** ** State *)

Abbreviation keypath := (list string).

Inductive RegValue :=
| REG_SZ (s : string)
| REG_EXPAND_SZ (s : string).

#[export] Instance RegValue_eq_dec : EqDecision RegValue.
Proof. solve_decision. Defined.

Abbreviation values := (gmap string RegValue).

(** [registry.Key]: a handle. *)
Inductive Key :=
| emptyKey
| CURRENT_USER
| Opened (h : nat).

#[export] Instance Key_eq_dec : EqDecision Key.
Proof. solve_decision. Defined.

(** What an operation asks of a key. *)
Inductive Access := AOpen | ACreate | ASetValue | AEnum | ADelete.

#[export] Instance Access_eq_dec : EqDecision Access.
Proof. solve_decision. Defined.

Definition Access_to_nat (a : Access) : nat :=
  match a with AOpen => 0 | ACreate => 1 | ASetValue => 2 | AEnum => 3 | ADelete => 4 end.

Definition Access_of_nat (n : nat) : option Access :=
  match n with
  | 0 => Some AOpen | 1 => Some ACreate | 2 => Some ASetValue
  | 3 => Some AEnum | 4 => Some ADelete | _ => None
  end.

#[export] Instance Access_countable : Countable Access.
Proof.
  apply (inj_countable Access_to_nat Access_of_nat). by intros [].
Defined.

Record Registry := mkRegistry {
  keys : gmap keypath values;
  refused : gset (Access * keypath);
  handles : gmap nat keypath;
  next_handle : nat;
}.

Definition set_keys (ks : gmap keypath values) (r : Registry) : Registry :=
  mkRegistry ks (refused r) (handles r) (next_handle r).

Definition key_exists (p : keypath) (r : Registry) : Prop := p ∈ dom (keys r).

(** ** Helpers *)

(** The path a handle stands for. *)
Definition resolve (k : Key) (r : Registry) : option keypath :=
  match k with
  | emptyKey => None
  | CURRENT_USER => Some []
  | Opened h => handles r !! h
  end.

(** The path of a handle whose key still exists, or the error every
    operation returns otherwise. *)
Definition resolve_live (k : Key) (r : Registry) : Errno + keypath :=
  match resolve k r with
  | None => inl ERROR_INVALID_HANDLE
  | Some p => if decide (p ∈ dom (keys r)) then inr p else inl ERROR_KEY_DELETED
  end.

(** The name of [q] as a direct subkey of [p]. *)
Definition child_name (p q : keypath) : option string :=
  match strip_pre p q with
  | Some [c] => Some c
  | _ => None
  end.

(** The names of the direct subkeys of [p]. *)
Definition subkey_names (p : keypath) (ks : gmap keypath values) : list string :=
  omap (child_name p) (elements (dom ks)).

(** The keys [CreateKey] makes for a target: every prefix, with no values. *)
Definition fresh_keys (target : keypath) : gmap keypath values :=
  list_to_map ((λ q, (q, ∅)) <$> prefixes target).

(** A new handle on [p]. *)
Definition alloc_handle (p : keypath) : M Registry Key :=
  λ r, Ok (Opened (next_handle r))
          (mkRegistry (keys r) (refused r)
                      (<[next_handle r := p]> (handles r)) (S (next_handle r))).

Definition errno {A} (e : Errno) : M Registry A := throw (Errno_error e).

(** Set one value of the key behind a handle. *)
Definition set_value (k : Key) (name : string) (v : RegValue) : M Registry unit :=
  λ r, match resolve_live k r with
       | inl e => errno e r
       | inr p =>
           if decide ((ASetValue, p) ∈ refused r)
           then errno ERROR_ACCESS_DENIED r
           else Ok tt (set_keys (alter (insert name v) p (keys r)) r)
       end.

(** ** Operations

    [Store] holds the operations of the model; [RegOps] is the interface the
    program calls them through, and [Registry_ops] the instance that makes
    the model an implementation of it. *)

Module Store.


(** [registry.OpenKey(k, path, ALL_ACCESS)]. *)
Definition OpenKey (k : Key) (sub : string) : M Registry Key :=
  λ r, match resolve_live k r with
       | inl e => errno e r
       | inr base =>
           let target := base ++ split_path sub in
           if decide (target ∈ dom (keys r)) then
             if decide ((AOpen, target) ∈ refused r)
             then errno ERROR_ACCESS_DENIED r
             else alloc_handle target r
           else errno ENOENT r
       end.

(** [registry.CreateKey(k, path, ALL_ACCESS)]: opens the key, creating it
    and every missing key on the way; the boolean says whether the key
    existed. *)
Definition CreateKey (k : Key) (sub : string) : M Registry (Key * bool) :=
  λ r, match resolve_live k r with
       | inl e => errno e r
       | inr base =>
           let target := base ++ split_path sub in
           if decide ((ACreate, target) ∈ refused r)
           then errno ERROR_ACCESS_DENIED r
           else
             let existed := bool_decide (target ∈ dom (keys r)) in
             (h <- alloc_handle target ;; ret (h, existed))
               (set_keys (keys r ∪ fresh_keys target) r)
       end.

(** [k.SetStringValue(name, value)]. *)
Definition SetStringValue (k : Key) (name value : string) : M Registry unit :=
  set_value k name (REG_SZ value).

(** [k.SetExpandStringValue(name, value)]. *)
Definition SetExpandStringValue (k : Key) (name value : string) : M Registry unit :=
  set_value k name (REG_EXPAND_SZ value).

(** [k.ReadSubKeyNames(0)]: the names of all direct subkeys. *)
Definition ReadSubKeyNames (k : Key) : M Registry (list string) :=
  λ r, match resolve_live k r with
       | inl e => errno e r
       | inr p =>
           if decide ((AEnum, p) ∈ refused r)
           then errno ERROR_ACCESS_DENIED r
           else Ok (subkey_names p (keys r)) r
       end.

(** [registry.DeleteKey(k, path)]: removes a key that has no subkeys; the
    root cannot be removed. *)
Definition DeleteKey (k : Key) (sub : string) : M Registry unit :=
  λ r, match resolve_live k r with
       | inl e => errno e r
       | inr base =>
           let target := base ++ split_path sub in
           if decide (target ∈ dom (keys r)) then
             if decide ((ADelete, target) ∈ refused r ∨ target = []
                        ∨ subkey_names target (keys r) ≠ [])
             then errno ERROR_ACCESS_DENIED r
             else Ok tt (set_keys (delete target (keys r)) r)
           else errno ENOENT r
       end.

(** [k.Close()]. *)
Definition CloseKey (k : Key) : M Registry unit :=
  λ r, match k with
       | Opened h =>
           if decide (h ∈ dom (handles r))
           then Ok tt (mkRegistry (keys r) (refused r) (delete h (handles r))
                                  (next_handle r))
           else errno ERROR_INVALID_HANDLE r
       | CURRENT_USER => Ok tt r
       | emptyKey => errno ERROR_INVALID_HANDLE r
       end.

End Store.

(** The operations of the package the program calls, on a state [S]. *)
Class RegOps (S : Type) := {
  OpenKey : Key → string → M S Key;
  CreateKey : Key → string → M S (Key * bool);
  SetStringValue : Key → string → string → M S unit;
  SetExpandStringValue : Key → string → string → M S unit;
  ReadSubKeyNames : Key → M S (list string);
  DeleteKey : Key → string → M S unit;
  CloseKey : Key → M S unit;
}.
Global Hint Mode RegOps ! : typeclass_instances.

#[export] Instance Registry_ops : RegOps Registry := {
  OpenKey := Store.OpenKey;
  CreateKey := Store.CreateKey;
  SetStringValue := Store.SetStringValue;
  SetExpandStringValue := Store.SetExpandStringValue;
  ReadSubKeyNames := Store.ReadSubKeyNames;
  DeleteKey := Store.DeleteKey;
  CloseKey := Store.CloseKey;
}.

(** ** The invariant *)

Record reg_wf (r : Registry) : Prop := {
  wf_root : [] ∈ dom (keys r);
  wf_parent : ∀ p c, p ++ [c] ∈ dom (keys r) → p ∈ dom (keys r);
  wf_segs : ∀ p, p ∈ dom (keys r) → Forall valid_seg p;
  wf_handles : ∀ h p, handles r !! h = Some p → h < next_handle r;
}.

(** A store with only the root, no refusals and no open handle. *)
Definition empty_registry : Registry :=
  mkRegistry {[ [] := ∅ ]} ∅ ∅ 0.

(** ** Lemmas on the helpers *)

Section helpers.
Implicit Types (p q target : keypath) (ks : gmap keypath values) (r : Registry).

Lemma child_name_Some p q c : child_name p q = Some c ↔ q = p ++ [c].
Proof.
  unfold child_name. destruct (strip_pre p q) as [[|c' [|??]]|] eqn:E;
    try apply strip_pre_Some in E as ->.
  - split; [done|]. rewrite app_nil_r. intros H.
    apply (f_equal length) in H. rewrite length_app in H. simpl in H. lia.
  - split; [by intros [= ->]|]. by intros [= ->]%app_inv_head.
  - split; [done|]. by intros [=]%app_inv_head.
  - split; [done|]. intros ->. by rewrite strip_pre_app in E.
Qed.

(** The names [ReadSubKeyNames] returns are those of the direct subkeys. *)
Lemma elem_of_subkey_names p ks c : c ∈ subkey_names p ks ↔ p ++ [c] ∈ dom ks.
Proof.
  unfold subkey_names. rewrite list_elem_of_omap. split.
  - intros (q & Hq & ->%child_name_Some). by apply elem_of_elements in Hq.
  - intros H. exists (p ++ [c]). split; [by apply elem_of_elements|].
    by apply child_name_Some.
Qed.

(** No name is returned twice. *)
Lemma subkey_names_NoDup p ks : NoDup (subkey_names p ks).
Proof.
  apply NoDup_omap_inj; [|apply NoDup_elements].
  intros x y b Hx%child_name_Some Hy%child_name_Some. congruence.
Qed.

Lemma subkey_names_nil p ks :
  (∀ c, p ++ [c] ∉ dom ks) → subkey_names p ks = [].
Proof.
  intros H. destruct (subkey_names p ks) as [|c l] eqn:E; [done|].
  destruct (H c). apply elem_of_subkey_names. rewrite E. by left.
Qed.

Lemma lookup_fresh_keys target q :
  fresh_keys target !! q = if decide (q `prefix_of` target) then Some ∅ else None.
Proof.
  unfold fresh_keys. case_decide as Hq.
  - apply elem_of_list_to_map_1.
    + rewrite <-list_fmap_compose. simpl. rewrite list_fmap_id.
      clear. induction target as [|a t IH]; simpl; [apply NoDup_singleton|].
      constructor; [by intros (?&?&?)%list_elem_of_fmap|].
      apply NoDup_fmap; [|done]. by intros ?? [=].
    + apply list_elem_of_fmap. exists q. by rewrite elem_of_prefixes.
  - apply not_elem_of_list_to_map_1. rewrite <-list_fmap_compose. simpl.
    by rewrite list_fmap_id, elem_of_prefixes.
Qed.

(** A key exists after [CreateKey] iff it existed or is on the way to the
    target; existing keys keep their values. *)
Lemma lookup_union_fresh ks target q :
  (ks ∪ fresh_keys target) !! q =
    match ks !! q with
    | Some v => Some v
    | None => if decide (q `prefix_of` target) then Some ∅ else None
    end.
Proof.
  rewrite lookup_union, lookup_fresh_keys.
  destruct (ks !! q); [|by case_decide]. by case_decide.
Qed.

End helpers.

(** ** The invariant is closed under prefixes *)

Section wf.
Implicit Types (p q target : keypath) (r : Registry).

Lemma wf_prefix r p q : reg_wf r → q ∈ dom (keys r) → p `prefix_of` q → p ∈ dom (keys r).
Proof.
  intros Hwf Hq [t ->]. induction t as [|c t IH] using rev_ind.
  - by rewrite app_nil_r in Hq.
  - apply IH. rewrite app_assoc in Hq. by eapply wf_parent.
Qed.

(** Nothing exists below a key that does not exist. *)
Lemma wf_missing_below r p q :
  reg_wf r → p ∉ dom (keys r) → p `prefix_of` q → q ∉ dom (keys r).
Proof. intros Hwf Hp Hpq Hq. by eapply Hp, wf_prefix. Qed.

Lemma wf_child_valid r p c : reg_wf r → p ++ [c] ∈ dom (keys r) → valid_seg c.
Proof.
  intros Hwf H. apply (wf_segs _ Hwf) in H. apply Forall_app in H as [_ H].
  by inv H.
Qed.

Lemma wf_fresh_handle r : reg_wf r → handles r !! next_handle r = None.
Proof.
  intros Hwf. destruct (handles r !! next_handle r) as [p|] eqn:E; [|done].
  apply (wf_handles _ Hwf) in E. lia.
Qed.

Lemma empty_registry_wf : reg_wf empty_registry.
Proof.
  split; simpl.
  - set_solver.
  - intros p c. rewrite dom_singleton_L, elem_of_singleton.
    intros H. by destruct p.
  - intros p. rewrite dom_singleton_L, elem_of_singleton. by intros ->.
  - intros h p. by rewrite lookup_empty.
Qed.

End wf.

#[export] Hint Resolve empty_registry_wf wf_fresh_handle : reg.

(** ** What each operation returns *)

(** The state after a handle on [p] was allocated. *)
Definition with_handle (p : keypath) (r : Registry) : Registry :=
  mkRegistry (keys r) (refused r) (<[next_handle r := p]> (handles r))
             (S (next_handle r)).

(** The state after handle [h] was closed. *)
Definition without_handle (h : nat) (r : Registry) : Registry :=
  mkRegistry (keys r) (refused r) (delete h (handles r)) (next_handle r).

(** [reg_op H]: unfold an operation whose handle resolves by [H] and decide
    its guards from the hypotheses. *)
Ltac reg_unfold :=
  cbv [OpenKey CreateKey SetStringValue SetExpandStringValue ReadSubKeyNames DeleteKey
       CloseKey Registry_ops];
  unfold Store.OpenKey, Store.CreateKey, Store.SetStringValue, Store.SetExpandStringValue,
    set_value, Store.ReadSubKeyNames, Store.DeleteKey, Store.CloseKey.

(** [reg_values]: the two setters, as [set_value]. *)
Ltac reg_values :=
  unfold SetStringValue, SetExpandStringValue, Registry_ops;
  unfold Store.SetStringValue, Store.SetExpandStringValue.

Ltac reg_op H :=
  reg_unfold; unfold errno, throw;
  rewrite H; simpl;
  repeat first [rewrite decide_True by (auto; tauto)
               |rewrite decide_False by (auto; tauto)];
  try done.

Section operations.
Implicit Types (p q base target : keypath) (r : Registry) (k : Key).

Lemma resolve_live_inr k r p :
  resolve_live k r = inr p ↔ resolve k r = Some p ∧ p ∈ dom (keys r).
Proof.
  unfold resolve_live. destruct (resolve k r) as [p'|]; [|naive_solver].
  case_decide; naive_solver.
Qed.

Lemma resolve_live_root r : reg_wf r → resolve_live CURRENT_USER r = inr [].
Proof. intros Hwf. apply resolve_live_inr. split; [done|apply Hwf]. Qed.

Lemma OpenKey_Ok k sub r base :
  resolve_live k r = inr base →
  base ++ split_path sub ∈ dom (keys r) →
  (AOpen, base ++ split_path sub) ∉ refused r →
  OpenKey k sub r = Ok (Opened (next_handle r)) (with_handle (base ++ split_path sub) r).
Proof. intros H ??. by reg_op H. Qed.

Lemma OpenKey_ENOENT k sub r base :
  resolve_live k r = inr base →
  base ++ split_path sub ∉ dom (keys r) →
  OpenKey k sub r = Err (Errno_error ENOENT) r.
Proof. intros H ?. by reg_op H. Qed.

Lemma OpenKey_refused k sub r base :
  resolve_live k r = inr base →
  base ++ split_path sub ∈ dom (keys r) →
  (AOpen, base ++ split_path sub) ∈ refused r →
  OpenKey k sub r = Err (Errno_error ERROR_ACCESS_DENIED) r.
Proof. intros H ??. by reg_op H. Qed.

Lemma CreateKey_Ok k sub r base :
  resolve_live k r = inr base →
  (ACreate, base ++ split_path sub) ∉ refused r →
  CreateKey k sub r =
    Ok (Opened (next_handle r), bool_decide (base ++ split_path sub ∈ dom (keys r)))
       (with_handle (base ++ split_path sub)
          (set_keys (keys r ∪ fresh_keys (base ++ split_path sub)) r)).
Proof. intros H ?. by reg_op H. Qed.

Lemma CreateKey_refused k sub r base :
  resolve_live k r = inr base →
  (ACreate, base ++ split_path sub) ∈ refused r →
  CreateKey k sub r = Err (Errno_error ERROR_ACCESS_DENIED) r.
Proof. intros H ?. by reg_op H. Qed.

Lemma set_value_Ok k name v r p :
  resolve_live k r = inr p → (ASetValue, p) ∉ refused r →
  set_value k name v r = Ok tt (set_keys (alter (insert name v) p (keys r)) r).
Proof. intros H ?. by reg_op H. Qed.

Lemma set_value_refused k name v r p :
  resolve_live k r = inr p → (ASetValue, p) ∈ refused r →
  set_value k name v r = Err (Errno_error ERROR_ACCESS_DENIED) r.
Proof. intros H ?. by reg_op H. Qed.

Lemma ReadSubKeyNames_Ok k r p :
  resolve_live k r = inr p → (AEnum, p) ∉ refused r →
  ReadSubKeyNames k r = Ok (subkey_names p (keys r)) r.
Proof. intros H ?. by reg_op H. Qed.

Lemma ReadSubKeyNames_refused k r p :
  resolve_live k r = inr p → (AEnum, p) ∈ refused r →
  ReadSubKeyNames k r = Err (Errno_error ERROR_ACCESS_DENIED) r.
Proof. intros H ?. by reg_op H. Qed.

Lemma DeleteKey_Ok k sub r base :
  resolve_live k r = inr base →
  base ++ split_path sub ∈ dom (keys r) →
  (ADelete, base ++ split_path sub) ∉ refused r →
  base ++ split_path sub ≠ [] →
  subkey_names (base ++ split_path sub) (keys r) = [] →
  DeleteKey k sub r = Ok tt (set_keys (delete (base ++ split_path sub) (keys r)) r).
Proof.
  intros H ??? Hn. by reg_op H.
Qed.

Lemma DeleteKey_ENOENT k sub r base :
  resolve_live k r = inr base →
  base ++ split_path sub ∉ dom (keys r) →
  DeleteKey k sub r = Err (Errno_error ENOENT) r.
Proof. intros H ?. by reg_op H. Qed.

Lemma DeleteKey_refused k sub r base :
  resolve_live k r = inr base →
  base ++ split_path sub ∈ dom (keys r) →
  (ADelete, base ++ split_path sub) ∈ refused r →
  DeleteKey k sub r = Err (Errno_error ERROR_ACCESS_DENIED) r.
Proof. intros H ??. by reg_op H. Qed.

(** A key that still has subkeys is not deleted. *)
Lemma DeleteKey_nonempty k sub r base c :
  resolve_live k r = inr base →
  base ++ split_path sub ++ [c] ∈ dom (keys r) →
  base ++ split_path sub ∈ dom (keys r) →
  DeleteKey k sub r = Err (Errno_error ERROR_ACCESS_DENIED) r.
Proof.
  intros H Hc ?. reg_op H. rewrite decide_True; [done|]. right; right.
  intros Hn. rewrite app_assoc in Hc. apply elem_of_subkey_names in Hc.
  rewrite Hn in Hc. by apply elem_of_nil in Hc.
Qed.

Lemma CloseKey_Ok h r p :
  handles r !! h = Some p → CloseKey (Opened h) r = Ok tt (without_handle h r).
Proof.
  intros H. reg_unfold. rewrite decide_True; [done|]. by apply elem_of_dom.
Qed.

(** Opening and closing leaves the handle table as it was. *)
Lemma close_with_handle p r :
  reg_wf r →
  CloseKey (Opened (next_handle r)) (with_handle p r) =
    Ok tt (mkRegistry (keys r) (refused r) (handles r) (S (next_handle r))).
Proof.
  intros Hwf. erewrite CloseKey_Ok by apply lookup_insert_eq.
  unfold without_handle, with_handle; simpl.
  by rewrite delete_insert_id by by apply wf_fresh_handle.
Qed.

End operations.

(** ** Handles and the invariant *)

Section handles.
Implicit Types (p q base target : keypath) (r : Registry) (k : Key).

Lemma with_handle_wf p r : reg_wf r → reg_wf (with_handle p r).
Proof.
  intros Hwf. split; try apply Hwf. intros h q. simpl.
  rewrite lookup_insert. case_decide; [intros; lia|].
  intros Hq%(wf_handles _ Hwf). lia.
Qed.

Lemma without_handle_wf h r : reg_wf r → reg_wf (without_handle h r).
Proof.
  intros Hwf. split; try apply Hwf. intros h' q. simpl.
  intros [_ Hq]%lookup_delete_Some. by eapply wf_handles.
Qed.

(** A handle stands for the same path in two states with the same table. *)
Lemma resolve_handles_eq k r r' : handles r' = handles r → resolve k r' = resolve k r.
Proof. intros H. destruct k; simpl; [done..|by rewrite H]. Qed.

Lemma resolve_live_eq k r r' p :
  handles r' = handles r → p ∈ dom (keys r') →
  resolve_live k r = inr p → resolve_live k r' = inr p.
Proof.
  intros Hh Hp [Hk _]%resolve_live_inr. apply resolve_live_inr.
  by rewrite (resolve_handles_eq _ _ _ Hh).
Qed.

(** Handles opened earlier are not disturbed by a new one. *)
Lemma resolve_live_with_handle k r p q :
  reg_wf r → resolve_live k r = inr p → resolve_live k (with_handle q r) = inr p.
Proof.
  intros Hwf [Hk Hp]%resolve_live_inr. apply resolve_live_inr. split; [|done].
  destruct k as [| |h]; simpl in *; [done..|].
  rewrite lookup_insert_ne; [done|]. intros <-.
  rewrite wf_fresh_handle in Hk; done.
Qed.

Lemma resolve_live_new_handle r p :
  p ∈ dom (keys r) → resolve_live (Opened (next_handle r)) (with_handle p r) = inr p.
Proof.
  intros Hp. apply resolve_live_inr. split; [|done]. simpl. apply lookup_insert_eq.
Qed.

End handles.

#[export] Hint Resolve with_handle_wf without_handle_wf : reg.

(** ** The invariant is decidable *)

(** [reg_wf] with its quantifiers bounded by the finite sets of the state. *)
Definition reg_wf_fin (r : Registry) : Prop :=
  [] ∈ dom (keys r)
  ∧ set_Forall (λ q, removelast q ∈ dom (keys r)) (dom (keys r))
  ∧ set_Forall (Forall valid_seg) (dom (keys r))
  ∧ map_Forall (λ h _, h < next_handle r) (handles r).

Lemma reg_wf_fin_spec r : reg_wf_fin r ↔ reg_wf r.
Proof.
  split.
  - intros (H0 & Hp & Hs & Hh). split; [done| |done|done].
    intros p c Hpc. pose proof (Hp _ Hpc) as H. simpl in H.
    by rewrite removelast_last in H.
  - intros [H0 Hp Hs Hh]. split_and!; [done| |done|done].
    intros q Hq. simpl. destruct q as [|c q _] using rev_ind; [done|].
    rewrite removelast_last. by eapply Hp.
Qed.

#[export] Instance reg_wf_dec r : Decision (reg_wf r).
Proof.
  refine (cast_if (decide (reg_wf_fin r))); by rewrite <-reg_wf_fin_spec.
Defined.

(** ** Every outcome of an operation

    For a live handle an operation either succeeds with the state change of
    its success lemma, or fails and leaves the state as it was; it never
    crashes. *)

Definition no_crash : crash → Registry → Prop := λ _ _, False.

Section outcomes.
Implicit Types (p q base target : keypath) (r : Registry) (k : Key).

Lemma OpenKey_post k sub r base :
  resolve_live k r = inr base →
  post (OpenKey k sub r)
    (λ key r', key = Opened (next_handle r)
               ∧ r' = with_handle (base ++ split_path sub) r
               ∧ base ++ split_path sub ∈ dom (keys r))
    (λ _ r', r' = r) no_crash.
Proof.
  intros H. reg_unfold. rewrite H. simpl. repeat case_decide; simpl; auto.
Qed.

Lemma CreateKey_post k sub r base :
  resolve_live k r = inr base →
  post (CreateKey k sub r)
    (λ res r', res.1 = Opened (next_handle r)
               ∧ r' = with_handle (base ++ split_path sub)
                        (set_keys (keys r ∪ fresh_keys (base ++ split_path sub)) r))
    (λ _ r', r' = r) no_crash.
Proof.
  intros H. reg_unfold. rewrite H. simpl. repeat case_decide; simpl; auto.
Qed.

Lemma set_value_post k name v r p :
  resolve_live k r = inr p →
  post (set_value k name v r)
    (λ _ r', r' = set_keys (alter (insert name v) p (keys r)) r)
    (λ _ r', r' = r) no_crash.
Proof.
  intros H. unfold set_value. rewrite H. simpl. repeat case_decide; simpl; auto.
Qed.

Lemma ReadSubKeyNames_post k r p :
  resolve_live k r = inr p →
  post (ReadSubKeyNames k r)
    (λ names r', names = subkey_names p (keys r) ∧ r' = r)
    (λ _ r', r' = r) no_crash.
Proof.
  intros H. reg_unfold. rewrite H. simpl. repeat case_decide; simpl; auto.
Qed.

Lemma DeleteKey_post k sub r base :
  resolve_live k r = inr base →
  post (DeleteKey k sub r)
    (λ _ r', r' = set_keys (delete (base ++ split_path sub) (keys r)) r
             ∧ base ++ split_path sub ≠ []
             ∧ subkey_names (base ++ split_path sub) (keys r) = [])
    (λ _ r', r' = r) no_crash.
Proof.
  intros H. reg_unfold. rewrite H. simpl. repeat case_decide; simpl; auto.
  split_and!; [done|tauto|]. destruct (subkey_names _ _); [done|]. naive_solver.
Qed.

Lemma CloseKey_post k r :
  post (CloseKey k r)
    (λ _ r', ∃ h, k = Opened h ∧ r' = without_handle h r ∨ k = CURRENT_USER ∧ r' = r)
    (λ _ r', r' = r) no_crash.
Proof.
  destruct k as [| |h]; simpl; [done|by exists 0; right|].
  case_decide; simpl; [|done]. exists h. by left.
Qed.

End outcomes.

(** ** Operations keep the invariant *)

Section preservation.
Implicit Types (p q base target : keypath) (r : Registry) (k : Key).

Lemma set_keys_wf ks r :
  reg_wf r → [] ∈ dom ks →
  (∀ p c, p ++ [c] ∈ dom ks → p ∈ dom ks) →
  (∀ p, p ∈ dom ks → Forall valid_seg p) →
  reg_wf (set_keys ks r).
Proof. intros Hwf ???. split; try done. apply Hwf. Qed.

(** Creating a key keeps the invariant when the target's segments are valid
    names, as those of a path read by [split_path] are. *)
Lemma create_wf target r :
  reg_wf r → Forall valid_seg target →
  reg_wf (set_keys (keys r ∪ fresh_keys target) r).
Proof.
  intros Hwf Hvalid.
  assert (∀ q, q ∈ dom (keys r ∪ fresh_keys target)
               ↔ q ∈ dom (keys r) ∨ q `prefix_of` target) as Hdom.
  { intros q. rewrite !elem_of_dom, lookup_union_fresh.
    destruct (keys r !! q); [naive_solver|]. case_decide; naive_solver. }
  apply set_keys_wf; [done|..].
  - apply Hdom. left. apply Hwf.
  - intros p c. rewrite !Hdom. intros [H|H]; [left; by eapply wf_parent|].
    right. etrans; [|done]. by apply prefix_app_r.
  - intros p. rewrite Hdom. intros [H|[t ->]]; [by apply Hwf|].
    by apply Forall_app in Hvalid as [? _].
Qed.

Lemma alter_wf (f : values → values) p r :
  reg_wf r → reg_wf (set_keys (alter f p (keys r)) r).
Proof.
  intros Hwf. apply set_keys_wf; [done|..]; rewrite ?dom_alter_L; apply Hwf.
Qed.

(** Deleting a key that has no subkeys keeps the invariant. *)
Lemma delete_wf target r :
  reg_wf r → target ≠ [] → subkey_names target (keys r) = [] →
  reg_wf (set_keys (delete target (keys r)) r).
Proof.
  intros Hwf Hne Hnil. apply set_keys_wf; [done|..].
  - rewrite dom_delete_L. apply elem_of_difference. split; [apply Hwf|set_solver].
  - intros p c. rewrite !dom_delete_L, !elem_of_difference.
    intros [Hin Hn]. split; [by eapply wf_parent|]. intros ->%elem_of_singleton.
    apply elem_of_subkey_names in Hin. rewrite Hnil in Hin. by apply elem_of_nil in Hin.
  - intros p. rewrite dom_delete_L, elem_of_difference. intros [Hin _]. by apply Hwf.
Qed.

End preservation.

#[export] Hint Resolve create_wf alter_wf delete_wf : reg.

(** ** Stores up to their handles

    Two states are equivalent when they have the same keys with the same
    values and refuse the same operations.  The handle table and the
    allocation counter, which only grow during an installation, play no
    part: what a later call finds in the store does not depend on them. *)

#[export] Instance Registry_equiv : Equiv Registry :=
  λ r1 r2, keys r1 = keys r2 ∧ refused r1 = refused r2.

#[export] Instance Registry_equivalence : Equivalence (≡@{Registry}).
Proof.
  split; [by intros ?|by intros ?? [? ?]|].
  intros ??? [? ?] [? ?]. split; congruence.
Qed.

#[export] Instance keys_proper : Proper ((≡) ==> (=)) keys.
Proof. by intros ?? [? _]. Qed.

#[export] Instance refused_proper : Proper ((≡) ==> (=)) refused.
Proof. by intros ?? [_ ?]. Qed.

#[export] Instance key_exists_proper : Proper ((=) ==> (≡) ==> iff) key_exists.
Proof. intros p ? <- r1 r2 Hr. unfold key_exists. by rewrite Hr. Qed.

#[export] Instance set_keys_proper : Proper ((=) ==> (≡) ==> (≡)) set_keys.
Proof. intros ks ? <- r1 r2 [_ Hr]. by split. Qed.

(** Opening and closing handles leaves a state in its class. *)
Lemma with_handle_equiv p r : with_handle p r ≡ r.
Proof. by split. Qed.

Lemma without_handle_equiv h r : without_handle h r ≡ r.
Proof. by split. Qed.
