(* ===== verification/Eraser.v ===== *)
(** * The recursive subtree eraser: [deleteRegKeyRecursive] (main.go:243-282)

    The function opens the key at [path] below the handle [k], erases every
    subkey through the opened handle, closes the handle and deletes the key.
    A missing key is success, at the open and at the delete.  The handle is
    closed on every path: by the explicit [key.Close()] before the delete, or
    by the deferred function, which tests the local variable [key] that the
    body resets after closing.

    The recursion is on the state of the store, so the model takes fuel: one
    unit per level of the subtree.  [erase_body] is the function's text with
    the recursive call as a parameter; [deleteRegKeyRecursive] ties the knot.

    The function is defined on every implementation of the interface
    [RegOps]; the theorems of this file are about the implementation
    [Registry_ops], the store that only this process changes. *)

From stdpp Require Import gmap strings list.
From S2P Require Import Prelude GoStrings GoErrors Registry.

(** ** The function

    The function is written against the interface [RegOps]: on any state
    [St] that implements the operations of the package. *)

Section eraser.
Context {St : Type} {ops : RegOps St}.


(** main.go:248-255: the open and what its error means. *)
Definition erase_open (k : Key) (path : string) : M St (option Key) :=
  r <- try (OpenKey k path) ;;
  match r with
  | inl err =>
      if errors_Is err ENOENT then ret None
      else throw (Errorf "deleteRegKeyRecursive failed to open key path %q: %w"
                         [path] err)
  | inr key => ret (Some key)
  end.

(** main.go:265-270: the loop over the subkey names. *)
Definition erase_children (rec : Key → string → M St unit)
    (key : Key) (path : string) (subKeyNames : list string) : M St unit :=
  for_each (λ subKeyName,
      wrap (Errorf "deleteRegKeyRecursive failed to delete subkey %q of path %q: %w"
                   [subKeyName; path])
           (rec key subKeyName))
    subKeyNames.

(** main.go:273-281: the delete of the emptied key. *)
Definition erase_delete (k : Key) (path : string) : M St unit :=
  r <- try (DeleteKey k path) ;;
  match r with
  | inl err =>
      if errors_Is err ENOENT then ret tt
      else throw (Errorf "deleteRegKeyRecursive failed to delete key path %q: %w"
                         [path] err)
  | inr _ => ret tt
  end.

(** main.go:261-281, from the enumeration to the end of the function.  The
    result carries the final value of the local variable [key] for the
    deferred function. *)
Definition erase_opened (rec : Key → string → M St unit)
    (k : Key) (path : string) (key : Key) : M St (Key * (error + unit)) :=
  names <- try (ReadSubKeyNames key) ;;
  match names with
  | inl err =>
      ret (key, inl (Errorf "deleteRegKeyRecursive failed to get subkeys of path %q: %w"
                            [path] err))
  | inr subKeyNames =>
      loop <- try (erase_children rec key path subKeyNames) ;;
      match loop with
      | inl err => ret (key, inl err)
      | inr _ =>
          ignore_err (CloseKey key) ;;
          del <- try (erase_delete k path) ;;
          ret (emptyKey, del)
      end
  end.

(** main.go:256-260: the deferred function. *)
Definition erase_deferred (key : Key) : M St unit :=
  if decide (key ≠ emptyKey) then ignore_err (CloseKey key) else ret tt.

(** main.go:243-282 with the recursive call abstracted. *)
Definition erase_body (rec : Key → string → M St unit)
    (k : Key) (path : string) : M St unit :=
  opened <- erase_open k path ;;
  match opened with
  | None => ret tt
  | Some key =>
      res <- erase_opened rec k path key ;;
      erase_deferred res.1 ;;
      match res.2 with
      | inl err => throw err
      | inr _ => ret tt
      end
  end.

Fixpoint deleteRegKeyRecursive (fuel : nat) (k : Key) (path : string)
    : M St unit :=
  match fuel with
  | O => out_of_fuel
  | S fuel' => erase_body (deleteRegKeyRecursive fuel') k path
  end.

End eraser.

(** ** Specification *)

(** The store without the keys at or below [target]. *)
Definition erased (target : keypath) (ks : gmap keypath values) : gmap keypath values :=
  filter (λ kv, ¬ target `prefix_of` kv.1) ks.

(** What a successful erase of [target] makes of a state: the subtree is
    gone, nothing else changed, no handle is left open. *)
Record erase_post (target : keypath) (r r' : Registry) : Prop := {
  post_keys : keys r' = erased target (keys r);
  post_refused : refused r' = refused r;
  post_handles : handles r' = handles r;
  post_next : next_handle r ≤ next_handle r';
}.

(** The store refuses nothing the eraser asks at or below [target]. *)
Definition erasable (target : keypath) (r : Registry) : Prop :=
  ∀ q a, target `prefix_of` q → a ∈ [AOpen; AEnum; ADelete] → (a, q) ∉ refused r.

(** Every key at or below [target] is less than [fuel] levels below it. *)
Definition height_below (fuel : nat) (target : keypath) (r : Registry) : Prop :=
  ∀ q, q ∈ dom (keys r) → target `prefix_of` q → length q < length target + fuel.

(** Fuel that is enough for any target in [r]: more than the longest path. *)
Definition erase_fuel (r : Registry) : nat :=
  S (max_list (length <$> elements (dom (keys r)))).

(** ** The erased store *)

Section erased.
Implicit Types (p q target : keypath) (ks : gmap keypath values) (r : Registry).

Lemma lookup_erased target ks q :
  erased target ks !! q = if decide (target `prefix_of` q) then None else ks !! q.
Proof.
  unfold erased. case_decide as Hpre.
  - apply map_lookup_filter_None. right. intros v _. simpl. tauto.
  - destruct (ks !! q) as [v|] eqn:E.
    + by apply map_lookup_filter_Some.
    + apply map_lookup_filter_None. by left.
Qed.

Lemma elem_of_dom_erased target ks q :
  q ∈ dom (erased target ks) ↔ q ∈ dom ks ∧ ¬ target `prefix_of` q.
Proof.
  rewrite !elem_of_dom, lookup_erased. case_decide; [|tauto].
  split; [by intros []|tauto].
Qed.

(** Erasing where nothing exists changes nothing. *)
Lemma erased_missing target ks :
  (∀ q, q ∈ dom ks → ¬ target `prefix_of` q) → erased target ks = ks.
Proof.
  intros H. apply map_eq. intros q. rewrite lookup_erased.
  case_decide as Hpre; [|done]. symmetry. apply not_elem_of_dom. naive_solver.
Qed.

(** Erasing a subtree of an erased subtree changes nothing more. *)
Lemma erased_erased_below target t' ks :
  target `prefix_of` t' → erased target (erased t' ks) = erased target ks.
Proof.
  intros Hpre. apply map_eq. intros q. rewrite !lookup_erased.
  case_decide as Hn; [done|]. rewrite decide_False; [done|].
  intros H'. apply Hn. by etrans.
Qed.

Lemma erased_idemp target ks : erased target (erased target ks) = erased target ks.
Proof. by apply erased_erased_below. Qed.

(** Erasing two subtrees commutes. *)
Lemma erased_comm t1 t2 ks : erased t1 (erased t2 ks) = erased t2 (erased t1 ks).
Proof. apply map_eq. intros q. rewrite !lookup_erased. by repeat case_decide. Qed.

Lemma erase_post_refl target r :
  reg_wf r → target ∉ dom (keys r) → erase_post target r r.
Proof.
  intros Hwf Hmiss. split; [|done..]. symmetry. apply erased_missing.
  intros q Hq Hpre. by eapply Hmiss, wf_prefix.
Qed.

(** A successful erase keeps the invariant of the store. *)
Lemma erase_post_wf target r r' :
  target ≠ [] → reg_wf r → erase_post target r r' → reg_wf r'.
Proof.
  intros Hne Hwf [Hk Hr Hh Hn]. split.
  - rewrite Hk. apply elem_of_dom_erased. split; [apply Hwf|].
    by intros ->%prefix_nil_inv.
  - intros p c. rewrite Hk, !elem_of_dom_erased. intros [Hin Hpre]. split.
    + by eapply wf_parent.
    + intros Hp. apply Hpre. by apply prefix_app_r.
  - intros p. rewrite Hk, elem_of_dom_erased. intros [Hin _]. by apply Hwf.
  - intros h p. rewrite Hh. intros Hp%(wf_handles _ Hwf). lia.
Qed.

#[export] Instance erasable_proper : Proper ((=) ==> (≡) ==> iff) erasable.
Proof. intros t ? <- r1 r2 Hr. unfold erasable. by setoid_rewrite Hr. Qed.

#[export] Instance height_below_proper : Proper ((=) ==> (=) ==> (≡) ==> iff) height_below.
Proof. intros n ? <- t ? <- r1 r2 Hr. unfold height_below. by setoid_rewrite Hr. Qed.

Lemma erasable_below target t' r :
  target `prefix_of` t' → erasable target r → erasable t' r.
Proof. intros Hpre He q a Hq. apply He. by etrans. Qed.

End erased.

#[export] Hint Resolve erase_post_refl erase_post_wf : reg.

(** ** Deciding the hypotheses; enough fuel *)

Definition erasable_fin (target : keypath) (r : Registry) : Prop :=
  set_Forall (λ aq, ¬ (target `prefix_of` aq.2 ∧ aq.1 ∈ [AOpen; AEnum; ADelete]))
             (refused r).

Lemma erasable_fin_spec target r : erasable_fin target r ↔ erasable target r.
Proof.
  symmetry.
  split.
  - intros He [a q] Hin [Hq Ha]. by eapply He.
  - intros Hf q a Hq Ha Hin. by apply (Hf _ Hin).
Qed.

#[export] Instance erasable_dec target r : Decision (erasable target r).
Proof. refine (cast_if (decide (erasable_fin target r))); by rewrite <-erasable_fin_spec. Defined.

Definition height_below_fin (fuel : nat) (target : keypath) (r : Registry) : Prop :=
  set_Forall (λ q, target `prefix_of` q → length q < length target + fuel)
             (dom (keys r)).

#[export] Instance height_below_dec fuel target r : Decision (height_below fuel target r).
Proof.
  refine (cast_if (decide (height_below_fin fuel target r))); done.
Defined.

(** A store that refuses nothing lets every subtree be erased. *)
Lemma erasable_no_refusals target r : refused r = ∅ → erasable target r.
Proof. intros H q a _ _. rewrite H. set_solver. Qed.

(** [erase_fuel] is enough for every target. *)
Lemma height_below_erase_fuel target r : height_below (erase_fuel r) target r.
Proof.
  intros q Hq _. unfold erase_fuel.
  assert (length q ≤ max_list (length <$> elements (dom (keys r)))); [|lia].
  apply max_list_elem_of_le, list_elem_of_fmap. exists q.
  by rewrite elem_of_elements.
Qed.

Lemma erase_fuel_pos r : 0 < erase_fuel r.
Proof. unfold erase_fuel. lia. Qed.

(** More fuel is still enough. *)
Lemma height_below_mono fuel fuel' target r :
  fuel ≤ fuel' → height_below fuel target r → height_below fuel' target r.
Proof. intros Hle Hh q Hq Hpre. specialize (Hh q Hq Hpre). lia. Qed.

#[export] Hint Resolve height_below_erase_fuel erase_fuel_pos erasable_no_refusals : reg.

(** ** The loop over the subkeys *)

(** The specification a recursive call is assumed to meet, for [fuel] units
    of fuel: on a target the store lets it erase and that is less than
    [fuel] levels deep, it succeeds and erases exactly the target's subtree. *)
Definition erase_spec (fuel : nat) (rec : Key → string → M Registry unit) : Prop :=
  ∀ k path r base,
    reg_wf r → resolve_live k r = inr base →
    base ++ split_path path ≠ [] →
    erasable (base ++ split_path path) r →
    0 < fuel → height_below fuel (base ++ split_path path) r →
    ∃ r', rec k path r = Ok tt r' ∧ erase_post (base ++ split_path path) r r'.

(** The state [s] inside the loop, after the subkeys [done] of [target] were
    erased; [r] is the state at the call, [n] the handle opened on [target]. *)
Record children_inv (target : keypath) (n : nat) (r : Registry)
    (done : list string) (s : Registry) : Prop := {
  ci_wf : reg_wf s;
  ci_keys : ∀ q, keys s !! q =
      if decide (Exists (λ c, target ++ [c] `prefix_of` q) done) then None
      else keys r !! q;
  ci_refused : refused s = refused r;
  ci_handles : handles s = <[n := target]> (handles r);
  ci_next : n < next_handle s;
}.

Section loop.
Context (target : keypath) (r : Registry).
Context (Hwf : reg_wf r) (Htarget : target ∈ dom (keys r)).
Implicit Types (q : keypath) (s : Registry) (done : list string).

Lemma children_inv_init :
  children_inv target (next_handle r) r [] (with_handle target r).
Proof.
  split; simpl; auto with reg.
Qed.

Lemma children_inv_dom n done s q :
  children_inv target n r done s → q ∈ dom (keys s) → q ∈ dom (keys r).
Proof.
  intros Hinv. rewrite !elem_of_dom, (ci_keys _ _ _ _ _ Hinv).
  case_decide; [by intros []|done].
Qed.

(** Keys that are not below [target] are as they were at the call. *)
Lemma children_inv_outside n done s q :
  children_inv target n r done s → q `prefix_of` target → keys s !! q = keys r !! q.
Proof.
  intros Hinv Hq. rewrite (ci_keys _ _ _ _ _ Hinv), decide_False; [done|].
  intros (c & _ & Hc)%Exists_exists. eapply prefix_snoc_not. by etrans.
Qed.

Lemma children_inv_dom_outside n done s q :
  children_inv target n r done s → q `prefix_of` target →
  q ∈ dom (keys r) → q ∈ dom (keys s).
Proof.
  intros Hinv Hq. by rewrite !elem_of_dom, (children_inv_outside _ _ _ _ Hinv Hq).
Qed.

Lemma children_inv_resolve n done s :
  children_inv target n r done s → resolve_live (Opened n) s = inr target.
Proof.
  intros Hinv. apply resolve_live_inr. split.
  - simpl. rewrite (ci_handles _ _ _ _ _ Hinv). apply lookup_insert_eq.
  - apply elem_of_dom. rewrite (children_inv_outside _ _ _ _ Hinv); [|done].
    by apply elem_of_dom.
Qed.

Lemma children_inv_step n done s c s' :
  children_inv target n r done s → erase_post (target ++ [c]) s s' →
  children_inv target n r (done ++ [c]) s'.
Proof.
  intros Hinv Hpost. destruct Hpost as [Hk Hr Hh Hn]. split.
  - eapply erase_post_wf; [|apply Hinv|by split]. by destruct target.
  - intros q. rewrite Hk, lookup_erased, (ci_keys _ _ _ _ _ Hinv).
    rewrite (decide_ext (Exists _ (done ++ [c]))
               (Exists (λ c, target ++ [c] `prefix_of` q) done
                ∨ target ++ [c] `prefix_of` q)).
    2:{ rewrite Exists_app, Exists_cons, Exists_nil. tauto. }
    repeat case_decide; tauto.
  - rewrite Hr. apply Hinv.
  - rewrite Hh. apply Hinv.
  - pose proof (ci_next _ _ _ _ _ Hinv). lia.
Qed.

(** The loop erases the subkeys it visits, as long as nothing at or below
    them is refused. *)
Lemma erase_children_prefix fuel rec path done rest :
  erase_spec fuel rec → subkey_names target (keys r) = done ++ rest →
  (∀ x, x ∈ done → erasable (target ++ [x]) r) → height_below (S fuel) target r →
  ∃ s, erase_children rec (Opened (next_handle r)) path done (with_handle target r) = Ok tt s
       ∧ children_inv target (next_handle r) r done s.
Proof.
  intros Hrec Hnames He Hh. apply for_each_inv; [apply children_inv_init|].
  intros done' x s Hinv [rest' Hrest].
  assert (x ∈ done) as Hxd by (rewrite Hrest, <-app_assoc; set_solver).
  assert (target ++ [x] ∈ dom (keys r)) as Hx.
  { apply elem_of_subkey_names. rewrite Hnames. set_solver. }
  pose proof (split_path_valid x (wf_child_valid _ _ _ Hwf Hx)) as Hsplit.
  pose proof (Hh _ Hx (prefix_app_r _ _ _ (reflexivity _))) as Hlen.
  rewrite length_app in Hlen; simpl in Hlen.
  destruct (Hrec (Opened (next_handle r)) x s target) as (s' & Hs' & Hpost).
  - apply Hinv.
  - by eapply children_inv_resolve.
  - rewrite Hsplit. by destruct target.
  - rewrite Hsplit. intros q a Hq Ha. rewrite (ci_refused _ _ _ _ _ Hinv).
    by apply (He x).
  - lia.
  - rewrite Hsplit. intros q Hq Hpre. rewrite length_app; simpl.
    eapply children_inv_dom in Hq; [|done].
    assert (target `prefix_of` q) as Htq by (etrans; [|done]; by apply prefix_app_r).
    specialize (Hh q Hq Htq). lia.
  - exists s'. rewrite Hsplit in Hpost. split; [by apply wrap_Ok|].
    by eapply children_inv_step.
Qed.

(** The loop erases every subkey of the target. *)
Lemma erase_children_ok fuel rec path :
  erase_spec fuel rec → erasable target r → height_below (S fuel) target r →
  ∃ s, erase_children rec (Opened (next_handle r)) path
         (subkey_names target (keys r)) (with_handle target r) = Ok tt s
       ∧ children_inv target (next_handle r) r (subkey_names target (keys r)) s.
Proof.
  intros Hrec He Hh. apply (erase_children_prefix fuel rec path _ []); [done| |  |done].
  - by rewrite app_nil_r.
  - intros x _. eapply erasable_below; [|done]. by apply prefix_app_r.
Qed.

(** A subkey that was not visited is as it was at the call. *)
Lemma children_inv_unvisited n done s c :
  children_inv target n r done s → c ∉ done → keys s !! (target ++ [c]) = keys r !! (target ++ [c]).
Proof.
  intros Hinv Hc. rewrite (ci_keys _ _ _ _ _ Hinv), decide_False; [done|].
  intros (x & Hx & Hpre)%Exists_exists. apply prefix_app_inv, prefix_cons_inv_1 in Hpre.
  by subst.
Qed.

(** After the loop the target has no subkey left. *)
Lemma children_inv_no_subkeys n s :
  children_inv target n r (subkey_names target (keys r)) s →
  subkey_names target (keys s) = [].
Proof.
  intros Hinv. apply subkey_names_nil. intros c Hc.
  pose proof (children_inv_dom _ _ _ _ Hinv Hc) as Hc'.
  apply elem_of_dom in Hc as [v Hv]. rewrite (ci_keys _ _ _ _ _ Hinv) in Hv.
  rewrite decide_True in Hv; [done|]. apply Exists_exists. exists c.
  split; [by apply elem_of_subkey_names|done].
Qed.

(** Deleting the target after the loop leaves the store without the
    target's subtree. *)
Lemma children_inv_erased n s :
  children_inv target n r (subkey_names target (keys r)) s →
  delete target (keys s) = erased target (keys r).
Proof.
  intros Hinv. apply map_eq. intros q.
  rewrite lookup_delete, lookup_erased, (ci_keys _ _ _ _ _ Hinv).
  destruct (decide (target = q)) as [<-|Hne]; [by rewrite decide_True|].
  case_decide as Hex.
  - apply Exists_exists in Hex as (c & _ & Hc). rewrite decide_True; [done|].
    etrans; [|done]. by apply prefix_app_r.
  - case_decide as Hpre; [|done]. apply not_elem_of_dom. intros Hq.
    destruct (prefix_strict_child _ _ Hpre Hne) as [c Hc]. apply Hex.
    apply Exists_exists. exists c. split; [|done].
    apply elem_of_subkey_names. by eapply wf_prefix.
Qed.

End loop.

(** ** The steps of the body *)

Section steps.
Context (k : Key) (path : string) (r : Registry) (base : keypath).
Context (Hk : resolve_live k r = inr base).
Let target := base ++ split_path path.

Lemma erase_open_missing :
  target ∉ dom (keys r) → erase_open k path r = Ok None r.
Proof.
  intros Hmiss. unfold erase_open.
  by rewrite (bind_Ok _ _ _ _ _ (try_Err _ _ _ _ (OpenKey_ENOENT _ _ _ _ Hk Hmiss))).
Qed.

Lemma erase_open_found :
  target ∈ dom (keys r) → (AOpen, target) ∉ refused r →
  erase_open k path r = Ok (Some (Opened (next_handle r))) (with_handle target r).
Proof.
  intros Hin Hok. unfold erase_open.
  by rewrite (bind_Ok _ _ _ _ _ (try_Ok _ _ _ _ (OpenKey_Ok _ _ _ _ Hk Hin Hok))).
Qed.

Lemma erase_open_refused :
  target ∈ dom (keys r) → (AOpen, target) ∈ refused r →
  erase_open k path r =
    Err (Errorf "deleteRegKeyRecursive failed to open key path %q: %w" [path]
                (Errno_error ERROR_ACCESS_DENIED)) r.
Proof.
  intros Hin Hno. unfold erase_open.
  by rewrite (bind_Ok _ _ _ _ _ (try_Err _ _ _ _ (OpenKey_refused _ _ _ _ Hk Hin Hno))).
Qed.

Lemma erase_delete_ok :
  target ∈ dom (keys r) → (ADelete, target) ∉ refused r → target ≠ [] →
  subkey_names target (keys r) = [] →
  erase_delete k path r = Ok tt (set_keys (delete target (keys r)) r).
Proof.
  intros Hin Hok Hne Hnil. unfold erase_delete.
  by rewrite (bind_Ok _ _ _ _ _
               (try_Ok _ _ _ _ (DeleteKey_Ok _ _ _ _ Hk Hin Hok Hne Hnil))).
Qed.

(** A key that is already gone at the delete is success. *)
Lemma erase_delete_missing :
  target ∉ dom (keys r) → erase_delete k path r = Ok tt r.
Proof.
  intros Hmiss. unfold erase_delete.
  by rewrite (bind_Ok _ _ _ _ _ (try_Err _ _ _ _ (DeleteKey_ENOENT _ _ _ _ Hk Hmiss))).
Qed.

Lemma erase_delete_refused :
  target ∈ dom (keys r) → (ADelete, target) ∈ refused r →
  erase_delete k path r =
    Err (Errorf "deleteRegKeyRecursive failed to delete key path %q: %w" [path]
                (Errno_error ERROR_ACCESS_DENIED)) r.
Proof.
  intros Hin Hno. unfold erase_delete.
  by rewrite (bind_Ok _ _ _ _ _ (try_Err _ _ _ _ (DeleteKey_refused _ _ _ _ Hk Hin Hno))).
Qed.

End steps.

(** ** The body when a step fails *)

Lemma erase_body_open_refused rec k path r base :
  resolve_live k r = inr base →
  base ++ split_path path ∈ dom (keys r) →
  (AOpen, base ++ split_path path) ∈ refused r →
  erase_body rec k path r =
    Err (Errorf "deleteRegKeyRecursive failed to open key path %q: %w" [path]
                (Errno_error ERROR_ACCESS_DENIED)) r.
Proof.
  intros Hk Hin Hno. unfold erase_body.
  by rewrite (bind_Err _ _ _ _ _ (erase_open_refused _ _ _ _ Hk Hin Hno)).
Qed.

(** The loop stops at the first subkey whose erasure fails, with the error
    wrapped with the name of the subkey and the path. *)
Lemma erase_children_stops rec key path done c rest (s0 s s' : Registry) e :
  erase_children rec key path done s0 = Ok tt s → rec key c s = Err e s' →
  erase_children rec key path (done ++ c :: rest) s0
  = Err (Errorf "deleteRegKeyRecursive failed to delete subkey %q of path %q: %w"
                [c; path] e) s'.
Proof.
  intros H1 H2. unfold erase_children in *. eapply for_each_Err; [exact H1|].
  by apply wrap_Err.
Qed.

(** An error of the loop is the error of the call; the deferred function
    closes the handle the call opened. *)
Lemma erase_body_loop_Err rec k path r base err s :
  resolve_live k r = inr base → base ++ split_path path ∈ dom (keys r) →
  (AOpen, base ++ split_path path) ∉ refused r →
  (AEnum, base ++ split_path path) ∉ refused r →
  erase_children rec (Opened (next_handle r)) path
    (subkey_names (base ++ split_path path) (keys r))
    (with_handle (base ++ split_path path) r) = Err err s →
  handles s !! next_handle r = Some (base ++ split_path path) →
  erase_body rec k path r = Err err (without_handle (next_handle r) s).
Proof.
  intros Hk Hin Hopen Henum Hloop Hn. unfold erase_body.
  rewrite (bind_Ok _ _ _ _ _ (erase_open_found _ _ _ _ Hk Hin Hopen)).
  unfold erase_opened.
  rewrite (bind_assoc _ _ _ _), (bind_Ok _ _ _ _ _
            (try_Ok _ _ _ _ (ReadSubKeyNames_Ok _ _ _ (resolve_live_new_handle _ _ Hin) Henum))).
  rewrite (bind_assoc _ _ _ _), (bind_Ok _ _ _ _ _ (try_Err _ _ _ _ Hloop)).
  rewrite bind_ret_l. unfold erase_deferred. simpl.
  by rewrite (bind_Ok _ _ _ _ _ (ignore_err_Ok _ _ _ _ (CloseKey_Ok _ s _ Hn))).
Qed.

(** ** The body meets the specification *)

Lemma erase_body_missing rec k path r base :
  resolve_live k r = inr base → base ++ split_path path ∉ dom (keys r) →
  erase_body rec k path r = Ok tt r.
Proof.
  intros Hk Hmiss. unfold erase_body.
  by rewrite (bind_Ok _ _ _ _ _ (erase_open_missing _ _ _ _ Hk Hmiss)).
Qed.

(** From the enumeration on: the subkeys are erased, the handle is closed,
    the key is deleted, and the local variable [key] is reset. *)
Lemma erase_opened_ok fuel rec k path r base :
  erase_spec fuel rec → reg_wf r → resolve_live k r = inr base →
  base ++ split_path path ∈ dom (keys r) → base ++ split_path path ≠ [] →
  erasable (base ++ split_path path) r →
  height_below (S fuel) (base ++ split_path path) r →
  ∃ r', erase_opened rec k path (Opened (next_handle r))
          (with_handle (base ++ split_path path) r) = Ok (emptyKey, inr tt) r'
        ∧ erase_post (base ++ split_path path) r r'.
Proof.
  intros Hrec Hwf Hk Hin Hne He Hh. set (target := base ++ split_path path) in *.
  assert (∀ a, a ∈ [AOpen; AEnum; ADelete] → (a, target) ∉ refused r) as Hok.
  { intros a. by apply He. }
  destruct (erase_children_ok target r Hwf Hin fuel rec path Hrec He Hh)
    as (s & Hloop & Hinv).
  assert (handles s !! next_handle r = Some target) as Hn.
  { rewrite (ci_handles _ _ _ _ _ Hinv). apply lookup_insert_eq. }
  assert (delete (next_handle r) (handles s) = handles r) as Hclosed.
  { rewrite (ci_handles _ _ _ _ _ Hinv).
    by rewrite delete_insert_id by by apply wf_fresh_handle. }
  assert (resolve_live k (without_handle (next_handle r) s) = inr base) as Hk'.
  { eapply resolve_live_eq; [done| |done]. simpl.
    eapply children_inv_dom_outside; [done|by apply prefix_app_r|].
    by apply resolve_live_inr in Hk as [_ ?]. }
  assert (erase_delete k path (without_handle (next_handle r) s) =
          Ok tt (set_keys (delete target (keys s)) (without_handle (next_handle r) s)))
    as Hdel.
  { apply (erase_delete_ok _ _ _ _ Hk'); simpl; [|  |done|].
    - by eapply children_inv_dom_outside.
    - rewrite (ci_refused _ _ _ _ _ Hinv). apply Hok. set_solver.
    - by eapply children_inv_no_subkeys. }
  exists (set_keys (delete target (keys s)) (without_handle (next_handle r) s)).
  split.
  - unfold erase_opened.
    rewrite (bind_Ok _ _ _ _ _
              (try_Ok _ _ _ _ (ReadSubKeyNames_Ok _ _ _
                 (resolve_live_new_handle _ _ Hin) (Hok AEnum ltac:(set_solver))))).
    rewrite (bind_Ok _ _ _ _ _ (try_Ok _ _ _ _ Hloop)).
    rewrite (bind_Ok _ _ _ _ _ (ignore_err_Ok _ _ _ _ (CloseKey_Ok _ s target Hn))).
    by rewrite (bind_Ok _ _ _ _ _ (try_Ok _ _ _ _ Hdel)).
  - split; simpl; [by eapply children_inv_erased|apply Hinv|done|].
    pose proof (ci_next _ _ _ _ _ Hinv). lia.
Qed.

Lemma erase_body_spec fuel rec :
  erase_spec fuel rec → erase_spec (S fuel) (erase_body rec).
Proof.
  intros Hrec k path r base Hwf Hk Hne He _ Hh.
  destruct (decide (base ++ split_path path ∈ dom (keys r))) as [Hin|Hmiss]; last first.
  { exists r. split; [by eapply erase_body_missing|by apply erase_post_refl]. }
  destruct (erase_opened_ok fuel rec k path r base) as (r' & Hrun & Hpost); try done.
  exists r'. split; [|done]. unfold erase_body.
  rewrite (bind_Ok _ _ _ _ _ (erase_open_found _ _ _ _ Hk Hin
             (He _ AOpen (reflexivity _) ltac:(set_solver)))).
  by rewrite (bind_Ok _ _ _ _ _ Hrun).
Qed.

(** The function meets [erase_spec] at every fuel. *)
Lemma deleteRegKeyRecursive_spec fuel : erase_spec fuel (deleteRegKeyRecursive fuel).
Proof.
  induction fuel as [|fuel IH]; [intros ?????????; lia|].
  by apply erase_body_spec.
Qed.

(** ** Fail-fast among the subkeys *)

(** The state after the subkeys [done] of [target] were erased and nothing
    else was: the target, its other subkeys, the refusals and the open
    handles are as in [r]. *)
Record erase_partial (target : keypath) (done : list string) (r r' : Registry) : Prop := {
  ep_keys : ∀ q, keys r' !! q =
      if decide (Exists (λ c, target ++ [c] `prefix_of` q) done) then None
      else keys r !! q;
  ep_refused : refused r' = refused r;
  ep_handles : handles r' = handles r;
}.

Lemma erase_fails_at_child fuel k path r base done c rest :
  reg_wf r → resolve_live k r = inr base →
  base ++ split_path path ∈ dom (keys r) →
  (AOpen, base ++ split_path path) ∉ refused r →
  (AEnum, base ++ split_path path) ∉ refused r →
  subkey_names (base ++ split_path path) (keys r) = done ++ c :: rest →
  (∀ x, x ∈ done → erasable ((base ++ split_path path) ++ [x]) r) →
  (AOpen, (base ++ split_path path) ++ [c]) ∈ refused r →
  height_below (S (S fuel)) (base ++ split_path path) r →
  ∃ r', deleteRegKeyRecursive (S (S fuel)) k path r
        = Err (Errorf "deleteRegKeyRecursive failed to delete subkey %q of path %q: %w"
                      [c; path]
                 (Errorf "deleteRegKeyRecursive failed to open key path %q: %w" [c]
                         (Errno_error ERROR_ACCESS_DENIED))) r'
        ∧ erase_partial (base ++ split_path path) done r r'.
Proof.
  set (target := base ++ split_path path).
  intros Hwf Hk Hin Hopen Henum Hnames He Hc Hh.
  destruct (erase_children_prefix target r Hwf Hin (S fuel) (deleteRegKeyRecursive (S fuel))
              path done (c :: rest)) as (s & Hloop & Hinv);
    [apply deleteRegKeyRecursive_spec|done..|].
  pose proof (subkey_names_NoDup target (keys r)) as Hnd.
  rewrite Hnames in Hnd. apply NoDup_app in Hnd as (_ & Hnd & _).
  assert (c ∉ done) as Hcd by (intros Hx; apply (Hnd _ Hx); by left).
  assert (target ++ [c] ∈ dom (keys r)) as Hcr.
  { apply elem_of_subkey_names. rewrite Hnames. set_solver. }
  assert (target ++ split_path c ∈ dom (keys s)) as Hcs.
  { rewrite (split_path_valid c (wf_child_valid _ _ _ Hwf Hcr)).
    by rewrite elem_of_dom, (children_inv_unvisited _ _ _ _ _ _ Hinv Hcd), <-elem_of_dom. }
  pose proof (erase_body_open_refused (deleteRegKeyRecursive fuel) _ c s target
                (children_inv_resolve _ _ Hin _ _ _ Hinv) Hcs) as Hchild.
  rewrite (split_path_valid c (wf_child_valid _ _ _ Hwf Hcr)),
    (ci_refused _ _ _ _ _ Hinv) in Hchild. specialize (Hchild Hc).
  pose proof (erase_children_stops _ _ path _ _ rest _ _ _ _ Hloop Hchild) as Hstop.
  rewrite <-Hnames in Hstop. eexists. split.
  - apply (erase_body_loop_Err _ k path r base _ s Hk Hin Hopen Henum Hstop).
    rewrite (ci_handles _ _ _ _ _ Hinv). apply lookup_insert_eq.
  - split; simpl; [apply Hinv|apply Hinv|].
    rewrite (ci_handles _ _ _ _ _ Hinv).
    by rewrite delete_insert_id by by apply wf_fresh_handle.
Qed.

(** C1.  Erase completeness.  With fuel above the height of the subtree, on
    a target other than the root at or below which the store refuses nothing,
    [deleteRegKeyRecursive] returns success in a state where exactly the keys
    at or below the target are gone: every other key keeps its values, the
    refusals and the table of open handles are as before. *)
Theorem deleteRegKeyRecursive_erases fuel k path r base :
  reg_wf r → resolve_live k r = inr base →
  base ++ split_path path ≠ [] →
  erasable (base ++ split_path path) r →
  0 < fuel → height_below fuel (base ++ split_path path) r →
  ∃ r', deleteRegKeyRecursive fuel k path r = Ok tt r'
        ∧ erase_post (base ++ split_path path) r r'.
Proof. apply deleteRegKeyRecursive_spec. Qed.

(** ** Every path of the eraser

    Whatever the store refuses, the eraser returns (given the fuel), never
    crashes, keeps the invariant, leaves the table of open handles as it
    found it, and changes the store only by removing keys at or below the
    target. *)

Record erase_frame (target : keypath) (r r' : Registry) : Prop := {
  fr_wf : reg_wf r';
  fr_keys : ∀ q, keys r' !! q = keys r !! q
                 ∨ (keys r' !! q = None ∧ target `prefix_of` q);
  fr_refused : refused r' = refused r;
  fr_handles : handles r' = handles r;
  fr_next : next_handle r ≤ next_handle r';
}.

Definition erase_safe (fuel : nat) (rec : Key → string → M Registry unit) : Prop :=
  ∀ k path r base,
    reg_wf r → resolve_live k r = inr base →
    0 < fuel → height_below fuel (base ++ split_path path) r →
    post (rec k path r)
      (λ _, erase_frame (base ++ split_path path) r)
      (λ _, erase_frame (base ++ split_path path) r) no_crash.

(** The state inside the loop on any path, the handle [n] still open. *)
Record children_safe (target : keypath) (n : nat) (r s : Registry) : Prop := {
  cs_wf : reg_wf s;
  cs_keys : ∀ q, keys s !! q = keys r !! q
                 ∨ (keys s !! q = None ∧ target `prefix_of` q ∧ target ≠ q);
  cs_refused : refused s = refused r;
  cs_handles : handles s = <[n := target]> (handles r);
  cs_next : n < next_handle s;
}.

Section safe.
Context (target : keypath) (r : Registry).
Context (Hwf : reg_wf r) (Htarget : target ∈ dom (keys r)).
Implicit Types (q : keypath) (s : Registry).

Lemma erase_frame_refl : erase_frame target r r.
Proof. split; auto. Qed.

Lemma children_safe_init : children_safe target (next_handle r) r (with_handle target r).
Proof. split; simpl; auto with reg. Qed.

Lemma children_safe_dom n s q :
  children_safe target n r s → q ∈ dom (keys s) → q ∈ dom (keys r).
Proof.
  intros Hs. rewrite !elem_of_dom. destruct (cs_keys _ _ _ _ Hs q) as [->|[-> _]]; [done|].
  by intros [].
Qed.

Lemma children_safe_resolve n s :
  children_safe target n r s → resolve_live (Opened n) s = inr target.
Proof.
  intros Hs. apply resolve_live_inr. split.
  - simpl. rewrite (cs_handles _ _ _ _ Hs). apply lookup_insert_eq.
  - apply elem_of_dom. destruct (cs_keys _ _ _ _ Hs target) as [->|(_&_&?)]; [|done].
    by apply elem_of_dom.
Qed.

Lemma children_safe_step n s c s' :
  children_safe target n r s → erase_frame (target ++ [c]) s s' →
  children_safe target n r s'.
Proof.
  intros Hs [Hw Hk Hr Hh Hn]. split; [done| | | |].
  - intros q. destruct (Hk q) as [->|[-> Hq]]; [apply Hs|]. right.
    split_and!; [done|etrans; [|done]; by apply prefix_app_r|].
    intros ->. by eapply prefix_snoc_not.
  - rewrite Hr. apply Hs.
  - rewrite Hh. apply Hs.
  - pose proof (cs_next _ _ _ _ Hs). lia.
Qed.

(** Closing the handle restores the table of the call. *)
Lemma children_safe_closed s :
  children_safe target (next_handle r) r s →
  erase_frame target r (without_handle (next_handle r) s).
Proof.
  intros Hs. split; simpl.
  - apply without_handle_wf, Hs.
  - intros q. destruct (cs_keys _ _ _ _ Hs q) as [->|(->&?&_)]; auto.
  - apply Hs.
  - rewrite (cs_handles _ _ _ _ Hs).
    by rewrite delete_insert_id by by apply wf_fresh_handle.
  - pose proof (cs_next _ _ _ _ Hs). lia.
Qed.

Lemma erase_frame_deleted r' :
  erase_frame target r r' → target ≠ [] → subkey_names target (keys r') = [] →
  erase_frame target r (set_keys (delete target (keys r')) r').
Proof.
  intros [Hw Hk Hr Hh Hn] Hne Hnil. split; simpl; [by apply delete_wf| |done..].
  intros q. rewrite lookup_delete. case_decide as Hq; [subst; by right|apply Hk].
Qed.

End safe.

#[export] Hint Resolve erase_frame_refl children_safe_init : reg.

Section paths.
Context (k : Key) (path : string) (r : Registry) (base : keypath).
Context (Hwf : reg_wf r) (Hk : resolve_live k r = inr base).
Let target := base ++ split_path path.

Lemma erase_open_post :
  post (erase_open k path r)
    (λ o r', match o with
             | None => r' = r
             | Some key => key = Opened (next_handle r)
                           ∧ r' = with_handle target r ∧ target ∈ dom (keys r)
             end)
    (λ _ r', r' = r) no_crash.
Proof.
  unfold erase_open. apply post_bind, post_try.
  eapply post_mono; [by apply OpenKey_post|simpl..|done].
  - by intros key r' (-> & -> & ?).
  - intros e r' ->. by destruct (errors_Is e ENOENT).
Qed.

Lemma erase_delete_post :
  post (erase_delete k path r)
    (λ _ r', r' = r
             ∨ (r' = set_keys (delete target (keys r)) r ∧ target ≠ []
                ∧ subkey_names target (keys r) = []))
    (λ _ r', r' = r) no_crash.
Proof.
  unfold erase_delete. apply post_bind, post_try.
  eapply post_mono; [by apply DeleteKey_post|simpl..|done].
  - intros ? r' ?. by right.
  - intros e r' ->. destruct (errors_Is e ENOENT); simpl; auto.
Qed.

(** The caller's handle still resolves when the handle on the target has
    been closed again. *)
Lemma children_safe_caller s :
  children_safe target (next_handle r) r s →
  resolve_live k (without_handle (next_handle r) s) = inr base.
Proof.
  intros Hs. eapply resolve_live_eq; [|simpl|done].
  - simpl. rewrite (cs_handles _ _ _ _ Hs).
    by rewrite delete_insert_id by by apply wf_fresh_handle.
  - apply resolve_live_inr in Hk as [_ Hb]. apply elem_of_dom.
    destruct (cs_keys _ _ _ _ Hs base) as [->|(_ & Hpre & Hne)]; [by apply elem_of_dom|].
    destruct Hne. apply (anti_symm prefix); [done|by apply prefix_app_r].
Qed.

End paths.

(** The loop on any path. *)
Lemma erase_children_post fuel rec target r path names s :
  erase_safe fuel rec → reg_wf r → target ∈ dom (keys r) →
  height_below (S fuel) target r →
  names ⊆ subkey_names target (keys r) →
  children_safe target (next_handle r) r s →
  post (erase_children rec (Opened (next_handle r)) path names s)
    (λ _, children_safe target (next_handle r) r)
    (λ _, children_safe target (next_handle r) r) no_crash.
Proof.
  intros Hrec Hwf Hin Hh Hnames Hs. apply post_for_each; [done|].
  clear s Hs. intros x s Hx%Hnames%elem_of_subkey_names Hs. apply post_wrap.
  pose proof (split_path_valid x (wf_child_valid _ _ _ Hwf Hx)) as Hsplit.
  pose proof (Hh _ Hx (prefix_app_r _ _ _ (reflexivity _))) as Hlen.
  rewrite length_app in Hlen; simpl in Hlen.
  eapply post_mono; [apply (Hrec _ x s target)|rewrite Hsplit..|done].
  - apply Hs.
  - by eapply children_safe_resolve.
  - lia.
  - rewrite Hsplit. intros q Hq Hpre. rewrite length_app; simpl.
    eapply children_safe_dom in Hq; [|done].
    assert (target `prefix_of` q) as Htq by (etrans; [|done]; by apply prefix_app_r).
    specialize (Hh q Hq Htq). lia.
  - intros ? s' ?. by eapply children_safe_step.
  - intros ? s' ?. by eapply children_safe_step.
Qed.

(** From the enumeration on, on any path: either the local variable [key]
    was reset and the handle is closed, or it still holds the open handle. *)
Lemma erase_opened_post fuel rec k path r base :
  erase_safe fuel rec → reg_wf r → resolve_live k r = inr base →
  base ++ split_path path ∈ dom (keys r) →
  height_below (S fuel) (base ++ split_path path) r →
  post (erase_opened rec k path (Opened (next_handle r))
          (with_handle (base ++ split_path path) r))
    (λ res s, (res.1 = emptyKey ∧ erase_frame (base ++ split_path path) r s)
              ∨ (res.1 = Opened (next_handle r)
                 ∧ children_safe (base ++ split_path path) (next_handle r) r s))
    (λ _ _, False) no_crash.
Proof.
  intros Hrec Hwf Hk Hin Hh. set (target := base ++ split_path path) in *.
  unfold erase_opened. apply post_bind, post_try.
  eapply post_mono;
    [by apply (ReadSubKeyNames_post _ _ target), resolve_live_new_handle| |simpl|done].
  2:{ intros e r' ->. right. auto with reg. }
  intros names r' [-> ->]. apply post_bind, post_try. simpl.
  eapply post_mono;
    [by apply (erase_children_post fuel rec target r); auto with reg| |simpl|done].
  2:{ intros e s Hs. by right. }
  intros ? s Hs. simpl in Hs. apply post_bind, post_ignore_err.
  erewrite CloseKey_Ok; last first.
  { rewrite (cs_handles _ _ _ _ Hs). apply lookup_insert_eq. }
  simpl. apply post_bind, post_try.
  pose proof (children_safe_closed _ _ Hwf _ Hs) as Hf.
  eapply post_mono;
    [eapply erase_delete_post; by eapply children_safe_caller|cbv beta..|done].
  - intros ? r' [->|(-> & Hne & Hnil)]; left; (split; [done|]); [done|].
    by apply erase_frame_deleted.
  - intros e r' ->. by left.
Qed.

Lemma erase_body_safe fuel rec : erase_safe fuel rec → erase_safe (S fuel) (erase_body rec).
Proof.
  intros Hrec k path r base Hwf Hk _ Hh. unfold erase_body. apply post_bind.
  eapply post_mono; [by eapply erase_open_post| |simpl|done].
  2:{ intros e r' ->. auto with reg. }
  intros [key|] r'; [|intros ->; simpl; auto with reg].
  intros (-> & -> & Hin). apply post_bind.
  eapply post_mono; [by eapply erase_opened_post|simpl|done..].
  intros [key res] s [[-> Hf]|[-> Hs]]; simpl.
  - unfold erase_deferred. rewrite decide_False by naive_solver.
    by destruct res.
  - unfold erase_deferred. rewrite decide_True by done.
    apply post_bind, post_ignore_err. erewrite CloseKey_Ok; last first.
    { rewrite (cs_handles _ _ _ _ Hs). apply lookup_insert_eq. }
    simpl. pose proof (children_safe_closed _ _ Hwf _ Hs). by destruct res.
Qed.

(** The function meets [erase_safe] at every fuel. *)
Lemma deleteRegKeyRecursive_erase_safe fuel : erase_safe fuel (deleteRegKeyRecursive fuel).
Proof.
  induction fuel as [|fuel IH]; [intros ???????; lia|].
  by apply erase_body_safe.
Qed.

(** C2.  On every path.  With fuel above the height of the subtree,
    [deleteRegKeyRecursive] returns, with or without an error, and never
    crashes; the state it leaves satisfies the invariant of the store, has
    the same open handles as before the call (each handle the function
    opened was closed, by the explicit close or by the deferred one), and
    differs from the state before only by keys at or below the target that
    were removed. *)
Theorem deleteRegKeyRecursive_safe fuel k path r base :
  reg_wf r → resolve_live k r = inr base →
  0 < fuel → height_below fuel (base ++ split_path path) r →
  post (deleteRegKeyRecursive fuel k path r)
    (λ _, erase_frame (base ++ split_path path) r)
    (λ _, erase_frame (base ++ split_path path) r) no_crash.
Proof. apply deleteRegKeyRecursive_erase_safe. Qed.

(** ** Corollaries *)

(** C10.  Not-found tolerance.  Erasing a path that does not exist returns
    success and leaves the state exactly as it was. *)
Theorem deleteRegKeyRecursive_missing fuel k path r base :
  resolve_live k r = inr base → base ++ split_path path ∉ dom (keys r) →
  deleteRegKeyRecursive (S fuel) k path r = Ok tt r.
Proof. intros Hk Hmiss. simpl. by eapply erase_body_missing. Qed.

(** A refused open.  When the key exists and the store refuses to open
    it, the function returns the errno wrapped once with the path, and the
    state is unchanged: nothing was deleted and no handle was opened. *)
Theorem deleteRegKeyRecursive_open_refused fuel k path r base :
  resolve_live k r = inr base →
  base ++ split_path path ∈ dom (keys r) →
  (AOpen, base ++ split_path path) ∈ refused r →
  deleteRegKeyRecursive (S fuel) k path r =
    Err (Errorf "deleteRegKeyRecursive failed to open key path %q: %w" [path]
                (Errno_error ERROR_ACCESS_DENIED)) r.
Proof. apply erase_body_open_refused. Qed.

(** A handle that is not live makes the open fail; the error is returned
    wrapped and the state is unchanged. *)
Lemma erase_body_dead_handle rec k path r e :
  resolve_live k r = inl e → e ≠ ENOENT →
  erase_body rec k path r =
    Err (Errorf "deleteRegKeyRecursive failed to open key path %q: %w" [path]
                (Errno_error e)) r.
Proof.
  intros Hk He. unfold erase_body, erase_open, bind, try. reg_unfold. unfold errno, throw.
  rewrite Hk. simpl. by rewrite bool_decide_eq_false_2.
Qed.

Lemma resolve_live_inl_ne k r e : resolve_live k r = inl e → e ≠ ENOENT.
Proof.
  unfold resolve_live. destruct (resolve k r); [case_decide|]; by intros [= <-].
Qed.

(** C9.  Termination.  With the fuel [erase_fuel] computes from the state,
    [deleteRegKeyRecursive] returns on every store that satisfies the
    invariant, whatever handle and path it is given and whatever the store
    refuses. *)
Theorem deleteRegKeyRecursive_terminates k path r :
  reg_wf r → returns (deleteRegKeyRecursive (erase_fuel r) k path r).
Proof.
  intros Hwf. destruct (resolve_live k r) as [e|base] eqn:Hk.
  - unfold erase_fuel. simpl.
    by rewrite (erase_body_dead_handle _ _ _ _ _ Hk (resolve_live_inl_ne _ _ _ Hk)).
  - eapply post_returns, deleteRegKeyRecursive_erase_safe; eauto with reg.
Qed.

(** C33.  Fail-fast among the subkeys.  When the store refuses to open the
    subkey [c] of the target, the function returns the error of that open
    wrapped with the name of the subkey and the path of the target.  The
    subkeys enumerated before [c] are erased with their subtrees; [c], the
    subkeys after it and the target itself are as they were, and the handle
    opened on the target is closed. *)
Theorem deleteRegKeyRecursive_fail_fast fuel k path r base done c rest :
  reg_wf r → resolve_live k r = inr base →
  base ++ split_path path ∈ dom (keys r) →
  (AOpen, base ++ split_path path) ∉ refused r →
  (AEnum, base ++ split_path path) ∉ refused r →
  subkey_names (base ++ split_path path) (keys r) = done ++ c :: rest →
  (∀ x, x ∈ done → erasable ((base ++ split_path path) ++ [x]) r) →
  (AOpen, (base ++ split_path path) ++ [c]) ∈ refused r →
  height_below (S (S fuel)) (base ++ split_path path) r →
  ∃ r', deleteRegKeyRecursive (S (S fuel)) k path r
        = Err (Errorf "deleteRegKeyRecursive failed to delete subkey %q of path %q: %w"
                      [c; path]
                 (Errorf "deleteRegKeyRecursive failed to open key path %q: %w" [c]
                         (Errno_error ERROR_ACCESS_DENIED))) r'
        ∧ erase_partial (base ++ split_path path) done r r'.
Proof. apply erase_fails_at_child. Qed.

(** ** Concrete stores *)

(** A store with a subtree of height three under [Software\Foo] and a
    sibling [Software\Bar] that has a value. *)
Definition sample_registry : Registry :=
  mkRegistry
    (list_to_map
       [([], ∅); (["Software"], ∅); (["Software"; "Foo"], ∅);
        (["Software"; "Foo"; "a"], ∅); (["Software"; "Foo"; "a"; "b"], ∅);
        (["Software"; "Foo"; "c"], ∅);
        (["Software"; "Bar"], {["MUIVerb" := REG_SZ "bar"]})])
    ∅ ∅ 0.

(** The same store, refusing to delete [Software\Foo\a]. *)
Definition sample_refusing : Registry :=
  mkRegistry (keys sample_registry) {[ (ADelete, ["Software"; "Foo"; "a"]) ]} ∅ 0.

(** The same store, refusing to open [Software\Foo\a]. *)
Definition sample_closed : Registry :=
  mkRegistry (keys sample_registry) {[ (AOpen, ["Software"; "Foo"; "a"]) ]} ∅ 0.

Lemma sample_registry_wf : reg_wf sample_registry.
Proof. by_compute. Qed.

Lemma sample_refusing_wf : reg_wf sample_refusing.
Proof. by_compute. Qed.

Lemma deleteRegKeyRecursive_erases_witness :
  ∃ r', deleteRegKeyRecursive 3 CURRENT_USER "Software\Foo" sample_registry = Ok tt r'
        ∧ erase_post ["Software"; "Foo"] sample_registry r'.
Proof.
  apply (deleteRegKeyRecursive_erases 3 CURRENT_USER "Software\Foo" sample_registry []);
    [apply sample_registry_wf|reflexivity|done|by_compute|lia|by_compute].
Defined.

Lemma deleteRegKeyRecursive_safe_witness :
  post (deleteRegKeyRecursive 3 CURRENT_USER "Software\Foo" sample_refusing)
    (λ _, erase_frame ["Software"; "Foo"] sample_refusing)
    (λ _, erase_frame ["Software"; "Foo"] sample_refusing) no_crash.
Proof.
  apply (deleteRegKeyRecursive_safe 3 CURRENT_USER "Software\Foo" sample_refusing []);
    [apply sample_refusing_wf|reflexivity|lia|by_compute].
Defined.

Lemma deleteRegKeyRecursive_missing_witness :
  deleteRegKeyRecursive 1 CURRENT_USER "Software\Nope" sample_registry
  = Ok tt sample_registry.
Proof.
  apply (deleteRegKeyRecursive_missing 0 CURRENT_USER "Software\Nope" sample_registry []);
    [reflexivity|by_compute].
Defined.

Lemma deleteRegKeyRecursive_open_refused_witness :
  deleteRegKeyRecursive 1 CURRENT_USER "Software"
    (mkRegistry (keys sample_registry) {[ (AOpen, ["Software"]) ]} ∅ 0)
  = Err (Errorf "deleteRegKeyRecursive failed to open key path %q: %w" ["Software"]
                (Errno_error ERROR_ACCESS_DENIED))
        (mkRegistry (keys sample_registry) {[ (AOpen, ["Software"]) ]} ∅ 0).
Proof.
  apply (deleteRegKeyRecursive_open_refused 0 CURRENT_USER "Software" _ []);
    [reflexivity|by_compute|by_compute].
Defined.

Lemma deleteRegKeyRecursive_terminates_witness :
  returns (deleteRegKeyRecursive (erase_fuel sample_refusing) CURRENT_USER
             "Software" sample_refusing).
Proof. apply deleteRegKeyRecursive_terminates, sample_refusing_wf. Defined.

(** The run on the refusing store: the delete of [Software\Foo\a] fails
    after its subkey [b] was erased; the error carries the trail of the two
    levels it passed; [Software\Foo\c] is erased or not depending on the
    order of enumeration, and no handle is left open. *)
Example sample_refusing_run :
  match deleteRegKeyRecursive 3 CURRENT_USER "Software\Foo" sample_refusing with
  | Err e r' =>
      root_cause e = Errno_error ERROR_ACCESS_DENIED
      ∧ trail e = ["deleteRegKeyRecursive failed to delete subkey %q of path %q: %w";
                   "deleteRegKeyRecursive failed to delete key path %q: %w"]
      ∧ keys r' !! ["Software"; "Foo"; "a"; "b"] = None
      ∧ keys r' !! ["Software"; "Foo"; "a"] = Some ∅
      ∧ handles r' = ∅
  | _ => False
  end.
Proof. vm_compute. by repeat split. Qed.

Lemma deleteRegKeyRecursive_fail_fast_witness :
  ∃ r', deleteRegKeyRecursive 3 CURRENT_USER "Software\Foo" sample_closed
        = Err (Errorf "deleteRegKeyRecursive failed to delete subkey %q of path %q: %w"
                      ["a"; "Software\Foo"]
                 (Errorf "deleteRegKeyRecursive failed to open key path %q: %w" ["a"]
                         (Errno_error ERROR_ACCESS_DENIED))) r'
        ∧ erase_partial ["Software"; "Foo"] ["c"] sample_closed r'.
Proof.
  apply (deleteRegKeyRecursive_fail_fast 1 CURRENT_USER "Software\Foo" sample_closed []
           ["c"] "a" []);
    [by_compute|reflexivity|by_compute|by_compute|by_compute|by_compute|
     intros x ->%list_elem_of_singleton; by_compute|by_compute|by_compute].
Defined.
