(* ===== verification/Race.v ===== *)
(** * The eraser beside other processes

    The registry is shared: between two calls of the program another
    process may change the store.  [deleteRegKeyRecursive] is written for
    that: a key that is missing at the open or at the final delete is
    success (main.go:249, 275).  This file gives the operations of the
    package a second implementation, in which a schedule of actions of
    other processes runs between the calls, and proves what the eraser does
    under such a schedule.

    - [Racy]: a store together with the actions that are still to come; an
      operation first lets the next batch of actions happen and then runs
      as in [Store].
    - [Interfered rely]: what the eraser needs of an implementation: every
      operation is the operation of [Store] after a change of the store
      that [rely] allows.  [Registry] itself and [Racy] are instances.
    - [fades]: the changes of a process that only deletes keys.  Under such
      changes the eraser returns on every path, leaves no handle open, has
      erased the subtree when it succeeds, and fails only because a key it
      held a handle on was deleted. *)

From stdpp Require Import gmap strings list.
From S2P Require Import Prelude GoStrings GoErrors Registry Eraser.

(** ** The store with a schedule *)

Section racy.
Context {A : Type} (act : A → Registry → Registry).

(** The store and the batches of actions of other processes: one batch
    before each call that is still to come. *)
Record Racy := mkRacy {
  store : Registry;
  pending : list (list A);
}.

(** The next batch happens. *)
Definition others (s : Racy) : Racy :=
  match pending s with
  | [] => s
  | batch :: rest => mkRacy (foldl (flip act) (store s) batch) rest
  end.

(** An operation of the store, after the next batch. *)
Definition racy {B} (op : M Registry B) : M Racy B :=
  λ s, zoom store (λ r s', mkRacy r (pending s')) op (others s).

#[export] Instance Racy_ops : RegOps Racy := {
  OpenKey k sub := racy (Store.OpenKey k sub);
  CreateKey k sub := racy (Store.CreateKey k sub);
  SetStringValue k name value := racy (Store.SetStringValue k name value);
  SetExpandStringValue k name value := racy (Store.SetExpandStringValue k name value);
  ReadSubKeyNames k := racy (Store.ReadSubKeyNames k);
  DeleteKey k sub := racy (Store.DeleteKey k sub);
  CloseKey k := racy (Store.CloseKey k);
}.

(** What the batches of a schedule can make of a store. *)
Definition moved (r r' : Registry) : Prop := ∃ batch, r' = foldl (flip act) r batch.

End racy.

Arguments Racy A : clear implicits.
Arguments mkRacy {A} store pending.

(** ** Implementations under interference *)

(** [op] is [ref] after a change of the store that [rely] allows. *)
Definition after {St B} (rely : relation Registry) (view : St → Registry)
    (op : M St B) (ref : M Registry B) : Prop :=
  ∀ s, ∃ r1, rely (view s) r1 ∧ omap_state view (op s) = ref r1.

(** An implementation of the operations the eraser calls, over a store
    that changes as [rely] allows between the calls. *)
Class Interfered (rely : relation Registry) (St : Type) {ops : RegOps St} := {
  view : St → Registry;
  OpenKey_after k sub : after rely view (OpenKey k sub) (Store.OpenKey k sub);
  ReadSubKeyNames_after k : after rely view (ReadSubKeyNames k) (Store.ReadSubKeyNames k);
  DeleteKey_after k sub : after rely view (DeleteKey k sub) (Store.DeleteKey k sub);
  CloseKey_after k : after rely view (CloseKey k) (Store.CloseKey k);
}.

Lemma after_refl {B} rely `{!Reflexive rely} (op : M Registry B) : after rely id op op.
Proof. intros r. exists r. split; [done|]. by destruct (op r). Qed.

(** The model itself, for any [rely] that allows no change. *)
#[export] Instance Registry_interfered rely `{!Reflexive rely} :
  Interfered rely Registry.
Proof. refine {| view := id |}; intros; by apply after_refl. Defined.

Section racy_instance.
Context {A : Type} (act : A → Registry → Registry).

Lemma racy_after {B} (op : M Registry B) : after (moved act) store (racy act op) op.
Proof.
  intros s. exists (store (others act s)). split.
  - unfold others, moved. destruct (pending s) as [|batch rest]; [by exists []|by exists batch].
  - unfold racy, zoom. by destruct (op _).
Qed.

#[export] Instance Racy_interfered : Interfered (moved act) (Racy A) (ops := Racy_ops act).
Proof. refine {| view := store |}; intros; apply racy_after. Defined.

End racy_instance.

(** ** A process that only deletes *)

(** From [r] to [r']: keys were deleted, handles were opened and closed. *)
Record shrinks (r r' : Registry) : Prop := {
  sh_keys : keys r' ⊆ keys r;
  sh_refused : refused r' = refused r;
  sh_next : next_handle r ≤ next_handle r';
  sh_wf : reg_wf r → reg_wf r';
}.

(** The same, with the handle table as it was: what another process that
    only deletes does to the store, and what a call of the eraser does. *)
Record fades (r r' : Registry) : Prop := {
  fd_shrinks : shrinks r r';
  fd_handles : handles r' = handles r;
}.

(** Nothing exists at or below [target]. *)
Definition gone (target : keypath) (r : Registry) : Prop :=
  ∀ q, target `prefix_of` q → q ∉ dom (keys r).

(** The state [r] while the handle [h] is open on [target], [r0] being the
    state at the call. *)
Record held (h : nat) (target : keypath) (r0 r : Registry) : Prop := {
  held_shrinks : shrinks r0 r;
  held_handles : handles r = <[h := target]> (handles r0);
  held_fresh : handles r0 !! h = None;
}.

#[export] Instance shrinks_preorder : PreOrder shrinks.
Proof.
  split; [by split|]. intros r1 r2 r3 [] []. split; [by etrans|congruence|lia|auto].
Qed.

#[export] Instance fades_preorder : PreOrder fades.
Proof.
  split; [by split|]. intros r1 r2 r3 [] []. split; [by etrans|congruence].
Qed.

Section shrinks.
Implicit Types (p q target : keypath) (r : Registry) (k : Key).

Lemma shrinks_dom r r' q : shrinks r r' → q ∈ dom (keys r') → q ∈ dom (keys r).
Proof. intros [Hk _ _ _]. apply subseteq_dom in Hk. set_solver. Qed.

Lemma gone_shrinks target r r' : shrinks r r' → gone target r → gone target r'.
Proof. intros Hs Hg q Hq Hin. by eapply Hg, shrinks_dom. Qed.

Lemma erasable_shrinks target r r' : shrinks r r' → erasable target r → erasable target r'.
Proof. intros [_ Hr _ _] He q a Hq Ha. rewrite Hr. by apply He. Qed.

Lemma height_below_shrinks fuel target r r' :
  shrinks r r' → height_below fuel target r → height_below fuel target r'.
Proof. intros Hs Hh q Hq. by eapply Hh, shrinks_dom. Qed.

Lemma gone_missing target r : reg_wf r → target ∉ dom (keys r) → gone target r.
Proof. intros Hwf Hmiss q Hq. by eapply wf_missing_below. Qed.

Lemma fades_resolve k r r' : fades r r' → resolve k r' = resolve k r.
Proof. intros [_ Hh]. by apply resolve_handles_eq. Qed.

Lemma shrinks_with_handle p r : shrinks r (with_handle p r).
Proof. split; simpl; [done|done|lia|apply with_handle_wf]. Qed.

Lemma shrinks_without_handle h r : shrinks r (without_handle h r).
Proof. split; simpl; [done|done|lia|apply without_handle_wf]. Qed.

Lemma shrinks_delete target r :
  target ≠ [] → subkey_names target (keys r) = [] →
  shrinks r (set_keys (delete target (keys r)) r).
Proof.
  intros Hne Hnil. split; simpl; [apply delete_subseteq|done|lia|].
  intros Hwf. by apply delete_wf.
Qed.

(** The handle the open returned. *)
Lemma held_open target r0 r1 :
  reg_wf r0 → fades r0 r1 → held (next_handle r1) target r0 (with_handle target r1).
Proof.
  intros Hwf [Hs Hh]. split; simpl.
  - etrans; [done|apply shrinks_with_handle].
  - by rewrite Hh.
  - rewrite <-Hh. apply wf_fresh_handle. by apply Hs.
Qed.

Lemma held_fades h target r0 r r' : held h target r0 r → fades r r' → held h target r0 r'.
Proof. intros [Hs Hh Hf] [Hs' Hh']. split; [by etrans|congruence|done]. Qed.

(** Closing the handle gives the table back. *)
Lemma held_close h target r0 r : held h target r0 r → fades r0 (without_handle h r).
Proof.
  intros [Hs Hh Hf]. split; [etrans; [done|apply shrinks_without_handle]|].
  simpl. by rewrite Hh, delete_insert_id.
Qed.

Lemma held_resolve h target r0 r : held h target r0 r → resolve (Opened h) r = Some target.
Proof. intros [_ Hh _]. simpl. by rewrite Hh, lookup_insert_eq. Qed.

Lemma held_resolve_other h target r0 r k base :
  held h target r0 r → resolve k r0 = Some base → resolve k r = Some base.
Proof.
  intros [_ Hh Hf] Hk. destruct k as [| |h']; simpl in *; [done..|].
  rewrite Hh, lookup_insert_ne; [done|]. intros ->. congruence.
Qed.

Lemma held_wf h target r0 r : reg_wf r0 → held h target r0 r → reg_wf r.
Proof. intros Hwf [Hs _ _]. by apply Hs. Qed.

End shrinks.

(** ** The operations on a handle whose key may be gone *)

(** An error of an operation the store does not refuse. *)
Definition lost (e : error) : Prop := e = Errno_error ERROR_KEY_DELETED.

Section cases.
Implicit Types (p q base target : keypath) (r : Registry) (k : Key).

Lemma OpenKey_cases k sub r base :
  resolve k r = Some base → (AOpen, base ++ split_path sub) ∉ refused r →
  post (Store.OpenKey k sub r)
    (λ key r', key = Opened (next_handle r)
               ∧ r' = with_handle (base ++ split_path sub) r
               ∧ base ++ split_path sub ∈ dom (keys r))
    (λ e r', r' = r ∧ (lost e ∨ (e = Errno_error ENOENT
                                  ∧ (base ++ split_path sub ∉ dom (keys r))
                                  ∧ base ∈ dom (keys r))))
    no_crash.
Proof.
  intros H ?. unfold Store.OpenKey, resolve_live, lost. rewrite H.
  repeat case_decide; simpl; auto; done.
Qed.

Lemma ReadSubKeyNames_cases k r p :
  resolve k r = Some p → (AEnum, p) ∉ refused r →
  post (Store.ReadSubKeyNames k r)
    (λ names r', names = subkey_names p (keys r) ∧ r' = r ∧ p ∈ dom (keys r))
    (λ e r', r' = r ∧ lost e) no_crash.
Proof.
  intros H ?. unfold Store.ReadSubKeyNames, resolve_live, lost. rewrite H.
  repeat case_decide; simpl; auto; done.
Qed.

Lemma DeleteKey_cases k sub r base :
  resolve k r = Some base → (ADelete, base ++ split_path sub) ∉ refused r →
  base ++ split_path sub ≠ [] →
  post (Store.DeleteKey k sub r)
    (λ _ r', r' = set_keys (delete (base ++ split_path sub) (keys r)) r
             ∧ subkey_names (base ++ split_path sub) (keys r) = [])
    (λ e r', r' = r ∧ (lost e ∨ (e = Errno_error ENOENT
                                  ∧ (base ++ split_path sub ∉ dom (keys r))
                                  ∧ base ∈ dom (keys r))
                       ∨ (e = Errno_error ERROR_ACCESS_DENIED
                          ∧ subkey_names (base ++ split_path sub) (keys r) ≠ [])))
    no_crash.
Proof.
  intros H ??. unfold Store.DeleteKey, resolve_live, lost. rewrite H.
  case_decide; simpl; [|by auto]. case_decide; simpl; [|by auto 6].
  case_decide as Hd; simpl.
  - split; [done|]. right. right. split; [done|]. by destruct Hd as [?|[?|?]].
  - split; [done|]. destruct (subkey_names _ _); [done|]. destruct Hd. by right; right.
Qed.

Lemma CloseKey_held h target r0 r :
  held h target r0 r → Store.CloseKey (Opened h) r = Ok tt (without_handle h r).
Proof. intros Hh. apply (CloseKey_Ok h r target). by apply held_resolve in Hh. Qed.

End cases.

(** ** The eraser under deletions by others *)

Section tolerance.
Context {St : Type} {ops : RegOps St} {rely : relation Registry} {itf : Interfered rely St}.
Context (Hrely : ∀ r r', rely r r' → fades r r').
Implicit Types (s : St) (r : Registry) (base target : keypath) (k key : Key).

(** A condition on the store, as a condition on the state. *)
Definition lift {B} (Q : B → Registry → Prop) : B → St → Prop := λ b s, Q b (view s).

(** The rule of an operation: whatever the others did, the operation of
    the model runs on the store [r1] they left. *)
Lemma post_after {B} (op : M St B) ref s
    (Q : Registry → B → Registry → Prop) (E : Registry → error → Registry → Prop) :
  after rely view op ref →
  (∀ r1, fades (view s) r1 → post (ref r1) (Q r1) (E r1) no_crash) →
  post (op s) (lift (λ b r', ∃ r1, fades (view s) r1 ∧ Q r1 b r'))
              (lift (λ e r', ∃ r1, fades (view s) r1 ∧ E r1 e r')) (lift no_crash).
Proof.
  intros Hop H. destruct (Hop s) as (r1 & Hr%Hrely & Heq).
  apply (proj1 (post_omap_state view (op s)
                  (λ b r', ∃ r1, fades (view s) r1 ∧ Q r1 b r')
                  (λ e r', ∃ r1, fades (view s) r1 ∧ E r1 e r') no_crash)).
  rewrite Heq. eapply post_mono; [by apply H|by eauto..].
Qed.

Lemma OpenKey_tolerant k sub s base :
  resolve k (view s) = Some base → (AOpen, base ++ split_path sub) ∉ refused (view s) →
  post (OpenKey k sub s)
    (lift (λ key r', ∃ r1, fades (view s) r1 ∧ key = Opened (next_handle r1)
                           ∧ r' = with_handle (base ++ split_path sub) r1))
    (lift (λ e r', fades (view s) r'
                   ∧ (lost e ∨ (e = Errno_error ENOENT
                                ∧ base ++ split_path sub ∉ dom (keys r')))))
    (lift no_crash).
Proof.
  intros Hk Hno. eapply post_mono; [eapply post_after; [apply OpenKey_after|]|..].
  - intros r1 Hr1. apply (OpenKey_cases k sub r1 base).
    + by rewrite (fades_resolve _ _ _ Hr1).
    + by rewrite (sh_refused _ _ (fd_shrinks _ _ Hr1)).
  - intros key s' (r1 & Hr1 & -> & Hs' & _). by exists r1.
  - intros e s' (r1 & Hr1 & <- & [?|(-> & ? & _)]); (split; [done|]); [by left|by right].
  - done.
Qed.

Lemma ReadSubKeyNames_tolerant k s p :
  resolve k (view s) = Some p → (AEnum, p) ∉ refused (view s) →
  post (ReadSubKeyNames k s)
    (lift (λ names r', fades (view s) r' ∧ names = subkey_names p (keys r')))
    (lift (λ e r', fades (view s) r' ∧ lost e)) (lift no_crash).
Proof.
  intros Hk Hno. eapply post_mono; [eapply post_after; [apply ReadSubKeyNames_after|]|..].
  - intros r1 Hr1. apply (ReadSubKeyNames_cases k r1 p).
    + by rewrite (fades_resolve _ _ _ Hr1).
    + by rewrite (sh_refused _ _ (fd_shrinks _ _ Hr1)).
  - by intros names s' (r1 & Hr1 & -> & <- & _).
  - by intros e s' (r1 & Hr1 & <- & ?).
  - done.
Qed.

Lemma DeleteKey_tolerant k sub s base :
  resolve k (view s) = Some base → (ADelete, base ++ split_path sub) ∉ refused (view s) →
  base ++ split_path sub ≠ [] →
  post (DeleteKey k sub s)
    (lift (λ _ r', ∃ r1, fades (view s) r1
                         ∧ r' = set_keys (delete (base ++ split_path sub) (keys r1)) r1
                         ∧ subkey_names (base ++ split_path sub) (keys r1) = []))
    (lift (λ e r', fades (view s) r'
                   ∧ (lost e
                      ∨ (e = Errno_error ENOENT ∧ base ++ split_path sub ∉ dom (keys r'))
                      ∨ subkey_names (base ++ split_path sub) (keys r') ≠ [])))
    (lift no_crash).
Proof.
  intros Hk Hno Hne. eapply post_mono; [eapply post_after; [apply DeleteKey_after|]|..].
  - intros r1 Hr1. apply (DeleteKey_cases k sub r1 base); [|
      by rewrite (sh_refused _ _ (fd_shrinks _ _ Hr1))|done].
    by rewrite (fades_resolve _ _ _ Hr1).
  - intros ? s' (r1 & Hr1 & ? & ?). by exists r1.
  - intros e s' (r1 & Hr1 & <- & [?|[(-> & ? & _)|[_ ?]]]); (split; [done|]); auto.
  - done.
Qed.

(** Closing the held handle gives the table of the call back. *)
Lemma CloseKey_tolerant h target r0 s :
  held h target r0 (view s) →
  post (CloseKey (Opened h) s) (lift (λ _ r', fades r0 r' ∧ shrinks (view s) r'))
       (lift (λ _ _, False)) (lift no_crash).
Proof.
  intros Hh. eapply post_mono;
    [apply (post_after _ (Store.CloseKey (Opened h)) _
              (λ r1 _ r', r' = without_handle h r1) (λ _ _ _, False));
       [apply CloseKey_after|]|..].
  - intros r1 Hr1. by rewrite (CloseKey_held h target r0 r1) by by eapply held_fades.
  - intros ? s' (r1 & Hr1 & Hs'). unfold lift. rewrite Hs'. split.
    + eapply held_close, held_fades; done.
    + etrans; [apply Hr1|apply shrinks_without_handle].
  - by intros e s' (? & _ & ?).
  - done.
Qed.

(** What a call that returns leaves, and what a call that fails leaves. *)
Definition left_ok (target : keypath) (r0 : Registry) : unit → Registry → Prop :=
  λ _ r', fades r0 r' ∧ gone target r'.

Definition left_err (r0 : Registry) : error → Registry → Prop :=
  λ e r', fades r0 r' ∧ errors_Is e ERROR_KEY_DELETED = true.

(** The contract of a call with [fuel] units of fuel. *)
Definition tolerates (fuel : nat) (rec : Key → string → M St unit) : Prop :=
  ∀ k path s base,
    reg_wf (view s) → resolve k (view s) = Some base →
    base ++ split_path path ≠ [] →
    erasable (base ++ split_path path) (view s) →
    0 < fuel → height_below fuel (base ++ split_path path) (view s) →
    post (rec k path s)
      (lift (left_ok (base ++ split_path path) (view s)))
      (lift (left_err (view s))) (lift no_crash).

Lemma CloseKey_ignored h target r0 s E :
  held h target r0 (view s) →
  post (ignore_err (CloseKey (Opened h)) s)
       (lift (λ _ r', fades r0 r' ∧ shrinks (view s) r'))
       E (lift no_crash).
Proof.
  intros Hh. apply post_ignore_err.
  eapply post_mono; [by apply (CloseKey_tolerant h target r0)|done..].
Qed.

(** The open: the key is gone, or a handle is held on it. *)
Lemma erase_open_tolerant k path s base :
  reg_wf (view s) → resolve k (view s) = Some base →
  erasable (base ++ split_path path) (view s) →
  post (erase_open k path s)
    (lift (λ opened r',
       match opened with
       | None => left_ok (base ++ split_path path) (view s) tt r'
       | Some key => ∃ h, key = Opened h ∧ held h (base ++ split_path path) (view s) r'
       end))
    (lift (left_err (view s))) (lift no_crash).
Proof.
  intros Hwf Hk He. unfold erase_open. apply post_bind, post_try.
  eapply post_mono; [apply (OpenKey_tolerant k path s base Hk)|..].
  - apply He; [done|set_solver].
  - intros key s' (r1 & Hr1 & -> & Hs'). simpl. unfold lift. rewrite Hs'.
    eexists. split; [done|]. by apply held_open.
  - intros e s' [Hf [->|[-> Hmiss]]]; simpl; [done|]. split; [done|].
    apply gone_missing; [|done]. by apply Hf.
  - done.
Qed.

(** The final delete, when no subkey is left. *)
Lemma erase_delete_tolerant k path s base :
  reg_wf (view s) → resolve k (view s) = Some base →
  base ++ split_path path ≠ [] →
  erasable (base ++ split_path path) (view s) →
  (∀ c, (base ++ split_path path) ++ [c] ∉ dom (keys (view s))) →
  post (erase_delete k path s)
    (lift (left_ok (base ++ split_path path) (view s)))
    (lift (left_err (view s))) (lift no_crash).
Proof.
  intros Hwf Hk Hne He Hnone. unfold erase_delete. apply post_bind, post_try.
  assert (∀ r', fades (view s) r' → subkey_names (base ++ split_path path) (keys r') = [])
    as Hnil.
  { intros r' Hr'. apply subkey_names_nil. intros c Hc.
    eapply Hnone, shrinks_dom; [apply Hr'|done]. }
  eapply post_mono; [apply (DeleteKey_tolerant k path s base Hk); [|done]|..].
  - apply He; [done|set_solver].
  - intros ? s' (r1 & Hr1 & Hs' & Hn). simpl. unfold lift, left_ok. rewrite Hs'. split.
    + etrans; [done|]. split; [by apply shrinks_delete|done].
    + intros q Hq. simpl. rewrite dom_delete_L. intros [Hin Hne']%elem_of_difference.
      apply Hne', elem_of_singleton. destruct Hq as [[|c t] ->]; [by rewrite app_nil_r|].
      destruct (Hnone c). eapply shrinks_dom; [apply Hr1|].
      eapply wf_prefix; [by apply Hr1|done|]. exists t. by rewrite <-(app_assoc _ [c] t).
  - intros e s' [Hf [->|[[-> Hmiss]|Hsub]]]; simpl; [done| |by destruct Hsub; apply Hnil].
    split; [done|]. apply gone_missing; [|done]. by apply Hf.
  - done.
Qed.

(** The state inside the loop, [r3] being the store that was enumerated:
    the handle is held, and the subkeys [done] are gone. *)
Definition loop_inv (h : nat) (target : keypath) (r0 r3 : Registry)
    (done : list string) (r : Registry) : Prop :=
  held h target r0 r ∧ shrinks r3 r ∧ ∀ c, c ∈ done → gone (target ++ [c]) r.

Section loop.
Context (fuel : nat) (rec : Key → string → M St unit) (Hrec : tolerates fuel rec).
Context (h : nat) (target : keypath) (r0 r3 : Registry).
Context (Hwf : reg_wf r0) (He : erasable target r0).
Context (Hfuel : height_below (S fuel) target r0) (Hr3 : held h target r0 r3).

(** A subkey that was enumerated is less deep than the fuel that is left. *)
Lemma child_fuel c r :
  target ++ [c] ∈ dom (keys r3) → shrinks r0 r →
  0 < fuel ∧ height_below fuel (target ++ [c]) r.
Proof.
  intros Hc Hs. split.
  - assert (target ++ [c] ∈ dom (keys r0)) as Hc0 by (eapply shrinks_dom; [apply Hr3|done]).
    pose proof (Hfuel _ Hc0 (prefix_app_r target target [c] (reflexivity _))) as Hlt.
    rewrite length_app in Hlt. simpl in Hlt. lia.
  - intros q Hq Hpre. assert (length q < length target + S fuel) as Hlt.
    { apply Hfuel; [by eapply shrinks_dom|]. etrans; [by apply prefix_app_r|done]. }
    rewrite length_app. simpl. lia.
Qed.

(** One call of the loop. *)
Lemma erase_child_tolerant path done c s :
  loop_inv h target r0 r3 done (view s) → target ++ [c] ∈ dom (keys r3) →
  post (wrap (Errorf "deleteRegKeyRecursive failed to delete subkey %q of path %q: %w"
                     [c; path])
             (rec (Opened h) c) s)
    (lift (λ _, loop_inv h target r0 r3 (done ++ [c])))
    (lift (λ e r', held h target r0 r' ∧ errors_Is e ERROR_KEY_DELETED = true))
    (lift no_crash).
Proof.
  intros (Hh & Hs & Hdone) Hc. apply post_wrap.
  pose proof (split_path_valid c (wf_child_valid _ _ _ (held_wf _ _ _ _ Hwf Hr3) Hc)) as Hc'.
  destruct (child_fuel c (view s) Hc (held_shrinks _ _ _ _ Hh)) as [Hpos Hheight].
  eapply post_mono; [apply (Hrec (Opened h) c s target)|..]; rewrite ?Hc'.
  - by eapply held_wf.
  - by eapply held_resolve.
  - by destruct target.
  - eapply erasable_shrinks; [apply Hh|]. eapply erasable_below; [|done]. by apply prefix_app_r.
  - done.
  - done.
  - intros ? s' [Hf Hg]. split_and!; [by eapply held_fades|by etrans; [|apply Hf]|].
    intros c' [Hin| ->%list_elem_of_singleton]%elem_of_app; [|done].
    eapply gone_shrinks; [apply Hf|by apply Hdone].
  - intros e s' [Hf Hе]. split; [by eapply held_fades|done].
  - done.
Qed.

(** The loop: when it returns, no subkey is left. *)
Lemma erase_children_tolerant path s :
  view s = r3 →
  post (erase_children rec (Opened h) path (subkey_names target (keys r3)) s)
    (lift (λ _ r', held h target r0 r' ∧ ∀ c, target ++ [c] ∉ dom (keys r')))
    (lift (λ e r', held h target r0 r' ∧ errors_Is e ERROR_KEY_DELETED = true))
    (lift no_crash).
Proof.
  intros Hs. unfold erase_children.
  eapply post_mono; [apply (post_for_each_inv _ _ _
    (λ done s', loop_inv h target r0 r3 done (view s')))|..].
  - unfold loop_inv. rewrite Hs. split_and!; [done|done|]. by intros c ?%elem_of_nil.
  - intros done c s1 [rest Hrest] Hinv. apply erase_child_tolerant; [done|].
    apply elem_of_subkey_names. rewrite Hrest. set_solver.
  - intros ? s' (Hh & Hsh & Hgone). split; [done|]. intros c Hc.
    assert (c ∈ subkey_names target (keys r3)) as Hin.
    { apply elem_of_subkey_names. by eapply shrinks_dom. }
    by apply (Hgone c Hin (target ++ [c])).
  - done.
  - done.
Qed.

End loop.

Section body.
Context (fuel : nat) (rec : Key → string → M St unit) (Hrec : tolerates fuel rec).
Context (h : nat) (target : keypath) (r0 : Registry).
Context (Hwf : reg_wf r0) (He : erasable target r0).
Context (Hfuel : height_below (S fuel) target r0).

(** What the body leaves after the open: the final value of the local
    variable [key] and the result. *)
Definition opened_post (res : Key * (error + unit)) (r : Registry) : Prop :=
  match res.2 with
  | inl e => errors_Is e ERROR_KEY_DELETED = true
             ∧ (res.1 = Opened h ∧ held h target r0 r ∨ res.1 = emptyKey ∧ fades r0 r)
  | inr _ => res.1 = emptyKey ∧ left_ok target r0 tt r
  end.

(** After the loop: the close and the delete. *)
Lemma erase_closing_tolerant k path base s E :
  target = base ++ split_path path → target ≠ [] → resolve k r0 = Some base →
  held h target r0 (view s) → (∀ c, target ++ [c] ∉ dom (keys (view s))) →
  post ((ignore_err (CloseKey (Opened h)) ;;
         del <- try (erase_delete k path) ;; ret (emptyKey, del)) s)
    (lift opened_post) E (lift no_crash).
Proof.
  intros Ht Hne Hk Hh Hnone.
  eapply post_seq; [apply (CloseKey_ignored _ _ _ _ _ Hh)|].
  intros ? s1 [Hf Hs]. cbv beta in Hf, Hs. apply post_bind, post_try.
  eapply post_mono; [apply (erase_delete_tolerant k path s1 base)|..]; rewrite <-?Ht.
  - by apply Hf.
  - by rewrite (fades_resolve _ _ _ Hf).
  - done.
  - eapply erasable_shrinks; [apply Hf|done].
  - intros c Hc. eapply Hnone, shrinks_dom; done.
  - intros ? s' [Hf' Hg]. apply post_ret. unfold lift, opened_post, left_ok. simpl.
    split; [done|]. split; [by etrans|done].
  - intros e s' [Hf' He']. apply post_ret. unfold lift, opened_post. simpl.
    split; [done|]. right. split; [done|by etrans].
  - done.
Qed.

(** From the enumeration to the end of the function. *)
Lemma erase_opened_tolerant k path base s E :
  target = base ++ split_path path → target ≠ [] → resolve k r0 = Some base →
  held h target r0 (view s) →
  post (erase_opened rec k path (Opened h) s)
    (lift opened_post) E (lift no_crash).
Proof.
  intros Ht Hne Hk Hh. unfold erase_opened. apply post_bind, post_try.
  eapply post_mono; [apply (ReadSubKeyNames_tolerant (Opened h) s target)|..].
  - by eapply held_resolve.
  - rewrite (sh_refused _ _ (held_shrinks _ _ _ _ Hh)). apply He; [done|set_solver].
  - intros names s1 [Hf ->]. apply post_bind, post_try.
    eapply post_mono; [eapply (erase_children_tolerant fuel rec Hrec h target r0
                                 (view s1) Hwf He Hfuel); [by eapply held_fades|done]|..].
    + intros ? s2 [Hh2 Hnone]. by apply (erase_closing_tolerant k path base).
    + intros e s2 [Hh2 He2]. apply post_ret. unfold lift, opened_post. simpl. auto.
    + done.
  - intros e s1 [Hf ->]. apply post_ret. unfold lift, opened_post. simpl.
    split; [done|]. left. split; [done|by eapply held_fades].
  - done.
Qed.

(** The deferred function closes the handle when the body left it open. *)
Lemma erase_deferred_tolerant res s E :
  opened_post res (view s) →
  post (erase_deferred res.1 s)
    (lift (λ _ r', fades r0 r' ∧ match res.2 with
                                 | inl e => errors_Is e ERROR_KEY_DELETED = true
                                 | inr _ => gone target r'
                                 end))
    E (lift no_crash).
Proof.
  unfold opened_post, erase_deferred. destruct res as [key [e|[]]]; simpl.
  - intros [He' [[-> Hh]|[-> Hf]]]; simpl; [|done].
    eapply post_mono; [by apply (CloseKey_ignored h target r0)|..]; [|done..].
    by intros ? s' [? _].
  - by intros [-> [? ?]].
Qed.

End body.

(** One level of the function keeps the contract. *)
Lemma erase_body_tolerant fuel rec :
  tolerates fuel rec → tolerates (S fuel) (erase_body rec).
Proof.
  intros Hrec k path s base Hwf Hk Hne He _ Hfuel. unfold erase_body.
  eapply post_seq; [by apply (erase_open_tolerant k path s base)|].
  intros [key|] s1 H; cbv beta in H; [|done]. destruct H as (h & -> & Hh).
  eapply post_seq; [by eapply (erase_opened_tolerant fuel rec Hrec h _ (view s))|].
  intros res s2 Hres. cbv beta in Hres.
  eapply post_seq; [by eapply (erase_deferred_tolerant h _ (view s))|].
  intros ? s3 [Hf Hres']. cbv beta in Hf, Hres'. by destruct (res.2).
Qed.

Lemma deleteRegKeyRecursive_tolerant fuel : tolerates fuel (deleteRegKeyRecursive fuel).
Proof.
  induction fuel as [|fuel IH]; [by intros ???????? ?%Nat.lt_irrefl|].
  by apply erase_body_tolerant.
Qed.

End tolerance.

(** ** Another process that erases *)

(** What [registry.DeleteKey] does for another process: it removes a key
    that exists, is not the root and has no subkey, and nothing else. *)
Definition env_delete (p : keypath) (r : Registry) : Registry :=
  if decide (p ∈ dom (keys r) ∧ p ≠ [] ∧ subkey_names p (keys r) = [])
  then set_keys (delete p (keys r)) r
  else r.

Lemma env_delete_fades p r : fades r (env_delete p r).
Proof.
  unfold env_delete. case_decide as H; [|done]. destruct H as (_ & ? & ?).
  split; [by apply shrinks_delete|done].
Qed.

Lemma moved_fades r r' : moved env_delete r r' → fades r r'.
Proof.
  intros [batch ->]. revert r. induction batch as [|p batch IH]; intros r; simpl; [done|].
  etrans; [apply env_delete_fades|apply IH].
Qed.

(** ** The theorems *)

(** C17.  Tolerance of lost races.  Whatever keys other processes delete
    between the calls of [deleteRegKeyRecursive], and whenever they do it,
    the function returns on every path when the store is well formed,
    refuses nothing at or below the target and the fuel is more than the
    height of the subtree.  When it returns without error the subtree of
    the target is gone; when it returns an error, the error is that of an
    operation on a handle whose key another process deleted, wrapped once
    for each level it passed.  On both paths every handle the function
    opened is closed, and no key was created or changed. *)
Theorem deleteRegKeyRecursive_races fuel k path r (schedule : list (list keypath)) base :
  reg_wf r → resolve k r = Some base →
  base ++ split_path path ≠ [] → erasable (base ++ split_path path) r →
  0 < fuel → height_below fuel (base ++ split_path path) r →
  post (deleteRegKeyRecursive (ops := Racy_ops env_delete) fuel k path (mkRacy r schedule))
    (λ _ s', fades r (store s') ∧ gone (base ++ split_path path) (store s'))
    (λ e s', fades r (store s') ∧ errors_Is e ERROR_KEY_DELETED = true)
    (λ _ _, False).
Proof.
  intros. by apply (deleteRegKeyRecursive_tolerant (itf := Racy_interfered env_delete)
                      moved_fades fuel k path (mkRacy r schedule) base).
Qed.

(** ** Runs *)

(** The path of [Software\Foo\c] in the sample store. *)
Definition sample_leaf : keypath := ["Software"; "Foo"; "c"].

(** Another process deletes the key after this one closed its handle and
    before it deletes: the delete finds nothing, and the call succeeds. *)
Example lost_race_at_delete :
  is_Ok (deleteRegKeyRecursive (ops := Racy_ops env_delete) 1 CURRENT_USER "Software\Foo\c"
           (mkRacy sample_registry [[]; []; []; [sample_leaf]])) = true.
Proof. by vm_compute. Qed.

(** The error of a run and the handles it leaves open. *)
Definition failure {A B} (o : Outcome (Racy A) B) : option (error * list nat) :=
  match o with
  | Err e s => Some (root_cause e, elements (dom (handles (store s))))
  | _ => None
  end.

(** Another process deletes the key after this one opened it and before it
    enumerates: the enumeration fails on the handle, and the call returns
    an error although the key is gone. *)
Example lost_race_at_enumeration :
  failure (deleteRegKeyRecursive (ops := Racy_ops env_delete) 1 CURRENT_USER "Software\Foo\c"
             (mkRacy sample_registry [[]; [sample_leaf]]))
  = Some (Errno_error ERROR_KEY_DELETED, []).
Proof. by vm_compute. Qed.

(** What another process may do when it also creates keys. *)
Inductive EnvAct :=
| EnvDelete (p : keypath)
| EnvCreate (p : keypath).

Definition env_act (a : EnvAct) (r : Registry) : Registry :=
  match a with
  | EnvDelete p => env_delete p r
  | EnvCreate p => set_keys (keys r ∪ fresh_keys p) r
  end.

(** Another process creates a subkey after this one enumerated: the key is
    not empty when it is deleted, and the call fails. *)
Example race_with_creator :
  failure (deleteRegKeyRecursive (ops := Racy_ops env_act) 1 CURRENT_USER "Software\Foo\c"
             (mkRacy sample_registry [[]; []; [EnvCreate (sample_leaf ++ ["new"])]]))
  = Some (Errno_error ERROR_ACCESS_DENIED, []).
Proof. by vm_compute. Qed.

Lemma deleteRegKeyRecursive_races_witness :
  post (deleteRegKeyRecursive (ops := Racy_ops env_delete) 3 CURRENT_USER "Software\Foo"
          (mkRacy sample_registry [[]; [sample_leaf]; [["Software"; "Foo"; "a"; "b"]]]))
    (λ _ s', fades sample_registry (store s') ∧ gone ["Software"; "Foo"] (store s'))
    (λ e s', fades sample_registry (store s') ∧ errors_Is e ERROR_KEY_DELETED = true)
    (λ _ _, False).
Proof.
  apply (deleteRegKeyRecursive_races 3 CURRENT_USER "Software\Foo" sample_registry _ []);
    [apply sample_registry_wf|done|done|by_compute|lia|by_compute].
Defined.
