(* ===== verification/Manifest.v ===== *)
(** * The manifest: [ContextMenu], [ContextMenuType], [Manifest]
    (main.go:185-205)

    A Go map is modelled as the list of its entries in the order one run
    iterates them; the keys of a map are distinct, which [menu_wf] records.
    A map entry is a pointer, so it can be nil: [None].  [Type] is a string,
    as in the source: the decoder accepts any string, and the program
    compares it with ["folder"] only. *)

From Stdlib Require Import Ascii.
From stdpp Require Import gmap strings list.
From S2P Require Import Prelude GoStrings.

(** main.go:196-201 *)
Definition ContextMenuType : Type := string.
Definition ContextMenuType_Item : ContextMenuType := "item".
Definition ContextMenuType_Folder : ContextMenuType := "folder".

(** main.go:185-194.  The field [Type] is named [Type_] because [Type] is a
    keyword. *)
#[local] Unset Elimination Schemes.
Inductive ContextMenu := mkContextMenu {
  Type_ : ContextMenuType;
  Title : string;
  IconPath : string;
  IconIndex : option Z;
  Extended : bool;
  Admin : bool;
  Command : list string;
  Items : list (string * option ContextMenu);
}.
#[local] Set Elimination Schemes.

(** main.go:203-205 *)
Record Manifest := mkManifest {
  manifest_Items : list (string * option ContextMenu);
}.

(** An entry with no field set: what the decoder makes of [{}]. *)
Definition zero_ContextMenu : ContextMenu :=
  mkContextMenu EmptyString EmptyString EmptyString None false false [] [].

(** ** Induction over the tree *)

(** The number of entries of a tree, nil entries included. *)
Fixpoint menu_size (c : ContextMenu) : nat :=
  S (list_sum ((λ e, match e.2 with Some c' => menu_size c' | None => 1 end)
               <$> Items c)).

Definition entries_size (l : list (string * option ContextMenu)) : nat :=
  list_sum ((λ e, match e.2 with Some c' => menu_size c' | None => 1 end) <$> l).

(** Induction on a tree with the hypothesis for every non-nil child. *)
Lemma ContextMenu_tree_ind (P : ContextMenu → Prop) :
  (∀ c, (∀ id c', (id, Some c') ∈ Items c → P c') → P c) → ∀ c, P c.
Proof.
  intros Hstep.
  cut (∀ n c, menu_size c ≤ n → P c); [intros H c; by apply (H (menu_size c))|].
  induction n as [|n IH]; intros [t ti ip ii ex ad cmd items] Hn; simpl in Hn; [lia|].
  apply Hstep. simpl. intros id c' Hin. apply IH.
  assert (menu_size c' ≤ entries_size items); [|unfold entries_size in *; lia].
  clear -Hin. induction items as [|e items IH]; [by apply elem_of_nil in Hin|].
  unfold entries_size in *. rewrite fmap_cons. simpl.
  apply elem_of_cons in Hin as [<-|Hin]; simpl; [lia|]. specialize (IH Hin). lia.
Qed.

(** ** Well-formed manifests *)

(** Every identifier is a valid key name, the identifiers of siblings are
    distinct, and no entry is nil. *)
Fixpoint menu_wfb (c : ContextMenu) : bool :=
  bool_decide (NoDup (Items c).*1)
  && forallb (λ e, bool_decide (valid_seg e.1)
                   && match e.2 with Some c' => menu_wfb c' | None => false end)
             (Items c).

Definition entries_wfb (l : list (string * option ContextMenu)) : bool :=
  bool_decide (NoDup l.*1)
  && forallb (λ e, bool_decide (valid_seg e.1)
                   && match e.2 with Some c' => menu_wfb c' | None => false end) l.

Definition menu_wf (c : ContextMenu) : Prop := menu_wfb c = true.
Definition entries_wf (l : list (string * option ContextMenu)) : Prop :=
  entries_wfb l = true.

Lemma menu_wfb_unfold c : menu_wfb c = entries_wfb (Items c).
Proof. by destruct c. Qed.

Lemma entries_wf_NoDup l : entries_wf l → NoDup l.*1.
Proof. intros [H _]%andb_prop. by apply bool_decide_eq_true in H. Qed.

Lemma entries_wf_elem l id o :
  entries_wf l → (id, o) ∈ l → valid_seg id ∧ ∃ c, o = Some c ∧ menu_wf c.
Proof.
  intros [_ H]%andb_prop Hin. rewrite forallb_forall in H.
  apply list_elem_of_In, H in Hin. apply andb_prop in Hin as [Hid Hc]. simpl in *.
  apply bool_decide_eq_true in Hid. split; [done|].
  destruct o as [c|]; [by exists c|done].
Qed.

Lemma menu_wf_children c id o :
  menu_wf c → (id, o) ∈ Items c → valid_seg id ∧ ∃ c', o = Some c' ∧ menu_wf c'.
Proof. unfold menu_wf. rewrite menu_wfb_unfold. apply entries_wf_elem. Qed.

Lemma entries_wf_cons id o l :
  entries_wf ((id, o) :: l) →
  valid_seg id ∧ (∃ c, o = Some c ∧ menu_wf c) ∧ entries_wf l.
Proof.
  intros H. destruct (entries_wf_elem _ id o H) as [Hid Hc]; [by left|].
  split; [done|split; [done|]]. apply andb_prop in H as [Hnd Hall].
  apply andb_true_intro. split.
  - apply bool_decide_eq_true in Hnd. apply bool_decide_eq_true. by apply NoDup_cons in Hnd as [_ ?].
  - simpl in Hall. by apply andb_prop in Hall as [_ ?].
Qed.

(** [entries_wf], as propositions. *)
Lemma entries_wf_spec l :
  entries_wf l ↔
  NoDup l.*1 ∧ Forall (λ e, valid_seg e.1 ∧ ∃ c, e.2 = Some c ∧ menu_wf c) l.
Proof.
  unfold entries_wf, entries_wfb. rewrite andb_true_iff, bool_decide_eq_true.
  apply and_iff_compat_l. rewrite forallb_forall, Forall_forall.
  apply forall_proper. intros [id o]. rewrite <-list_elem_of_In. apply forall_proper.
  intros _. simpl. rewrite andb_true_iff, bool_decide_eq_true. apply and_iff_compat_l.
  destruct o as [c|]; [|split; [done|by intros (? & ? & _)]].
  split; [by exists c|]. by intros (? & [= <-] & ?).
Qed.

(** A map is well formed whatever the order of its entries. *)
Lemma entries_wf_permutation l l' : l ≡ₚ l' → entries_wf l → entries_wf l'.
Proof. intros Hp. rewrite !entries_wf_spec. by rewrite Hp. Qed.

Lemma entries_wf_no_nil l id : entries_wf l → (id, None) ∉ l.
Proof. intros Hwf Hin. by destruct (entries_wf_elem l id None Hwf Hin) as [_ (? & ? & _)]. Qed.

(** ** Named manifests *)

(** Every identifier is a valid key name and no entry is nil, at every
    level: what is left of [entries_wf] for a manifest that comes out of
    the decoder, where the identifiers of siblings are distinct as the keys
    of a Go map are. *)
Fixpoint menu_named (c : ContextMenu) : bool :=
  forallb (λ e, bool_decide (valid_seg e.1)
                && match e.2 with Some c' => menu_named c' | None => false end)
          (Items c).

Definition entries_named (l : list (string * option ContextMenu)) : bool :=
  forallb (λ e, bool_decide (valid_seg e.1)
                && match e.2 with Some c' => menu_named c' | None => false end) l.

Lemma menu_named_unfold c : menu_named c = entries_named (Items c).
Proof. by destruct c. Qed.

(** Distinct identifiers and names make a well-formed map, when they make
    well-formed children. *)
Lemma entries_named_wf (fit : ContextMenu → bool) l :
  (∀ id c, (id, Some c) ∈ l → fit c = true → menu_named c = true → menu_wf c) →
  NoDup l.*1 →
  forallb (λ e, match e.2 with Some c' => fit c' | None => true end) l = true →
  entries_named l = true → entries_wf l.
Proof.
  intros IH Hnd Hfit Hn. apply entries_wf_spec. split; [done|].
  apply Forall_forall. intros [id o] Hin.
  unfold entries_named in Hn. rewrite forallb_forall in Hfit, Hn.
  pose proof Hin as Hin'. apply list_elem_of_In in Hin'.
  specialize (Hfit _ Hin'). apply Hn, andb_prop in Hin' as [Hid Ho]. simpl in *.
  apply bool_decide_eq_true in Hid. split; [done|].
  destruct o as [c|]; [|done]. exists c. split; [done|]. by eapply IH.
Qed.

(** ** What a tree can ask of the run *)

(** Some item of the tree asks for elevation. *)
Fixpoint elevated (c : ContextMenu) : bool :=
  if decide (Type_ c = ContextMenuType_Folder) then
    existsb (λ e, match e.2 with Some c' => elevated c' | None => false end) (Items c)
  else Admin c.

(** Some entry of a folder of the tree is nil. *)
Fixpoint has_nil (c : ContextMenu) : bool :=
  if decide (Type_ c = ContextMenuType_Folder) then
    existsb (λ e, match e.2 with Some c' => has_nil c' | None => true end) (Items c)
  else false.

Definition entry_elevated (o : option ContextMenu) : bool :=
  match o with Some c => elevated c | None => false end.

Definition entry_has_nil (o : option ContextMenu) : bool :=
  match o with Some c => has_nil c | None => true end.

Definition entries_elevated (l : list (string * option ContextMenu)) : bool :=
  existsb (λ e, entry_elevated e.2) l.

Definition entries_has_nil (l : list (string * option ContextMenu)) : bool :=
  existsb (λ e, entry_has_nil e.2) l.

Lemma elevated_item c : Type_ c ≠ ContextMenuType_Folder → elevated c = Admin c.
Proof. intros H. destruct c. simpl in *. by rewrite decide_False. Qed.

Lemma elevated_folder c :
  Type_ c = ContextMenuType_Folder → elevated c = entries_elevated (Items c).
Proof. intros H. destruct c. simpl in *. by rewrite decide_True. Qed.

Lemma has_nil_folder c :
  Type_ c = ContextMenuType_Folder → has_nil c = entries_has_nil (Items c).
Proof. intros H. destruct c. simpl in *. by rewrite decide_True. Qed.

Lemma entries_elevated_elem l id o :
  (id, o) ∈ l → entry_elevated o = true → entries_elevated l = true.
Proof. intros Hin Ho. apply existsb_exists. exists (id, o). by rewrite <-list_elem_of_In. Qed.

Lemma entries_has_nil_elem l id o :
  (id, o) ∈ l → entry_has_nil o = true → entries_has_nil l = true.
Proof. intros Hin Ho. apply existsb_exists. exists (id, o). by rewrite <-list_elem_of_In. Qed.

Lemma elevated_child c id c' :
  Type_ c = ContextMenuType_Folder → (id, Some c') ∈ Items c →
  elevated c' = true → elevated c = true.
Proof. intros H Hin He. rewrite elevated_folder by done. by eapply entries_elevated_elem. Qed.

(** A well-formed map has no nil entry at any depth. *)
Lemma menu_wf_no_nil c : menu_wf c → has_nil c = false.
Proof.
  induction c as [c IH] using ContextMenu_tree_ind. intros Hwf.
  destruct (decide (Type_ c = ContextMenuType_Folder)) as [Hf|Hf];
    [|destruct c; simpl in *; by rewrite decide_False].
  rewrite has_nil_folder by done. apply not_true_is_false.
  intros ([id o] & Hin & Ho)%existsb_exists. apply list_elem_of_In in Hin.
  destruct (menu_wf_children c id o Hwf Hin) as [_ (c' & -> & Hwf')].
  simpl in Ho. rewrite (IH id c') in Ho; done.
Qed.

Lemma entries_wf_no_nil_deep l : entries_wf l → entries_has_nil l = false.
Proof.
  intros Hwf. apply not_true_is_false.
  intros ([id o] & Hin & Ho)%existsb_exists. apply list_elem_of_In in Hin.
  destruct (entries_wf_elem l id o Hwf Hin) as [_ (c' & -> & Hwf')].
  simpl in Ho. by rewrite menu_wf_no_nil in Ho.
Qed.
