(* ===== verification/Decode.v ===== *)
(** * Decoding the manifest

    [run] hands the bytes of the manifest to [json.Unmarshal] at the type
    [Manifest] (main.go:99).  The library is not part of the repository;
    what it does with a document is fixed by the types of main.go:185-205
    and their field tags, and this file models it from the documentation of
    encoding/json, on documents that are already parsed: [json] is the tree
    of a document, [Unmarshal] the decoding of a tree into a [Manifest].

    The rules: a key of an object selects the field whose tag it equals,
    or else equals up to the case of ASCII letters; a key that selects no
    field is skipped; [null] leaves a string or a boolean as it is and
    makes a pointer, a slice or a map nil; a value of the wrong kind is an
    error; a key that comes twice is decoded twice, into the same field.
    The first error in the order of the document is the result.  Not
    modelled: the text of the errors beyond the kind of the value and the
    Go type, and the letters outside ASCII that fold to ASCII letters. *)

From Stdlib Require Import Ascii.
From stdpp Require Import gmap strings list.
From S2P Require Import Prelude GoStrings GoErrors Manifest.

(** ** Documents *)

(** The tree of a JSON document.  Members of an object are in the order of
    the document and can repeat a key.  [JNumber n] is a number written as
    an integer, [JFraction] a number written with a fraction or an
    exponent. *)
#[local] Unset Elimination Schemes.
Inductive json :=
| JNull
| JBool (b : bool)
| JNumber (n : Z)
| JFraction
| JString (s : string)
| JArray (elems : list json)
| JObject (members : list (string * json)).
#[local] Set Elimination Schemes.

(** The name of the kind of a value in the errors of the library. *)
Definition kind_of (v : json) : string :=
  match v with
  | JNull => "null"
  | JBool _ => "bool"
  | JNumber _ | JFraction => "number"
  | JString _ => "string"
  | JArray _ => "array"
  | JObject _ => "object"
  end.

(** [json.UnmarshalTypeError]. *)
Definition type_error (v : json) (ty : string) : error :=
  ErrOther ("json: cannot unmarshal " +:+ kind_of v +:+ " into Go value of type " +:+ ty).

(** ** Fields *)

(** The fields of [ContextMenu], main.go:186-193, by their tags. *)
Inductive field :=
| F_type | F_title | F_iconPath | F_iconIndex | F_extended | F_admin | F_command | F_items.

#[export] Instance field_eq_dec : EqDecision field.
Proof. solve_decision. Defined.

Definition fields : list field :=
  [F_type; F_title; F_iconPath; F_iconIndex; F_extended; F_admin; F_command; F_items].

Definition field_name (f : field) : string :=
  match f with
  | F_type => "type"
  | F_title => "title"
  | F_iconPath => "iconPath"
  | F_iconIndex => "iconIndex"
  | F_extended => "extended"
  | F_admin => "admin"
  | F_command => "command"
  | F_items => "items"
  end.

(** An ASCII letter in lower case. *)
Definition lower (c : ascii) : ascii :=
  let n := nat_of_ascii c in
  if bool_decide (65 ≤ n ≤ 90) then ascii_of_nat (n + 32) else c.

Fixpoint fold_case (s : string) : string :=
  match s with
  | EmptyString => EmptyString
  | String c s' => String (lower c) (fold_case s')
  end.

(** The field a key selects among [fs] by their names: an exact match
    first, a match up to case otherwise. *)
Definition select {F} (name : F → string) (fs : list F) (key : string) : option F :=
  match find (λ f, bool_decide (name f = key)) fs with
  | Some f => Some f
  | None => find (λ f, bool_decide (fold_case (name f) = fold_case key)) fs
  end.

(** ** Values of the field types *)

(** The width of Go's [int] on the 64-bit targets. *)
Definition int_bits : Z := 64.

Definition int_range (n : Z) : Prop := (- 2 ^ (int_bits - 1) ≤ n < 2 ^ (int_bits - 1))%Z.

#[export] Instance int_range_dec n : Decision (int_range n).
Proof. unfold int_range. apply _. Defined.

(** [string] and [ContextMenuType]. *)
Definition decode_string (ty : string) (v : json) (old : string) : error + string :=
  match v with
  | JNull => inr old
  | JString s => inr s
  | _ => inl (type_error v ty)
  end.

(** [bool] *)
Definition decode_bool (v : json) (old : bool) : error + bool :=
  match v with
  | JNull => inr old
  | JBool b => inr b
  | _ => inl (type_error v "bool")
  end.

(** [*int] *)
Definition decode_int_ptr (v : json) : error + option Z :=
  match v with
  | JNull => inr None
  | JNumber n => if decide (int_range n) then inr (Some n) else inl (type_error v "int")
  | _ => inl (type_error v "int")
  end.

(** The elements of an array into a slice of strings: the element at an
    index the slice had is decoded into the element that was there. *)
Fixpoint decode_elems (elems : list json) (old : list string) : error + list string :=
  match elems with
  | [] => inr []
  | v :: elems' =>
      match decode_string "string" v (hd EmptyString old) with
      | inl err => inl err
      | inr s =>
          match decode_elems elems' (tail old) with
          | inl err => inl err
          | inr l => inr (s :: l)
          end
      end
  end.

(** [[]string] *)
Definition decode_strings (v : json) (old : list string) : error + list string :=
  match v with
  | JNull => inr []
  | JArray elems => decode_elems elems old
  | _ => inl (type_error v "[]string")
  end.

(** ** Maps of entries *)

(** [m[id] = o] on a Go map: the entry of [id] is replaced where it is, a
    new one is added. *)
Fixpoint map_set {A} (id : string) (o : A) (m : list (string * A)) : list (string * A) :=
  match m with
  | [] => [(id, o)]
  | e :: m' => if decide (e.1 = id) then (id, o) :: m' else e :: map_set id o m'
  end.

Section entries.
Context (decode : json → error + option ContextMenu).

(** The members of an object into a map of entries. *)
Fixpoint decode_members (members : list (string * json))
    (m : list (string * option ContextMenu))
    : error + list (string * option ContextMenu) :=
  match members with
  | [] => inr m
  | e :: members' =>
      match decode e.2 with
      | inl err => inl err
      | inr o => decode_members members' (map_set e.1 o m)
      end
  end.

(** [map[string]*ContextMenu]: an object is decoded into the map that is
    there. *)
Definition decode_map (v : json) (old : list (string * option ContextMenu))
    : error + list (string * option ContextMenu) :=
  match v with
  | JNull => inr []
  | JObject members => decode_members members old
  | _ => inl (type_error v "map[string]*main.ContextMenu")
  end.

(** One member of an object into the field it selects. *)
Definition set_field (f : field) (v : json) (c : ContextMenu) : error + ContextMenu :=
  match f with
  | F_type =>
      and_then (decode_string "main.ContextMenuType" v (Type_ c)) (λ x, inr
          (mkContextMenu x (Title c) (IconPath c) (IconIndex c) (Extended c) (Admin c)
                         (Command c) (Items c)))
  | F_title =>
      and_then (decode_string "string" v (Title c)) (λ x, inr
          (mkContextMenu (Type_ c) x (IconPath c) (IconIndex c) (Extended c) (Admin c)
                         (Command c) (Items c)))
  | F_iconPath =>
      and_then (decode_string "string" v (IconPath c)) (λ x, inr
          (mkContextMenu (Type_ c) (Title c) x (IconIndex c) (Extended c) (Admin c)
                         (Command c) (Items c)))
  | F_iconIndex =>
      and_then (decode_int_ptr v) (λ x, inr
          (mkContextMenu (Type_ c) (Title c) (IconPath c) x (Extended c) (Admin c)
                         (Command c) (Items c)))
  | F_extended =>
      and_then (decode_bool v (Extended c)) (λ x, inr
          (mkContextMenu (Type_ c) (Title c) (IconPath c) (IconIndex c) x (Admin c)
                         (Command c) (Items c)))
  | F_admin =>
      and_then (decode_bool v (Admin c)) (λ x, inr
          (mkContextMenu (Type_ c) (Title c) (IconPath c) (IconIndex c) (Extended c) x
                         (Command c) (Items c)))
  | F_command =>
      and_then (decode_strings v (Command c)) (λ x, inr
          (mkContextMenu (Type_ c) (Title c) (IconPath c) (IconIndex c) (Extended c)
                         (Admin c) x (Items c)))
  | F_items =>
      and_then (decode_map v (Items c)) (λ x, inr
          (mkContextMenu (Type_ c) (Title c) (IconPath c) (IconIndex c) (Extended c)
                         (Admin c) (Command c) x))
  end.

(** The members of an object into a [ContextMenu]. *)
Fixpoint decode_fields (members : list (string * json)) (c : ContextMenu)
    : error + ContextMenu :=
  match members with
  | [] => inr c
  | e :: members' =>
      match select field_name fields e.1 with
      | None => decode_fields members' c
      | Some f =>
          match set_field f e.2 c with
          | inl err => inl err
          | inr c' => decode_fields members' c'
          end
      end
  end.

End entries.

(** [*ContextMenu], the type of a map entry: [null] is the nil pointer, an
    object is decoded into a new [ContextMenu]. *)
Fixpoint decode_entry (v : json) : error + option ContextMenu :=
  match v with
  | JNull => inr None
  | JObject members =>
      and_then (decode_fields decode_entry members zero_ContextMenu) (λ c, inr (Some c))
  | _ => inl (type_error v "main.ContextMenu")
  end.

(** The fields of [Manifest], main.go:204. *)
Inductive manifest_field := MF_items.

Definition manifest_field_name (f : manifest_field) : string := "items".

Fixpoint decode_manifest_fields (members : list (string * json)) (m : Manifest)
    : error + Manifest :=
  match members with
  | [] => inr m
  | e :: members' =>
      match select manifest_field_name [MF_items] e.1 with
      | None => decode_manifest_fields members' m
      | Some MF_items =>
          match decode_map decode_entry e.2 (manifest_Items m) with
          | inl err => inl err
          | inr items => decode_manifest_fields members' (mkManifest items)
          end
      end
  end.

(** [json.Unmarshal(data, &manifest)] for the document [v], with
    [manifest] the zero value as at main.go:90. *)
Definition Unmarshal (v : json) : error + Manifest :=
  match v with
  | JNull => inr (mkManifest [])
  | JObject members => decode_manifest_fields members (mkManifest [])
  | _ => inl (type_error v "main.Manifest")
  end.

(** ** The document of a manifest

    What [json.Marshal] writes for a manifest, by the same tags: every
    field under its tag, the fields marked [omitempty] (main.go:189, 192,
    193) left out when they are nil or empty.  The program never encodes;
    the encoder states what documents the decoder reads back. *)

Section encode.
Context (encode : ContextMenu → json).

Definition encode_entries (l : list (string * option ContextMenu)) : list (string * json) :=
  (λ e, (e.1, match e.2 with Some c => encode c | None => JNull end)) <$> l.

Definition encode_fields (c : ContextMenu) : list (string * json) :=
  [(field_name F_type, JString (Type_ c)); (field_name F_title, JString (Title c));
   (field_name F_iconPath, JString (IconPath c))]
  ++ match IconIndex c with
     | Some i => [(field_name F_iconIndex, JNumber i)]
     | None => []
     end
  ++ [(field_name F_extended, JBool (Extended c)); (field_name F_admin, JBool (Admin c))]
  ++ match Command c with
     | [] => []
     | _ :: _ => [(field_name F_command, JArray (JString <$> Command c))]
     end
  ++ match Items c with
     | [] => []
     | _ :: _ => [(field_name F_items, JObject (encode_entries (Items c)))]
     end.

End encode.

Fixpoint encode_menu (c : ContextMenu) : json := JObject (encode_fields encode_menu c).

Definition Marshal (m : Manifest) : json :=
  JObject [("items", JObject (encode_entries encode_menu (manifest_Items m)))].

(** What a document can hold: the identifiers of siblings are distinct, nil
    entries included, and every icon index is an [int]. *)
Fixpoint encodable (c : ContextMenu) : bool :=
  bool_decide (NoDup (Items c).*1)
  && match IconIndex c with Some i => bool_decide (int_range i) | None => true end
  && forallb (λ e, match e.2 with Some c' => encodable c' | None => true end) (Items c).

Definition entries_encodable (l : list (string * option ContextMenu)) : bool :=
  bool_decide (NoDup l.*1)
  && forallb (λ e, match e.2 with Some c' => encodable c' | None => true end) l.

(** ** Lemmas *)

Lemma and_then_inr {A B} (r : error + A) (k : A → error + B) a :
  r = inr a → and_then r k = k a.
Proof. by intros ->. Qed.

Lemma select_field_name f : select field_name fields (field_name f) = Some f.
Proof. by destruct f. Qed.

Lemma lower_idemp c : lower (lower c) = lower c.
Proof.
  unfold lower at 2. cbv zeta. case_bool_decide as E; [|done].
  unfold lower. cbv zeta. rewrite nat_ascii_embedding by lia.
  rewrite bool_decide_false by lia. by rewrite bool_decide_true.
Qed.

Lemma fold_case_idemp s : fold_case (fold_case s) = fold_case s.
Proof.
  induction s as [|c s IH]; simpl; [done|]. rewrite IH. f_equal. apply lower_idemp.
Qed.

(** A key selects a field only when it is the tag of the field up to the
    case of letters. *)
Lemma select_Some {F} (name : F → string) fs key f :
  select name fs key = Some f → f ∈ fs ∧ fold_case (name f) = fold_case key.
Proof.
  unfold select. destruct (find _ fs) as [f'|] eqn:E.
  - intros [= ->]. apply find_some in E as [Hin Hf]. apply bool_decide_eq_true in Hf.
    rewrite <-list_elem_of_In in Hin. by rewrite Hf.
  - intros [Hin Hf]%find_some. apply bool_decide_eq_true in Hf.
    by rewrite <-list_elem_of_In in Hin.
Qed.

Section decoding.
Context (decode : json → error + option ContextMenu).
Implicit Types (c : ContextMenu) (m : list (string * option ContextMenu)).

Lemma decode_fields_cons f v members c :
  decode_fields decode ((field_name f, v) :: members) c
  = and_then (set_field decode f v c) (decode_fields decode members).
Proof. simpl. by rewrite select_field_name. Qed.

Lemma decode_fields_app fs1 fs2 c :
  decode_fields decode (fs1 ++ fs2) c
  = and_then (decode_fields decode fs1 c) (decode_fields decode fs2).
Proof.
  revert c. induction fs1 as [|e fs1 IH]; intros c; simpl; [done|].
  destruct (select _ _ _); [|done]. by destruct (set_field _ _ _ _).
Qed.

(** A key that is no tag, whatever the case of its letters, is skipped. *)
Lemma decode_fields_unknown key v members c :
  select field_name fields key = None →
  decode_fields decode ((key, v) :: members) c = decode_fields decode members c.
Proof. simpl. by intros ->. Qed.

Lemma decode_elems_strings l old : decode_elems (JString <$> l) old = inr l.
Proof.
  revert old. induction l as [|s l IH]; intros old; simpl; [done|]. by rewrite IH.
Qed.

Lemma map_set_fresh {A} id (o : A) (l : list (string * A)) :
  id ∉ l.*1 → map_set id o l = l ++ [(id, o)].
Proof.
  induction l as [|e l IH]; simpl; [done|]. intros [Hne Hl]%not_elem_of_cons.
  rewrite decide_False by done. by rewrite IH.
Qed.

Lemma map_set_keys {A} id (o : A) (l : list (string * A)) :
  id ∈ l.*1 → (map_set id o l).*1 = l.*1.
Proof.
  induction l as [|e l IH]; simpl; [by intros ?%elem_of_nil|].
  case_decide as He; [by rewrite <-He|]. intros [?|?]%elem_of_cons; [done|].
  rewrite fmap_cons. by rewrite IH.
Qed.

(** The members written for a map with distinct identifiers are read back
    in their order, after the entries that were there. *)
Lemma decode_members_encoded encode l m :
  (∀ id o, (id, o) ∈ l →
     decode (match o with Some c => encode c | None => JNull end) = inr o) →
  NoDup (m.*1 ++ l.*1) →
  decode_members decode (encode_entries encode l) m = inr (m ++ l).
Proof.
  revert m. induction l as [|[id o] l IH]; intros m Hdec Hnd; simpl.
  { by rewrite app_nil_r. }
  rewrite (Hdec id o) by by left.
  pose proof Hnd as (_ & Hml & _)%NoDup_app.
  rewrite map_set_fresh by (intros Hin; apply (Hml _ Hin); by left).
  rewrite IH, <-app_assoc; [done|intros id' o' Hin; apply (Hdec id'); by right|].
  by rewrite fmap_app, <-app_assoc.
Qed.

End decoding.

(** ** Round trip *)

Lemma encodable_NoDup c : encodable c = true → NoDup (Items c).*1.
Proof. destruct c. simpl. intros [[H _]%andb_prop _]%andb_prop. by apply bool_decide_eq_true in H. Qed.

Lemma encodable_int c i : encodable c = true → IconIndex c = Some i → int_range i.
Proof.
  destruct c. simpl. intros [[_ H]%andb_prop _]%andb_prop ->.
  by apply bool_decide_eq_true in H.
Qed.

Lemma encodable_child c id c' :
  encodable c = true → (id, Some c') ∈ Items c → encodable c' = true.
Proof.
  destruct c. simpl. intros [_ H]%andb_prop Hin.
  rewrite forallb_forall in H. rewrite list_elem_of_In in Hin. apply (H _ Hin).
Qed.

Section roundtrip.
Context (decode : json → error + option ContextMenu).

Ltac member := rewrite decode_fields_cons; cbn [set_field decode_string decode_bool
  decode_int_ptr decode_strings decode_map and_then Type_ Title IconPath IconIndex
  Extended Admin Command Items zero_ContextMenu].

(** The members written for an entry are read back as the entry, when the
    members written for its children are. *)
Lemma decode_fields_encoded c :
  (∀ id o, (id, o) ∈ Items c →
     decode (match o with Some c' => encode_menu c' | None => JNull end) = inr o) →
  NoDup (Items c).*1 → (∀ i, IconIndex c = Some i → int_range i) →
  decode_fields decode (encode_fields encode_menu c) zero_ContextMenu = inr c.
Proof.
  destruct c as [t ti ip ii ex ad cmd items]. intros Hdec Hnd Hint.
  cbn [Items IconIndex] in *. unfold encode_fields.
  cbn [Type_ Title IconPath IconIndex Extended Admin Command Items app].
  do 3 member.
  assert (∀ c0 rest,
    decode_fields decode (match ii with
                          | Some i => [(field_name F_iconIndex, JNumber i)]
                          | None => []
                          end ++ rest) (mkContextMenu t ti ip None false false c0 [])
    = decode_fields decode rest (mkContextMenu t ti ip ii false false c0 [])) as ->.
  { intros c0 rest. destruct ii as [i|]; [|done]. cbn [app]. member.
    by rewrite decide_True by by apply Hint. }
  cbn [app]. do 2 member.
  assert (decode_fields decode (match cmd with
                                | [] => []
                                | _ :: _ => [(field_name F_command, JArray (JString <$> cmd))]
                                end ++ match items with
                                       | [] => []
                                       | _ :: _ => [(field_name F_items,
                                                     JObject (encode_entries encode_menu items))]
                                       end) (mkContextMenu t ti ip ii ex ad [] [])
          = decode_fields decode (match items with
                                  | [] => []
                                  | _ :: _ => [(field_name F_items,
                                                JObject (encode_entries encode_menu items))]
                                  end) (mkContextMenu t ti ip ii ex ad cmd [])) as ->.
  { destruct cmd as [|s cmd]; [done|]. cbn [app]. member. by rewrite decode_elems_strings. }
  destruct items as [|e items]; [done|]. member.
  by rewrite (decode_members_encoded decode encode_menu (e :: items) []).
Qed.

End roundtrip.

Lemma decode_entry_unfold members :
  decode_entry (JObject members)
  = and_then (decode_fields decode_entry members zero_ContextMenu) (λ c, inr (Some c)).
Proof. done. Qed.

(** Every entry that a document can hold is read back from its document. *)
Lemma decode_entry_encode c :
  encodable c = true → decode_entry (encode_menu c) = inr (Some c).
Proof.
  induction c as [c IH] using ContextMenu_tree_ind. intros Hc.
  replace (encode_menu c) with (JObject (encode_fields encode_menu c)) by by destruct c.
  rewrite decode_entry_unfold, decode_fields_encoded; [done| |by apply encodable_NoDup|].
  - intros id [c'|] Hin; [|done]. apply (IH id); [done|]. by eapply encodable_child.
  - intros i. by apply encodable_int.
Qed.

Lemma select_items : select manifest_field_name [MF_items] "items" = Some MF_items.
Proof. done. Qed.

Lemma Unmarshal_Marshal_entries l :
  entries_encodable l = true → Unmarshal (Marshal (mkManifest l)) = inr (mkManifest l).
Proof.
  intros [Hnd Hl]%andb_prop. apply bool_decide_eq_true in Hnd.
  rewrite forallb_forall in Hl. unfold Marshal, Unmarshal.
  cbn [decode_manifest_fields fst snd]. rewrite select_items.
  cbn [decode_map manifest_Items].
  rewrite (decode_members_encoded decode_entry encode_menu l []); [done| |done].
  intros id [c|] Hin; [|done]. apply decode_entry_encode.
  rewrite list_elem_of_In in Hin. apply (Hl _ Hin).
Qed.

(** ** What a decoded manifest is *)

(** Induction on a document, with the hypothesis for the elements of an
    array and the values of the members of an object. *)
Definition json_tree_ind (P : json → Prop)
    (Hnull : P JNull) (Hbool : ∀ b, P (JBool b)) (Hnum : ∀ n, P (JNumber n))
    (Hfrac : P JFraction) (Hstr : ∀ s, P (JString s))
    (Harr : ∀ elems, Forall P elems → P (JArray elems))
    (Hobj : ∀ members, Forall (λ e, P e.2) members → P (JObject members))
    : ∀ v, P v :=
  fix go (v : json) : P v :=
    match v with
    | JNull => Hnull
    | JBool b => Hbool b
    | JNumber n => Hnum n
    | JFraction => Hfrac
    | JString s => Hstr s
    | JArray elems =>
        Harr elems ((fix all (l : list json) : Forall P l :=
                       match l with
                       | [] => Forall_nil_2 P
                       | x :: l' => Forall_cons_2 P x l' (go x) (all l')
                       end) elems)
    | JObject members =>
        Hobj members ((fix all (l : list (string * json)) : Forall (λ e, P e.2) l :=
                         match l with
                         | [] => Forall_nil_2 _
                         | e :: l' => Forall_cons_2 (λ e, P e.2) e l' (go e.2) (all l')
                         end) members)
    end.

Lemma map_set_NoDup {A} id (o : A) (l : list (string * A)) :
  NoDup l.*1 → NoDup (map_set id o l).*1.
Proof.
  intros Hnd. destruct (decide (id ∈ l.*1)) as [Hin|Hnin].
  - by rewrite map_set_keys.
  - rewrite map_set_fresh, fmap_app by done. apply NoDup_app. split; [done|].
    split; [|apply NoDup_singleton]. by intros x Hx ->%list_elem_of_singleton.
Qed.

Lemma map_set_elem {A} id (o : A) (l : list (string * A)) e :
  e ∈ map_set id o l → e = (id, o) ∨ e ∈ l.
Proof.
  induction l as [|e' l IH]; simpl; [intros ->%list_elem_of_singleton; by left|].
  case_decide; intros [->|?]%elem_of_cons;
    auto using list_elem_of_here, list_elem_of_further.
  destruct IH; auto using list_elem_of_further.
Qed.

(** The entries of a map that fit a document. *)
Definition entries_fit (l : list (string * option ContextMenu)) : Prop :=
  NoDup l.*1 ∧ ∀ id c, (id, Some c) ∈ l → encodable c = true.

Lemma entries_fit_nil : entries_fit [].
Proof. split; [constructor|by intros ?? ?%elem_of_nil]. Qed.

Lemma entries_fit_encodable l : entries_fit l ↔ entries_encodable l = true.
Proof.
  unfold entries_fit, entries_encodable. rewrite andb_true_iff, bool_decide_eq_true.
  rewrite forallb_forall. split; intros [Hnd Hl]; (split; [done|]).
  - intros [id [c|]] Hin; [|done]. apply (Hl id). by rewrite list_elem_of_In.
  - intros id c Hin. rewrite list_elem_of_In in Hin. apply (Hl _ Hin).
Qed.

Lemma encodable_fit c :
  encodable c = true
  ↔ entries_fit (Items c) ∧ ∀ i, IconIndex c = Some i → int_range i.
Proof.
  rewrite entries_fit_encodable. destruct c as [? ? ? ii ? ? ? items]. simpl.
  unfold entries_encodable. rewrite !andb_true_iff, !bool_decide_eq_true.
  destruct ii as [i|]; [rewrite bool_decide_eq_true|];
    (split; intros H; destruct_and?; split_and?; try done);
    [by intros ? [= <-]|eauto].
Qed.

Section invariant.
Context (decode : json → error + option ContextMenu).

Lemma decode_members_fit members : ∀ m l,
  Forall (λ e, ∀ c, decode e.2 = inr (Some c) → encodable c = true) members →
  entries_fit m → decode_members decode members m = inr l → entries_fit l.
Proof.
  induction members as [|e members IH]; intros m l Hall Hm; simpl.
  { by intros [= <-]. }
  apply Forall_cons in Hall as [He Hall]. destruct (decode e.2) as [|o] eqn:E; [done|].
  apply IH; [done|]. destruct Hm as [Hnd Hm]. split; [by apply map_set_NoDup|].
  intros id c [[= -> <-]|Hin]%map_set_elem; [by apply He|by eapply Hm].
Qed.

Lemma set_field_fit f v c c' :
  (∀ members, v = JObject members →
     Forall (λ e, ∀ c, decode e.2 = inr (Some c) → encodable c = true) members) →
  encodable c = true → set_field decode f v c = inr c' → encodable c' = true.
Proof.
  intros Hv [Hl Hi]%encodable_fit Hs. apply encodable_fit. revert Hs.
  destruct f, v; simpl; try done; try (intros [= <-]; simpl; by try split).
  - case_decide; [|done]. intros [= <-]. simpl. split; [done|]. by intros i [= <-].
  - destruct (decode_elems _ _); [done|]. by intros [= <-].
  - intros [= <-]. simpl. split; [apply entries_fit_nil|done].
  - destruct (decode_members _ _ _) as [|l] eqn:E; [done|]. intros [= <-]. simpl.
    split; [|done]. eapply decode_members_fit; [by apply Hv|exact Hl|exact E].
Qed.

Lemma decode_fields_fit members : ∀ c c',
  Forall (λ e, ∀ ms, e.2 = JObject ms →
     Forall (λ e, ∀ c, decode e.2 = inr (Some c) → encodable c = true) ms) members →
  encodable c = true → decode_fields decode members c = inr c' → encodable c' = true.
Proof.
  induction members as [|e members IH]; intros c c' Hall Hc; simpl.
  { by intros [= <-]. }
  apply Forall_cons in Hall as [He Hall]. destruct (select _ _ _) as [f|]; [|by apply IH].
  destruct (set_field _ _ _ _) as [|c1] eqn:E; [done|]. apply IH; [done|].
  by eapply set_field_fit.
Qed.

End invariant.

(** Every entry the decoder returns fits a document: the identifiers of
    siblings are distinct at every level and every icon index is an
    [int]. *)
Definition fits (v : json) : Prop := ∀ c, decode_entry v = inr (Some c) → encodable c = true.

Lemma decode_entry_fits v :
  fits v ∧ ∀ members, v = JObject members → Forall (λ e, fits e.2) members.
Proof.
  induction v as [| | | | |elems _|members IH] using json_tree_ind;
    (split; [intros c|intros ? [=]]); try done.
  - rewrite decode_entry_unfold.
    destruct (decode_fields _ _ _) as [|c1] eqn:E; [done|]. intros [= <-].
    eapply decode_fields_fit; [| |exact E]; [|reflexivity].
    eapply Forall_impl; [exact IH|]. by intros e [_ He].
  - subst. eapply Forall_impl; [exact IH|]. by intros e [He _].
Qed.

Lemma decode_entry_fit v c : decode_entry v = inr (Some c) → encodable c = true.
Proof. apply decode_entry_fits. Qed.

Lemma Unmarshal_fit v m :
  Unmarshal v = inr m → entries_encodable (manifest_Items m) = true.
Proof.
  intros H. apply entries_fit_encodable. revert H.
  destruct v as [| | | | | |members]; try done; [intros [= <-]; apply entries_fit_nil|].
  simpl. pose proof entries_fit_nil as H0. change [] with (manifest_Items (mkManifest [])) in H0.
  revert H0. generalize (mkManifest []). revert m.
  induction members as [|e members IH]; intros m m0 H0; simpl; [by intros [= <-]|].
  destruct (select _ _ _) as [[]|]; [|by apply IH].
  destruct (decode_map _ _ _) as [|items] eqn:E; [done|]. apply IH. simpl.
  destruct (e.2) as [| | | | | |ms] eqn:Ee; try done; simpl in E.
  - injection E as <-. apply entries_fit_nil.
  - eapply decode_members_fit; [|exact H0|exact E].
    apply Forall_forall. intros e' _ c. apply decode_entry_fit.
Qed.

(** *** Decoded manifests that are well formed *)

Lemma encodable_entries c : encodable c = true → entries_encodable (Items c) = true.
Proof.
  destruct c. simpl. intros [[H _]%andb_prop H']%andb_prop. by apply andb_true_intro.
Qed.

Lemma entries_encodable_named_wf l :
  (∀ id c, (id, Some c) ∈ l → encodable c = true → menu_named c = true → menu_wf c) →
  entries_encodable l = true → entries_named l = true → entries_wf l.
Proof.
  intros IH [Hnd Hfit]%andb_prop. apply bool_decide_eq_true in Hnd.
  by apply (entries_named_wf encodable).
Qed.

Lemma encodable_named_wf c : encodable c = true → menu_named c = true → menu_wf c.
Proof.
  induction c as [c IH] using ContextMenu_tree_ind. intros He%encodable_entries Hn.
  unfold menu_wf. rewrite menu_wfb_unfold. rewrite menu_named_unfold in Hn.
  by apply entries_encodable_named_wf.
Qed.

(** The decoder gives the identifiers of siblings distinct, so a decoded
    manifest is well formed as soon as its identifiers are key names and
    none of its entries is nil. *)
Lemma Unmarshal_wf v m :
  Unmarshal v = inr m → entries_named (manifest_Items m) = true →
  entries_wf (manifest_Items m).
Proof.
  intros H%Unmarshal_fit. apply entries_encodable_named_wf; [|done].
  intros ? c _. apply encodable_named_wf.
Qed.

(** ** The theorems *)

(** C29.  Round trip of a manifest.  The document written for a manifest by
    the tags of main.go:185-205 is decoded to that manifest, whenever the
    manifest is one a document can hold: the identifiers of siblings are
    distinct and every icon index is an [int].  Nil entries, empty
    commands and empty folders are read back as they are. *)
Theorem Unmarshal_Marshal m :
  entries_encodable (manifest_Items m) = true → Unmarshal (Marshal m) = inr m.
Proof. destruct m. apply Unmarshal_Marshal_entries. Qed.

(** C30.  What the decoder returns.  In every manifest the decoder returns,
    the identifiers of siblings are distinct at every level, as the keys of
    a Go map are, and every icon index is an [int]; so every decoded
    manifest is read back from its own document. *)
Theorem Unmarshal_distinct v m :
  Unmarshal v = inr m →
  entries_encodable (manifest_Items m) = true ∧ Unmarshal (Marshal m) = inr m.
Proof.
  intros H%Unmarshal_fit. split; [done|]. destruct m. by apply Unmarshal_Marshal_entries.
Qed.

(** ** Documents and what they decode to *)

(** A document with a key in upper case, a key that is no field, an entry
    that is [null] and an entry that comes twice. *)
Definition sample_document : json :=
  JObject
    [("version", JNumber 1);
     ("Items",
      JObject
        [("open", JObject [("type", JString "folder")]);
         ("gone", JNull);
         ("open",
          JObject [("TYPE", JString "item"); ("title", JString "Open");
                   ("iconIndex", JNumber 2); ("extended", JNull);
                   ("command", JArray [JString "explorer.exe"])])])].

Example Unmarshal_sample :
  Unmarshal sample_document
  = inr (mkManifest
           [("open", Some (mkContextMenu "item" "Open" EmptyString (Some 2%Z) false false
                             ["explorer.exe"] []));
            ("gone", None)]).
Proof. reflexivity. Qed.

(** A value of the wrong kind, and an icon index that is no [int]. *)
Example Unmarshal_wrong_kind :
  Unmarshal (JObject [("items", JObject [("open", JObject [("admin", JString "yes")])])])
  = inl (type_error (JString "yes") "bool").
Proof. reflexivity. Qed.

Example Unmarshal_overflow :
  Unmarshal (JObject [("items", JObject [("open", JObject [("iconIndex", JNumber (2 ^ 63))])])])
  = inl (type_error (JNumber (2 ^ 63)) "int").
Proof. reflexivity. Qed.

Lemma Unmarshal_Marshal_witness :
  Unmarshal (Marshal (mkManifest [("gone", None); ("open", Some zero_ContextMenu)]))
  = inr (mkManifest [("gone", None); ("open", Some zero_ContextMenu)]).
Proof. apply Unmarshal_Marshal. reflexivity. Defined.

Lemma Unmarshal_distinct_witness :
  let m := mkManifest
             [("open", Some (mkContextMenu "item" "Open" EmptyString (Some 2%Z) false false
                               ["explorer.exe"] []));
              ("gone", None)] in
  entries_encodable (manifest_Items m) = true ∧ Unmarshal (Marshal m) = inr m.
Proof. apply (Unmarshal_distinct sample_document). reflexivity. Defined.
