(* ===== verification/Locator.v ===== *)
(** * Locating the manifest and the elevation helper
    ([findManifest], main.go:113-134; [findNircmd], main.go:136-177)

    The process environment is a record: what [os.Getwd] and [os.Executable]
    return (or that they fail), which paths [os.Stat] finds and whether each
    is a directory, and what [exec.LookPath] returns: a path and an error,
    where the path is not empty with the error [exec.ErrDot], for a program
    found relative to the working directory.  The functions of
    [path/filepath] are modelled without [filepath.Clean]: [filepath_Join]
    joins the non-empty elements with a backslash, [filepath_Dir] drops the
    last segment.

    [findNircmd] keeps its result in the package variable [_nircmdPath]; the
    model threads that variable as the state of the monad.

    [candidates] lists the paths a search tries, in the order it tries
    them, and [first_file] is the first of them that is a file: the
    reference the two searches are compared with. *)

From Stdlib Require Import Ascii.
From stdpp Require Import gmap strings list.
From S2P Require Import Prelude GoStrings GoErrors.

(** ** The environment *)

Record Env := mkEnv {
  env_Getwd : option string;          (* None: os.Getwd failed *)
  env_Executable : option string;     (* None: os.Executable failed *)
  env_files : gmap string bool;       (* path -> IsDir, for the paths os.Stat finds *)
  env_LookPath : string → string * option error;  (* the path and the error *)
}.

(** [exec.LookPath(file)] returned no error. *)
Definition LookPath_found (env : Env) (file : string) : option string :=
  match env_LookPath env file with
  | (p, None) => Some p
  | (_, Some _) => None
  end.

(** [os.Stat(p)] succeeds and the result is not a directory. *)
Definition is_file (env : Env) (p : string) : bool :=
  bool_decide (env_files env !! p = Some false).

(** [filepath.Join] on Windows, without the cleaning of the result. *)
Definition filepath_Join (elems : list string) : string :=
  Join (filter (λ e, e ≠ EmptyString) elems) (String backslash EmptyString).

(** [filepath.Dir]: the path without its last segment. *)
Definition filepath_Dir (p : string) : string :=
  match segments p with
  | [] | [_] => "."
  | segs => match Join (removelast segs) (String backslash EmptyString) with
            | EmptyString => String backslash EmptyString
            | d => d
            end
  end.

(** ** findManifest *)

Definition manifestFilename : string := "manifest.json".

(** main.go:120-125 and 126-131: one candidate directory. *)
Definition manifest_in (env : Env) (dir : option string) : option string :=
  fp ← dir;
  let manifestPath := filepath_Join [fp; manifestFilename] in
  if is_file env manifestPath then Some manifestPath else None.

(** main.go:113-134 *)
Definition findManifest (env : Env) : error + string :=
  match manifest_in env (env_Getwd env) with
  | Some manifestPath => inr manifestPath
  | None =>
      match manifest_in env (filepath_Dir <$> env_Executable env) with
      | Some manifestPath => inr manifestPath
      | None => inl (Errorf "manifest.json not found: %w" [] ErrNotExist)
      end
  end.

(** ** findNircmd *)

Definition nircmdFilename : string := "nircmd.exe".

(** main.go:152-161 and 162-171: the two probes in one directory. *)
Definition nircmd_in (env : Env) (dir : option string) : option string :=
  fp ← dir;
  let p1 := filepath_Join [fp; nircmdFilename] in
  if is_file env p1 then Some p1
  else
    let p2 := filepath_Join [fp; "bin"; nircmdFilename] in
    if is_file env p2 then Some p2 else None.

(** main.go:152-176: the search, in the order of the probes. *)
Definition nircmd_search (env : Env) : option string :=
  match nircmd_in env (env_Getwd env) with
  | Some p => Some p
  | None =>
      match nircmd_in env (filepath_Dir <$> env_Executable env) with
      | Some p => Some p
      | None => LookPath_found env nircmdFilename
      end
  end.

(** main.go:136-177.  The state is the package variable [_nircmdPath].  The
    deferred function stores the result variable on every return after the
    cache test; on failure that variable holds the path [exec.LookPath]
    returned with its error. *)
Definition findNircmd (env : Env) : M string string :=
  λ _nircmdPath,
    if decide (_nircmdPath ≠ EmptyString) then Ok _nircmdPath _nircmdPath
    else match nircmd_search env with
         | Some nircmdPath => Ok nircmdPath nircmdPath
         | None => Err (Errorf "nircmd.exe not found: %w" [] ErrNotExist)
                       (env_LookPath env nircmdFilename).1
         end.

(** ** Lemmas *)

Section locator.
Context (env : Env).
Implicit Types (p cache : string) (dir : option string).

Lemma Join_nonempty e elems sep : e ≠ EmptyString → Join (e :: elems) sep ≠ EmptyString.
Proof. destruct e; [done|]. by destruct elems. Qed.

(** A joined path with a non-empty last element is not empty. *)
Lemma filepath_Join_nonempty elems e :
  e ≠ EmptyString → filepath_Join (elems ++ [e]) ≠ EmptyString.
Proof.
  intros He. unfold filepath_Join. rewrite filter_app, filter_cons_True by done.
  rewrite filter_nil. destruct (filter _ elems) as [|x xs] eqn:E; simpl; [done|].
  apply Join_nonempty. assert (x ∈ filter (λ e, e ≠ EmptyString) elems) as Hx.
  { rewrite E. by left. }
  by apply list_elem_of_filter in Hx as [? _].
Qed.

Lemma manifest_in_Some dir p :
  manifest_in env dir = Some p →
  ∃ fp, dir = Some fp ∧ p = filepath_Join [fp; manifestFilename]
        ∧ env_files env !! p = Some false.
Proof.
  unfold manifest_in. destruct dir as [fp|]; simpl; [|done].
  unfold is_file. case_bool_decide; [|done]. intros [= <-]. by exists fp.
Qed.

Lemma nircmd_in_Some dir p :
  nircmd_in env dir = Some p →
  ∃ fp, dir = Some fp ∧ env_files env !! p = Some false
        ∧ (p = filepath_Join [fp; nircmdFilename]
           ∨ p = filepath_Join [fp; "bin"; nircmdFilename]).
Proof.
  unfold nircmd_in. destruct dir as [fp|]; simpl; [|done].
  unfold is_file. repeat case_bool_decide; intros [= <-]; exists fp; auto.
Qed.

Lemma nircmd_in_nonempty dir p : nircmd_in env dir = Some p → p ≠ EmptyString.
Proof.
  intros (fp & _ & _ & [->| ->])%nircmd_in_Some.
  - by apply (filepath_Join_nonempty [fp]).
  - by apply (filepath_Join_nonempty [fp; "bin"]).
Qed.

(** *** findManifest *)

Lemma findManifest_inr p :
  findManifest env = inr p →
  env_files env !! p = Some false
  ∧ ∃ fp, p = filepath_Join [fp; manifestFilename]
          ∧ (env_Getwd env = Some fp ∨ filepath_Dir <$> env_Executable env = Some fp).
Proof.
  unfold findManifest. intros H.
  destruct (manifest_in env (env_Getwd env)) as [q|] eqn:E1.
  - injection H as <-. apply manifest_in_Some in E1 as (fp & ? & ? & ?). eauto 6.
  - destruct (manifest_in env (filepath_Dir <$> _)) as [q|] eqn:E2; [|done].
    injection H as <-. apply manifest_in_Some in E2 as (fp & ? & ? & ?). eauto 6.
Qed.

(** *** The directory of the manifest *)

Lemma filepath_Join_pair fp f :
  fp ≠ EmptyString → f ≠ EmptyString → filepath_Join [fp; f] = fp +:+ String backslash f.
Proof.
  intros Hfp Hf. unfold filepath_Join. by rewrite !filter_cons_True by done.
Qed.

Lemma filepath_Dir_nonempty p : filepath_Dir p ≠ EmptyString.
Proof.
  unfold filepath_Dir. destruct (segments p) as [|? [|? ?]]; [done..|].
  by destruct (Join _ _).
Qed.

(** The directory of a path of two segments or more. *)
Lemma filepath_Dir_snoc p l f :
  segments p = l ++ [f] → l ≠ [] →
  Join l (String backslash EmptyString) ≠ EmptyString →
  filepath_Dir p = Join l (String backslash EmptyString).
Proof.
  intros Hp Hl HJ. unfold filepath_Dir. rewrite Hp.
  destruct l as [|x l1]; [done|].
  assert (∃ y l2, l1 ++ [f] = y :: l2) as (y & l2 & E) by (destruct l1; simpl; eauto).
  rewrite <-app_comm_cons, E, <-E, app_comm_cons, removelast_last.
  by destruct (Join _ _).
Qed.

(** [filepath.Dir] undoes [filepath.Join] with a name. *)
Lemma filepath_Dir_Join fp f :
  fp ≠ EmptyString → valid_seg f → filepath_Dir (filepath_Join [fp; f]) = fp.
Proof.
  intros Hfp [Hf Hsep]. rewrite filepath_Join_pair by done.
  rewrite <-(Join_segments fp) at 2.
  apply filepath_Dir_snoc with f; [|apply segments_nonempty|by rewrite Join_segments].
  by rewrite segments_sep, (segments_no_sep f).
Qed.

Lemma findManifest_dir p :
  env_Getwd env ≠ Some EmptyString → findManifest env = inr p →
  filepath_Join [filepath_Dir p; manifestFilename] = p
  ∧ env_files env !! p = Some false
  ∧ (env_Getwd env = Some (filepath_Dir p)
     ∨ filepath_Dir <$> env_Executable env = Some (filepath_Dir p)).
Proof.
  intros Hwd (Hfile & fp & -> & Hfp)%findManifest_inr.
  assert (fp ≠ EmptyString) as Hne.
  { destruct Hfp as [H|H]; [congruence|]. destruct (env_Executable env); [|done].
    injection H as <-. apply filepath_Dir_nonempty. }
  by rewrite filepath_Dir_Join by (done || by_compute).
Qed.

Lemma manifest_in_None fp :
  manifest_in env (Some fp) = None →
  is_file env (filepath_Join [fp; manifestFilename]) = false.
Proof. unfold manifest_in. simpl. by destruct (is_file _ _). Qed.

(** C26.  Round trip of the manifest path.  The path [findManifest]
    returns is a file [os.Stat] finds and that is not a directory; the
    directory [run] takes from it, joined with the name of the manifest, is
    the path again, and it is the directory the search found the manifest
    in: the working directory or the directory of the executable.  The
    working directory is not the empty string. *)
Theorem findManifest_Dir p :
  env_Getwd env ≠ Some EmptyString → findManifest env = inr p →
  filepath_Join [filepath_Dir p; manifestFilename] = p
  ∧ env_files env !! p = Some false
  ∧ (env_Getwd env = Some (filepath_Dir p)
     ∨ filepath_Dir <$> env_Executable env = Some (filepath_Dir p)).
Proof. apply findManifest_dir. Qed.

Lemma findManifest_not_found_cause e : findManifest env = inl e → root_cause e = ErrNotExist.
Proof.
  unfold findManifest. destruct (manifest_in env (env_Getwd env)); [done|].
  destruct (manifest_in env (filepath_Dir <$> _)); [done|]. by intros [= <-].
Qed.

(** [findManifest] fails only when neither candidate is a file, and its
    error is [os.ErrNotExist] with a message. *)
Lemma findManifest_not_found e :
  findManifest env = inl e →
  root_cause e = ErrNotExist
  ∧ ∀ fp, env_Getwd env = Some fp ∨ filepath_Dir <$> env_Executable env = Some fp →
          is_file env (filepath_Join [fp; manifestFilename]) = false.
Proof.
  unfold findManifest. intros H.
  destruct (manifest_in env (env_Getwd env)) eqn:E1; [done|].
  destruct (manifest_in env (filepath_Dir <$> _)) eqn:E2; [done|].
  injection H as <-. split; [done|]. intros fp [Hfp|Hfp]; rewrite Hfp in *;
    by apply manifest_in_None.
Qed.

(** The working directory is tried first. *)
Lemma findManifest_cwd_first fp :
  env_Getwd env = Some fp →
  is_file env (filepath_Join [fp; manifestFilename]) = true →
  findManifest env = inr (filepath_Join [fp; manifestFilename]).
Proof. intros Hwd Hf. unfold findManifest, manifest_in. rewrite Hwd. simpl. by rewrite Hf. Qed.

(** *** findNircmd *)

(** [exec.LookPath] returns a non-empty path when it returns no error. *)
Definition lookpath_ok : Prop :=
  ∀ file p, LookPath_found env file = Some p → p ≠ EmptyString.

Lemma nircmd_search_nonempty p : lookpath_ok → nircmd_search env = Some p → p ≠ EmptyString.
Proof.
  intros Hlp. unfold nircmd_search.
  destruct (nircmd_in env (env_Getwd env)) eqn:E1.
  { intros [= <-]. by eapply nircmd_in_nonempty. }
  destruct (nircmd_in env (filepath_Dir <$> _)) eqn:E2.
  { intros [= <-]. by eapply nircmd_in_nonempty. }
  apply Hlp.
Qed.

(** A non-empty cache is returned as it is, whatever the environment. *)
Lemma findNircmd_cached cache :
  cache ≠ EmptyString → findNircmd env cache = Ok cache cache.
Proof. intros H. unfold findNircmd. by rewrite decide_True. Qed.

(** With an empty cache the search runs; its result is returned and stored,
    and its failure leaves what [exec.LookPath] returned in the cache. *)
Lemma findNircmd_search :
  findNircmd env EmptyString
  = match nircmd_search env with
    | Some p => Ok p p
    | None => Err (Errorf "nircmd.exe not found: %w" [] ErrNotExist)
                  (env_LookPath env nircmdFilename).1
    end.
Proof. done. Qed.

(** What a successful call returns is what it leaves in the cache, and it is
    not empty. *)
Lemma findNircmd_Ok cache p cache' :
  lookpath_ok → findNircmd env cache = Ok p cache' → cache' = p ∧ p ≠ EmptyString.
Proof.
  intros Hlp. unfold findNircmd. case_decide as Hc.
  - by intros [= <- <-].
  - destruct (nircmd_search env) as [q|] eqn:E; [|done]. intros [= <- <-].
    split; [done|]. by eapply nircmd_search_nonempty.
Qed.

(** A failing call fails with [os.ErrNotExist], and leaves in the cache the
    path [exec.LookPath] returned with its error. *)
Lemma findNircmd_Err cache e cache' :
  findNircmd env cache = Err e cache' →
  cache = EmptyString ∧ cache' = (env_LookPath env nircmdFilename).1
  ∧ root_cause e = ErrNotExist ∧ nircmd_search env = None.
Proof.
  unfold findNircmd. case_decide as Hc; [done|].
  destruct (nircmd_search env) eqn:E; [done|]. intros [= <- <-].
  by destruct (decide (cache = EmptyString)).
Qed.

(** A failed search is remembered as a success.  When no probe finds a
    file and [exec.LookPath] returns a path with its error, the call fails
    and the deferred function stores that path; the next call, in any
    environment, returns it without an error. *)
Lemma findNircmd_error_cached env' p e :
  nircmd_in env (env_Getwd env) = None →
  nircmd_in env (filepath_Dir <$> env_Executable env) = None →
  env_LookPath env nircmdFilename = (p, Some e) → p ≠ EmptyString →
  findNircmd env EmptyString = Err (Errorf "nircmd.exe not found: %w" [] ErrNotExist) p
  ∧ findNircmd env' p = Ok p p.
Proof.
  intros H1 H2 Hlp Hp. split.
  - rewrite findNircmd_search. unfold nircmd_search, LookPath_found. by rewrite H1, H2, Hlp.
  - unfold findNircmd. by rewrite decide_True.
Qed.

(** The outcomes of a call: a path, or [os.ErrNotExist]; it never ends the
    process. *)
Lemma findNircmd_post cache :
  post (findNircmd env cache)
    (λ p cache', cache' = p)
    (λ e cache', root_cause e = ErrNotExist ∧ cache' = (env_LookPath env nircmdFilename).1)
    (λ _ _, False).
Proof.
  unfold findNircmd. case_decide; [done|]. by destruct (nircmd_search env).
Qed.

(** The first probe is the working directory. *)
Lemma findNircmd_cwd_first fp :
  env_Getwd env = Some fp →
  is_file env (filepath_Join [fp; nircmdFilename]) = true →
  findNircmd env EmptyString
  = Ok (filepath_Join [fp; nircmdFilename]) (filepath_Join [fp; nircmdFilename]).
Proof.
  intros Hwd Hf. rewrite findNircmd_search. unfold nircmd_search, nircmd_in.
  rewrite Hwd. simpl. by rewrite Hf.
Qed.

(** *** The order of the search *)

(** The paths a search for [file] probes with [os.Stat], in the order of the
    specification: the working directory, then the directory of the
    program; in each of them the directory itself, then the subdirectories
    [subs]. *)
Definition candidates (file : string) (subs : list string) : list string :=
  dir ← omap id [env_Getwd env; filepath_Dir <$> env_Executable env];
  filepath_Join [dir; file] :: ((λ sub, filepath_Join [dir; sub; file]) <$> subs).

(** The first of a list of paths that is a file. *)
Definition first_file (paths : list string) : option string :=
  head (filter (λ p, is_file env p = true) paths).

Lemma first_file_cons p paths :
  first_file (p :: paths) = if is_file env p then Some p else first_file paths.
Proof.
  unfold first_file. destruct (is_file env p) eqn:E.
  - by rewrite filter_cons_True.
  - rewrite filter_cons_False; [done|]. by rewrite E.
Qed.

Lemma manifest_in_first dir :
  manifest_in env dir
  = first_file (d ← omap id [dir]; [filepath_Join [d; manifestFilename]]).
Proof. destruct dir as [d|]; [|done]. simpl. by rewrite first_file_cons. Qed.

Lemma nircmd_in_first dir :
  nircmd_in env dir
  = first_file (d ← omap id [dir]; [filepath_Join [d; nircmdFilename];
                                   filepath_Join [d; "bin"; nircmdFilename]]).
Proof. destruct dir as [d|]; [|done]. simpl. by rewrite !first_file_cons. Qed.

(** The search of [findNircmd] is the search of the specification. *)
Lemma nircmd_search_first :
  nircmd_search env
  = match first_file (candidates nircmdFilename ["bin"]) with
    | Some p => Some p
    | None => LookPath_found env nircmdFilename
    end.
Proof.
  unfold nircmd_search, candidates. rewrite !nircmd_in_first.
  destruct (env_Getwd env) as [wd|], (filepath_Dir <$> env_Executable env) as [ed|];
    simpl; rewrite ?app_nil_r, ?first_file_cons;
    repeat (destruct (is_file env _)); done.
Qed.

Lemma findManifest_first :
  findManifest env
  = match first_file (candidates manifestFilename []) with
    | Some p => inr p
    | None => inl (Errorf "manifest.json not found: %w" [] ErrNotExist)
    end.
Proof.
  unfold findManifest, candidates. rewrite !manifest_in_first.
  destruct (env_Getwd env) as [wd|], (filepath_Dir <$> env_Executable env) as [ed|];
    simpl; rewrite ?app_nil_r, ?first_file_cons;
    repeat (destruct (is_file env _)); done.
Qed.

End locator.

(** The order of the search for the manifest.  [findManifest] returns
    the first of the two candidates that is a file (the working directory,
    then the directory of the program, a directory that cannot be
    determined being skipped), and fails with [os.ErrNotExist] exactly when
    none is. *)
Theorem findManifest_order env :
  findManifest env
  = match first_file env (candidates env manifestFilename []) with
    | Some p => inr p
    | None => inl (Errorf "manifest.json not found: %w" [] ErrNotExist)
    end.
Proof. apply findManifest_first. Qed.

(** C37.  The order of the search for the helper.  With an empty cache,
    [findNircmd] returns and stores the first of its candidates that is a
    file: in the working directory and then in the directory of the
    program, the directory itself before its subdirectory [bin]; when none
    is, what [exec.LookPath] finds; and when that returns an error it
    fails, and stores the path that came with the error. *)
Theorem findNircmd_order env :
  findNircmd env EmptyString
  = match first_file env (candidates env nircmdFilename ["bin"]) with
    | Some p => Ok p p
    | None =>
        match env_LookPath env nircmdFilename with
        | (p, None) => Ok p p
        | (p, Some _) => Err (Errorf "nircmd.exe not found: %w" [] ErrNotExist) p
        end
    end.
Proof.
  rewrite findNircmd_search, nircmd_search_first. unfold LookPath_found.
  destruct (first_file _ _); [done|]. by destruct (env_LookPath _ _) as [p [e|]].
Qed.

(** C40.  Once found, the helper is found again by every later call, in every
    environment: the cache is never invalidated.  The hypothesis
    [lookpath_ok] is that [exec.LookPath] returns a path that is not empty
    when it returns no error; a call that returned the empty path would
    leave the cache empty, and the next call would search again. *)
Theorem findNircmd_memo env env' cache p cache' :
  lookpath_ok env →
  findNircmd env cache = Ok p cache' →
  findNircmd env' cache' = Ok p cache'.
Proof.
  intros Hlp [-> Hp]%findNircmd_Ok; [|done]. by apply findNircmd_cached.
Qed.

(** ** A sample environment *)

Definition sample_env : Env :=
  mkEnv (Some "C:\work") (Some "C:\menu\cmm.exe")
        {[ "C:\menu\manifest.json" := false;
           "C:\menu\bin\nircmd.exe" := false;
           "C:\work\nircmd.exe" := true ]}
        (λ _, (EmptyString, Some (ErrOther "executable file not found in %PATH%"))).

(** An environment in which nothing is found. *)
Definition empty_env : Env :=
  mkEnv None None ∅ (λ _, (EmptyString, Some (ErrOther "executable file not found in %PATH%"))).

(** An environment in which the helper is in a directory that the search
    path names relative to the working directory: [exec.LookPath] returns
    the path and the error [exec.ErrDot]. *)
Definition dot_env : Env :=
  mkEnv (Some "C:\work") None {[ "C:\work\tools\nircmd.exe" := false ]}
        (λ _, ("tools\nircmd.exe",
               Some (ErrOther "cannot run executable found relative to current directory"))).

(** The call fails, and the call after it returns the path that was
    refused. *)
Example findNircmd_dot :
  findNircmd dot_env EmptyString
  = Err (Errorf "nircmd.exe not found: %w" [] ErrNotExist) "tools\nircmd.exe"
  ∧ findNircmd dot_env "tools\nircmd.exe" = Ok "tools\nircmd.exe" "tools\nircmd.exe".
Proof. by vm_compute. Qed.

Lemma sample_env_lookpath : lookpath_ok sample_env.
Proof. by intros ???. Qed.

Lemma findManifest_Dir_witness :
  filepath_Join [filepath_Dir "C:\menu\manifest.json"; manifestFilename]
  = "C:\menu\manifest.json"
  ∧ env_files sample_env !! "C:\menu\manifest.json" = Some false
  ∧ (env_Getwd sample_env = Some (filepath_Dir "C:\menu\manifest.json")
     ∨ filepath_Dir <$> env_Executable sample_env
       = Some (filepath_Dir "C:\menu\manifest.json")).
Proof. apply (findManifest_Dir sample_env); [done|reflexivity]. Defined.

Lemma findManifest_not_found_witness :
  root_cause (Errorf "manifest.json not found: %w" [] ErrNotExist) = ErrNotExist
  ∧ ∀ fp, env_Getwd empty_env = Some fp ∨ filepath_Dir <$> env_Executable empty_env = Some fp →
          is_file empty_env (filepath_Join [fp; manifestFilename]) = false.
Proof. apply (findManifest_not_found empty_env). reflexivity. Defined.

Lemma findNircmd_memo_witness :
  findNircmd empty_env "C:\menu\bin\nircmd.exe"
  = Ok "C:\menu\bin\nircmd.exe" "C:\menu\bin\nircmd.exe".
Proof.
  apply (findNircmd_memo sample_env empty_env EmptyString);
    [apply sample_env_lookpath|reflexivity].
Defined.
