(* ===== verification/Projector.v ===== *)
(** * The attribute projector: [Icon] (main.go:207-218) and
    [CommandString] (main.go:220-241)

    [Icon] is a pure function.  [CommandString] calls [findNircmd] when the
    entry asks for elevation, so it reads and writes the cache
    [_nircmdPath]; when the helper is not found it calls [log.Fatal], which
    ends the process: the model's [Crash]. *)

From Stdlib Require Import Ascii.
From stdpp Require Import gmap strings list pretty.
From S2P Require Import Prelude GoStrings GoErrors Manifest Locator.

(** The placeholder both functions substitute. *)
Definition manifestFolder_token : string := "${manifestFolder}".

(** main.go:207-218.  [fmt.Sprintf] with the verbs s and d prints the path,
    a comma and the index in decimal. *)
Definition Icon (c : ContextMenu) (manifestDir : string) : string :=
  let iconPath := IconPath c in
  if decide (iconPath = EmptyString) then EmptyString
  else
    let iconPath := ReplaceAll iconPath manifestFolder_token manifestDir in
    let iconPath := quoteWindowsPath iconPath in
    match IconIndex c with
    | Some i => iconPath +:+ "," +:+ pretty i
    | None => iconPath
    end.

(** main.go:233-239: one token of the command. *)
Definition command_part (manifestDir : string) (part : string) : string :=
  let part := ReplaceAll part manifestFolder_token manifestDir in
  if ContainsAny part " %" then quoteWindowsPath part else part.

(** main.go:226-232: the tokens that ask the helper to elevate. *)
Definition command_elevate (env : Env) (c : ContextMenu) : M string (list string) :=
  if Admin c then
    r <- try (findNircmd env) ;;
    match r with
    | inl err => fatal err
    | inr nircmdPath => ret [quoteWindowsPath nircmdPath; "elevate"]
    end
  else ret [].

(** main.go:220-241 *)
Definition CommandString (env : Env) (c : ContextMenu) (manifestDir : string)
    : M string string :=
  command <- command_elevate env c ;;
  ret (Join (command ++ (command_part manifestDir <$> Command c)) " ").

(** ** The icon value *)

Section icon.
Context (c : ContextMenu) (manifestDir : string).

(** The value is empty exactly when no icon path is configured, so the test
    of main.go:37 sets the [Icon] value exactly for the entries that have
    one; the index alone gives no value. *)
Lemma Icon_empty_iff : Icon c manifestDir = EmptyString ↔ IconPath c = EmptyString.
Proof.
  unfold Icon. case_decide as H; [done|]. split; [|done].
  by destruct (IconIndex c).
Qed.

(** C38.  An icon path that starts with the placeholder and has no other
    occurrence of it: the directory of the manifest takes its place, the
    path is quoted, and the index follows a comma when there is one. *)
Lemma Icon_placeholder rest :
  IconPath c = manifestFolder_token +:+ rest →
  ¬ occurs manifestFolder_token rest →
  Icon c manifestDir
  = quoteWindowsPath (manifestDir +:+ rest)
    +:+ match IconIndex c with Some i => "," +:+ pretty i | None => EmptyString end.
Proof.
  intros Hp Hno. unfold Icon. rewrite Hp, decide_False by done.
  rewrite ReplaceAll_match, ReplaceAll_no_occurrence by done.
  destruct (IconIndex c); [done|]. by rewrite app_empty_r.
Qed.

End icon.

(** ** The command line *)

Section command.
Context (env : Env) (manifestDir : string).
Implicit Types (c : ContextMenu) (part cache : string).

(** A token without the placeholder, a space or a percent sign is passed as
    it is. *)
Lemma command_part_plain part :
  ¬ occurs manifestFolder_token part →
  ContainsAny part " %" = false →
  command_part manifestDir part = part.
Proof.
  intros Hno Hany. unfold command_part.
  by rewrite ReplaceAll_no_occurrence, Hany.
Qed.

(** The token is quoted after the substitution, so a placeholder replaced by
    a directory with a space in its name is quoted as a whole. *)
Lemma command_part_placeholder rest :
  ¬ occurs manifestFolder_token rest →
  command_part manifestDir (manifestFolder_token +:+ rest)
  = if ContainsAny (manifestDir +:+ rest) " %"
    then quoteWindowsPath (manifestDir +:+ rest) else manifestDir +:+ rest.
Proof.
  intros Hno. unfold command_part.
  by rewrite ReplaceAll_match, ReplaceAll_no_occurrence.
Qed.

(** Without elevation the command is the tokens joined by spaces; the cache
    is not read. *)
Lemma CommandString_plain c cache :
  Admin c = false →
  CommandString env c manifestDir cache
  = Ok (Join (command_part manifestDir <$> Command c) " ") cache.
Proof. intros H. unfold CommandString, command_elevate. by rewrite H. Qed.

(** With elevation and the helper found, the command starts with the quoted
    path of the helper and the word [elevate]. *)
Lemma CommandString_admin c cache p cache' :
  Admin c = true →
  findNircmd env cache = Ok p cache' →
  CommandString env c manifestDir cache
  = Ok (Join (quoteWindowsPath p :: "elevate" :: (command_part manifestDir <$> Command c))
             " ") cache'.
Proof.
  intros H Hf. unfold CommandString, command_elevate. rewrite H.
  unfold bind, try. by rewrite Hf.
Qed.

(** C39.  With elevation and no helper, [log.Fatal] ends the process: the error is
    not returned to the caller, and no caller adds its context to it. *)
Lemma CommandString_admin_fatal c cache e cache' :
  Admin c = true →
  findNircmd env cache = Err e cache' →
  CommandString env c manifestDir cache = Crash (LogFatal e) cache'.
Proof.
  intros H Hf. unfold CommandString, command_elevate. rewrite H.
  unfold bind, try. by rewrite Hf.
Qed.

(** [CommandString] returns a string or ends the process; it never returns
    an error, and it ends the process only for an entry that asks for
    elevation. *)
Lemma CommandString_post c cache :
  post (CommandString env c manifestDir cache)
    (λ _ _, True) (λ _ _, False)
    (λ cr _, Admin c = true ∧ ∃ e, cr = LogFatal e ∧ root_cause e = ErrNotExist).
Proof.
  unfold CommandString, command_elevate. destruct (Admin c) eqn:Ha; [|done].
  apply post_bind, post_bind, post_try.
  eapply post_mono; [apply findNircmd_post|cbv beta..]; [done| |done].
  intros e cache' [He _]. simpl. eauto.
Qed.

End command.

(** ** The examples of the specification *)

Definition sample_item : ContextMenu :=
  mkContextMenu ContextMenuType_Item "Run" "${manifestFolder}\icons\app.dll" (Some 2%Z)
                false false ["explorer.exe"; "${manifestFolder}\tools\run.bat"] [].

Definition sample_admin : ContextMenu :=
  mkContextMenu ContextMenuType_Item "Run as administrator" EmptyString None
                false true ["cmd.exe"; "/k"; "echo %CD%"] [].

Example Icon_sample : Icon sample_item "C:\menu" = String dquote "C:\menu\icons\app.dll" +:+ String dquote ",2".
Proof. by vm_compute. Qed.

(** The command of the entry above: the second token has no space and no
    percent sign after the substitution, so it is not quoted. *)
Example CommandString_sample env cache :
  CommandString env sample_item "C:\menu" cache
  = Ok "explorer.exe C:\menu\tools\run.bat" cache.
Proof. done. Qed.

(** The helper is found in the [bin] directory beside the executable (the
    working directory has a directory of that name, which is skipped), is
    quoted, and is left in the cache; the token with a space and percent
    signs is quoted. *)
Example CommandString_admin_sample :
  CommandString sample_env sample_admin "C:\menu" EmptyString
  = Ok (String dquote "C:\menu\bin\nircmd.exe" +:+ String dquote " elevate cmd.exe /k "
        +:+ String dquote "echo %CD%" +:+ String dquote EmptyString)
       "C:\menu\bin\nircmd.exe".
Proof. by vm_compute. Qed.

Lemma Icon_placeholder_witness :
  Icon sample_item "C:\menu"
  = quoteWindowsPath ("C:\menu" +:+ "\icons\app.dll") +:+ ",2".
Proof.
  apply (Icon_placeholder sample_item "C:\menu" "\icons\app.dll"); [reflexivity|by_compute].
Defined.

Lemma command_part_placeholder_witness :
  command_part "C:\my menu" (manifestFolder_token +:+ "\run.bat")
  = quoteWindowsPath "C:\my menu\run.bat".
Proof. apply (command_part_placeholder "C:\my menu" "\run.bat"). by_compute. Defined.

Lemma CommandString_admin_fatal_witness :
  CommandString empty_env sample_admin "C:\menu" EmptyString
  = Crash (LogFatal (Errorf "nircmd.exe not found: %w" [] ErrNotExist)) EmptyString.
Proof. by apply (CommandString_admin_fatal empty_env "C:\menu" sample_admin). Defined.

Lemma CommandString_admin_witness :
  CommandString sample_env sample_admin "C:\menu" EmptyString
  = Ok (Join (quoteWindowsPath "C:\menu\bin\nircmd.exe" :: "elevate"
              :: (command_part "C:\menu" <$> Command sample_admin)) " ")
       "C:\menu\bin\nircmd.exe".
Proof. by apply (CommandString_admin sample_env "C:\menu" sample_admin EmptyString). Defined.
