(* ===== verification/Argv.v ===== *)
(** * The command line as the launched program reads it

    [CommandString] (main.go:220-241) joins the tokens of a command with
    spaces and puts a token between double quotes when it has a space or a
    percent sign in it.  The string is the default value of the [command]
    key; the shell starts a process with it, and the process splits it back
    into arguments.  The convention by which it does so is not part of the
    repository: [argv] models it from the documentation of the C runtime
    of the platform (Parsing C command-line arguments): the program name
    ends at the first blank outside double quotes; an argument ends at a
    blank outside double quotes; 2n backslashes before a double quote are n
    backslashes and the quote opens or closes a quoted part; 2n+1
    backslashes before a double quote are n backslashes and a double quote;
    every other backslash is itself; two double quotes in a quoted part are
    one double quote.

    The theorem of the file says when the projection is right: the command
    line splits back into the tokens it was made of when no token has a
    double quote in it, no token that gets quoted ends in a backslash, and
    the tokens that are not quoted are not empty and have no tab.  The
    examples at the end are command lines for which it is wrong. *)

From Stdlib Require Import Ascii.
From stdpp Require Import gmap strings list.
From S2P Require Import Prelude GoStrings GoErrors Manifest Locator Projector.

(** ** The convention *)

Definition tab : ascii := "009"%char.

(** The characters that separate arguments. *)
Definition is_blank (c : ascii) : bool := bool_decide (c = space ∨ c = tab).

Fixpoint backslashes (n : nat) : string :=
  match n with
  | O => EmptyString
  | S k => String backslash (backslashes k)
  end.

(** [push x l]: the characters [x] in front of the argument in progress,
    which is the head of [l]. *)
Definition push (x : string) (l : list string) : list string :=
  match l with
  | t :: ts => (x +:+ t) :: ts
  | [] => [x]
  end.

(** The program name: double quotes open and close quoted parts and are
    dropped, a blank outside them ends the name; a backslash is itself.
    The result is the name and what follows it. *)
Fixpoint name_go (quoted : bool) (s : string) : string * string :=
  match s with
  | EmptyString => (EmptyString, EmptyString)
  | String c s' =>
      if decide (c = dquote) then name_go (negb quoted) s'
      else if is_blank c && negb quoted then (EmptyString, s')
      else (String c (name_go quoted s').1, (name_go quoted s').2)
  end.

(** The arguments.  [quoted]: the scan is inside double quotes; [started]:
    an argument is in progress; [n]: the backslashes read since the last
    character that was not one. *)
Fixpoint args_go (quoted started : bool) (n : nat) (s : string) : list string :=
  match s with
  | EmptyString => if started then [backslashes n] else []
  | String c s' =>
      if decide (c = backslash) then args_go quoted true (S n) s'
      else if decide (c = dquote) then
        if Nat.even n then
          match quoted, s' with
          | true, String c' s'' =>
              if decide (c' = dquote)
              then push (backslashes (Nat.div2 n) +:+ String dquote EmptyString)
                        (args_go true true 0 s'')
              else push (backslashes (Nat.div2 n)) (args_go false true 0 s')
          | _, _ => push (backslashes (Nat.div2 n)) (args_go (negb quoted) true 0 s')
          end
        else push (backslashes (Nat.div2 n) +:+ String dquote EmptyString)
                  (args_go quoted true 0 s')
      else if is_blank c && negb quoted then
        (if started then [backslashes n] else []) ++ args_go false false 0 s'
      else push (backslashes n +:+ String c EmptyString) (args_go quoted true 0 s')
  end.

(** The arguments of a process started with [commandLine], the program
    name first. *)
Definition argv (commandLine : string) : list string :=
  (name_go false commandLine).1 :: args_go false false 0 (name_go false commandLine).2.

(** ** What the projector has to respect *)

(** main.go:234: the token after the placeholder was replaced. *)
Definition substituted (manifestDir part : string) : string :=
  ReplaceAll part manifestFolder_token manifestDir.

(** A token that the command line gives back: it has no double quote; when
    [command_part] quotes it, it does not end in a backslash; when not, it
    is not empty and has no tab. *)
Definition intact (t : string) : Prop :=
  (dquote ∉ chars t)
  ∧ if ContainsAny t " %" then last (chars t) ≠ Some backslash
    else t ≠ EmptyString ∧ tab ∉ chars t.

#[export] Instance intact_dec t : Decision (intact t).
Proof. unfold intact. destruct (ContainsAny t " %"); apply _. Defined.

(** The tokens the command is meant to consist of: with elevation the
    helper and its directive, then the tokens of the entry. *)
Definition command_tokens (helper manifestDir : string) (c : ContextMenu) : list string :=
  (if Admin c then [helper; "elevate"] else []) ++ (substituted manifestDir <$> Command c).

(** ** Lemmas on the scan *)

Lemma push_empty l : l ≠ [] → push EmptyString l = l.
Proof. by destruct l. Qed.

Lemma push_push a b l : push a (push b l) = push (a +:+ b) l.
Proof. destruct l; simpl; by rewrite ?app_assoc_s. Qed.

Lemma push_cons a t l : push a (t :: l) = (a +:+ t) :: l.
Proof. done. Qed.

Lemma backslashes_snoc n s :
  backslashes n +:+ String backslash s = String backslash (backslashes n +:+ s).
Proof. induction n as [|n IH]; [done|]. simpl. by rewrite !app_cons_s, IH. Qed.

(** An argument in progress is an argument of the result. *)
Lemma args_go_started quoted n s : args_go quoted true n s ≠ [].
Proof.
  revert quoted n. induction s as [|c s IH]; intros quoted n; simpl; [done|].
  repeat case_match; try done; by (apply IH || destruct (args_go _ _ _ _)).
Qed.

(** Whether an argument is in progress matters at a blank and at the end
    only. *)
Lemma args_go_start quoted n c s :
  is_blank c && negb quoted = false →
  args_go quoted false n (String c s) = args_go quoted true n (String c s).
Proof. intros H. simpl. rewrite H. by repeat case_match. Qed.

(** [pending n t] and [passed n t]: the backslashes that are still held
    back after the characters [t], and the characters that were let
    through, when [n] backslashes were held back before. *)
Fixpoint pending (n : nat) (t : string) : nat :=
  match t with
  | EmptyString => n
  | String c t' => if decide (c = backslash) then pending (S n) t' else pending 0 t'
  end.

Fixpoint passed (n : nat) (t : string) : string :=
  match t with
  | EmptyString => EmptyString
  | String c t' =>
      if decide (c = backslash) then passed (S n) t'
      else backslashes n +:+ String c (passed 0 t')
  end.

Lemma passed_pending n t : passed n t +:+ backslashes (pending n t) = backslashes n +:+ t.
Proof.
  revert n. induction t as [|c t IH]; intros n; simpl.
  - by rewrite app_empty_r.
  - case_decide as Hc.
    + rewrite IH. subst c. simpl. by rewrite app_cons_s, backslashes_snoc.
    + rewrite app_assoc_s, app_cons_s, IH. done.
Qed.

(** No backslash is held back exactly after a string that does not end in
    one. *)
Lemma pending_zero n t :
  pending n t = 0 ↔ last (chars t) ≠ Some backslash ∧ (t = EmptyString → n = 0).
Proof.
  revert n. induction t as [|c t IH]; intros n.
  { simpl. split; [intros ->; by split|intros [_ H]; by apply H]. }
  assert (last (chars (String c t))
          = if decide (t = EmptyString) then Some c else last (chars t)) as ->.
  { destruct t; [done|]. by rewrite decide_False. }
  simpl. destruct (decide (c = backslash)) as [->|Hc]; rewrite IH; case_decide; subst; simpl.
  - split; [intros [_ H]; by specialize (H eq_refl)|by intros [[] _]].
  - split; [by intros [? _]|by intros [? _]].
  - split; [intros _; split; [congruence|done]|done].
  - split; [by intros [? _]|by intros [? _]].
Qed.

Lemma pending_last t : last (chars t) ≠ Some backslash → pending 0 t = 0.
Proof. intros H. by apply pending_zero. Qed.

Lemma backslashes_inj n m : backslashes n = backslashes m → n = m.
Proof. revert m. induction n; intros [|m] H; simplify_eq/=; [done|]. f_equal. auto. Qed.

Lemma backslashes_no_quote n s : backslashes n ≠ backslashes (Nat.div2 n) +:+ String dquote s.
Proof.
  intros H. apply (f_equal chars) in H. rewrite chars_app in H. simpl in H.
  assert (Forall (λ c, c = backslash) (chars (backslashes n))) as Hall.
  { clear. induction n; simpl; by constructor. }
  rewrite H in Hall. by apply Forall_app in Hall as [_ [? _]%Forall_cons].
Qed.

(** Characters that are not double quotes, and not blanks outside a quoted
    part. *)
Definition plain (quoted : bool) (t : string) : Prop :=
  (dquote ∉ chars t) ∧ (quoted = false → Forall (λ c, is_blank c = false) (chars t)).

#[export] Instance plain_dec quoted t : Decision (plain quoted t).
Proof. unfold plain. apply _. Defined.

Lemma plain_cons quoted c t :
  plain quoted (String c t) ↔ (c ≠ dquote ∧ is_blank c && negb quoted = false) ∧ plain quoted t.
Proof.
  unfold plain. simpl. rewrite not_elem_of_cons. setoid_rewrite Forall_cons.
  destruct quoted; rewrite ?andb_false_r, ?andb_true_r.
  - split; [by intros [[??] _]|by intros [[??] [? _]]].
  - split; [intros [[Hc Ht] Hb]; by destruct (Hb eq_refl)|intros [[Hc Hb] [Ht Hb']]].
    split; [done|]. intros _. by split; [|apply Hb'].
Qed.

Lemma plain_quoted t : dquote ∉ chars t → plain true t.
Proof. by split. Qed.

(** The scan of plain characters: they are let through, but for the
    backslashes at their end. *)
Lemma args_go_plain quoted n t rest :
  plain quoted t →
  args_go quoted true n (t +:+ rest)
  = push (passed n t) (args_go quoted true (pending n t) rest).
Proof.
  revert n. induction t as [|c t IH]; intros n Ht.
  - simpl. by rewrite push_empty by apply args_go_started.
  - apply plain_cons in Ht as [[Hq Hb] Ht]. rewrite app_cons_s. simpl.
    case_decide as Hc; [by apply IH|].
    rewrite decide_False, Hb, IH, push_push by done.
    by rewrite app_assoc_s, app_cons_s.
Qed.

Lemma name_go_plain quoted t rest :
  plain quoted t →
  name_go quoted (t +:+ rest) = (t +:+ (name_go quoted rest).1, (name_go quoted rest).2).
Proof.
  induction t as [|c t IH]; intros Ht.
  { change (EmptyString +:+ rest) with rest. by destruct (name_go quoted rest). }
  apply plain_cons in Ht as [[Hq Hb] Ht]. rewrite app_cons_s. simpl.
  by rewrite decide_False, Hb, IH.
Qed.

(** ** The end of a token *)

(** What follows a token in the joined string: nothing, or a space and the
    next tokens. *)
Definition ends (rest : string) : Prop := rest = EmptyString ∨ ∃ r, rest = String space r.

Definition after (rest : string) : string :=
  match rest with
  | String _ r => r
  | EmptyString => EmptyString
  end.

Lemma args_go_end n rest :
  ends rest →
  args_go false true n rest = backslashes n :: args_go false false 0 (after rest).
Proof. by intros [->|[r ->]]. Qed.

Lemma name_go_end rest : ends rest → name_go false rest = (EmptyString, after rest).
Proof. by intros [->|[r ->]]. Qed.

(** The closing quote of a quoted part with no backslash before it, at the
    end of a token. *)
Lemma args_go_close rest :
  ends rest →
  args_go true true 0 (String dquote rest) = EmptyString :: args_go false false 0 (after rest).
Proof. by intros [->|[r ->]]. Qed.

Lemma Join_ends e rest :
  ∃ r, Join (e :: rest) " " = e +:+ r ∧ ends r ∧ after r = Join rest " ".
Proof.
  destruct rest as [|e' rest].
  - exists EmptyString. rewrite app_empty_r. split; [done|]. split; [by left|done].
  - exists (String space (Join (e' :: rest) " ")). split; [done|]. split; [right; eauto|done].
Qed.

(** ** Pieces of the command line *)

(** The piece of the command line [piece] is read back as the argument
    [t], and as the program name [t]. *)
Definition reads_arg (piece t : string) : Prop :=
  ∀ rest, ends rest →
    args_go false false 0 (piece +:+ rest) = t :: args_go false false 0 (after rest).

Definition reads_name (piece t : string) : Prop :=
  ∀ rest, ends rest → name_go false (piece +:+ rest) = (t, after rest).

Lemma quoteWindowsPath_app t rest :
  quoteWindowsPath t +:+ rest = String dquote (t +:+ String dquote rest).
Proof. unfold quoteWindowsPath. by rewrite !app_cons_s, app_assoc_s. Qed.

(** A token that is written as it is. *)
Lemma bare_reads_arg t : t ≠ EmptyString → plain false t → reads_arg t t.
Proof.
  intros Hne Ht rest Hrest. destruct t as [|c t]; [done|].
  rewrite app_cons_s, args_go_start by (by apply plain_cons in Ht as [[_ ?] _]).
  rewrite <-app_cons_s, args_go_plain, args_go_end, push_cons, passed_pending by done.
  done.
Qed.

Lemma bare_reads_name t : plain false t → reads_name t t.
Proof.
  intros Ht rest Hrest. by rewrite name_go_plain, name_go_end, app_empty_r.
Qed.

(** A token between double quotes. *)
Lemma quoted_reads_arg t :
  dquote ∉ chars t → pending 0 t = 0 → reads_arg (quoteWindowsPath t) t.
Proof.
  intros Hq Hp rest Hrest. rewrite quoteWindowsPath_app.
  change (args_go false false 0 (String dquote ?s))
    with (push EmptyString (args_go true true 0 s)).
  rewrite args_go_plain, Hp, args_go_close, !push_cons by auto using plain_quoted.
  pose proof (passed_pending 0 t) as Ht. rewrite Hp in Ht.
  change (passed 0 t +:+ EmptyString = t) in Ht.
  change (EmptyString +:+ ?x) with x. by rewrite Ht.
Qed.

Lemma quoted_reads_name t : dquote ∉ chars t → reads_name (quoteWindowsPath t) t.
Proof.
  intros Hq rest Hrest. rewrite quoteWindowsPath_app.
  change (name_go false (String dquote ?s)) with (name_go true s).
  rewrite name_go_plain by auto using plain_quoted.
  change (name_go true (String dquote rest)) with (name_go false rest).
  by rewrite name_go_end, app_empty_r.
Qed.

(** What a quoted token at the end of the command line is read as: the
    backslashes at its end are halved, and an odd one makes the closing
    quote a character of the argument. *)
Lemma quoted_last_arg t :
  dquote ∉ chars t →
  args_go false false 0 (quoteWindowsPath t)
  = [passed 0 t +:+ backslashes (Nat.div2 (pending 0 t))
     +:+ (if Nat.even (pending 0 t) then EmptyString else String dquote EmptyString)].
Proof.
  intros Hq. rewrite <-(app_empty_r (quoteWindowsPath t)), quoteWindowsPath_app.
  change (args_go false false 0 (String dquote ?s))
    with (push EmptyString (args_go true true 0 s)).
  rewrite args_go_plain by auto using plain_quoted. simpl.
  destruct (Nat.even (pending 0 t)); simpl; by rewrite ?app_assoc_s, ?app_empty_r.
Qed.

(** Quoting is right exactly for the tokens that do not end in a
    backslash, among those without a double quote. *)
Lemma quoted_arg_iff t :
  dquote ∉ chars t →
  args_go false false 0 (quoteWindowsPath t) = [t] ↔ last (chars t) ≠ Some backslash.
Proof.
  intros Hq. split.
  - rewrite quoted_last_arg by done. intros [= H]. apply (pending_zero 0 t).
    pose proof (passed_pending 0 t) as Ht. change (backslashes 0 +:+ t) with t in Ht.
    rewrite <-Ht in H at 4. apply (inj (String.app _)) in H.
    destruct (Nat.even (pending 0 t)) eqn:He.
    + rewrite app_empty_r in H. apply backslashes_inj in H.
      destruct (pending 0 t) as [|k]; [done|].
      pose proof (Nat.lt_div2 (S k)). lia.
    + symmetry in H. by apply backslashes_no_quote in H.
  - intros Hl. pose proof (quoted_reads_arg t Hq (pending_last t Hl) EmptyString) as H.
    rewrite app_empty_r in H. apply H. by left.
Qed.

(** A token without a space is plain outside quotes when it has no tab and
    no double quote. *)
Lemma plain_unquoted t :
  dquote ∉ chars t → tab ∉ chars t → ContainsAny t " %" = false → plain false t.
Proof.
  intros Hq Ht Hany. split; [done|]. intros _. apply Forall_forall. intros c Hc.
  apply bool_decide_eq_false. intros [->| ->]; [|done].
  apply not_true_iff_false in Hany. apply Hany, ContainsAny_true.
  exists space. split; [done|]. by_compute.
Qed.

(** What [command_part] writes for an intact token is read back as the
    token, in either position. *)
Lemma command_part_reads manifestDir part :
  intact (substituted manifestDir part) →
  reads_arg (command_part manifestDir part) (substituted manifestDir part)
  ∧ reads_name (command_part manifestDir part) (substituted manifestDir part).
Proof.
  unfold command_part, intact. fold (substituted manifestDir part).
  destruct (ContainsAny _ _) eqn:Hany; intros [Hq Ht].
  - split; [|by apply quoted_reads_name].
    apply quoted_reads_arg; [done|]. by apply pending_last.
  - destruct Ht as [Hne Ht].
    split; [apply bare_reads_arg|apply bare_reads_name]; auto using plain_unquoted.
Qed.

(** ** The joined string *)

Lemma args_go_Join pieces tokens :
  Forall2 reads_arg pieces tokens → args_go false false 0 (Join pieces " ") = tokens.
Proof.
  induction 1 as [|piece t pieces tokens Ht _ IH]; [done|].
  destruct (Join_ends piece pieces) as (r & -> & Hr & Hafter).
  by rewrite Ht, Hafter, IH.
Qed.

Lemma argv_Join piece t pieces tokens :
  reads_name piece t → Forall2 reads_arg pieces tokens →
  argv (Join (piece :: pieces) " ") = t :: tokens.
Proof.
  intros Ht Hts. unfold argv.
  destruct (Join_ends piece pieces) as (r & -> & Hr & Hafter).
  rewrite Ht by done. simpl. rewrite Hafter. f_equal. by apply args_go_Join.
Qed.

Lemma command_parts_read manifestDir parts :
  Forall intact (substituted manifestDir <$> parts) →
  Forall2 reads_arg (command_part manifestDir <$> parts) (substituted manifestDir <$> parts).
Proof.
  rewrite Forall_fmap, Forall2_fmap. intros H. apply Forall_Forall2_diag.
  eapply Forall_impl; [exact H|]. intros part Hp. by apply command_part_reads.
Qed.

(** ** The command line of an entry *)

Section command.
Context (env : Env) (manifestDir : string).
Implicit Types (c : ContextMenu) (cache cmd : string).

Lemma elevate_reads : reads_arg "elevate" "elevate".
Proof. apply bare_reads_arg; [done|by_compute]. Qed.

(** The command line of an entry splits back into the tokens of the
    entry, after the helper and its directive when the entry asks for
    elevation. *)
Lemma CommandString_splits c cache cmd cache' :
  CommandString env c manifestDir cache = Ok cmd cache' →
  (Admin c = true → dquote ∉ chars cache') →
  (Admin c = false → Command c ≠ []) →
  Forall intact (substituted manifestDir <$> Command c) →
  argv cmd = command_tokens cache' manifestDir c.
Proof.
  unfold CommandString, command_elevate, command_tokens. intros Hrun Hh Hne Hin.
  pose proof (command_parts_read _ _ Hin) as Hparts. destruct (Admin c).
  - unfold bind, try in Hrun. pose proof (findNircmd_post env cache) as Hp.
    destruct (findNircmd env cache) as [p s| | |]; try done.
    injection Hrun as <- <-. simpl in Hp. subst s.
    apply (argv_Join _ _ (_ :: _) (_ :: _)); [by apply quoted_reads_name, Hh|].
    constructor; [apply elevate_reads|done].
  - injection Hrun as <- <-. destruct (Command c) as [|part parts]; [by destruct Hne|].
    rewrite !fmap_cons in *. apply Forall_cons in Hin as [Hin _].
    apply Forall2_cons in Hparts as [_ Hparts].
    apply argv_Join; [by apply command_part_reads|done].
Qed.

End command.

(** C22.  The command line is read back as it was meant.  When
    [CommandString] returns the command line of an entry, a process started
    with it receives as its arguments the tokens of the entry with the
    placeholder replaced, after the path of the helper and the word
    [elevate] when the entry asks for elevation, provided that: no token and
    not the path of the helper has a double quote in it; no token with a
    space or a percent sign ends in a backslash; every other token is not
    empty and has no tab; and an entry without elevation has a token. *)
Theorem CommandString_argv env c manifestDir cache cmd cache' :
  CommandString env c manifestDir cache = Ok cmd cache' →
  (Admin c = true → dquote ∉ chars cache') →
  (Admin c = false → Command c ≠ []) →
  Forall intact (substituted manifestDir <$> Command c) →
  argv cmd = command_tokens cache' manifestDir c.
Proof. apply CommandString_splits. Qed.

(** C35.  When quoting is right.  For a path without a double quote,
    written by [quoteWindowsPath] as the argument of a program, the process
    receives the path as its argument exactly when the path does not end in
    a backslash: a backslash at the end makes the closing quote a character
    of the argument, or is halved with the others before it. *)
Theorem quoteWindowsPath_argv prog t :
  plain false prog → dquote ∉ chars t →
  argv (prog +:+ " " +:+ quoteWindowsPath t) = [prog; t] ↔ last (chars t) ≠ Some backslash.
Proof.
  intros Hprog Hq. unfold argv. change (" " +:+ ?x) with (String space x).
  rewrite (bare_reads_name prog Hprog (String space (quoteWindowsPath t))) by (right; eauto).
  cbn [fst snd after]. rewrite <-(quoted_arg_iff t Hq).
  split; [congruence|by intros ->].
Qed.

(** ** Command lines that are read back otherwise *)

(** An item with the tokens [parts], without elevation. *)
Definition item_of (parts : list string) : ContextMenu :=
  mkContextMenu ContextMenuType_Item "Run" EmptyString None false false parts [].

(** The arguments of the process that the command of an entry starts. *)
Definition arguments (env : Env) (c : ContextMenu) (manifestDir cache : string)
    : option (list string) :=
  match CommandString env c manifestDir cache with
  | Ok cmd _ => Some (argv cmd)
  | _ => None
  end.

(** A directory with a space in its name, and a token that ends the
    directory with a separator: the closing quote is read as a double quote
    of the argument, and the next token becomes part of it. *)
Example backslash_before_closing_quote env cache :
  arguments env (item_of ["explorer.exe"; "${manifestFolder}\"; "/e"]) "C:\my menu" cache
  = Some ["explorer.exe"; "C:\my menu" +:+ String dquote " /e"].
Proof. by vm_compute. Qed.

(** A token with double quotes in it loses them, and is split at a space
    between them. *)
Example double_quote_in_token env cache :
  arguments env (item_of ["cmd.exe"; "/k"; "echo " +:+ String dquote "a b" +:+ String dquote EmptyString])
            "C:\menu" cache
  = Some ["cmd.exe"; "/k"; "echo a"; "b"].
Proof. by vm_compute. Qed.

(** A token with a tab and no space is not quoted, and is two arguments. *)
Example tab_in_token env cache :
  arguments env (item_of ["notepad.exe"; "a" +:+ String tab "b"]) "C:\menu" cache
  = Some ["notepad.exe"; "a"; "b"].
Proof. by vm_compute. Qed.

(** An empty token is no argument. *)
Example empty_token env cache :
  arguments env (item_of ["find.exe"; EmptyString; "x"]) "C:\menu" cache
  = Some ["find.exe"; "x"].
Proof. by vm_compute. Qed.

Lemma CommandString_argv_witness :
  argv (String dquote "C:\menu\bin\nircmd.exe" +:+ String dquote " elevate cmd.exe /k "
        +:+ String dquote "echo %CD%" +:+ String dquote EmptyString)
  = ["C:\menu\bin\nircmd.exe"; "elevate"; "cmd.exe"; "/k"; "echo %CD%"].
Proof.
  apply (CommandString_argv sample_env sample_admin "C:\menu" EmptyString);
    [apply CommandString_admin_sample|intros _; by_compute|done|by_compute].
Defined.

Lemma quoteWindowsPath_argv_witness :
  argv ("explorer.exe" +:+ " " +:+ quoteWindowsPath "C:\my menu") = ["explorer.exe"; "C:\my menu"]
  ↔ last (chars "C:\my menu") ≠ Some backslash.
Proof. apply (quoteWindowsPath_argv "explorer.exe" "C:\my menu"); by_compute. Defined.
