(* ===== verification/Sync.v ===== *)
(** * The tree synchronizer: [createContextMenu] (main.go:18-84) and the
    loop of [run] (main.go:104-109)

    The state of the process is the registry and the cache of
    [findNircmd].  The eraser is called with the fuel [erase_fuel] computes
    from the registry at the call, which the termination theorem of the eraser
    shows to be enough.

    An entry of the manifest is a pointer: the function receives [None] for
    a nil entry and dereferences it at main.go:31, after the key was erased
    and created.  The handles [registry.CreateKey] returns are never closed
    by the program; the model keeps them in the handle table. *)

From Stdlib Require Import Ascii.
From stdpp Require Import gmap strings list.
From S2P Require Import Prelude GoStrings GoErrors Registry Eraser.
From S2P Require Import Manifest Locator Projector.

(** ** State *)

Record World := mkWorld {
  registry : Registry;
  _nircmdPath : string;      (* main.go:136 *)
}.

(** A registry operation, run on the registry of the process. *)
Definition on_registry {A} (m : M Registry A) : M World A :=
  zoom registry (λ r w, mkWorld r (_nircmdPath w)) m.

(** A computation on the cache, run on the cache of the process. *)
Definition on_cache {A} (m : M string A) : M World A :=
  zoom _nircmdPath (λ c w, mkWorld (registry w) c) m.

(** [deleteRegKeyRecursive] with the fuel computed at the call. *)
Definition erase (k : Key) (path : string) : M Registry unit :=
  λ r, deleteRegKeyRecursive (erase_fuel r) k path r.

(** ** createContextMenu *)

Definition shell_prefix : string := "Software\Classes\Directory\Background\shell".

(** main.go:21 *)
Definition keyPath_of (parent id : string) : string :=
  shell_prefix +:+ parent +:+ String backslash EmptyString +:+ id.

(** main.go:23-30: erase the key, create it. *)
Definition create_fresh (keyPath : string) : M Registry Key :=
  wrap (Errorf "failed to delete registry key %q: %w" [keyPath])
       (erase CURRENT_USER keyPath) ;;
  res <- wrap (Errorf "failed to create registry key %q: %w" [keyPath])
              (CreateKey CURRENT_USER keyPath) ;;
  ret res.1.

(** main.go:31-52: the values every entry has. *)
Definition set_attributes (key : Key) (item : ContextMenu) (manifestDir : string)
    : M Registry unit :=
  wrap (Errorf "failed to set MUIVerb: %w" [])
       (SetStringValue key "MUIVerb" (Title item)) ;;
  (let icon := Icon item manifestDir in
   if decide (icon ≠ EmptyString)
   then wrap (Errorf "failed to set Icon: %w" []) (SetStringValue key "Icon" icon)
   else ret tt) ;;
  (if Extended item
   then wrap (Errorf "failed to set Extended: %w" [])
             (SetStringValue key "Extended" EmptyString)
   else ret tt) ;;
  (if Admin item
   then wrap (Errorf "failed to set HasLUAShield: %w" [])
             (SetStringValue key "HasLUAShield" EmptyString)
   else ret tt).

(** main.go:54-61: mark the key as a submenu and create its [shell] key.
    The error of the second step names [keyPath], not the key it failed to
    create, as the source does. *)
Definition create_folder (key : Key) (keyPath : string) : M Registry unit :=
  wrap (Errorf "failed to set SubCommands: %w" [])
       (SetStringValue key "SubCommands" EmptyString) ;;
  wrap (Errorf "failed to create registry key %q: %w" [keyPath])
       (CreateKey CURRENT_USER (keyPath +:+ "\shell")) ;;
  ret tt.

(** main.go:69-81: the [command] key and its default value.  The command
    string is computed after the key was created, as the argument of the
    call that sets it. *)
Definition create_command (env : Env) (keyPath : string) (item : ContextMenu)
    (manifestDir : string) : M World unit :=
  let keyPath := keyPath +:+ "\command" in
  key <- on_registry (create_fresh keyPath) ;;
  cmd <- on_cache (CommandString env item manifestDir) ;;
  on_registry
    (wrap (Errorf "failed to set command string: %w" [])
          (SetExpandStringValue key EmptyString cmd)).

(** main.go:62-67 and 104-109: the loop over the entries of a map, with the
    function called for each entry as a parameter. *)
Definition create_entries (create : string → option ContextMenu → M World unit)
    (items : list (string * option ContextMenu)) : M World unit :=
  for_each (λ e, wrap (Errorf "failed to create context menu ID %q: %w" [e.1])
                      (create e.1 e.2))
           items.

(** main.go:18-84 for a non-nil entry. *)
Fixpoint create_menu (env : Env) (parent id : string) (item : ContextMenu)
    (manifestDir : string) {struct item} : M World unit :=
  let keyPath := keyPath_of parent id in
  key <- on_registry (create_fresh keyPath) ;;
  on_registry (set_attributes key item manifestDir) ;;
  if decide (Type_ item = ContextMenuType_Folder) then
    on_registry (create_folder key keyPath) ;;
    let parent' := parent +:+ String backslash EmptyString +:+ id +:+ "\shell" in
    create_entries
      (λ subID subItem,
         match subItem with
         | Some sub => create_menu env parent' subID sub manifestDir
         | None => on_registry (create_fresh (keyPath_of parent' subID)) ;; nil_deref
         end)
      (Items item)
  else create_command env keyPath item manifestDir.

(** main.go:18-84: the entry may be nil; the dereference at main.go:31 then
    panics, after the key was erased and created. *)
Definition createContextMenu (env : Env) (parent id : string)
    (item : option ContextMenu) (manifestDir : string) : M World unit :=
  match item with
  | Some c => create_menu env parent id c manifestDir
  | None => on_registry (create_fresh (keyPath_of parent id)) ;; nil_deref
  end.

(** main.go:104-109: the loop of [run] over the top-level entries. *)
Definition install (env : Env) (manifest : Manifest) (manifestDir : string)
    : M World unit :=
  create_entries (λ id item, createContextMenu env EmptyString id item manifestDir)
                 (manifest_Items manifest).

(** ** The unfolding of [create_menu]

    The function calls itself through the loop of main.go:62-67; this
    equation states it with [createContextMenu] in the loop, as in the
    source. *)
Lemma create_menu_unfold env parent id item manifestDir :
  create_menu env parent id item manifestDir =
  (let keyPath := keyPath_of parent id in
   key <- on_registry (create_fresh keyPath) ;;
   on_registry (set_attributes key item manifestDir) ;;
   if decide (Type_ item = ContextMenuType_Folder) then
     on_registry (create_folder key keyPath) ;;
     create_entries
       (λ subID subItem,
          createContextMenu env (parent +:+ String backslash EmptyString +:+ id +:+ "\shell")
                            subID subItem manifestDir)
       (Items item)
   else create_command env keyPath item manifestDir)%go.
Proof. by destruct item. Qed.

(** ** What every run keeps

    [sync_frame r0 r]: the store [r] satisfies the invariant, refuses what
    [r0] refused, and has the handles of [r0] still open; the program closes
    no handle it did not open, and none of those [registry.CreateKey] gave
    it. *)

Record sync_frame (r0 r : Registry) : Prop := {
  sf_wf : reg_wf r;
  sf_refused : refused r = refused r0;
  sf_handles : handles r0 ⊆ handles r;
  sf_next : next_handle r0 ≤ next_handle r;
}.

Section frame.
Context (r0 : Registry).
Implicit Types (r : Registry) (p target : keypath) (k key : Key).

Lemma sync_frame_refl : reg_wf r0 → sync_frame r0 r0.
Proof. by split. Qed.

Lemma sync_frame_erase target r r' :
  sync_frame r0 r → erase_frame target r r' → sync_frame r0 r'.
Proof.
  intros [? Hr Hh ?] [? ? Hr' Hh' ?]. split; [done|congruence|by rewrite Hh'|lia].
Qed.

Lemma sync_frame_create target r :
  sync_frame r0 r → Forall valid_seg target →
  sync_frame r0 (with_handle target (set_keys (keys r ∪ fresh_keys target) r)).
Proof.
  intros [Hwf Hr Hh Hn] Hv. split; simpl; [|done| |lia].
  - by apply with_handle_wf, create_wf.
  - etrans; [done|]. by apply insert_subseteq, wf_fresh_handle.
Qed.

Lemma sync_frame_alter (f : values → values) p r :
  sync_frame r0 r → sync_frame r0 (set_keys (alter f p (keys r)) r).
Proof. intros []. split; simpl; [by apply alter_wf|done..]. Qed.

(** The steps, with the handle they return or keep. *)

Lemma erase_frame_post path r :
  sync_frame r0 r →
  post (erase CURRENT_USER path r) (λ _, sync_frame r0) (λ _, sync_frame r0) no_crash.
Proof.
  intros Hf. unfold erase. eapply post_mono; [|..|done].
  - eapply (deleteRegKeyRecursive_erase_safe _ _ _ _ []);
      eauto using resolve_live_root, sf_wf, erase_fuel_pos, height_below_erase_fuel.
  - intros ? r'. by apply sync_frame_erase.
  - intros ? r'. by apply sync_frame_erase.
Qed.

Lemma CreateKey_frame_post sub r :
  sync_frame r0 r →
  post (CreateKey CURRENT_USER sub r)
    (λ res r', sync_frame r0 r' ∧ resolve_live res.1 r' = inr (split_path sub))
    (λ _, sync_frame r0) no_crash.
Proof.
  intros Hf. eapply post_mono; [apply (CreateKey_post _ _ _ []), resolve_live_root, Hf|..|done].
  - intros [key ?] r' [-> ->]. simpl. split; [apply sync_frame_create; auto with reg|].
    apply (resolve_live_new_handle (set_keys _ r)). simpl.
    apply elem_of_dom. rewrite lookup_union_fresh.
    destruct (keys r !! _); [done|]. by rewrite decide_True.
  - by intros ? r' ->.
Qed.

Lemma set_value_frame_post key name v r p :
  sync_frame r0 r → resolve_live key r = inr p →
  post (set_value key name v r)
    (λ _ r', sync_frame r0 r' ∧ resolve_live key r' = inr p)
    (λ _, sync_frame r0) no_crash.
Proof.
  intros Hf Hk. eapply post_mono; [by apply set_value_post|..|done].
  - intros ? r' ->. split; [by apply sync_frame_alter|].
    eapply resolve_live_eq; [| |exact Hk]; simpl; [done|]. rewrite dom_alter.
    by apply resolve_live_inr in Hk as [_ ?].
  - by intros ? r' ->.
Qed.

End frame.

(** ** Every path of [createContextMenu] keeps the frame *)

Section safety.
Context (env : Env) (manifestDir : string) (r0 : Registry).
Implicit Types (r : Registry) (w : World) (p : keypath) (key : Key) (item : ContextMenu).

(** The handle [key] is open on the existing key [p]. *)
Definition live (key : Key) (p : keypath) (r : Registry) : Prop :=
  sync_frame r0 r ∧ resolve_live key r = inr p.

(** The frame, for the state of the process. *)
Definition kept (w : World) : Prop := sync_frame r0 (registry w).

Lemma create_fresh_post keyPath r :
  sync_frame r0 r →
  post (create_fresh keyPath r)
    (λ key, live key (split_path keyPath)) (λ _, sync_frame r0) no_crash.
Proof.
  intros Hf. unfold create_fresh.
  eapply post_seq; [by apply post_wrap, erase_frame_post|]. intros ? r1 H1. cbv beta in H1.
  eapply post_seq; [by apply post_wrap, CreateKey_frame_post|]. by intros [key ?] r2 H2.
Qed.

Lemma set_wrapped_post fmt key name v r p :
  live key p r →
  post (wrap (Errorf fmt []) (set_value key name v) r)
    (λ _, live key p) (λ _, sync_frame r0) no_crash.
Proof. intros [Hf Hk]. by apply post_wrap, set_value_frame_post. Qed.

Lemma set_attributes_post key item r p :
  live key p r →
  post (set_attributes key item manifestDir r)
    (λ _, live key p) (λ _, sync_frame r0) no_crash.
Proof.
  intros H. unfold set_attributes. reg_values.
  eapply post_seq; [by eapply set_wrapped_post|]. intros ? r1 H1. cbv beta in H1.
  eapply post_seq.
  { case_decide; [by eapply set_wrapped_post|by apply post_ret]. }
  intros ? r2 H2. cbv beta in H2. eapply post_seq.
  { apply post_when; [intros _; by eapply set_wrapped_post|done]. }
  intros ? r3 H3. cbv beta in H3. apply post_when; [intros _; by eapply set_wrapped_post|done].
Qed.

Lemma create_folder_post key keyPath r p :
  live key p r →
  post (create_folder key keyPath r) (λ _, sync_frame r0) (λ _, sync_frame r0) no_crash.
Proof.
  intros H. unfold create_folder. reg_values.
  eapply post_seq; [by eapply set_wrapped_post|]. intros ? r1 [H1 _].
  eapply post_seq; [by apply post_wrap, CreateKey_frame_post|]. by intros ? r2 [H2 _].
Qed.

(** Why the process ends before [run] returns: a nil entry was reached, or
    an entry asks for elevation and the helper is found nowhere. *)
Definition crash_cause (nil admin : bool) (cr : crash) : Prop :=
  match cr with
  | NilDeref => nil = true
  | LogFatal e => admin = true ∧ root_cause e = ErrNotExist
  end.

(** The state and the cause at the end of the process. *)
Definition ends (nil admin : bool) (cr : crash) (w : World) : Prop :=
  kept w ∧ crash_cause nil admin cr.

Lemma crash_cause_mono nil admin nil' admin' cr :
  (nil = true → nil' = true) → (admin = true → admin' = true) →
  crash_cause nil admin cr → crash_cause nil' admin' cr.
Proof. destruct cr; simpl; [intros _ Ha [? ?]|intros Hn _ ?]; auto. Qed.

Lemma ends_mono nil admin nil' admin' cr w :
  (nil = true → nil' = true) → (admin = true → admin' = true) →
  ends nil admin cr w → ends nil' admin' cr w.
Proof. intros ?? [? ?]. split; [done|by eapply crash_cause_mono]. Qed.

(** A registry step, as a step of the process: it never ends the process. *)
Lemma on_registry_post {A} (m : M Registry A) w (Q0 : A → Registry → Prop) E0
    (Q : A → World → Prop) E C :
  post (m (registry w)) Q0 E0 no_crash →
  (∀ a r, Q0 a r → Q a (mkWorld r (_nircmdPath w))) →
  (∀ e r, E0 e r → E e (mkWorld r (_nircmdPath w))) →
  post (on_registry m w) Q E C.
Proof.
  intros H HQ HE. apply post_zoom.
  eapply post_mono; [exact H|auto|auto|intros ?? Hc; destruct Hc].
Qed.

Lemma create_fresh_kept keyPath w C :
  kept w →
  post (on_registry (create_fresh keyPath) w)
    (λ key w', live key (split_path keyPath) (registry w')) (λ _, kept) C.
Proof. intros Hw. eapply on_registry_post; [by apply create_fresh_post|done..]. Qed.

Lemma set_attributes_kept key item w p C :
  live key p (registry w) →
  post (on_registry (set_attributes key item manifestDir) w)
    (λ _ w', live key p (registry w')) (λ _, kept) C.
Proof. intros Hw. eapply on_registry_post; [by eapply set_attributes_post|done..]. Qed.

Lemma create_folder_kept key keyPath w p C :
  live key p (registry w) →
  post (on_registry (create_folder key keyPath) w) (λ _, kept) (λ _, kept) C.
Proof. intros Hw. eapply on_registry_post; [by eapply create_folder_post|done..]. Qed.

(** [CommandString] only touches the cache and returns no error; it ends
    the process only for an entry that asks for elevation, and only because
    the helper is missing. *)
Lemma CommandString_kept item w nil :
  kept w →
  post (on_cache (CommandString env item manifestDir) w)
    (λ _ w', registry w' = registry w) (λ _ _, False) (ends nil (Admin item)).
Proof.
  intros Hw. apply post_zoom.
  eapply post_mono; [apply CommandString_post|done..|].
  intros cr cache' [Ha (e & -> & He)]. by split.
Qed.

Lemma create_command_kept keyPath item w nil :
  kept w →
  post (create_command env keyPath item manifestDir w)
    (λ _, kept) (λ _, kept) (ends nil (Admin item)).
Proof.
  intros Hw. unfold create_command.
  eapply post_seq; [by apply create_fresh_kept|]. intros key w1 [H1 Hk].
  eapply post_seq.
  { eapply post_mono; [by apply (CommandString_kept item w1 nil)|..]; [|done..].
    intros cmd w2 Hr. exact Hr. }
  intros cmd w2 Hr. cbv beta in Hr. reg_values.
  eapply on_registry_post; [eapply set_wrapped_post; split; rewrite Hr; eauto|..].
  - by intros ? r3 [H3 _].
  - done.
Qed.

(** A nil entry: the key is erased and created, then the process panics. *)
Lemma nil_entry_kept parent id w admin :
  kept w →
  post (createContextMenu env parent id None manifestDir w)
    (λ _ _, False) (λ _, kept) (ends true admin).
Proof.
  intros Hw. simpl. eapply post_seq; [by apply create_fresh_kept|].
  by intros key w1 [H1 _].
Qed.

(** The loop keeps the frame when the call for every entry does, and ends
    the process only when one of those calls does. *)
Lemma create_entries_kept create items w C :
  kept w →
  (∀ id o w, (id, o) ∈ items → kept w →
     post (create id o w) (λ _, kept) (λ _, kept) C) →
  post (create_entries create items w) (λ _, kept) (λ _, kept) C.
Proof.
  intros Hw Hc. apply post_for_each; [done|]. intros [id item] w' Hin Hw'.
  apply post_wrap. by apply Hc.
Qed.

Lemma create_menu_kept item : ∀ parent id w,
  kept w →
  post (create_menu env parent id item manifestDir w)
    (λ _, kept) (λ _, kept) (ends (has_nil item) (elevated item)).
Proof.
  induction item as [item IH] using ContextMenu_tree_ind. intros parent id w Hw.
  rewrite create_menu_unfold. cbv zeta.
  eapply post_seq; [by apply create_fresh_kept|]. intros key w1 H1. cbv beta in H1.
  eapply post_seq; [by eapply set_attributes_kept|]. intros ? w2 H2. cbv beta in H2.
  case_decide as Hf.
  2:{ rewrite elevated_item by done. apply create_command_kept, H2. }
  eapply post_seq; [by eapply create_folder_kept|]. intros ? w3 H3. cbv beta in H3.
  rewrite has_nil_folder, elevated_folder by done.
  apply create_entries_kept; [done|]. intros subID [sub|] w4 Hin H4.
  - eapply post_mono; [by eapply IH|done..|]. intros cr w5.
    apply ends_mono; [apply (entries_has_nil_elem _ _ (Some sub) Hin)
                     |apply (entries_elevated_elem _ _ (Some sub) Hin)].
  - eapply post_mono; [by apply (nil_entry_kept _ _ _ false)|done..|]. intros cr w5.
    apply ends_mono; [intros _; by apply (entries_has_nil_elem _ _ None Hin)|done].
Qed.

Lemma createContextMenu_kept parent id o w :
  kept w →
  post (createContextMenu env parent id o manifestDir w)
    (λ _, kept) (λ _, kept) (ends (entry_has_nil o) (entry_elevated o)).
Proof.
  intros Hw. destruct o as [c|]; [by apply create_menu_kept|].
  eapply post_mono; [by apply nil_entry_kept|done..].
Qed.

Lemma install_kept manifest w :
  kept w →
  post (install env manifest manifestDir w) (λ _, kept) (λ _, kept)
    (ends (entries_has_nil (manifest_Items manifest))
          (entries_elevated (manifest_Items manifest))).
Proof.
  intros Hw. apply create_entries_kept; [done|]. intros id o w' Hin Hw'.
  eapply post_mono; [by apply createContextMenu_kept|done..|]. intros cr w''.
  apply ends_mono; [by eapply entries_has_nil_elem|by eapply entries_elevated_elem].
Qed.

End safety.

(** C7.  Installing any manifest in any environment, on a store that
    satisfies the invariant, comes to an end: with success, with an error or
    with the end of the process, and never for lack of fuel in the eraser.
    On each of these paths the store satisfies the invariant again, refuses
    what it refused, and every handle that was open is still open.  The
    manifest may have nil entries, identifiers that are not key names and any
    type strings. *)
Theorem install_safe env manifest manifestDir w :
  reg_wf (registry w) →
  post (install env manifest manifestDir w)
    (λ _, kept (registry w)) (λ _, kept (registry w)) (λ _, kept (registry w)).
Proof.
  intros Hwf. eapply post_mono; [by apply install_kept, sync_frame_refl|done..|].
  by intros cr w' [? _].
Qed.

(** C14.  The installation ends the process for two reasons only: with a nil
    pointer dereference, and then some entry of the manifest, at some depth
    below folders, is nil; or in [log.Fatal], and then some entry that is
    visited asks for elevation and the helper was found neither in the cache,
    nor in the working directory, nor beside the executable, nor on the
    search path.  In particular a manifest with no nil entry and no elevated
    entry always makes [run] return. *)
Theorem install_crash_cause env manifest manifestDir w :
  reg_wf (registry w) →
  post (install env manifest manifestDir w) (λ _ _, True) (λ _ _, True)
    (λ cr _, crash_cause (entries_has_nil (manifest_Items manifest))
                         (entries_elevated (manifest_Items manifest)) cr).
Proof.
  intros Hwf. eapply post_mono; [by apply (install_kept _ _ (registry w)), sync_frame_refl|done..|].
  by intros cr w' [_ ?].
Qed.

(** ** The first two steps, when the store refuses nothing *)

(** The keys after the subtree at [t] was erased and the key [t] created:
    the old subtree is gone, the key and the missing keys above it exist and
    are empty. *)
Definition refreshed (t : keypath) (ks : gmap keypath values) : gmap keypath values :=
  erased t ks ∪ fresh_keys t.

(** The state after [create_fresh], with [key] open on the new key. *)
Record fresh_post (target : keypath) (r r' : Registry) (key : Key) : Prop := {
  fp_keys : keys r' = refreshed target (keys r);
  fp_refused : refused r' = refused r;
  fp_live : resolve_live key r' = inr target;
  fp_wf : reg_wf r';
}.

Section fresh.
Implicit Types (r : Registry) (w : World) (path keyPath parent id : string).

Lemma keyPath_of_ne parent id : split_path (keyPath_of parent id) ≠ [].
Proof. unfold keyPath_of, shell_prefix. rewrite app_cons_s. by apply split_path_cons_other. Qed.

Lemma erase_Ok path r :
  reg_wf r → split_path path ≠ [] → erasable (split_path path) r →
  ∃ r', erase CURRENT_USER path r = Ok tt r'
        ∧ erase_post (split_path path) r r' ∧ reg_wf r'.
Proof.
  intros Hwf Hne He. unfold erase.
  destruct (deleteRegKeyRecursive_spec (erase_fuel r) CURRENT_USER path r [])
    as (r' & Hrun & Hpost);
    eauto using resolve_live_root, erase_fuel_pos, height_below_erase_fuel.
  exists r'. split; [done|split; [done|]].
  pose proof (deleteRegKeyRecursive_erase_safe (erase_fuel r) CURRENT_USER path r []
                Hwf (resolve_live_root _ Hwf) (erase_fuel_pos _)
                (height_below_erase_fuel _ _)) as Hs.
  rewrite Hrun in Hs. apply Hs.
Qed.

Lemma create_fresh_Ok keyPath r :
  reg_wf r → split_path keyPath ≠ [] → erasable (split_path keyPath) r →
  (ACreate, split_path keyPath) ∉ refused r →
  ∃ key r', create_fresh keyPath r = Ok key r'
            ∧ fresh_post (split_path keyPath) r r' key.
Proof.
  intros Hwf Hne He Hc. destruct (erase_Ok keyPath r) as (r1 & Hrun & [] & Hwf1); [done..|].
  pose proof (CreateKey_Ok CURRENT_USER keyPath r1 [] (resolve_live_root _ Hwf1)) as Hck.
  rewrite post_refused in Hck. specialize (Hck Hc). unfold create_fresh.
  rewrite (bind_Ok _ _ _ _ _ (wrap_Ok _ _ _ _ _ Hrun)).
  rewrite (bind_Ok _ _ _ _ _ (wrap_Ok _ _ _ _ _ Hck)). eexists _, _. split; [done|].
  split; simpl;
    [by unfold refreshed; rewrite post_keys|done| |auto using with_handle_wf, create_wf with reg].
  apply (resolve_live_new_handle (set_keys _ r1)). simpl.
  apply elem_of_dom. rewrite lookup_union_fresh.
  destruct (keys r1 !! _); [done|]. by rewrite decide_True.
Qed.

Lemma create_fresh_refused keyPath r :
  reg_wf r → split_path keyPath ≠ [] → erasable (split_path keyPath) r →
  (ACreate, split_path keyPath) ∈ refused r →
  ∃ r', create_fresh keyPath r
        = Err (Errorf "failed to create registry key %q: %w" [keyPath]
                 (Errno_error ERROR_ACCESS_DENIED)) r'
        ∧ erase_post (split_path keyPath) r r'.
Proof.
  intros Hwf Hne He Hc. destruct (erase_Ok keyPath r) as (r1 & Hrun & Hpost & Hwf1); [done..|].
  pose proof (CreateKey_refused CURRENT_USER keyPath r1 [] (resolve_live_root _ Hwf1)) as Hck.
  rewrite (post_refused _ _ _ Hpost) in Hck. specialize (Hck Hc). unfold create_fresh.
  rewrite (bind_Ok _ _ _ _ _ (wrap_Ok _ _ _ _ _ Hrun)).
  rewrite (bind_Err _ _ _ _ _ (wrap_Err _ _ _ _ _ Hck)). eauto.
Qed.

End fresh.

(** ** The values of an entry *)

(** What main.go:31-52 adds to the values of a key. *)
Definition attributes (item : ContextMenu) (manifestDir : string) (vs : values) : values :=
  let vs := <["MUIVerb" := REG_SZ (Title item)]> vs in
  let vs := if decide (Icon item manifestDir ≠ EmptyString)
            then <["Icon" := REG_SZ (Icon item manifestDir)]> vs else vs in
  let vs := if Extended item then <["Extended" := REG_SZ EmptyString]> vs else vs in
  if Admin item then <["HasLUAShield" := REG_SZ EmptyString]> vs else vs.

Section values.
Context (key : Key) (p : keypath) (r : Registry).
Context (Hkey : resolve_live key r = inr p) (Hset : (ASetValue, p) ∉ refused r).
Implicit Types (f g : values → values) (name : string) (v : RegValue).

(** The state after the values of [p] were changed by [f]. *)
Definition altered f : Registry := set_keys (alter f p (keys r)) r.

Lemma altered_id : altered id = r.
Proof. unfold altered. rewrite alter_id by done. by destruct r. Qed.

Lemma altered_ext f g : (∀ vs, f vs = g vs) → altered f = altered g.
Proof. intros H. unfold altered. f_equal. by apply alter_ext. Qed.

Lemma set_value_altered name v f :
  set_value key name v (altered f) = Ok tt (altered (insert name v ∘ f)).
Proof.
  erewrite set_value_Ok; [|eapply resolve_live_eq; [| |exact Hkey]|]; simpl; [|done| |done].
  - unfold altered. simpl. by rewrite alter_alter_eq.
  - rewrite dom_alter. by apply resolve_live_inr in Hkey as [_ ?].
Qed.

(** A step that runs when [b] holds. *)
Lemma set_when_altered (b : bool) fmt name v f :
  (if b then wrap (Errorf fmt []) (set_value key name v) else ret tt) (altered f)
  = Ok tt (altered (if b then insert name v ∘ f else f)).
Proof. destruct b; [|done]. apply wrap_Ok, set_value_altered. Qed.

Lemma set_dec_altered (P : Prop) `{!Decision P} fmt name v f :
  (if decide P then wrap (Errorf fmt []) (set_value key name v) else ret tt) (altered f)
  = Ok tt (altered (if decide P then insert name v ∘ f else f)).
Proof. destruct (decide P); [|done]. apply wrap_Ok, set_value_altered. Qed.

Lemma set_attributes_Ok item manifestDir :
  set_attributes key item manifestDir r = Ok tt (altered (attributes item manifestDir)).
Proof.
  unfold set_attributes. reg_values. rewrite <-altered_id at 1.
  rewrite (bind_Ok _ _ _ _ _ (wrap_Ok _ _ _ _ _ (set_value_altered _ _ _))).
  cbv zeta. rewrite (bind_Ok _ _ _ _ _ (set_dec_altered _ _ _ _ _)).
  rewrite (bind_Ok _ _ _ _ _ (set_when_altered _ _ _ _ _)), set_when_altered.
  f_equal. apply altered_ext. intros vs. unfold attributes. cbv zeta.
  by destruct (decide _), (Extended item), (Admin item).
Qed.

End values.

(** ** The keys after a key was erased and created *)

(** The store refuses nothing at or below [t]. *)
Definition unrefused (t : keypath) (r : Registry) : Prop :=
  ∀ q a, t `prefix_of` q → (a, q) ∉ refused r.

Definition unrefused_fin (t : keypath) (r : Registry) : Prop :=
  set_Forall (λ aq, ¬ t `prefix_of` aq.2) (refused r).

Lemma unrefused_fin_spec t r : unrefused_fin t r ↔ unrefused t r.
Proof.
  split.
  - intros H q a Hq Hin. by apply (H (a, q)).
  - intros H [a q] Hin Hq. by apply (H q a).
Qed.

#[export] Instance unrefused_dec t r : Decision (unrefused t r).
Proof. refine (cast_if (decide (unrefused_fin t r))); by rewrite <-unrefused_fin_spec. Defined.

Section refreshed.
Implicit Types (t q : keypath) (ks : gmap keypath values) (r : Registry).

Lemma erasable_eq t r r' : refused r' = refused r → erasable t r → erasable t r'.
Proof. intros Hr H q a Hq Ha. rewrite Hr. by apply H. Qed.

Lemma unrefused_erasable t r : unrefused t r → erasable t r.
Proof. intros H q a Hq _. by apply H. Qed.

Lemma unrefused_below t t' r : t `prefix_of` t' → unrefused t r → unrefused t' r.
Proof. intros Hpre H q a Hq. apply H. by etrans. Qed.

#[export] Instance unrefused_proper : Proper ((=) ==> (≡) ==> iff) unrefused.
Proof. intros t ? <- r1 r2 Hr. unfold unrefused. by setoid_rewrite Hr. Qed.

Lemma unrefused_eq t r r' : refused r' = refused r → unrefused t r → unrefused t r'.
Proof. intros Hr H q a Hq. rewrite Hr. by apply H. Qed.

Lemma lookup_refreshed t ks q :
  refreshed t ks !! q =
    if decide (t `prefix_of` q) then (if decide (q = t) then Some ∅ else None)
    else match ks !! q with
         | Some v => Some v
         | None => if decide (q `prefix_of` t) then Some ∅ else None
         end.
Proof.
  unfold refreshed. rewrite lookup_union_fresh, lookup_erased.
  repeat case_decide; subst; try done.
  match goal with H : _ ≠ _ |- _ => destruct H end. by apply (anti_symm prefix).
Qed.

Lemma refreshed_target t ks : refreshed t ks !! t = Some ∅.
Proof. by rewrite lookup_refreshed, !decide_True. Qed.

(** Creating a child of [t] in a store that has the keys down to [t] and
    nothing at or below the child adds the empty child and nothing else. *)
Lemma refreshed_child t c ks :
  (∀ q, q `prefix_of` t → is_Some (ks !! q)) →
  (∀ q, t ++ [c] `prefix_of` q → ks !! q = None) →
  refreshed (t ++ [c]) ks = <[t ++ [c] := ∅]> ks.
Proof.
  intros Hup Hdown. apply map_eq. intros q. rewrite lookup_refreshed.
  destruct (decide (q = t ++ [c])) as [->|Hne].
  { by rewrite lookup_insert_eq, decide_True. }
  rewrite lookup_insert_ne by done. case_decide as Hq; [by rewrite Hdown|].
  destruct (ks !! q) eqn:E; [done|]. case_decide as Hpre; [|done].
  apply prefix_snoc_inv in Hpre as [Hpre| ->]; [|done].
  apply Hup in Hpre as [? ?]. congruence.
Qed.

(** After the key [t] was created and given values, the keys down to [t]
    exist and nothing is below [t]. *)
Lemma refreshed_up t vs ks q :
  q `prefix_of` t → is_Some (<[t := vs]> (refreshed t ks) !! q).
Proof.
  intros Hq. destruct (decide (q = t)) as [->|Hne]; [by rewrite lookup_insert_eq|].
  rewrite lookup_insert_ne, lookup_refreshed by done.
  rewrite decide_False, (decide_True _ _ Hq); [by destruct (ks !! q)|].
  intros Ht. by apply Hne, (anti_symm prefix).
Qed.

Lemma refreshed_down t vs ks c q :
  t ++ [c] `prefix_of` q → <[t := vs]> (refreshed t ks) !! q = None.
Proof.
  intros Hq. assert (t `prefix_of` q) as Ht by (etrans; [by apply prefix_app_r|done]).
  assert (q ≠ t) as Hne.
  { intros ->. apply prefix_length in Hq. rewrite length_app in Hq. simpl in Hq. lia. }
  by rewrite lookup_insert_ne, lookup_refreshed, decide_True, decide_False.
Qed.

End refreshed.

(** ** An item, when the store refuses nothing *)

(** The state after an item was installed at [t]: the old subtree is
    replaced by the key with the values of the entry and its [command] key
    with the command as default value. *)
Record item_post (t : keypath) (vs : values) (cmd cache : string) (w w' : World)
    : Prop := {
  ip_keys : keys (registry w')
            = <[t ++ ["command"] := {[EmptyString := REG_EXPAND_SZ cmd]}]>
                (<[t := vs]> (refreshed t (keys (registry w))));
  ip_cache : _nircmdPath w' = cache;
  ip_refused : refused (registry w') = refused (registry w);
  ip_wf : reg_wf (registry w');
}.

Section item.
Context (env : Env) (manifestDir : string).
Implicit Types (t q : keypath) (ks : gmap keypath values) (r : Registry) (w : World).

Lemma split_path_command keyPath :
  split_path (keyPath +:+ "\command") = split_path keyPath ++ ["command"].
Proof. apply (split_path_sep keyPath "command"). Qed.

Lemma alter_refreshed (f : values → values) t ks :
  alter f t (refreshed t ks) = <[t := f ∅]> (refreshed t ks).
Proof.
  apply map_eq. intros q. destruct (decide (q = t)) as [->|Hne].
  - by rewrite lookup_alter_eq, refreshed_target, lookup_insert_eq.
  - by rewrite lookup_alter_ne, lookup_insert_ne.
Qed.

(** [create_fresh], as a step of the process. *)
Lemma create_fresh_world keyPath w :
  reg_wf (registry w) → split_path keyPath ≠ [] →
  unrefused (split_path keyPath) (registry w) →
  ∃ key r', fresh_post (split_path keyPath) (registry w) r' key
            ∧ on_registry (create_fresh keyPath) w = Ok key (mkWorld r' (_nircmdPath w)).
Proof.
  intros Hwf Hne Hu.
  destruct (create_fresh_Ok keyPath (registry w)) as (key & r' & Hrun & Hpost);
    [done..|by apply unrefused_erasable|by apply Hu|].
  exists key, r'. split; [done|]. unfold on_registry, zoom. by rewrite Hrun.
Qed.

Lemma create_command_Ok keyPath item w cmd cache :
  reg_wf (registry w) →
  unrefused (split_path keyPath ++ ["command"]) (registry w) →
  CommandString env item manifestDir (_nircmdPath w) = Ok cmd cache →
  ∃ r', create_command env keyPath item manifestDir w = Ok tt (mkWorld r' cache)
        ∧ keys r' = <[split_path keyPath ++ ["command"] := {[EmptyString := REG_EXPAND_SZ cmd]}]>
                      (refreshed (split_path keyPath ++ ["command"]) (keys (registry w)))
        ∧ refused r' = refused (registry w) ∧ reg_wf r'.
Proof.
  intros Hwf Hu Hcmd. unfold create_command. cbv zeta.
  rewrite <-split_path_command in *.
  destruct (create_fresh_world (keyPath +:+ "\command") w)
    as (key & r1 & [Hk Hr Hl Hwf1] & Hrun);
    [done|by rewrite split_path_command; intros [_ [=]]%app_nil|done|].
  rewrite (bind_Ok _ _ _ _ _ Hrun).
  unfold bind, on_cache, on_registry, zoom, wrap. reg_values. cbn [_nircmdPath registry].
  rewrite Hcmd. cbn [_nircmdPath registry].
  rewrite (set_value_Ok _ _ _ _ _ Hl) by (rewrite Hr; by apply Hu).
  eexists. split; [done|]. simpl. split; [|split; [done|by apply alter_wf]].
  by rewrite Hk, alter_refreshed, insert_empty.
Qed.

Lemma set_attributes_world key t item r cache :
  resolve_live key r = inr t → (ASetValue, t) ∉ refused r →
  on_registry (set_attributes key item manifestDir) (mkWorld r cache)
  = Ok tt (mkWorld (altered t r (attributes item manifestDir)) cache).
Proof.
  intros Hl Hs. unfold on_registry, zoom. cbn [registry _nircmdPath].
  by rewrite (set_attributes_Ok key t r Hl Hs).
Qed.

(** An item. *)
Lemma create_item_Ok parent id item w cmd cache :
  reg_wf (registry w) →
  Type_ item ≠ ContextMenuType_Folder →
  unrefused (split_path (keyPath_of parent id)) (registry w) →
  CommandString env item manifestDir (_nircmdPath w) = Ok cmd cache →
  ∃ w', create_menu env parent id item manifestDir w = Ok tt w'
        ∧ item_post (split_path (keyPath_of parent id)) (attributes item manifestDir ∅)
                    cmd cache w w'.
Proof.
  intros Hwf Ht Hu Hcmd. rewrite create_menu_unfold. cbv zeta.
  destruct (create_fresh_world (keyPath_of parent id) w)
    as (key & r1 & [Hk Hr Hl Hwf1] & Hrun); [done|apply keyPath_of_ne|done|].
  assert ((ASetValue, split_path (keyPath_of parent id)) ∉ refused r1) as Hs.
  { rewrite Hr. by apply Hu. }
  rewrite (bind_Ok _ _ _ _ _ Hrun), (bind_Ok _ _ _ _ _ (set_attributes_world _ _ _ _ _ Hl Hs)).
  rewrite decide_False by done.
  edestruct (create_command_Ok (keyPath_of parent id) item) as (r' & -> & Hk' & Hr' & Hwf');
    [|eapply unrefused_below, unrefused_eq; [by apply prefix_app_r| |exact Hu]|exact Hcmd|];
    [by apply alter_wf|by rewrite <-Hr|].
  eexists. split; [done|]. split; cbn [registry _nircmdPath]; [|done|by rewrite Hr'|done].
  rewrite Hk'. unfold altered. cbn [registry keys set_keys]. rewrite Hk, alter_refreshed.
  rewrite refreshed_child; [|intros q; apply refreshed_up|intros q; apply refreshed_down].
  by rewrite insert_insert_eq.
Qed.

(** An entry whose key the store refuses to create. *)
Lemma create_refused_Err parent id item w :
  reg_wf (registry w) →
  erasable (split_path (keyPath_of parent id)) (registry w) →
  (ACreate, split_path (keyPath_of parent id)) ∈ refused (registry w) →
  ∃ w', create_menu env parent id item manifestDir w
        = Err (Errorf "failed to create registry key %q: %w" [keyPath_of parent id]
                 (Errno_error ERROR_ACCESS_DENIED)) w'
        ∧ erase_post (split_path (keyPath_of parent id)) (registry w) (registry w')
        ∧ _nircmdPath w' = _nircmdPath w.
Proof.
  intros Hwf He Hc. rewrite create_menu_unfold. cbv zeta.
  destruct (create_fresh_refused (keyPath_of parent id) (registry w))
    as (r' & Hrun & Hpost); [done|apply keyPath_of_ne|done..|].
  exists (mkWorld r' (_nircmdPath w)). split; [|done].
  apply bind_Err. unfold on_registry, zoom. by rewrite Hrun.
Qed.

End item.

(** C6.  An item entry on a store that refuses nothing at or below its
    key, when its command can be built ([cmd], leaving [cache] in the cache
    of the helper): the call succeeds; in the store the old subtree at the
    key is replaced by the key, with the values of the entry and nothing
    else, and its [command] key, whose default value is the command as an
    expandable string; every other key is as before. *)
Theorem create_menu_item env parent id item manifestDir w cmd cache :
  reg_wf (registry w) →
  Type_ item ≠ ContextMenuType_Folder →
  unrefused (split_path (keyPath_of parent id)) (registry w) →
  CommandString env item manifestDir (_nircmdPath w) = Ok cmd cache →
  ∃ w', create_menu env parent id item manifestDir w = Ok tt w'
        ∧ item_post (split_path (keyPath_of parent id)) (attributes item manifestDir ∅)
                    cmd cache w w'.
Proof. apply create_item_Ok. Qed.

(** When the store refuses to create the key of an entry, the call
    returns the error of the store with the path of the key in its trail,
    after the old subtree at that path was erased: the store has lost the
    old entry and has no new one. *)
Theorem create_menu_create_refused env parent id item manifestDir w :
  reg_wf (registry w) →
  erasable (split_path (keyPath_of parent id)) (registry w) →
  (ACreate, split_path (keyPath_of parent id)) ∈ refused (registry w) →
  ∃ w', create_menu env parent id item manifestDir w
        = Err (Errorf "failed to create registry key %q: %w" [keyPath_of parent id]
                 (Errno_error ERROR_ACCESS_DENIED)) w'
        ∧ erase_post (split_path (keyPath_of parent id)) (registry w) (registry w')
        ∧ _nircmdPath w' = _nircmdPath w.
Proof. apply create_refused_Err. Qed.

(** ** Nil entries, failing entries, entries of an unknown type *)

Lemma nil_entry_Crash env parent id manifestDir w :
  reg_wf (registry w) →
  erasable (split_path (keyPath_of parent id)) (registry w) →
  (ACreate, split_path (keyPath_of parent id)) ∉ refused (registry w) →
  ∃ w', createContextMenu env parent id None manifestDir w = Crash NilDeref w'
        ∧ keys (registry w')
          = refreshed (split_path (keyPath_of parent id)) (keys (registry w))
        ∧ _nircmdPath w' = _nircmdPath w.
Proof.
  intros Hwf He Hc.
  destruct (create_fresh_Ok (keyPath_of parent id) (registry w))
    as (key & r' & Hrun & []); [done|apply keyPath_of_ne|done..|].
  eexists. split; [|split].
  - unfold createContextMenu, on_registry.
    by rewrite (bind_Ok _ _ _ _ _ (zoom_Ok _ _ _ _ _ _ Hrun)).
  - done.
  - done.
Qed.

(** A nil entry of the manifest ends the process with a nil dereference,
    after its key was erased and created: the store has lost the old subtree
    at the path of the entry and has an empty key in its place. *)
Theorem createContextMenu_nil env parent id manifestDir w :
  reg_wf (registry w) →
  erasable (split_path (keyPath_of parent id)) (registry w) →
  (ACreate, split_path (keyPath_of parent id)) ∉ refused (registry w) →
  ∃ w', createContextMenu env parent id None manifestDir w = Crash NilDeref w'
        ∧ keys (registry w')
          = refreshed (split_path (keyPath_of parent id)) (keys (registry w))
        ∧ _nircmdPath w' = _nircmdPath w.
Proof. apply nil_entry_Crash. Qed.

(** C8.  Fail-fast among siblings: when the entries before [id] were
    installed and the call for [id] returns an error, the loop returns that
    error with the identifier added to its trail, in the state the failing
    call left: the entries after [id] are not visited. *)
Theorem create_entries_fail_fast create l1 id item l2 w w1 e w2 :
  create_entries create l1 w = Ok tt w1 →
  create id item w1 = Err e w2 →
  create_entries create (l1 ++ (id, item) :: l2) w
  = Err (Errorf "failed to create context menu ID %q: %w" [id] e) w2.
Proof.
  intros H1 He. unfold create_entries in *.
  eapply for_each_Err; [done|]. by apply wrap_Err.
Qed.

(** The entry [c] with other children. *)
Definition with_Items (c : ContextMenu) (items : list (string * option ContextMenu))
    : ContextMenu :=
  mkContextMenu (Type_ c) (Title c) (IconPath c) (IconIndex c) (Extended c) (Admin c)
                (Command c) items.

(** An entry whose type is not the string [folder] is installed as
    an item, whatever its type says: its children are not visited, and a
    command key is created from its command, which may be empty. *)
Theorem create_menu_not_folder env parent id c items manifestDir :
  Type_ c ≠ ContextMenuType_Folder →
  create_menu env parent id (with_Items c items) manifestDir
  = create_menu env parent id c manifestDir.
Proof.
  intros Ht. rewrite !create_menu_unfold. cbv zeta.
  change (Type_ (with_Items c items)) with (Type_ c).
  by destruct (decide (Type_ c = ContextMenuType_Folder)).
Qed.

(** ** Concrete runs *)

(** A store with the shell key and a stale entry [open] that has a value and
    a command key. *)
Definition sample_store : Registry :=
  mkRegistry
    (list_to_map
       [([], ∅); (["Software"], ∅); (["Software"; "Classes"], ∅);
        (["Software"; "Classes"; "Directory"], ∅);
        (["Software"; "Classes"; "Directory"; "Background"], ∅);
        (["Software"; "Classes"; "Directory"; "Background"; "shell"], ∅);
        (["Software"; "Classes"; "Directory"; "Background"; "shell"; "open"],
         {["MUIVerb" := REG_SZ "Old title"; "Extended" := REG_SZ EmptyString]});
        (["Software"; "Classes"; "Directory"; "Background"; "shell"; "open"; "command"],
         {[EmptyString := REG_EXPAND_SZ "old.exe"]})])
    ∅ ∅ 0.

Definition sample_world : World := mkWorld sample_store EmptyString.

(** The same store, refusing to create the key of the entry [tools]. *)
Definition sample_world_refusing : World :=
  mkWorld
    (mkRegistry (keys sample_store)
       {[ (ACreate, ["Software"; "Classes"; "Directory"; "Background"; "shell"; "tools"]) ]}
       ∅ 0)
    EmptyString.

Definition sample_folder : ContextMenu :=
  mkContextMenu ContextMenuType_Folder "Tools" EmptyString None true false []
                [("run", Some sample_item); ("elevated", Some sample_admin)].

Definition sample_manifest : Manifest :=
  mkManifest [("open", Some sample_item); ("tools", Some sample_folder);
              ("last", Some sample_item)].

Lemma sample_store_wf : reg_wf sample_store.
Proof. by_compute. Qed.

Lemma install_safe_witness :
  post (install sample_env sample_manifest "C:\menu" sample_world_refusing)
    (λ _, kept (registry sample_world_refusing))
    (λ _, kept (registry sample_world_refusing))
    (λ _, kept (registry sample_world_refusing)).
Proof. apply install_safe. by_compute. Defined.

Lemma install_crash_cause_witness :
  post (install sample_env (mkManifest [("open", None)]) "C:\menu" sample_world)
    (λ _ _, True) (λ _ _, True)
    (λ cr _, crash_cause (entries_has_nil [("open", None)])
                         (entries_elevated [("open", None)]) cr).
Proof.
  apply (install_crash_cause sample_env (mkManifest [("open", None)])), sample_store_wf.
Defined.

Lemma createContextMenu_nil_witness :
  ∃ w', createContextMenu sample_env EmptyString "open" None "C:\menu" sample_world
        = Crash NilDeref w'
        ∧ keys (registry w')
          = refreshed (split_path (keyPath_of EmptyString "open")) (keys sample_store)
        ∧ _nircmdPath w' = EmptyString.
Proof.
  apply (createContextMenu_nil sample_env EmptyString "open" "C:\menu" sample_world);
    [apply sample_store_wf|by_compute|by_compute].
Defined.

Lemma create_menu_item_witness :
  ∃ w', create_menu sample_env EmptyString "open" sample_item "C:\menu" sample_world = Ok tt w'
        ∧ item_post (split_path (keyPath_of EmptyString "open"))
                    (attributes sample_item "C:\menu" ∅)
                    "explorer.exe C:\menu\tools\run.bat" EmptyString sample_world w'.
Proof. apply create_menu_item; [apply sample_store_wf|done|by_compute|done]. Defined.

Lemma create_menu_create_refused_witness :
  ∃ w', create_menu sample_env EmptyString "tools" sample_folder "C:\menu" sample_world_refusing
        = Err (Errorf "failed to create registry key %q: %w" [keyPath_of EmptyString "tools"]
                 (Errno_error ERROR_ACCESS_DENIED)) w'
        ∧ erase_post (split_path (keyPath_of EmptyString "tools"))
                     (registry sample_world_refusing) (registry w')
        ∧ _nircmdPath w' = _nircmdPath sample_world_refusing.
Proof. apply create_menu_create_refused; by_compute. Defined.

Lemma create_entries_fail_fast_witness :
  ∃ w2, install sample_env sample_manifest "C:\menu" sample_world_refusing
        = Err (Errorf "failed to create context menu ID %q: %w" ["tools"]
                 (Errorf "failed to create registry key %q: %w"
                    [keyPath_of EmptyString "tools"] (Errno_error ERROR_ACCESS_DENIED)))
              w2.
Proof.
  destruct (create_item_Ok sample_env "C:\menu" EmptyString "open" sample_item
              sample_world_refusing "explorer.exe C:\menu\tools\run.bat" EmptyString)
    as (w1 & H1 & [_ _ Hr1 Hwf1]); [by_compute|done|by_compute|done|].
  destruct (create_refused_Err sample_env "C:\menu" EmptyString "tools" sample_folder w1)
    as (w2 & H2 & _);
    [done|eapply erasable_eq; [done|by_compute]|rewrite Hr1; by_compute|].
  exists w2.
  apply (create_entries_fail_fast _ [("open", Some sample_item)] "tools"
           (Some sample_folder) [("last", Some sample_item)] sample_world_refusing w1);
    [|exact H2].
  unfold create_entries. simpl. by rewrite (bind_Ok _ _ _ _ _ (wrap_Ok _ _ _ _ _ H1)).
Defined.

Lemma create_menu_not_folder_witness :
  create_menu sample_env EmptyString "open" (with_Items sample_item [("x", None)]) "C:\menu"
  = create_menu sample_env EmptyString "open" sample_item "C:\menu".
Proof. by apply create_menu_not_folder. Defined.

(** The whole run on the sample store: the three entries are installed; the
    stale values of [open] are gone and its command is the new one; the
    folder has its two children, and the elevated one runs through the
    helper, which is left in the cache. *)
Example sample_install_run :
  match install sample_env sample_manifest "C:\menu" sample_world with
  | Ok _ w' =>
      keys (registry w')
        !! ["Software"; "Classes"; "Directory"; "Background"; "shell"; "open"]
      = Some {["MUIVerb" := REG_SZ "Run";
               "Icon" := REG_SZ (String dquote "C:\menu\icons\app.dll" +:+ String dquote ",2")]}
      ∧ keys (registry w')
          !! ["Software"; "Classes"; "Directory"; "Background"; "shell"; "open"; "command"]
        = Some {[EmptyString := REG_EXPAND_SZ "explorer.exe C:\menu\tools\run.bat"]}
      ∧ subkey_names ["Software"; "Classes"; "Directory"; "Background"; "shell"; "tools"; "shell"]
                     (keys (registry w'))
        ≡ₚ ["run"; "elevated"]
      ∧ _nircmdPath w' = "C:\menu\bin\nircmd.exe"
      ∧ size (handles (registry w')) = 10
  | _ => False
  end.
Proof. vm_compute. repeat split; try done. Qed.
