(* ===== verification/Trail.v ===== *)
(** * The trail of an error

    Every error the program returns went through [fmt.Errorf] once at each
    level it passed: in [deleteRegKeyRecursive] with the name of the subkey
    and the path, in [createContextMenu] with the path of the key or the
    name of the value, in the loops over the entries with the identifier.
    The predicates of this file are the shapes such errors have; the
    theorems show that the program returns no other error, in any
    environment and on any store. *)

From stdpp Require Import gmap strings list.
From S2P Require Import Prelude GoStrings GoErrors Registry Eraser.
From S2P Require Import Manifest Locator Projector Sync.

(** ** The eraser *)

(** An error of [deleteRegKeyRecursive] for [path]: the error of an
    operation on the key, wrapped with the path; or the error of the call
    for a subkey, wrapped with the name of the subkey and the path. *)
Inductive erase_error : string → error → Prop :=
| ee_open path inner :
    erase_error path
      (Errorf "deleteRegKeyRecursive failed to open key path %q: %w" [path] inner)
| ee_enum path inner :
    erase_error path
      (Errorf "deleteRegKeyRecursive failed to get subkeys of path %q: %w" [path] inner)
| ee_delete path inner :
    erase_error path
      (Errorf "deleteRegKeyRecursive failed to delete key path %q: %w" [path] inner)
| ee_child path subKeyName inner :
    erase_error subKeyName inner →
    erase_error path
      (Errorf "deleteRegKeyRecursive failed to delete subkey %q of path %q: %w"
              [subKeyName; path] inner).

(** The names of the subkeys an error passed, outermost first. *)
Fixpoint erase_error_names (e : error) : list string :=
  match e with
  | Errorf _ [subKeyName; _] inner => subKeyName :: erase_error_names inner
  | _ => []
  end.

Section eraser.
Context {St : Type} {ops : RegOps St}.
Implicit Types (s : St) (k key : Key) (path : string).

Lemma erase_open_trail k path s :
  partial (erase_open k path s) (λ _, True) (erase_error path).
Proof.
  unfold erase_open. eapply partial_bind; [apply partial_try_True|].
  intros [err|key] s' _; [|done]. case_match; [done|]. apply partial_throw. constructor.
Qed.

Lemma erase_delete_trail k path s :
  partial (erase_delete k path s) (λ _, True) (erase_error path).
Proof.
  unfold erase_delete. eapply partial_bind; [apply partial_try_True|].
  intros [err|?] s' _; [|done]. case_match; [done|]. apply partial_throw. constructor.
Qed.

Lemma erase_opened_trail rec k path key s :
  (∀ key sub s, partial (rec key sub s) (λ _, True) (erase_error sub)) →
  partial (erase_opened rec k path key s) (λ res, failed (erase_error path) res.2)
          (λ _, False).
Proof.
  intros Hrec. unfold erase_opened. eapply partial_bind; [apply partial_try_True|].
  intros [err|names] s1 _; [apply partial_ret; constructor|].
  eapply partial_bind.
  - apply partial_try_failed. unfold erase_children.
    apply (partial_for_each _ _ _ (erase_error path)).
    intros c s2 _. apply partial_wrap. eapply partial_mono; [apply Hrec|done|].
    intros e He. by constructor.
  - intros [err|?] s2 Hl; [by apply partial_ret|].
    eapply (partial_bind _ _ _ (λ _, True)); [by apply partial_ignore_err|]. intros _ s3 _.
    eapply partial_bind; [apply partial_try_failed, erase_delete_trail|].
    intros del s4 Hdel. by apply partial_ret.
Qed.

Lemma erase_body_trail rec k path s :
  (∀ key sub s, partial (rec key sub s) (λ _, True) (erase_error sub)) →
  partial (erase_body rec k path s) (λ _, True) (erase_error path).
Proof.
  intros Hrec. unfold erase_body. eapply partial_bind; [apply erase_open_trail|].
  intros [key|] s1 _; [|done].
  eapply partial_bind; [eapply partial_mono; [by apply erase_opened_trail|..]|];
    [by intros res Hres; exact Hres|done|].
  intros res s2 Hres. eapply partial_bind with (R := λ _, True).
  - unfold erase_deferred. case_decide; [by apply partial_ignore_err|done].
  - intros _ s3 _. cbv beta in Hres. by destruct (res.2).
Qed.

(** Every error of the eraser has the shape [erase_error]. *)
Lemma deleteRegKeyRecursive_trail fuel k path s :
  partial (deleteRegKeyRecursive fuel k path s) (λ _, True) (erase_error path).
Proof.
  revert k path s. induction fuel as [|fuel IH]; intros k path s; [done|].
  by apply erase_body_trail.
Qed.

End eraser.

(** ** The synchronizer *)

(** The wrapper of the loops over the entries. *)
Definition in_entry (id : string) (inner : error) : error :=
  Errorf "failed to create context menu ID %q: %w" [id] inner.

(** The wrappers of the calls [createContextMenu] makes for the entry at
    [keyPath]: the format and its arguments. *)
Definition entry_wrappers (keyPath : string) : list (string * list string) :=
  [("failed to delete registry key %q: %w", [keyPath]);
   ("failed to create registry key %q: %w", [keyPath]);
   ("failed to set MUIVerb: %w", []);
   ("failed to set Icon: %w", []);
   ("failed to set Extended: %w", []);
   ("failed to set HasLUAShield: %w", []);
   ("failed to set SubCommands: %w", []);
   ("failed to delete registry key %q: %w", [keyPath +:+ "\command"]);
   ("failed to create registry key %q: %w", [keyPath +:+ "\command"]);
   ("failed to set command string: %w", [])].

(** An error of a call for the entry at [keyPath]: one of the wrappers,
    around an error of the eraser for the path the wrapper names when the
    erasure failed. *)
Definition entry_error (keyPath : string) (e : error) : Prop :=
  ∃ fmt args inner,
    e = Errorf fmt args inner ∧ (fmt, args) ∈ entry_wrappers keyPath
    ∧ (fmt = "failed to delete registry key %q: %w" →
       ∃ p, args = [p] ∧ erase_error p inner).

(** An error of [createContextMenu parent id item]: an error of a call for
    the entry, or the error of the call for a child of a folder, wrapped
    with the identifier of the child. *)
Inductive menu_error : string → string → option ContextMenu → error → Prop :=
| me_here parent id item e :
    entry_error (keyPath_of parent id) e → menu_error parent id item e
| me_below parent id c subID subItem inner :
    Type_ c = ContextMenuType_Folder → (subID, subItem) ∈ Items c →
    menu_error (parent +:+ String backslash EmptyString +:+ id +:+ "\shell")
               subID subItem inner →
    menu_error parent id (Some c) (in_entry subID inner).

(** The identifiers an error passed, outermost first. *)
Fixpoint error_ids (e : error) : list string :=
  match e with
  | Errorf fmt [id] inner =>
      if decide (fmt = "failed to create context menu ID %q: %w")
      then id :: error_ids inner else []
  | _ => []
  end.

Section synchronizer.
Context (env : Env) (manifestDir : string).
Implicit Types (w : World) (r : Registry) (parent id keyPath : string).

(** [wrapped keyPath fmt args]: an error with this wrapper is an error of
    the entry. *)
Lemma entry_error_intro keyPath fmt args inner :
  (fmt, args) ∈ entry_wrappers keyPath →
  fmt ≠ "failed to delete registry key %q: %w" →
  entry_error keyPath (Errorf fmt args inner).
Proof. intros Hin Hne. exists fmt, args, inner. by split_and!. Qed.

Lemma create_fresh_trail keyPath r (E : error → Prop) :
  (∀ inner, erase_error keyPath inner →
            E (Errorf "failed to delete registry key %q: %w" [keyPath] inner)) →
  (∀ inner, E (Errorf "failed to create registry key %q: %w" [keyPath] inner)) →
  partial (create_fresh keyPath r) (λ _, True) E.
Proof.
  intros Hd Hc. unfold create_fresh. eapply (partial_bind _ _ _ (λ _, True)).
  - apply partial_wrap. eapply partial_mono;
      [apply (deleteRegKeyRecursive_trail (erase_fuel r))|done|exact Hd].
  - intros _ r1 _. eapply (partial_bind _ _ _ (λ _, True)); [|done].
    apply partial_wrap. eapply partial_mono; [apply partial_True|done|]. intros; apply Hc.
Qed.

(** [in_list]: membership in a list that is written out. *)
Ltac in_list := repeat first [by apply list_elem_of_here | apply list_elem_of_further].

Lemma fresh_entry_trail keyPath w :
  partial (on_registry (create_fresh keyPath) w) (λ _, True) (entry_error keyPath).
Proof.
  apply partial_zoom, create_fresh_trail.
  - intros inner Hinner. eexists _, _, _. split_and!; [done|in_list|]. by eexists.
  - intros inner. apply entry_error_intro; [in_list|done].
Qed.

Lemma set_attributes_trail keyPath key item w :
  partial (on_registry (set_attributes key item manifestDir) w) (λ _, True)
          (entry_error keyPath).
Proof.
  apply partial_zoom. unfold set_attributes.
  repeat first
    [ eapply (partial_bind _ _ _ (λ _, True)); [|intros _ ? _]
    | apply partial_wrapped; intros inner; apply entry_error_intro; [in_list|done]
    | case_decide | case_match | done ].
Qed.

Lemma create_folder_trail keyPath key w :
  partial (on_registry (create_folder key keyPath) w) (λ _, True) (entry_error keyPath).
Proof.
  apply partial_zoom. unfold create_folder.
  repeat first
    [ eapply (partial_bind _ _ _ (λ _, True)); [|intros _ ? _]
    | apply partial_wrapped; intros inner; apply entry_error_intro; [in_list|done]
    | done ].
Qed.

Lemma create_command_trail keyPath item w :
  partial (create_command env keyPath item manifestDir w) (λ _, True)
          (entry_error keyPath).
Proof.
  unfold create_command. eapply (partial_bind _ _ _ (λ _, True)).
  - apply partial_zoom, create_fresh_trail.
    + intros inner Hinner. eexists _, _, _. split_and!; [done|in_list|]. by eexists.
    + intros inner. apply entry_error_intro; [in_list|done].
  - intros key w1 _. eapply (partial_bind _ _ _ (λ _, True)).
    + apply partial_zoom. eapply partial_of_post; [apply CommandString_post|done..].
    + intros cmd w2 _. apply partial_zoom, partial_wrapped. intros inner.
      apply entry_error_intro; [in_list|done].
Qed.

(** The loop adds the identifier of the entry whose call failed. *)
Lemma create_entries_trail create items w (E : error → Prop) :
  (∀ id item w, (id, item) ∈ items →
     partial (create id item w) (λ _, True) (λ inner, E (in_entry id inner))) →
  partial (create_entries create items w) (λ _, True) E.
Proof.
  intros H. unfold create_entries. apply partial_for_each.
  intros [id item] w1 Hin. by apply partial_wrap, H.
Qed.

(** A nil entry: the calls before the dereference are those of the entry. *)
Lemma nil_entry_trail parent id w :
  partial ((on_registry (create_fresh (keyPath_of parent id)) ;; nil_deref) w)
          (λ _ : unit, True) (menu_error parent id None).
Proof.
  eapply (partial_bind _ _ _ (λ _, True)); [|done].
  eapply partial_mono; [apply fresh_entry_trail|done|]. intros e He. by constructor.
Qed.

Lemma create_menu_trail item : ∀ parent id w,
  partial (create_menu env parent id item manifestDir w) (λ _, True)
          (menu_error parent id (Some item)).
Proof.
  induction item as [item IH] using ContextMenu_tree_ind. intros parent id w.
  rewrite create_menu_unfold. cbv zeta.
  assert (∀ e, entry_error (keyPath_of parent id) e → menu_error parent id (Some item) e)
    as Hhere by (intros; by constructor).
  eapply (partial_bind _ _ _ (λ _, True));
    [eapply partial_mono; [apply fresh_entry_trail|done|exact Hhere]|].
  intros key w1 _. eapply (partial_bind _ _ _ (λ _, True));
    [eapply partial_mono; [apply set_attributes_trail|done|exact Hhere]|].
  intros _ w2 _. case_decide as Hf;
    [|eapply partial_mono; [apply create_command_trail|done|exact Hhere]].
  eapply (partial_bind _ _ _ (λ _, True));
    [eapply partial_mono; [apply create_folder_trail|done|exact Hhere]|].
  intros _ w3 _. apply create_entries_trail. intros subID [sub|] w4 Hin; simpl.
  - eapply partial_mono; [by apply (IH subID sub)|done|]. intros e He. by econstructor.
  - eapply partial_mono; [apply nil_entry_trail|done|]. intros e He. by econstructor.
Qed.

Lemma createContextMenu_trail parent id item w :
  partial (createContextMenu env parent id item manifestDir w) (λ _, True)
          (menu_error parent id item).
Proof. destruct item; [apply create_menu_trail|apply nil_entry_trail]. Qed.

End synchronizer.

(** ** The identifiers of the trail *)

(** [ids] is a path of the tree: the first identifier names an entry of
    [items], the next one a child of that entry, which is a folder, and so
    on. *)
Fixpoint in_menu (items : list (string * option ContextMenu)) (ids : list string)
    {struct ids} : Prop :=
  match ids with
  | [] => True
  | id :: ids' =>
      ∃ item, (id, item) ∈ items
              ∧ (ids' = [] ∨ ∃ c, item = Some c ∧ Type_ c = ContextMenuType_Folder
                                  ∧ in_menu (Items c) ids')
  end.

Lemma entry_error_ids keyPath e : entry_error keyPath e → error_ids e = [].
Proof.
  intros (fmt & args & inner & -> & Hin & _). unfold entry_wrappers in Hin.
  repeat (apply elem_of_cons in Hin as [[= -> ->]|Hin]); try done.
  by apply elem_of_nil in Hin.
Qed.

Lemma error_ids_in_entry id inner : error_ids (in_entry id inner) = id :: error_ids inner.
Proof. done. Qed.

(** The identifiers of an error of an entry spell a path below the entry. *)
Lemma menu_error_ids parent id item e :
  menu_error parent id item e →
  error_ids e = [] ∨ ∃ c, item = Some c ∧ Type_ c = ContextMenuType_Folder
                          ∧ in_menu (Items c) (error_ids e).
Proof.
  induction 1 as [parent id item e He|parent id c subID subItem inner Hf Hin _ IH].
  - left. by eapply entry_error_ids.
  - right. exists c. split_and!; [done..|]. rewrite error_ids_in_entry. by exists subItem.
Qed.

(** ** The theorems *)

(** C18.  The trail of an error.  Every error the installation returns, in
    any environment and on any store, is the error of one call for one
    entry of the manifest, wrapped once by that call and once with the
    identifier of every entry from that one up to the top-level entry: the
    identifiers of the wrappers spell a path of the manifest, the innermost
    wrapper names the value or the key path of the entry whose call failed,
    and the error of a failed erasure carries the names of the subkeys down
    to the key the store refused. *)
Theorem install_error_trail env manifest manifestDir w :
  partial (install env manifest manifestDir w) (λ _, True)
    (λ e, ∃ id item inner,
       (id, item) ∈ manifest_Items manifest ∧ e = in_entry id inner
       ∧ menu_error EmptyString id item inner
       ∧ in_menu (manifest_Items manifest) (error_ids e)).
Proof.
  apply create_entries_trail. intros id item w' Hin.
  eapply partial_mono; [apply createContextMenu_trail|done|]. intros inner He.
  exists id, item, inner. split_and!; [done..|].
  rewrite error_ids_in_entry. exists item. split; [done|].
  by destruct (menu_error_ids _ _ _ _ He) as [->|?]; [left|right].
Qed.

(** The sample store, refusing to create the key at [keyPath]. *)
Definition refusing_create (keyPath : string) : World :=
  mkWorld (mkRegistry (keys sample_store) {[ (ACreate, split_path keyPath) ]} ∅ 0)
          EmptyString.

(** The run on the store that refuses the key of [elevated] below [tools]:
    the trail names [tools], then [elevated], then the key. *)
Example install_error_trail_sample :
  the_error (install sample_env sample_manifest "C:\menu"
               (refusing_create (keyPath_of "\tools\shell" "elevated")))
  = Some (in_entry "tools" (in_entry "elevated"
            (Errorf "failed to create registry key %q: %w"
               ["Software\Classes\Directory\Background\shell\tools\shell\elevated"]
               (Errno_error ERROR_ACCESS_DENIED)))).
Proof. by vm_compute. Qed.

(** The error for a folder whose [shell] key cannot be created is the error
    for a folder whose own key cannot be created: the message of
    main.go:59 names the key of the folder. *)
Example create_error_ambiguous :
  the_error (install sample_env sample_manifest "C:\menu"
               (refusing_create (keyPath_of "\tools" "shell")))
  = the_error (install sample_env sample_manifest "C:\menu"
                 (refusing_create (keyPath_of EmptyString "tools"))).
Proof. by vm_compute. Qed.
