(* ===== verification/Render.v ===== *)
(** * What an installed entry is: the store after [createContextMenu]

    [installed] is the program on the keys of the store alone: no handles,
    no errors, no cache.  The theorems of this file show that
    [createContextMenu] and the loop of [run], on a store that refuses
    nothing they ask, succeed and leave the keys [installed] computes. *)

From Stdlib Require Import Ascii.
From stdpp Require Import gmap strings list.
From S2P Require Import Prelude GoStrings GoErrors Registry Eraser.
From S2P Require Import Manifest Locator Projector Sync.

(** ** The specification *)

Section spec.
Context (helper manifestDir : string).

(** The command of an item, when the elevation helper is at [helper]. *)
Definition command_string (c : ContextMenu) : string :=
  Join ((if Admin c then [quoteWindowsPath helper; "elevate"] else [])
        ++ (command_part manifestDir <$> Command c)) " ".

(** The keys of the store after the entry [c] was installed at the key [t]. *)
Fixpoint installed (t : keypath) (c : ContextMenu) (ks : gmap keypath values)
    {struct c} : gmap keypath values :=
  if decide (Type_ c = ContextMenuType_Folder) then
    foldl (λ acc e, match e.2 with
                    | Some c' => installed (t ++ ["shell"; e.1]) c' acc
                    | None => acc
                    end)
          (<[t ++ ["shell"] := ∅]>
             (<[t := <["SubCommands" := REG_SZ EmptyString]> (attributes c manifestDir ∅)]>
                (refreshed t ks)))
          (Items c)
  else
    <[t ++ ["command"] := {[EmptyString := REG_EXPAND_SZ (command_string c)]}]>
      (<[t := attributes c manifestDir ∅]> (refreshed t ks)).

(** The keys after the entries of a map were installed below [t]. *)
Definition installed_entries (t : keypath) (items : list (string * option ContextMenu))
    (ks : gmap keypath values) : gmap keypath values :=
  foldl (λ acc e, match e.2 with
                  | Some c' => installed (t ++ [e.1]) c' acc
                  | None => acc
                  end) ks items.

End spec.

(** ** Equations of the specification *)

Section equations.
Context (helper manifestDir : string).
Implicit Types (t q : keypath) (c : ContextMenu) (ks : gmap keypath values).

Lemma installed_item t c ks :
  Type_ c ≠ ContextMenuType_Folder →
  installed helper manifestDir t c ks
  = <[t ++ ["command"] := {[EmptyString := REG_EXPAND_SZ (command_string helper manifestDir c)]}]>
      (<[t := attributes c manifestDir ∅]> (refreshed t ks)).
Proof. intros H. destruct c. simpl in *. by rewrite decide_False. Qed.

Lemma installed_folder t c ks :
  Type_ c = ContextMenuType_Folder →
  installed helper manifestDir t c ks
  = installed_entries helper manifestDir (t ++ ["shell"]) (Items c)
      (<[t ++ ["shell"] := ∅]>
         (<[t := <["SubCommands" := REG_SZ EmptyString]> (attributes c manifestDir ∅)]>
            (refreshed t ks))).
Proof.
  intros H. destruct c as [? ? ? ? ? ? ? items]. simpl in *. rewrite decide_True by done.
  unfold installed_entries. generalize (<[t ++ ["shell"] := ∅]>
    (<[t := <["SubCommands" := REG_SZ EmptyString]>
              (attributes (mkContextMenu Type_ Title IconPath IconIndex Extended Admin
                             Command items) manifestDir ∅)]> (refreshed t ks))).
  induction items as [|[id [c'|]] items IH]; intros acc; simpl; [done| |by apply IH].
  rewrite <-app_assoc. apply IH.
Qed.

Lemma installed_entries_cons t id c items ks :
  installed_entries helper manifestDir t ((id, Some c) :: items) ks
  = installed_entries helper manifestDir t items
      (installed helper manifestDir (t ++ [id]) c ks).
Proof. done. Qed.

Lemma installed_entries_app t l1 l2 ks :
  installed_entries helper manifestDir t (l1 ++ l2) ks
  = installed_entries helper manifestDir t l2 (installed_entries helper manifestDir t l1 ks).
Proof. apply foldl_app. Qed.

End equations.

(** ** Key paths of the entries *)

(** The key of the shell menu. *)
Definition shell_path : keypath :=
  ["Software"; "Classes"; "Directory"; "Background"; "shell"].

Section paths.
Implicit Types (parent id subID : string) (t : keypath).

Lemma split_path_shell_prefix : split_path shell_prefix = shell_path.
Proof. by vm_compute. Qed.

(** The key of a top-level entry. *)
Lemma split_path_top id :
  valid_seg id → split_path (keyPath_of EmptyString id) = shell_path ++ [id].
Proof.
  intros Hid. change (keyPath_of EmptyString id) with (shell_prefix +:+ String backslash id).
  by rewrite split_path_sep, (split_path_valid id), split_path_shell_prefix by done.
Qed.

(** The key of a child of the folder [id]: below the [shell] key of the
    folder. *)
Lemma split_path_child parent id subID :
  valid_seg subID →
  split_path (keyPath_of (parent +:+ String backslash EmptyString +:+ id +:+ "\shell") subID)
  = (split_path (keyPath_of parent id) ++ ["shell"]) ++ [subID].
Proof.
  intros Hid.
  replace (keyPath_of (parent +:+ String backslash EmptyString +:+ id +:+ "\shell") subID)
    with ((keyPath_of parent id +:+ String backslash "shell") +:+ String backslash subID).
  - by rewrite !split_path_sep, (split_path_valid subID) by done.
  - unfold keyPath_of. by rewrite !app_assoc_s.
Qed.

(** An entry whose identifier is the empty string has the key of the
    container it is in: at the top level the shell key itself. *)
Lemma keyPath_of_empty parent :
  split_path (keyPath_of parent EmptyString) = split_path (shell_prefix +:+ parent).
Proof.
  change (keyPath_of parent EmptyString)
    with (shell_prefix +:+ parent +:+ String backslash EmptyString).
  by rewrite <-app_assoc_s, split_path_sep, split_path_empty, app_nil_r.
Qed.

Lemma split_path_shell keyPath :
  split_path (keyPath +:+ "\shell") = split_path keyPath ++ ["shell"].
Proof. apply (split_path_sep keyPath "shell"). Qed.

End paths.

(** ** The store after a child key was created *)

Section store.
Implicit Types (t q : keypath) (ks : gmap keypath values) (r : Registry).

(** Creating a child of [t] that does not exist, in a store that has the
    keys down to [t], adds the empty child and nothing else. *)
Lemma fresh_child t c ks :
  (∀ q, q `prefix_of` t → is_Some (ks !! q)) → ks !! (t ++ [c]) = None →
  ks ∪ fresh_keys (t ++ [c]) = <[t ++ [c] := ∅]> ks.
Proof.
  intros Hup Hc. apply map_eq. intros q. rewrite lookup_union_fresh.
  destruct (decide (q = t ++ [c])) as [->|Hne].
  { by rewrite Hc, lookup_insert_eq, decide_True. }
  rewrite lookup_insert_ne by done. destruct (ks !! q) eqn:E; [done|].
  case_decide as Hpre; [|done].
  apply prefix_snoc_inv in Hpre as [Hpre| ->]; [|done].
  apply Hup in Hpre as [? ?]. congruence.
Qed.

(** In a store that satisfies the invariant, the keys down to an existing
    key exist. *)
Lemma wf_up r t q : reg_wf r → t ∈ dom (keys r) → q `prefix_of` t → is_Some (keys r !! q).
Proof. intros Hwf Ht Hq. apply elem_of_dom. by eapply wf_prefix. Qed.

End store.

(** ** The program computes [installed] *)

(** What a successful call leaves: the keys [ks'], the refusals as before,
    the invariant of the store, and a cache that is as at the start of the
    run or holds the helper. *)
Record installs (cache_ok : string → Prop) (ks' : gmap keypath values) (w w' : World)
    : Prop := {
  in_keys : keys (registry w') = ks';
  in_refused : refused (registry w') = refused (registry w);
  in_wf : reg_wf (registry w');
  in_cache : cache_ok (_nircmdPath w');
}.

Section refine.
Context (env : Env) (manifestDir helper cache0 : string).
Implicit Types (t q : keypath) (c : ContextMenu) (ks : gmap keypath values).
Implicit Types (r : Registry) (w : World) (parent id cache : string).

(** The helper can be found from the cache of the start of the run. *)
Definition helper_found : Prop :=
  helper ≠ EmptyString ∧ findNircmd env cache0 = Ok helper helper.

(** The cache is as at the start of the run, or holds the helper. *)
Definition cache_inv (cache : string) : Prop :=
  cache = cache0 ∨ (cache = helper ∧ helper_found).

Lemma CommandString_spec c cache :
  cache_inv cache → (Admin c = true → helper_found) →
  ∃ cache', CommandString env c manifestDir cache
            = Ok (command_string helper manifestDir c) cache'
            ∧ cache_inv cache'.
Proof.
  intros Hc Ha. unfold CommandString, command_elevate, command_string.
  destruct (Admin c); [|by exists cache].
  destruct (Ha eq_refl) as [Hne Hf].
  assert (findNircmd env cache = Ok helper helper) as Hfind.
  { destruct Hc as [->|[-> _]]; [done|by apply findNircmd_cached]. }
  exists helper. unfold bind, try. rewrite Hfind. split; [done|]. by right.
Qed.

Lemma create_item_installs parent id c w :
  reg_wf (registry w) → Type_ c ≠ ContextMenuType_Folder →
  unrefused (split_path (keyPath_of parent id)) (registry w) →
  cache_inv (_nircmdPath w) → (elevated c = true → helper_found) →
  ∃ w', create_menu env parent id c manifestDir w = Ok tt w'
        ∧ installs cache_inv
            (installed helper manifestDir (split_path (keyPath_of parent id)) c
               (keys (registry w))) w w'.
Proof.
  intros Hwf Ht Hu Hc Hh. rewrite elevated_item in Hh by done.
  destruct (CommandString_spec c (_nircmdPath w)) as (cache' & Hcmd & Hc'); [done..|].
  destruct (create_item_Ok env manifestDir parent id c w _ cache' Hwf Ht Hu Hcmd)
    as (w' & Hrun & [Hk Hcache Hr Hwf']).
  exists w'. split; [done|]. split; [by rewrite installed_item|done..|by rewrite Hcache].
Qed.

(** The folder steps of main.go:54-61, on the state the first steps left. *)
Lemma create_folder_Ok key keyPath r (vs : values) ks :
  reg_wf r → resolve_live key r = inr (split_path keyPath) →
  keys r = <[split_path keyPath := vs]> (refreshed (split_path keyPath) ks) →
  unrefused (split_path keyPath) r →
  ∃ r', create_folder key keyPath r = Ok tt r'
        ∧ keys r' = <[split_path keyPath ++ ["shell"] := ∅]>
                      (<[split_path keyPath := <["SubCommands" := REG_SZ EmptyString]> vs]>
                         (refreshed (split_path keyPath) ks))
        ∧ refused r' = refused r ∧ reg_wf r'.
Proof.
  intros Hwf Hl Hk Hu. unfold create_folder. reg_values.
  rewrite (bind_Ok _ _ _ _ _ (wrap_Ok _ _ _ _ _
             (set_value_Ok _ _ _ _ _ Hl (Hu _ _ (reflexivity _))))).
  pose proof (alter_wf (insert "SubCommands" (REG_SZ EmptyString)) (split_path keyPath) r Hwf)
    as Hwf1.
  erewrite bind_Ok; [|apply wrap_Ok, (CreateKey_Ok _ _ _ [] (resolve_live_root _ Hwf1))].
  2:{ simpl. rewrite split_path_shell. apply Hu. by apply prefix_app_r. }
  eexists. split; [done|].
  split; [|split; [done|apply with_handle_wf, create_wf; [done|apply split_path_valid_segs]]].
  simpl. rewrite split_path_shell, Hk, alter_insert_eq.
  apply fresh_child; [intros q; apply refreshed_up|].
  by apply refreshed_down with (c := "shell").
Qed.

(** What the theorem says of one entry. *)
Definition menu_spec (c : ContextMenu) : Prop :=
  ∀ parent id w,
    reg_wf (registry w) → menu_wf c →
    unrefused (split_path (keyPath_of parent id)) (registry w) →
    cache_inv (_nircmdPath w) → (elevated c = true → helper_found) →
    ∃ w', create_menu env parent id c manifestDir w = Ok tt w'
          ∧ installs cache_inv
              (installed helper manifestDir (split_path (keyPath_of parent id)) c
                 (keys (registry w))) w w'.

(** The loop over the entries of a map whose keys are below [tp]. *)
Lemma create_entries_installs parent tp items :
  (∀ id, valid_seg id → split_path (keyPath_of parent id) = tp ++ [id]) →
  (∀ id c, (id, Some c) ∈ items → menu_spec c) →
  (∀ id c, (id, Some c) ∈ items → elevated c = true → helper_found) →
  entries_wf items →
  ∀ w, reg_wf (registry w) → unrefused tp (registry w) → cache_inv (_nircmdPath w) →
    ∃ w', create_entries (λ id o, createContextMenu env parent id o manifestDir) items w
          = Ok tt w'
          ∧ installs cache_inv
              (installed_entries helper manifestDir tp items (keys (registry w))) w w'.
Proof.
  intros Hpath. induction items as [|[id o] items IH]; intros Hspec Hh Hwfi w Hwf Hu Hc.
  { exists w. by split. }
  apply entries_wf_cons in Hwfi as (Hid & (c & -> & Hm) & Hrest).
  destruct (Hspec id c (list_elem_of_here _ _) parent id w) as (w1 & Hrun & [Hk Hr Hwf1 Hc1]);
    [done..|rewrite Hpath by done; eapply unrefused_below; [by apply prefix_app_r|done]
    |done|intros He; eapply Hh; [by left|done]|].
  destruct (IH (λ i c' H, Hspec i c' (list_elem_of_further _ _ _ H))
               (λ i c' H, Hh i c' (list_elem_of_further _ _ _ H)) Hrest w1)
    as (w' & Hrun' & [Hk' Hr' Hwf' Hc']); [done|by eapply unrefused_eq|done|].
  exists w'. split.
  - unfold create_entries in *. simpl.
    by rewrite (bind_Ok _ _ _ _ _ (wrap_Ok _ _ _ _ _ Hrun)).
  - split; [|congruence|done..]. by rewrite installed_entries_cons, Hk', Hk, Hpath.
Qed.

(** The first three steps of a folder: erase and create, the values, the
    [shell] key. *)
Lemma create_folder_head parent id c w :
  reg_wf (registry w) → unrefused (split_path (keyPath_of parent id)) (registry w) →
  ∃ r',
    (key <- on_registry (create_fresh (keyPath_of parent id)) ;;
     on_registry (set_attributes key c manifestDir) ;;
     on_registry (create_folder key (keyPath_of parent id)))%go w
    = Ok tt (mkWorld r' (_nircmdPath w))
    ∧ keys r' = <[split_path (keyPath_of parent id) ++ ["shell"] := ∅]>
                  (<[split_path (keyPath_of parent id)
                     := <["SubCommands" := REG_SZ EmptyString]> (attributes c manifestDir ∅)]>
                     (refreshed (split_path (keyPath_of parent id)) (keys (registry w))))
    ∧ refused r' = refused (registry w) ∧ reg_wf r'.
Proof.
  intros Hwf Hu.
  destruct (create_fresh_world (keyPath_of parent id) w)
    as (key & r1 & [Hk Hr Hl Hwf1] & Hrun); [done|apply keyPath_of_ne|done|].
  assert (unrefused (split_path (keyPath_of parent id)) r1) as Hu1 by by eapply unrefused_eq.
  pose proof (set_attributes_world manifestDir key _ c r1 (_nircmdPath w) Hl
                (Hu1 _ _ (reflexivity _))) as Hset.
  destruct (create_folder_Ok key (keyPath_of parent id)
              (altered (split_path (keyPath_of parent id)) r1 (attributes c manifestDir))
              (attributes c manifestDir ∅) (keys (registry w)))
    as (r3 & Hrun3 & Hk3 & Hr3 & Hwf3); [by apply alter_wf| |by simpl; rewrite Hk, alter_refreshed|done|].
  { eapply resolve_live_eq; [| |exact Hl]; simpl; [done|]. rewrite dom_alter.
    by apply resolve_live_inr in Hl as [_ ?]. }
  exists r3. split; [|by rewrite Hr3].
  rewrite (bind_Ok _ _ _ _ _ Hrun), (bind_Ok _ _ _ _ _ Hset).
  unfold on_registry, zoom. simpl. by rewrite Hrun3.
Qed.

(** Every well-formed entry meets the specification. *)
Lemma create_menu_installs c : menu_spec c.
Proof.
  induction c as [c IH] using ContextMenu_tree_ind. intros parent id w Hwf Hm Hu Hc Hh.
  destruct (decide (Type_ c = ContextMenuType_Folder)) as [Hf|Hf];
    [|by apply create_item_installs].
  destruct (create_folder_head parent id c w) as (r3 & Hrun & Hk & Hr & Hwf3); [done..|].
  destruct (create_entries_installs
              (parent +:+ String backslash EmptyString +:+ id +:+ "\shell")
              (split_path (keyPath_of parent id) ++ ["shell"]) (Items c))
    with (w := mkWorld r3 (_nircmdPath w)) as (w' & Hrun' & [Hk' Hr' Hwf' Hc']);
    [intros; by apply split_path_child|by eauto|by eauto using elevated_child
    |by unfold entries_wf; rewrite <-menu_wfb_unfold|done| |done|].
  { eapply unrefused_below, unrefused_eq; [by apply prefix_app_r|exact Hr|done]. }
  exists w'. split.
  - rewrite create_menu_unfold. cbv zeta.
    destruct (decide (Type_ c = ContextMenuType_Folder)); [|done].
    by rewrite (bind_Ok_head _ _ _ _ _ _ _ Hrun).
  - split; [|by rewrite Hr'|done..]. by rewrite installed_folder, Hk', <-Hk.
Qed.

End refine.

(** ** The specification only touches the subtree of the entry *)

Section frame.
Context (helper manifestDir : string).
Implicit Types (t tp q : keypath) (c : ContextMenu) (ks acc : gmap keypath values).

(** Outside the subtree at [t], the store is as after the key was created. *)
Definition framed (c : ContextMenu) : Prop :=
  ∀ t ks q, ¬ t `prefix_of` q →
    installed helper manifestDir t c ks !! q = refreshed t ks !! q.

(** A path that is not below the child [tp ++ [id]], in a store that has the
    keys down to [tp], is as before the child was created. *)
Lemma refreshed_outside tp id acc q :
  (∀ p, p `prefix_of` tp → is_Some (acc !! p)) →
  ¬ tp ++ [id] `prefix_of` q → refreshed (tp ++ [id]) acc !! q = acc !! q.
Proof.
  intros Hup Hq. rewrite lookup_refreshed, decide_False by done.
  destruct (acc !! q) eqn:E; [done|]. case_decide as Hpre; [|done].
  apply prefix_snoc_inv in Hpre as [Hpre| ->]; [|done].
  apply Hup in Hpre as [? ?]. congruence.
Qed.

Lemma installed_entries_outside tp items :
  (∀ id c, (id, Some c) ∈ items → framed c) →
  ∀ acc q, (∀ p, p `prefix_of` tp → is_Some (acc !! p)) →
    (∀ id c, (id, Some c) ∈ items → ¬ tp ++ [id] `prefix_of` q) →
    installed_entries helper manifestDir tp items acc !! q = acc !! q.
Proof.
  induction items as [|[id [c|]] items IH]; intros Hf acc q Hup Hq; [done| |].
  - assert (∀ q', ¬ tp ++ [id] `prefix_of` q' →
              installed helper manifestDir (tp ++ [id]) c acc !! q' = acc !! q') as Hstep.
    { intros q' Hq'. rewrite (Hf id c) by (by left || done). by apply refreshed_outside. }
    rewrite installed_entries_cons, IH.
    + apply Hstep. apply (Hq id c). by left.
    + intros ?? Hin. apply (Hf _ _ (list_elem_of_further _ _ _ Hin)).
    + intros p Hp. rewrite Hstep; [by apply Hup|].
      intros Hpre. apply prefix_length in Hpre, Hp. rewrite length_app in Hpre.
      simpl in Hpre. lia.
    + intros ?? Hin. apply (Hq _ _ (list_elem_of_further _ _ _ Hin)).
  - apply IH; [|done|]; intros ?? Hin.
    + apply (Hf _ _ (list_elem_of_further _ _ _ Hin)).
    + apply (Hq _ _ (list_elem_of_further _ _ _ Hin)).
Qed.

Lemma installed_framed c : framed c.
Proof.
  induction c as [c IH] using ContextMenu_tree_ind. intros t ks q Hq.
  assert (∀ x, q ≠ t ++ x) as Hne by (intros x ->; apply Hq; by apply prefix_app_r).
  destruct (decide (Type_ c = ContextMenuType_Folder)) as [Hf|Hf].
  - rewrite installed_folder by done. rewrite installed_entries_outside.
    + rewrite !lookup_insert_ne; [done|by rewrite <-(app_nil_r t) at 1|done].
    + intros id c' Hin. by eapply IH.
    + intros p Hp. destruct (decide (p = t ++ ["shell"])) as [->|]; [by rewrite lookup_insert_eq|].
      rewrite lookup_insert_ne by done. apply refreshed_up.
      by apply prefix_snoc_inv in Hp as [?|?].
    + intros id c' _ Hpre. apply Hq. rewrite <-app_assoc in Hpre.
      etrans; [by apply prefix_app_r|done].
  - rewrite installed_item by done.
    rewrite !lookup_insert_ne; [done|by rewrite <-(app_nil_r t) at 1|done].
Qed.

End frame.

(** ** Installing twice *)

Section twice.
Context (helper manifestDir : string).
Implicit Types (t q : keypath) (c : ContextMenu) (ks : gmap keypath values).

(** The keys after the key was created depend on the keys outside its
    subtree only. *)
Lemma refreshed_ext t ks1 ks2 :
  (∀ q, ¬ t `prefix_of` q → refreshed t ks1 !! q = refreshed t ks2 !! q) →
  refreshed t ks1 = refreshed t ks2.
Proof.
  intros H. apply map_eq. intros q.
  destruct (decide (t `prefix_of` q)) as [Hq|Hq]; [|by apply H].
  by rewrite !lookup_refreshed, !(decide_True _ _ Hq).
Qed.

Lemma refreshed_idemp_at t ks q :
  refreshed t (refreshed t ks) !! q = refreshed t ks !! q.
Proof.
  rewrite (lookup_refreshed t (refreshed t ks)). case_decide as Hq.
  - by rewrite lookup_refreshed, (decide_True _ _ Hq).
  - rewrite lookup_refreshed, (decide_False _ _ Hq).
    destruct (ks !! q); [done|]. by case_decide.
Qed.

(** The specification uses the old keys through [refreshed] only. *)
Lemma installed_ext t c ks1 ks2 :
  refreshed t ks1 = refreshed t ks2 →
  installed helper manifestDir t c ks1 = installed helper manifestDir t c ks2.
Proof.
  intros H. destruct (decide (Type_ c = ContextMenuType_Folder)).
  - by rewrite !installed_folder, H.
  - by rewrite !installed_item, H.
Qed.

(** Installing an entry where another one was installed leaves no trace of
    the other one. *)
Lemma installed_over t c1 c2 ks :
  installed helper manifestDir t c2 (installed helper manifestDir t c1 ks)
  = installed helper manifestDir t c2 ks.
Proof.
  apply installed_ext, refreshed_ext. intros q Hq.
  rewrite <-(refreshed_idemp_at t ks q).
  rewrite (lookup_refreshed t (installed helper manifestDir t c1 ks)),
    (lookup_refreshed t (refreshed t ks)), !(decide_False _ _ Hq).
  by rewrite installed_framed.
Qed.

End twice.

Section twice_run.
Context (env : Env) (manifestDir helper cache0 : string).

(** Two calls at the same key, the second on the state the first left. *)
Lemma create_menu_twice parent id c1 c2 w :
  reg_wf (registry w) → menu_wf c1 → menu_wf c2 →
  unrefused (split_path (keyPath_of parent id)) (registry w) →
  cache_inv env helper cache0 (_nircmdPath w) →
  (elevated c1 = true ∨ elevated c2 = true → helper_found env helper cache0) →
  ∃ w1 w2,
    create_menu env parent id c1 manifestDir w = Ok tt w1
    ∧ create_menu env parent id c2 manifestDir w1 = Ok tt w2
    ∧ installs (cache_inv env helper cache0)
        (installed helper manifestDir (split_path (keyPath_of parent id)) c2
           (keys (registry w))) w w2.
Proof.
  intros Hwf Hm1 Hm2 Hu Hc Hh.
  destruct (create_menu_installs env manifestDir helper cache0 c1 parent id w)
    as (w1 & H1 & [Hk1 Hr1 Hwf1 Hc1]); [by auto..|].
  destruct (create_menu_installs env manifestDir helper cache0 c2 parent id w1)
    as (w2 & H2 & [Hk2 Hr2 Hwf2 Hc2]); [done|done|by eapply unrefused_eq|by auto..|].
  exists w1, w2. split; [done|split; [done|]].
  split; [by rewrite Hk2, Hk1, installed_over|congruence|done..].
Qed.

End twice_run.

(** The loop of [run], from any state of the cache the run can be in. *)
Lemma install_Ok env manifestDir helper cache0 manifest w :
  reg_wf (registry w) → entries_wf (manifest_Items manifest) →
  unrefused shell_path (registry w) →
  cache_inv env helper cache0 (_nircmdPath w) →
  (∀ id c, (id, Some c) ∈ manifest_Items manifest → elevated c = true →
           helper_found env helper cache0) →
  ∃ w', install env manifest manifestDir w = Ok tt w'
        ∧ installs (cache_inv env helper cache0)
            (installed_entries helper manifestDir shell_path (manifest_Items manifest)
               (keys (registry w))) w w'.
Proof.
  intros Hwf Hm Hu Hc Hh.
  apply (create_entries_installs env manifestDir helper cache0 EmptyString shell_path);
    [apply split_path_top|intros; apply create_menu_installs|done..].
Qed.

(** ** The theorems *)

(** C4.  Refinement, for one entry.  On a store that satisfies the invariant
    and refuses nothing at or below the key of the entry, for an entry
    that is well formed (identifiers that are key names, distinct among
    siblings, no nil entry) and whose elevated items find the helper,
    [createContextMenu] succeeds and leaves the keys [installed] computes:
    the old subtree replaced by the key with its values and, below it, the
    command key of an item or the [shell] key of a folder with the children
    installed in it. *)
Theorem createContextMenu_installs env manifestDir helper cache0 parent id c w :
  reg_wf (registry w) → menu_wf c →
  unrefused (split_path (keyPath_of parent id)) (registry w) →
  cache_inv env helper cache0 (_nircmdPath w) →
  (elevated c = true → helper_found env helper cache0) →
  ∃ w', createContextMenu env parent id (Some c) manifestDir w = Ok tt w'
        ∧ installs (cache_inv env helper cache0)
            (installed helper manifestDir (split_path (keyPath_of parent id)) c
               (keys (registry w))) w w'.
Proof. apply create_menu_installs. Qed.

(** C3.  Refinement, for the run.  On a store that satisfies the invariant
    and refuses nothing at or below the shell key, for a well-formed
    manifest whose elevated items find the helper, the loop of [run]
    succeeds and leaves the keys [installed_entries] computes from the
    entries in the order of the iteration. *)
Theorem install_installs env manifestDir helper manifest w :
  reg_wf (registry w) → entries_wf (manifest_Items manifest) →
  unrefused shell_path (registry w) →
  (∀ id c, (id, Some c) ∈ manifest_Items manifest → elevated c = true →
           helper_found env helper (_nircmdPath w)) →
  ∃ w', install env manifest manifestDir w = Ok tt w'
        ∧ installs (cache_inv env helper (_nircmdPath w))
            (installed_entries helper manifestDir shell_path (manifest_Items manifest)
               (keys (registry w))) w w'.
Proof. intros Hwf Hm Hu Hh. apply install_Ok; [done..|by left|done]. Qed.

(** C36.  The empty identifier.  A top-level item whose identifier is the
    empty string has the shell key itself as its key.  On a store that
    refuses nothing at or below the shell key the call succeeds: it erases
    the whole menu, so that no key of any entry that was installed is
    left, and writes the values of the entry on the shell key. *)
Theorem create_menu_empty_id env item manifestDir w cmd cache :
  reg_wf (registry w) →
  Type_ item ≠ ContextMenuType_Folder →
  unrefused shell_path (registry w) →
  CommandString env item manifestDir (_nircmdPath w) = Ok cmd cache →
  ∃ w', create_menu env EmptyString EmptyString item manifestDir w = Ok tt w'
        ∧ keys (registry w') !! shell_path = Some (attributes item manifestDir ∅)
        ∧ ∀ id q, id ≠ "command" → shell_path ++ [id] `prefix_of` q →
                  keys (registry w') !! q = None.
Proof.
  intros Hwf Ht Hu Hcmd.
  assert (split_path (keyPath_of EmptyString EmptyString) = shell_path) as Hp
    by by rewrite keyPath_of_empty.
  destruct (create_item_Ok env manifestDir EmptyString EmptyString item w cmd cache)
    as (w' & Hrun & [Hk _ _ _]); [done|done|by rewrite Hp|done|].
  exists w'. rewrite Hk, Hp. split; [done|]. split.
  - rewrite lookup_insert_ne, lookup_insert_eq; [done|].
    intros H%(f_equal length). rewrite length_app in H. simpl in H. lia.
  - intros id q Hid Hq. rewrite lookup_insert_ne; [by eapply refreshed_down|].
    intros <-. by apply prefix_app_inv, prefix_cons_inv_1 in Hq.
Qed.

(** ** A concrete run *)

Definition sample_helper : string := "C:\menu\bin\nircmd.exe".

Lemma sample_helper_found : helper_found sample_env sample_helper EmptyString.
Proof. by split. Qed.

Lemma createContextMenu_installs_witness :
  ∃ w', createContextMenu sample_env EmptyString "tools" (Some sample_folder) "C:\menu"
          sample_world = Ok tt w'
        ∧ installs (cache_inv sample_env sample_helper EmptyString)
            (installed sample_helper "C:\menu" (split_path (keyPath_of EmptyString "tools"))
               sample_folder (keys sample_store)) sample_world w'.
Proof.
  apply createContextMenu_installs;
    [apply sample_store_wf|done|by_compute|by left|intros _; apply sample_helper_found].
Defined.

Lemma install_installs_witness :
  ∃ w', install sample_env sample_manifest "C:\menu" sample_world = Ok tt w'
        ∧ installs (cache_inv sample_env sample_helper EmptyString)
            (installed_entries sample_helper "C:\menu" shell_path
               (manifest_Items sample_manifest) (keys sample_store)) sample_world w'.
Proof.
  apply install_installs;
    [apply sample_store_wf|done|by_compute|intros; apply sample_helper_found].
Defined.

(** C5.  Replacement.  An entry installed where another entry was installed
    by an earlier call leaves the keys it would have left without the
    earlier call: an item redefined as a folder keeps no command key, a
    folder redefined as an item keeps no [shell] key and none of its
    children. *)
Theorem createContextMenu_replaces env manifestDir helper cache0 parent id c1 c2 w :
  reg_wf (registry w) → menu_wf c1 → menu_wf c2 →
  unrefused (split_path (keyPath_of parent id)) (registry w) →
  cache_inv env helper cache0 (_nircmdPath w) →
  (elevated c1 = true ∨ elevated c2 = true → helper_found env helper cache0) →
  ∃ w1 w2,
    createContextMenu env parent id (Some c1) manifestDir w = Ok tt w1
    ∧ createContextMenu env parent id (Some c2) manifestDir w1 = Ok tt w2
    ∧ installs (cache_inv env helper cache0)
        (installed helper manifestDir (split_path (keyPath_of parent id)) c2
           (keys (registry w))) w w2.
Proof. apply create_menu_twice. Qed.

(** Idempotence.  A second call for the same entry, on the state the
    first call left, succeeds and leaves the keys of the store as they
    were. *)
Theorem createContextMenu_idempotent env manifestDir helper cache0 parent id c w :
  reg_wf (registry w) → menu_wf c →
  unrefused (split_path (keyPath_of parent id)) (registry w) →
  cache_inv env helper cache0 (_nircmdPath w) →
  (elevated c = true → helper_found env helper cache0) →
  ∃ w1 w2,
    createContextMenu env parent id (Some c) manifestDir w = Ok tt w1
    ∧ createContextMenu env parent id (Some c) manifestDir w1 = Ok tt w2
    ∧ keys (registry w2) = keys (registry w1).
Proof.
  intros Hwf Hm Hu Hc Hh.
  destruct (create_menu_installs env manifestDir helper cache0 c parent id w)
    as (w1 & H1 & [Hk1 Hr1 Hwf1 Hc1]); [done..|].
  destruct (create_menu_installs env manifestDir helper cache0 c parent id w1)
    as (w2 & H2 & [Hk2 Hr2 Hwf2 Hc2]); [done|done|by eapply unrefused_eq|done..|].
  exists w1, w2. split; [done|split; [done|]].
  by rewrite Hk2, Hk1, installed_over.
Qed.

Lemma createContextMenu_replaces_witness :
  ∃ w1 w2,
    createContextMenu sample_env EmptyString "tools" (Some sample_item) "C:\menu"
      sample_world = Ok tt w1
    ∧ createContextMenu sample_env EmptyString "tools" (Some sample_folder) "C:\menu" w1
      = Ok tt w2
    ∧ installs (cache_inv sample_env sample_helper EmptyString)
        (installed sample_helper "C:\menu" (split_path (keyPath_of EmptyString "tools"))
           sample_folder (keys sample_store)) sample_world w2.
Proof.
  apply createContextMenu_replaces;
    [apply sample_store_wf|done|done|by_compute|by left|intros _; apply sample_helper_found].
Defined.

Lemma createContextMenu_idempotent_witness :
  ∃ w1 w2,
    createContextMenu sample_env EmptyString "tools" (Some sample_folder) "C:\menu"
      sample_world = Ok tt w1
    ∧ createContextMenu sample_env EmptyString "tools" (Some sample_folder) "C:\menu" w1
      = Ok tt w2
    ∧ keys (registry w2) = keys (registry w1).
Proof.
  apply (createContextMenu_idempotent sample_env "C:\menu" sample_helper EmptyString);
    [apply sample_store_wf|done|by_compute|by left|intros _; apply sample_helper_found].
Defined.

Lemma create_menu_empty_id_witness :
  ∃ w', create_menu sample_env EmptyString EmptyString sample_item "C:\menu" sample_world
        = Ok tt w'
        ∧ keys (registry w') !! shell_path = Some (attributes sample_item "C:\menu" ∅)
        ∧ ∀ id q, id ≠ "command" → shell_path ++ [id] `prefix_of` q →
                  keys (registry w') !! q = None.
Proof.
  apply (create_menu_empty_id sample_env sample_item "C:\menu" sample_world
           "explorer.exe C:\menu\tools\run.bat" EmptyString);
    [apply sample_store_wf|done|by_compute|done].
Defined.
