(* ===== verification/Siblings.v ===== *)
(** * The entries of a map do not interfere

    The algebra of [installed] that the loop over a Go map rests on: Go
    iterates a map in an order that changes from run to run, so the program
    is right only if the order of the entries plays no part.  [installed]
    at a path is determined by what was at that path after the key was
    created; two entries at keys of which none is above the other commute;
    hence [installed_entries] is the same on every permutation of a map with
    distinct identifiers, and installing a map twice is installing it once.
    An entry installed after another with the same identifier leaves nothing
    of it, so a run with a manifest supersedes a run with an older one whose
    top-level identifiers it still has.  The children of a folder are a map
    as well: [shuffled] relates two trees that differ in the order of the
    entries of their maps at any depth, and such trees are installed alike. *)

From Stdlib Require Import Ascii.
From stdpp Require Import gmap strings list.
From S2P Require Import Prelude GoStrings GoErrors Registry Eraser.
From S2P Require Import Manifest Locator Projector Sync Render.

Section local.
Context (helper manifestDir : string).
Implicit Types (t tp q : keypath) (c : ContextMenu) (ks acc : gmap keypath values).
Implicit Types (items : list (string * option ContextMenu)).

Local Abbreviation installed := (installed helper manifestDir).
Local Abbreviation installed_entries := (installed_entries helper manifestDir).

(** What is at [q] after the key [t] was created depends on what was at [q]
    only, and on nothing when [q] is at or below [t]. *)
Lemma refreshed_at t ks1 ks2 q :
  (¬ t `prefix_of` q → ks1 !! q = ks2 !! q) →
  refreshed t ks1 !! q = refreshed t ks2 !! q.
Proof.
  intros H. rewrite !lookup_refreshed. case_decide as Hq; [done|]. by rewrite H.
Qed.

(** [installed] is determined, path by path, by the store after the key was
    created. *)
Definition pointwise (c : ContextMenu) : Prop :=
  ∀ t ks1 ks2 q, refreshed t ks1 !! q = refreshed t ks2 !! q →
    installed t c ks1 !! q = installed t c ks2 !! q.

Lemma installed_entries_at tp items :
  (∀ id c, (id, Some c) ∈ items → pointwise c) →
  ∀ acc1 acc2 q, acc1 !! q = acc2 !! q →
    installed_entries tp items acc1 !! q = installed_entries tp items acc2 !! q.
Proof.
  induction items as [|[id [c|]] items IH]; intros Hp acc1 acc2 q Hq; [done| |].
  - rewrite !installed_entries_cons. apply IH.
    + intros ?? Hin. apply (Hp _ _ (list_elem_of_further _ _ _ Hin)).
    + apply (Hp id c); [by left|]. by apply refreshed_at.
  - apply IH; [|done]. intros ?? Hin. apply (Hp _ _ (list_elem_of_further _ _ _ Hin)).
Qed.

Lemma installed_pointwise c : pointwise c.
Proof.
  induction c as [c IH] using ContextMenu_tree_ind. intros t ks1 ks2 q Hq.
  destruct (decide (Type_ c = ContextMenuType_Folder)) as [Hf|Hf].
  - rewrite !installed_folder by done. apply installed_entries_at; [by eauto|].
    destruct (decide (q = t ++ ["shell"])) as [->|]; [by rewrite !lookup_insert_eq|].
    rewrite !(lookup_insert_ne _ (t ++ ["shell"])) by done.
    destruct (decide (q = t)) as [->|]; [by rewrite !lookup_insert_eq|].
    by rewrite !lookup_insert_ne.
  - rewrite !installed_item by done.
    destruct (decide (q = t ++ ["command"])) as [->|]; [by rewrite !lookup_insert_eq|].
    rewrite !(lookup_insert_ne _ (t ++ ["command"])) by done.
    destruct (decide (q = t)) as [->|]; [by rewrite !lookup_insert_eq|].
    by rewrite !lookup_insert_ne.
Qed.

(** At or below its key, the result does not depend on the old store. *)
Lemma installed_inside t c ks1 ks2 q :
  t `prefix_of` q → installed t c ks1 !! q = installed t c ks2 !! q.
Proof. intros Hq. by apply installed_pointwise, refreshed_at. Qed.

(** ** Two entries at keys of which none is above the other *)

(** Outside both subtrees, the two keys are created in either order. *)
Lemma refreshed_comm_at t1 t2 ks q :
  ¬ t1 `prefix_of` q → ¬ t2 `prefix_of` q →
  refreshed t1 (refreshed t2 ks) !! q = refreshed t2 (refreshed t1 ks) !! q.
Proof.
  intros H1 H2. rewrite !lookup_refreshed, !(decide_False _ _ H1), !(decide_False _ _ H2).
  destruct (ks !! q); [done|]. by repeat case_decide.
Qed.

(** Below the first key, the second entry changes nothing. *)
Lemma installed_comm_below t1 t2 c1 c2 ks q :
  t1 `prefix_of` q → ¬ t2 `prefix_of` t1 → ¬ t1 `prefix_of` t2 →
  installed t1 c1 (installed t2 c2 ks) !! q = installed t2 c2 (installed t1 c1 ks) !! q.
Proof.
  intros Hq H21 H12.
  assert (¬ t2 `prefix_of` q) as Hq2.
  { intros ?. by destruct (prefix_cases t1 t2 q). }
  rewrite (installed_inside t1 c1 _ ks) by done.
  rewrite (installed_framed _ _ c2 t2) by done.
  rewrite lookup_refreshed, (decide_False _ _ Hq2).
  destruct (installed t1 c1 ks !! q); [done|]. rewrite decide_False; [done|].
  intros ?. apply H12. by etrans.
Qed.

Lemma installed_comm t1 t2 c1 c2 ks :
  ¬ t2 `prefix_of` t1 → ¬ t1 `prefix_of` t2 →
  installed t1 c1 (installed t2 c2 ks) = installed t2 c2 (installed t1 c1 ks).
Proof.
  intros H21 H12. apply map_eq. intros q.
  destruct (decide (t1 `prefix_of` q)) as [Hq1|Hq1]; [by apply installed_comm_below|].
  destruct (decide (t2 `prefix_of` q)) as [Hq2|Hq2].
  { symmetry. by apply installed_comm_below. }
  rewrite (installed_framed _ _ c1 t1), (installed_framed _ _ c2 t2) by done.
  rewrite (refreshed_at t1 _ (refreshed t2 ks)), (refreshed_at t2 _ (refreshed t1 ks));
    [by apply refreshed_comm_at|intros _; by apply installed_framed..].
Qed.

(** ** The entries of a map *)

(** One step of the loop. *)
Definition install_entry tp (acc : gmap keypath values)
    (e : string * option ContextMenu) : gmap keypath values :=
  match e.2 with
  | Some c => installed (tp ++ [e.1]) c acc
  | None => acc
  end.

Lemma installed_entries_foldl tp items ks :
  installed_entries tp items ks = foldl (install_entry tp) ks items.
Proof. done. Qed.

(** The keys of two entries with different identifiers. *)
Lemma sibling_not_prefix tp (id1 id2 : string) :
  id1 ≠ id2 → ¬ tp ++ [id1] `prefix_of` tp ++ [id2].
Proof. intros Hne Hp%prefix_app_inv. by apply prefix_cons_inv_1 in Hp. Qed.

Lemma install_entry_comm tp acc e1 e2 :
  e1.1 ≠ e2.1 →
  install_entry tp (install_entry tp acc e1) e2
  = install_entry tp (install_entry tp acc e2) e1.
Proof.
  intros Hne. destruct e1 as [id1 [c1|]], e2 as [id2 [c2|]]; try done.
  unfold install_entry. simpl in *. by apply installed_comm; apply sibling_not_prefix.
Qed.

(** An entry commutes with the entries of a map that does not have its
    identifier. *)
Lemma install_entry_comm_fresh tp items id o :
  id ∉ items.*1 →
  ∀ acc e, e ∈ items →
    install_entry tp (install_entry tp acc (id, o)) e
    = install_entry tp (install_entry tp acc e) (id, o).
Proof.
  intros Hid acc e He. apply install_entry_comm. intros Heq. apply Hid.
  simpl in Heq. rewrite Heq. apply list_elem_of_fmap. by exists e.
Qed.

(** An entry installed over an entry with the same identifier. *)
Lemma install_entry_over tp acc id c o :
  install_entry tp (install_entry tp acc (id, o)) (id, Some c)
  = install_entry tp acc (id, Some c).
Proof. destruct o; [apply installed_over|done]. Qed.

(** The order of the entries plays no part. *)
Lemma installed_entries_perm tp items items' ks :
  NoDup items.*1 → items ≡ₚ items' →
  installed_entries tp items ks = installed_entries tp items' ks.
Proof.
  intros Hnd Hp. rewrite !installed_entries_foldl.
  by apply (foldl_permutation _ fst); [intros; apply install_entry_comm|..].
Qed.

(** Installing the entries of a map over themselves changes nothing. *)
Lemma installed_entries_idemp tp items :
  NoDup items.*1 → (∀ id, (id, None) ∉ items) →
  ∀ ks, installed_entries tp items (installed_entries tp items ks)
        = installed_entries tp items ks.
Proof.
  induction items as [|[id o] items IH]; intros Hnd Hnil ks; [done|].
  destruct o as [c|]; [|exfalso; apply (Hnil id); by left].
  apply NoDup_cons in Hnd as [Hid Hnd]. rewrite !installed_entries_foldl. simpl.
  rewrite (foldl_comm_step (install_entry tp) items (id, Some c))
    by by apply install_entry_comm_fresh.
  rewrite <-!installed_entries_foldl. fold (install_entry tp ks (id, Some c)).
  rewrite IH; [|done|intros i Hi; apply (Hnil i); by right].
  rewrite !installed_entries_foldl.
  rewrite <-(foldl_comm_step (install_entry tp) items (id, Some c))
    by by apply install_entry_comm_fresh.
  by rewrite install_entry_over.
Qed.

(** An entry is absorbed by the entries of a map that has its identifier. *)
Lemma install_entry_absorbed tp items e :
  NoDup items.*1 → (∀ id, (id, None) ∉ items) → e.1 ∈ items.*1 →
  ∀ acc, foldl (install_entry tp) (install_entry tp acc e) items
         = foldl (install_entry tp) acc items.
Proof.
  induction items as [|[id o] items IH]; intros Hnd Hnil He acc;
    [by apply elem_of_nil in He|].
  destruct o as [c|]; [|exfalso; apply (Hnil id); by left].
  apply NoDup_cons in Hnd as [Hid Hnd]. simpl.
  destruct (decide (e.1 = id)) as [<-|Hne].
  - destruct e as [id' o']. by rewrite install_entry_over.
  - rewrite install_entry_comm by done. apply IH; [done| |set_solver].
    intros i Hi. apply (Hnil i). by right.
Qed.

(** The entries of a map installed over those of a map with fewer
    identifiers leave no trace of them. *)
Lemma installed_entries_supersede tp old new :
  NoDup new.*1 → (∀ id, (id, None) ∉ new) → old.*1 ⊆ new.*1 →
  ∀ ks, installed_entries tp new (installed_entries tp old ks)
        = installed_entries tp new ks.
Proof.
  intros Hnd Hnil. induction old as [|e old IH]; intros Hsub ks; [done|].
  rewrite !installed_entries_foldl. simpl. rewrite <-!installed_entries_foldl.
  rewrite IH by set_solver. rewrite !installed_entries_foldl.
  apply install_entry_absorbed; [done..|set_solver].
Qed.

End local.

(** ** The maps inside folders

    The children of a folder are a Go map as well (main.go:62), so every
    level of the tree is visited in an order of its own. *)

(** Two entries of a map: the same identifier, and values that are both
    nil or related. *)
Definition entry_rel (R : relation ContextMenu) (e e' : string * option ContextMenu) : Prop :=
  e.1 = e'.1 ∧ option_Forall2 R e.2 e'.2.

(** [shuffled c c']: [c'] is [c] with the children of every folder in
    another order. *)
#[local] Unset Elimination Schemes.
Inductive shuffled : ContextMenu → ContextMenu → Prop :=
| shuffled_menu c l items :
    Forall2 (entry_rel shuffled) (Items c) l → l ≡ₚ items →
    shuffled c (with_Items c items).
#[local] Set Elimination Schemes.

(** The same for the entries of a map. *)
Definition shuffled_entries (l l' : list (string * option ContextMenu)) : Prop :=
  ∃ l0, Forall2 (entry_rel shuffled) l l0 ∧ l0 ≡ₚ l'.

Section nested.
Context (helper manifestDir : string).
Implicit Types (t tp : keypath) (c : ContextMenu) (ks acc : gmap keypath values).
Implicit Types (l items : list (string * option ContextMenu)).

Local Abbreviation installed := (installed helper manifestDir).
Local Abbreviation installed_entries := (installed_entries helper manifestDir).

Lemma with_Items_self c : with_Items c (Items c) = c.
Proof. by destruct c. Qed.

Lemma entry_rel_ids R l l' : Forall2 (entry_rel R) l l' → l.*1 = l'.*1.
Proof.
  induction 1 as [|x y l l' [Hxy _] _ IH]; [done|]. rewrite !fmap_cons. by rewrite Hxy, IH.
Qed.

Lemma shuffled_refl c : shuffled c c.
Proof.
  induction c as [c IH] using ContextMenu_tree_ind. rewrite <-(with_Items_self c) at 2.
  apply (shuffled_menu c (Items c)); [|done]. apply Forall_Forall2_diag, Forall_forall.
  intros [id [c'|]] Hin; (split; [done|]); constructor. by eapply IH.
Qed.

Lemma shuffled_entries_permutation l l' : l ≡ₚ l' → shuffled_entries l l'.
Proof.
  intros Hp. exists l. split; [|done]. apply Forall_Forall2_diag, Forall_forall.
  intros [id [c'|]] _; (split; [done|]); constructor. apply shuffled_refl.
Qed.

(** Entries that are installed alike, one by one. *)
Lemma installed_entries_related tp l l' :
  Forall2 (λ e e', ∀ acc, install_entry helper manifestDir tp acc e
                          = install_entry helper manifestDir tp acc e') l l' →
  ∀ ks, installed_entries tp l ks = installed_entries tp l' ks.
Proof.
  induction 1 as [|e e' l l' He _ IH]; intros ks; [done|].
  rewrite !installed_entries_foldl. simpl. rewrite He. apply IH.
Qed.

(** The order inside the folders of [c] plays no part in what is installed. *)
Definition order_free c : Prop :=
  ∀ c', shuffled c c' → ∀ t ks, installed t c ks = installed t c' ks.

Lemma installed_entries_shuffled tp l l' ks :
  (∀ id c, (id, Some c) ∈ l → order_free c) → NoDup l.*1 →
  shuffled_entries l l' → installed_entries tp l ks = installed_entries tp l' ks.
Proof.
  intros IH Hnd (l0 & Hl & Hp). trans (installed_entries tp l0 ks).
  - apply installed_entries_related. eapply Forall2_impl_elem; [exact Hl|].
    intros [id o] [id' o'] Hin _ [Hid Ho] acc. simpl in *. subst id'.
    destruct Ho as [c c' Hc|]; [|done]. unfold install_entry. simpl. by eapply IH.
  - apply installed_entries_perm; [|done]. by rewrite <-(entry_rel_ids _ _ _ Hl).
Qed.

Lemma installed_shuffled c : menu_wf c → order_free c.
Proof.
  induction c as [c IH] using ContextMenu_tree_ind. intros Hwf c' H t ks.
  inversion H as [c0 l items Hl Hp]. subst c0 c'.
  destruct (decide (Type_ c = ContextMenuType_Folder)) as [Hf|Hf].
  - rewrite !installed_folder by done. apply installed_entries_shuffled.
    + intros id c' Hin. apply (IH id c' Hin).
      by destruct (menu_wf_children c id (Some c') Hwf Hin) as [_ (? & [= <-] & ?)].
    + apply entries_wf_NoDup. unfold entries_wf. by rewrite <-menu_wfb_unfold.
    + by exists l.
  - by rewrite !installed_item by done.
Qed.

(** A well-formed tree stays well formed. *)
Lemma shuffled_entries_wf l l' :
  (∀ id c c', (id, Some c) ∈ l → menu_wf c → shuffled c c' → menu_wf c') →
  entries_wf l → shuffled_entries l l' → entries_wf l'.
Proof.
  intros IH Hwf (l0 & Hl & Hp). apply (entries_wf_permutation l0); [done|].
  apply entries_wf_spec. apply entries_wf_spec in Hwf as [Hnd Hall].
  split; [by rewrite <-(entry_rel_ids _ _ _ Hl)|]. apply Forall_forall.
  intros [id' o'] ([id o] & Hin & Hid & Ho)%(Forall2_elem_of_r _ _ _ _ Hl).
  rewrite Forall_forall in Hall. destruct (Hall _ Hin) as (Hv & c & Hc & Hwf).
  simpl in *. subst id' o. inversion Ho as [? c' Hs|]; subst. split; [done|].
  exists c'. split; [done|]. by eapply IH.
Qed.

Lemma shuffled_wf c : menu_wf c → ∀ c', shuffled c c' → menu_wf c'.
Proof.
  induction c as [c IH] using ContextMenu_tree_ind. intros Hwf c' H.
  inversion H as [c0 l items Hl Hp]. subst c0 c'.
  unfold menu_wf. rewrite menu_wfb_unfold. simpl.
  apply (shuffled_entries_wf (Items c));
    [|by unfold entries_wf; rewrite <-menu_wfb_unfold|by exists l].
  intros id c1 c1' Hin Hw Hs. by apply (IH id c1 Hin Hw).
Qed.

(** An entry of the shuffled map comes from an entry of the map. *)
Lemma shuffled_entries_elem l l' id c' :
  shuffled_entries l l' → (id, Some c') ∈ l' → ∃ c, (id, Some c) ∈ l ∧ shuffled c c'.
Proof.
  intros (l0 & Hl & Hp) Hin. rewrite <-Hp in Hin.
  destruct (Forall2_elem_of_r _ _ _ _ Hl Hin) as ([id0 o] & Hin0 & Hid & Ho).
  simpl in *. subst id0. inversion Ho as [c ? Hs|]; subst. by exists c.
Qed.

(** A tree asks for elevation whatever the order of its folders. *)
Lemma shuffled_entries_elevated l l' :
  (∀ id c c', (id, Some c) ∈ l → shuffled c c' → elevated c' = elevated c) →
  shuffled_entries l l' → entries_elevated l' = entries_elevated l.
Proof.
  intros IH (l0 & Hl & Hp). apply eq_true_iff_eq. unfold entries_elevated.
  rewrite !existsb_exists. setoid_rewrite <-list_elem_of_In. split.
  - intros ([id' o'] & Hin' & He). rewrite <-Hp in Hin'.
    destruct (Forall2_elem_of_r _ _ _ _ Hl Hin') as ([id o] & Hin & Hid & Ho).
    exists (id, o). split; [done|]. simpl in *.
    inversion Ho as [c c' Hs|]; subst; [|done]. simpl in *. by rewrite <-(IH _ c c' Hin Hs).
  - intros ([id o] & Hin & He).
    destruct (Forall2_elem_of_l _ _ _ _ Hl Hin) as ([id' o'] & Hin' & Hid & Ho).
    exists (id', o'). rewrite <-Hp. split; [done|]. simpl in *.
    inversion Ho as [c c' Hs|]; subst; [|done]. simpl in *. by rewrite (IH _ c c' Hin Hs).
Qed.

Lemma shuffled_elevated c : ∀ c', shuffled c c' → elevated c' = elevated c.
Proof.
  induction c as [c IH] using ContextMenu_tree_ind. intros c' H.
  inversion H as [c0 l items Hl Hp]. subst c0 c'.
  destruct (decide (Type_ c = ContextMenuType_Folder)) as [Hf|Hf].
  - rewrite !elevated_folder by done. apply (shuffled_entries_elevated (Items c)).
    + intros id c1 c1' Hin. by apply (IH id).
    + by exists l.
  - by rewrite !elevated_item by done.
Qed.

End nested.

(** ** The program *)

Section program.
Context (env : Env) (manifestDir helper cache0 : string).
Implicit Types (w : World) (manifest : Manifest).

(** Two runs from the same state, on two orders of the same map. *)
Lemma install_permuted manifest manifest' w :
  reg_wf (registry w) → entries_wf (manifest_Items manifest) →
  manifest_Items manifest ≡ₚ manifest_Items manifest' →
  unrefused shell_path (registry w) →
  cache_inv env helper cache0 (_nircmdPath w) →
  (∀ id c, (id, Some c) ∈ manifest_Items manifest → elevated c = true →
           helper_found env helper cache0) →
  ∃ w1 w2, install env manifest manifestDir w = Ok tt w1
           ∧ install env manifest' manifestDir w = Ok tt w2
           ∧ registry w1 ≡ registry w2.
Proof.
  intros Hwf Hm Hp Hu Hc Hh.
  destruct (install_Ok env manifestDir helper cache0 manifest w)
    as (w1 & H1 & [Hk1 Hr1 _ _]); [done..|].
  destruct (install_Ok env manifestDir helper cache0 manifest' w)
    as (w2 & H2 & [Hk2 Hr2 _ _]);
    [done|by eapply entries_wf_permutation|done..|
     intros id c Hin; apply (Hh id c); by rewrite Hp|].
  exists w1, w2. split; [done|split; [done|]]. split; [|congruence]. rewrite Hk1, Hk2.
  apply installed_entries_perm; [|done]. by apply entries_wf_spec in Hm as [? _].
Qed.

(** Two runs from the same state, on the same tree with the maps of every
    level in two orders. *)
Lemma install_shuffled manifest manifest' w :
  reg_wf (registry w) → entries_wf (manifest_Items manifest) →
  shuffled_entries (manifest_Items manifest) (manifest_Items manifest') →
  unrefused shell_path (registry w) →
  cache_inv env helper cache0 (_nircmdPath w) →
  (∀ id c, (id, Some c) ∈ manifest_Items manifest → elevated c = true →
           helper_found env helper cache0) →
  ∃ w1 w2, install env manifest manifestDir w = Ok tt w1
           ∧ install env manifest' manifestDir w = Ok tt w2
           ∧ registry w1 ≡ registry w2.
Proof.
  intros Hwf Hm Hs Hu Hc Hh.
  destruct (install_Ok env manifestDir helper cache0 manifest w)
    as (w1 & H1 & [Hk1 Hr1 _ _]); [done..|].
  destruct (install_Ok env manifestDir helper cache0 manifest' w)
    as (w2 & H2 & [Hk2 Hr2 _ _]); [done| |done..| |].
  - apply (shuffled_entries_wf (manifest_Items manifest)); [|done..].
    intros ? c c' _ Hw Hcc. by apply (shuffled_wf c).
  - intros id c' (c & Hin & Hcc)%(shuffled_entries_elem _ _ _ _ Hs) He.
    apply (Hh id c Hin). by rewrite <-(shuffled_elevated c c').
  - exists w1, w2. split; [done|split; [done|]]. split; [|congruence]. rewrite Hk1, Hk2.
    apply installed_entries_shuffled; [|by apply entries_wf_NoDup|done].
    intros id c Hin. apply installed_shuffled.
    by destruct (entries_wf_elem _ id (Some c) Hm Hin) as [_ (? & [= <-] & ?)].
Qed.

(** Two runs in a row. *)
Lemma install_twice manifest w :
  reg_wf (registry w) → entries_wf (manifest_Items manifest) →
  unrefused shell_path (registry w) →
  cache_inv env helper cache0 (_nircmdPath w) →
  (∀ id c, (id, Some c) ∈ manifest_Items manifest → elevated c = true →
           helper_found env helper cache0) →
  ∃ w1 w2, install env manifest manifestDir w = Ok tt w1
           ∧ install env manifest manifestDir w1 = Ok tt w2
           ∧ registry w2 ≡ registry w1.
Proof.
  intros Hwf Hm Hu Hc Hh.
  destruct (install_Ok env manifestDir helper cache0 manifest w)
    as (w1 & H1 & [Hk1 Hr1 Hwf1 Hc1]); [done..|].
  destruct (install_Ok env manifestDir helper cache0 manifest w1)
    as (w2 & H2 & [Hk2 Hr2 _ _]); [done|done|by eapply unrefused_eq|done..|].
  exists w1, w2. split; [done|split; [done|]]. split; [|done]. rewrite Hk2, Hk1.
  apply installed_entries_idemp; [by apply entries_wf_spec in Hm as [? _]|].
  intros id. by apply entries_wf_no_nil.
Qed.

(** A run on the state an earlier manifest left. *)
Lemma install_after old new w :
  reg_wf (registry w) → entries_wf (manifest_Items old) →
  entries_wf (manifest_Items new) →
  (manifest_Items old).*1 ⊆ (manifest_Items new).*1 →
  unrefused shell_path (registry w) →
  cache_inv env helper cache0 (_nircmdPath w) →
  (∀ id c, (id, Some c) ∈ manifest_Items old ++ manifest_Items new →
           elevated c = true → helper_found env helper cache0) →
  ∃ w1 w2 w2', install env old manifestDir w = Ok tt w1
               ∧ install env new manifestDir w1 = Ok tt w2
               ∧ install env new manifestDir w = Ok tt w2'
               ∧ registry w2 ≡ registry w2'.
Proof.
  intros Hwf Ho Hn Hsub Hu Hc Hh.
  destruct (install_Ok env manifestDir helper cache0 old w)
    as (w1 & H1 & [Hk1 Hr1 Hwf1 Hc1]); [done..|intros id c ??; apply (Hh id c); [set_solver|done]|].
  destruct (install_Ok env manifestDir helper cache0 new w1)
    as (w2 & H2 & [Hk2 Hr2 _ _]);
    [done|done|by eapply unrefused_eq|done|intros id c ??; apply (Hh id c); [set_solver|done]|].
  destruct (install_Ok env manifestDir helper cache0 new w)
    as (w2' & H2' & [Hk2' Hr2' _ _]); [done..|intros id c ??; apply (Hh id c); [set_solver|done]|].
  exists w1, w2, w2'. split_and!; [done..|]. split; [|congruence].
  rewrite Hk2, Hk1, Hk2'. apply installed_entries_supersede; [|intros id; by apply entries_wf_no_nil|done].
  by apply entries_wf_spec in Hn as [? _].
Qed.

(** Runs from two states of one class end in one class. *)
Lemma install_related manifest w w' :
  registry w ≡ registry w' → _nircmdPath w = _nircmdPath w' →
  reg_wf (registry w) → reg_wf (registry w') →
  entries_wf (manifest_Items manifest) → unrefused shell_path (registry w) →
  cache_inv env helper cache0 (_nircmdPath w) →
  (∀ id c, (id, Some c) ∈ manifest_Items manifest → elevated c = true →
           helper_found env helper cache0) →
  ∃ w1 w2, install env manifest manifestDir w = Ok tt w1
           ∧ install env manifest manifestDir w' = Ok tt w2
           ∧ registry w1 ≡ registry w2.
Proof.
  intros Hw Hcache Hwf Hwf' Hm Hu Hc Hh.
  destruct (install_Ok env manifestDir helper cache0 manifest w)
    as (w1 & H1 & [Hk1 Hr1 _ _]); [done..|].
  destruct (install_Ok env manifestDir helper cache0 manifest w')
    as (w2 & H2 & [Hk2 Hr2 _ _]); [done|done|by rewrite <-Hw|by rewrite <-Hcache|done|].
  exists w1, w2. split; [done|split; [done|]].
  split; [by rewrite Hk1, Hk2, Hw|by rewrite Hr1, Hr2, Hw].
Qed.

End program.

(** C13.  The order of a map plays no part.  Go iterates a map in an order
    of its own choosing; for a well-formed manifest on a store that refuses
    nothing below the shell key, the runs on two orders of the same entries
    both succeed and leave the same keys with the same values. *)
Theorem install_order_independent env manifestDir helper manifest manifest' w :
  reg_wf (registry w) → entries_wf (manifest_Items manifest) →
  manifest_Items manifest ≡ₚ manifest_Items manifest' →
  unrefused shell_path (registry w) →
  (∀ id c, (id, Some c) ∈ manifest_Items manifest → elevated c = true →
           helper_found env helper (_nircmdPath w)) →
  ∃ w1 w2, install env manifest manifestDir w = Ok tt w1
           ∧ install env manifest' manifestDir w = Ok tt w2
           ∧ registry w1 ≡ registry w2.
Proof. intros. eapply install_permuted; eauto. by left. Qed.

(** C34.  The order of the maps inside folders plays no part.  The children
    of a folder are a Go map too, visited in an order of its own at every
    level of the tree (main.go:62, 104).  For a well-formed manifest on a
    store that refuses nothing below the shell key, the run on the manifest
    and the run on the same tree with the entries of every map in another
    order, the top-level map and the map of every folder at any depth, both
    succeed and leave the same keys with the same values. *)
Theorem install_order_independent_nested env manifestDir helper manifest manifest' w :
  reg_wf (registry w) → entries_wf (manifest_Items manifest) →
  shuffled_entries (manifest_Items manifest) (manifest_Items manifest') →
  unrefused shell_path (registry w) →
  (∀ id c, (id, Some c) ∈ manifest_Items manifest → elevated c = true →
           helper_found env helper (_nircmdPath w)) →
  ∃ w1 w2, install env manifest manifestDir w = Ok tt w1
           ∧ install env manifest' manifestDir w = Ok tt w2
           ∧ registry w1 ≡ registry w2.
Proof. intros. eapply install_shuffled; eauto. by left. Qed.

(** C19.  Idempotence of a run.  A second run of the same well-formed
    manifest, on the state the first run left, succeeds and changes no key
    and no value. *)
Theorem install_idempotent env manifestDir helper manifest w :
  reg_wf (registry w) → entries_wf (manifest_Items manifest) →
  unrefused shell_path (registry w) →
  (∀ id c, (id, Some c) ∈ manifest_Items manifest → elevated c = true →
           helper_found env helper (_nircmdPath w)) →
  ∃ w1 w2, install env manifest manifestDir w = Ok tt w1
           ∧ install env manifest manifestDir w1 = Ok tt w2
           ∧ registry w2 ≡ registry w1.
Proof. intros. eapply install_twice; eauto. by left. Qed.

(** The handles play no part.  The installation never closes the
    handles it opens, so the handle table differs from call to call and
    from run to run.  Runs of the same manifest from two states that have
    the same keys, values and refusals, whatever handles are open in them,
    both succeed and end in states that have the same keys, values and
    refusals. *)
Theorem install_proper env manifestDir helper manifest w w' :
  registry w ≡ registry w' → _nircmdPath w = _nircmdPath w' →
  reg_wf (registry w) → reg_wf (registry w') →
  entries_wf (manifest_Items manifest) → unrefused shell_path (registry w) →
  (∀ id c, (id, Some c) ∈ manifest_Items manifest → elevated c = true →
           helper_found env helper (_nircmdPath w)) →
  ∃ w1 w2, install env manifest manifestDir w = Ok tt w1
           ∧ install env manifest manifestDir w' = Ok tt w2
           ∧ registry w1 ≡ registry w2.
Proof. intros. eapply install_related; eauto. by left. Qed.

(** C20.  The last manifest wins.  When every identifier of the manifest of
    an earlier run is an identifier of the manifest of this run, the run on
    the state the earlier run left succeeds and ends with the keys and
    values the run would have left without the earlier one: an item that
    became a folder keeps no command key, a folder that became an item
    keeps no shell key, and a child that was removed or renamed is gone. *)
Theorem install_supersedes env manifestDir helper old new w :
  reg_wf (registry w) → entries_wf (manifest_Items old) →
  entries_wf (manifest_Items new) →
  (manifest_Items old).*1 ⊆ (manifest_Items new).*1 →
  unrefused shell_path (registry w) →
  (∀ id c, (id, Some c) ∈ manifest_Items old ++ manifest_Items new →
           elevated c = true → helper_found env helper (_nircmdPath w)) →
  ∃ w1 w2 w2', install env old manifestDir w = Ok tt w1
               ∧ install env new manifestDir w1 = Ok tt w2
               ∧ install env new manifestDir w = Ok tt w2'
               ∧ registry w2 ≡ registry w2'.
Proof. intros. eapply install_after; eauto. by left. Qed.

(** The entries of the sample manifest, in another order. *)
Definition sample_manifest_rev : Manifest :=
  mkManifest (reverse (manifest_Items sample_manifest)).

Lemma install_order_independent_witness :
  ∃ w1 w2, install sample_env sample_manifest "C:\menu" sample_world = Ok tt w1
           ∧ install sample_env sample_manifest_rev "C:\menu" sample_world = Ok tt w2
           ∧ registry w1 ≡ registry w2.
Proof.
  apply (install_order_independent sample_env "C:\menu" sample_helper);
    [apply sample_store_wf|done|symmetry; apply reverse_Permutation|by_compute
    |intros; apply sample_helper_found].
Defined.

(** The sample manifest with its entries and the children of its folder in
    reverse order. *)
Definition sample_manifest_nested : Manifest :=
  mkManifest [("last", Some sample_item);
              ("tools", Some (with_Items sample_folder (reverse (Items sample_folder))));
              ("open", Some sample_item)].

Lemma sample_manifest_shuffled :
  shuffled_entries (manifest_Items sample_manifest) (manifest_Items sample_manifest_nested).
Proof.
  exists (reverse (manifest_Items sample_manifest_nested)).
  split; [|apply reverse_Permutation].
  repeat constructor; try apply shuffled_refl.
  apply (shuffled_menu sample_folder (Items sample_folder)); [|symmetry; apply reverse_Permutation].
  apply Forall_Forall2_diag. repeat constructor; apply shuffled_refl.
Qed.

Lemma install_order_independent_nested_witness :
  ∃ w1 w2, install sample_env sample_manifest "C:\menu" sample_world = Ok tt w1
           ∧ install sample_env sample_manifest_nested "C:\menu" sample_world = Ok tt w2
           ∧ registry w1 ≡ registry w2.
Proof.
  apply (install_order_independent_nested sample_env "C:\menu" sample_helper);
    [apply sample_store_wf|done|apply sample_manifest_shuffled|by_compute
    |intros; apply sample_helper_found].
Defined.

Lemma install_idempotent_witness :
  ∃ w1 w2, install sample_env sample_manifest "C:\menu" sample_world = Ok tt w1
           ∧ install sample_env sample_manifest "C:\menu" w1 = Ok tt w2
           ∧ registry w2 ≡ registry w1.
Proof.
  apply (install_idempotent sample_env "C:\menu" sample_helper);
    [apply sample_store_wf|done|by_compute|intros; apply sample_helper_found].
Defined.

(** The sample store with a handle left open on the shell key. *)
Definition sample_world_open : World :=
  mkWorld (with_handle shell_path sample_store) EmptyString.

Lemma install_proper_witness :
  ∃ w1 w2, install sample_env sample_manifest "C:\menu" sample_world = Ok tt w1
           ∧ install sample_env sample_manifest "C:\menu" sample_world_open = Ok tt w2
           ∧ registry w1 ≡ registry w2.
Proof.
  apply (install_proper sample_env "C:\menu" sample_helper);
    [symmetry; apply with_handle_equiv|done|apply sample_store_wf|by_compute|done
    |by_compute|intros; apply sample_helper_found].
Defined.

(** The sample manifest with the kinds of its entries changed: the item
    [open] is a folder, the folder [tools] an item. *)
Definition sample_manifest_swapped : Manifest :=
  mkManifest [("open", Some sample_folder); ("tools", Some sample_item);
              ("last", Some sample_item)].

Lemma install_supersedes_witness :
  ∃ w1 w2 w2',
    install sample_env sample_manifest "C:\menu" sample_world = Ok tt w1
    ∧ install sample_env sample_manifest_swapped "C:\menu" w1 = Ok tt w2
    ∧ install sample_env sample_manifest_swapped "C:\menu" sample_world = Ok tt w2'
    ∧ registry w2 ≡ registry w2'.
Proof.
  apply (install_supersedes sample_env "C:\menu" sample_helper);
    [apply sample_store_wf|done|done|by_compute|by_compute
    |intros; apply sample_helper_found].
Defined.
