(* ===== verification/Schema.v ===== *)
(** * The schema of the menu keys

    The shell reads a menu entry off the registry by the names and the kinds
    of its values: the title under [MUIVerb], the icon under [Icon], the
    flags [Extended], [HasLUAShield] and [SubCommands] as empty strings, and
    the command as the default value of the subkey [command], the only
    value that is an expandable string.  [key_typed] is that schema; the
    theorems show that every key [createContextMenu] writes satisfies it
    and that an installation keeps the keys that satisfy it. *)

From stdpp Require Import gmap strings list.
From S2P Require Import Prelude GoStrings GoErrors Registry Eraser.
From S2P Require Import Manifest Locator Projector Sync Render.

(** ** The schema *)

(** The flags of an entry: values whose presence is what is read. *)
Definition flag_names : list string := ["Extended"; "HasLUAShield"; "SubCommands"].

(** The value [v] under the name [name] of the key [k] fits the schema. *)
Definition value_typed (k : keypath) (name : string) (v : RegValue) : Prop :=
  match v with
  | REG_SZ s =>
      name = "MUIVerb" ∨ (name = "Icon" ∧ s ≠ EmptyString)
      ∨ (name ∈ flag_names ∧ s = EmptyString)
  | REG_EXPAND_SZ _ => name = EmptyString ∧ last k = Some "command"
  end.

#[export] Instance value_typed_dec k name v : Decision (value_typed k name v).
Proof. destruct v; simpl; apply _. Defined.

(** Every value of the key [k] fits the schema. *)
Definition key_typed (k : keypath) (vs : values) : Prop :=
  map_Forall (value_typed k) vs.

#[export] Instance key_typed_dec k vs : Decision (key_typed k vs).
Proof. unfold key_typed. apply _. Defined.

(** Every key of the store in the domain [D] fits the schema. *)
Definition typed_in (D : keypath → Prop) (ks : gmap keypath values) : Prop :=
  ∀ k vs, D k → ks !! k = Some vs → key_typed k vs.

(** ** The values the program writes *)

Section values.
Implicit Types (k t : keypath) (vs : values) (c : ContextMenu).

Lemma key_typed_empty k : key_typed k ∅.
Proof. apply map_Forall_empty. Qed.

Lemma key_typed_insert k name v vs :
  value_typed k name v → key_typed k vs → key_typed k (<[name := v]> vs).
Proof. intros. by apply map_Forall_insert_2. Qed.

Lemma key_typed_flag k name vs :
  name ∈ flag_names → key_typed k vs → key_typed k (<[name := REG_SZ EmptyString]> vs).
Proof. intros Hn. apply key_typed_insert. simpl. auto. Qed.

(** The values of main.go:31-52. *)
Lemma attributes_typed k c manifestDir vs :
  key_typed k vs → key_typed k (attributes c manifestDir vs).
Proof.
  intros Hvs. unfold attributes.
  assert (key_typed k (<["MUIVerb" := REG_SZ (Title c)]> vs)) as H1.
  { apply key_typed_insert; [by left|done]. }
  assert (key_typed k (if decide (Icon c manifestDir ≠ EmptyString)
                       then <["Icon" := REG_SZ (Icon c manifestDir)]>
                              (<["MUIVerb" := REG_SZ (Title c)]> vs)
                       else <["MUIVerb" := REG_SZ (Title c)]> vs)) as H2.
  { case_decide; [|done]. apply key_typed_insert; [|done]. simpl. auto. }
  destruct (Extended c), (Admin c);
    repeat (apply key_typed_flag; [by_compute|]); done.
Qed.

(** The default value of main.go:78. *)
Lemma command_typed t cmd : key_typed (t ++ ["command"]) {[EmptyString := REG_EXPAND_SZ cmd]}.
Proof. apply map_Forall_singleton. split; [done|]. by rewrite last_snoc. Qed.

End values.

(** ** Stores *)

Section stores.
Context (D : keypath → Prop).
Implicit Types (k t : keypath) (vs : values) (ks : gmap keypath values).

Lemma typed_in_insert k vs ks :
  key_typed k vs → typed_in D ks → typed_in D (<[k := vs]> ks).
Proof.
  intros Hvs Hks q vs' Hq. destruct (decide (q = k)) as [->|Hne].
  - rewrite lookup_insert_eq. by intros [= <-].
  - rewrite lookup_insert_ne by done. by apply Hks.
Qed.

(** Erasing a subtree and creating its key adds keys without values only. *)
Lemma typed_in_refreshed t ks : typed_in D ks → typed_in D (refreshed t ks).
Proof.
  intros Hks q vs Hq. rewrite lookup_refreshed.
  destruct (decide (t `prefix_of` q)), (decide (q = t)), (ks !! q) as [v|] eqn:E,
    (decide (q `prefix_of` t)); try done;
    intros [= <-]; by eauto using key_typed_empty.
Qed.

End stores.

(** At and below the erased key there is the new key alone. *)
Lemma refreshed_typed_below t ks : typed_in (prefix t) (refreshed t ks).
Proof.
  intros q vs Hq. rewrite lookup_refreshed, decide_True by done.
  case_decide; [intros [= <-]; apply key_typed_empty|done].
Qed.

Lemma typed_in_mono (D D' : keypath → Prop) ks :
  (∀ k, D' k → D k) → typed_in D ks → typed_in D' ks.
Proof. intros HD H k vs Hk. apply H. by apply HD. Qed.

(** ** The specification keeps the schema *)

Section spec.
Context (helper manifestDir : string).
Implicit Types (D : keypath → Prop) (t : keypath) (c : ContextMenu).
Implicit Types (ks : gmap keypath values) (items : list (string * option ContextMenu)).

Local Abbreviation installed := (installed helper manifestDir).
Local Abbreviation installed_entries := (installed_entries helper manifestDir).

(** The key of an entry and, for an item, its command key. *)
Lemma item_keys_typed D t c ks :
  typed_in D ks →
  typed_in D (<[t ++ ["command"]
                := {[EmptyString := REG_EXPAND_SZ (command_string helper manifestDir c)]}]>
                (<[t := attributes c manifestDir ∅]> ks)).
Proof.
  intros H. apply typed_in_insert; [apply command_typed|].
  apply typed_in_insert; [apply attributes_typed, key_typed_empty|done].
Qed.

(** The key of a folder and its [shell] key. *)
Lemma folder_keys_typed D t c ks :
  typed_in D ks →
  typed_in D (<[t ++ ["shell"] := ∅]>
                (<[t := <["SubCommands" := REG_SZ EmptyString]> (attributes c manifestDir ∅)]>
                   ks)).
Proof.
  intros H. apply typed_in_insert; [apply key_typed_empty|].
  apply typed_in_insert; [|done].
  apply key_typed_flag; [by_compute|apply attributes_typed, key_typed_empty].
Qed.

Lemma installed_entries_typed_in D t items ks :
  (∀ id c, (id, Some c) ∈ items →
     ∀ t ks, typed_in D ks → typed_in D (installed t c ks)) →
  typed_in D ks → typed_in D (installed_entries t items ks).
Proof.
  revert ks. induction items as [|[id [c|]] items IH]; intros ks Hc Hks; [done|..].
  - rewrite installed_entries_cons. apply IH; [intros; eapply Hc; [by right|done]|].
    eapply Hc; [by left|done].
  - apply IH; [|done]. intros; eapply Hc; [by right|done].
Qed.

(** Installing an entry keeps the schema wherever it held. *)
Lemma installed_typed_in D c : ∀ t ks,
  typed_in D ks → typed_in D (installed t c ks).
Proof.
  induction c as [c IH] using ContextMenu_tree_ind. intros t ks Hks.
  destruct (decide (Type_ c = ContextMenuType_Folder)) as [Hf|Hf].
  - rewrite installed_folder by done. apply installed_entries_typed_in; [exact IH|].
    by apply folder_keys_typed, typed_in_refreshed.
  - rewrite installed_item by done. by apply item_keys_typed, typed_in_refreshed.
Qed.

(** An installed entry fits the schema at every key of its subtree, whatever
    was there before. *)
Lemma installed_typed_below t c ks : typed_in (prefix t) (installed t c ks).
Proof.
  destruct (decide (Type_ c = ContextMenuType_Folder)) as [Hf|Hf].
  - rewrite installed_folder by done.
    apply installed_entries_typed_in; [intros; by apply installed_typed_in|].
    apply folder_keys_typed, refreshed_typed_below.
  - rewrite installed_item by done. apply item_keys_typed, refreshed_typed_below.
Qed.

Lemma installed_entries_typed_below t items ks id c :
  (id, Some c) ∈ items →
  typed_in (prefix (t ++ [id])) (installed_entries t items ks).
Proof.
  intros (l1 & l2 & ->)%list_elem_of_split. rewrite installed_entries_app.
  rewrite installed_entries_cons.
  apply installed_entries_typed_in; [intros; by apply installed_typed_in|].
  apply installed_typed_below.
Qed.

End spec.

(** ** The theorems *)

(** C15.  Typing of the installed menu.  After an installation that
    succeeds, every key at or below the key of an entry of the manifest fits
    the schema, whatever the keys held before: its title, icon and flags are
    plain strings under the names the shell reads, an icon is never empty, a
    flag is the empty string, and an expandable string is the default value
    of a [command] key and nothing else. *)
Theorem install_typed env manifestDir helper manifest w :
  reg_wf (registry w) → entries_wf (manifest_Items manifest) →
  unrefused shell_path (registry w) →
  (∀ id c, (id, Some c) ∈ manifest_Items manifest → elevated c = true →
           helper_found env helper (_nircmdPath w)) →
  ∃ w', install env manifest manifestDir w = Ok tt w'
        ∧ ∀ id c, (id, Some c) ∈ manifest_Items manifest →
                  typed_in (prefix (shell_path ++ [id])) (keys (registry w')).
Proof.
  intros Hwf Hm Hu Hh.
  destruct (install_Ok env manifestDir helper (_nircmdPath w) manifest w)
    as (w' & Hrun & [Hk _ _ _]); [done..|by left|done|].
  exists w'. split; [done|]. intros id c Hin. rewrite Hk.
  by eapply installed_entries_typed_below.
Qed.

(** C27.  Preservation of typing.  An installation that succeeds keeps the
    schema on every set of keys on which it held: what it adds fits the
    schema, and what it leaves it does not change. *)
Theorem install_preserves_typed env manifestDir helper manifest w (D : keypath → Prop) :
  reg_wf (registry w) → entries_wf (manifest_Items manifest) →
  unrefused shell_path (registry w) →
  (∀ id c, (id, Some c) ∈ manifest_Items manifest → elevated c = true →
           helper_found env helper (_nircmdPath w)) →
  typed_in D (keys (registry w)) →
  ∃ w', install env manifest manifestDir w = Ok tt w'
        ∧ typed_in D (keys (registry w')).
Proof.
  intros Hwf Hm Hu Hh HD.
  destruct (install_Ok env manifestDir helper (_nircmdPath w) manifest w)
    as (w' & Hrun & [Hk _ _ _]); [done..|by left|done|].
  exists w'. split; [done|]. rewrite Hk.
  apply installed_entries_typed_in; [intros; by apply installed_typed_in|done].
Qed.

Lemma sample_store_typed : typed_in (λ _, True) (keys sample_store).
Proof.
  assert (map_Forall key_typed (keys sample_store)) as H by by_compute.
  intros k vs _ Hk. by apply (map_Forall_lookup_1 _ _ _ _ H).
Qed.

Lemma install_typed_witness :
  ∃ w', install sample_env sample_manifest "C:\menu" sample_world = Ok tt w'
        ∧ ∀ id c, (id, Some c) ∈ manifest_Items sample_manifest →
                  typed_in (prefix (shell_path ++ [id])) (keys (registry w')).
Proof.
  apply (install_typed sample_env "C:\menu" sample_helper);
    [apply sample_store_wf|done|by_compute|intros; apply sample_helper_found].
Defined.

Lemma install_preserves_typed_witness :
  ∃ w', install sample_env sample_manifest "C:\menu" sample_world = Ok tt w'
        ∧ typed_in (λ _, True) (keys (registry w')).
Proof.
  apply (install_preserves_typed sample_env "C:\menu" sample_helper);
    [apply sample_store_wf|done|by_compute|intros; apply sample_helper_found
    |apply sample_store_typed].
Defined.
