(* ===== verification/Shape.v ===== *)
(** * The keys of the installed menu

    [menu_keys] is the set of keys an entry has in the registry: its own
    key, the [command] key of an item, the [shell] key of a folder and the
    keys of the children below it.  The theorems show that, below the key of
    an entry of the manifest, a successful installation leaves these keys
    and no others: [deleteRegKeyRecursive] removed whatever an older
    manifest had left there, and the entries visited later wrote nothing
    into the subtree of their sibling.  Below an identifier the manifest
    does not have at the top level nothing is changed at all: an entry that
    was taken out of the manifest stays in the menu. *)

From stdpp Require Import gmap strings list.
From S2P Require Import Prelude GoStrings GoErrors Registry Eraser.
From S2P Require Import Manifest Locator Projector Sync Render Siblings.

(** ** The keys of an entry *)

(** The keys of the entry [c] installed at [t]. *)
Fixpoint menu_keys (t : keypath) (c : ContextMenu) : gset keypath :=
  if decide (Type_ c = ContextMenuType_Folder) then
    {[t; t ++ ["shell"]]}
    ∪ ⋃ ((λ e, match e.2 with
               | Some c' => menu_keys (t ++ ["shell"; e.1]) c'
               | None => ∅
               end) <$> Items c)
  else {[t; t ++ ["command"]]}.

(** The keys of the entries of a map below [tp]. *)
Definition entries_keys (tp : keypath) (items : list (string * option ContextMenu))
    : gset keypath :=
  ⋃ ((λ e, match e.2 with
           | Some c' => menu_keys (tp ++ [e.1]) c'
           | None => ∅
           end) <$> items).

Section keys.
Context (helper manifestDir : string).
Implicit Types (t tp q : keypath) (c : ContextMenu) (ks acc : gmap keypath values).
Implicit Types (items : list (string * option ContextMenu)).

Local Abbreviation installed := (installed helper manifestDir).
Local Abbreviation installed_entries := (installed_entries helper manifestDir).

Lemma menu_keys_item t c :
  Type_ c ≠ ContextMenuType_Folder → menu_keys t c = {[t; t ++ ["command"]]}.
Proof. intros H. destruct c. simpl in *. by rewrite decide_False. Qed.

Lemma menu_keys_folder t c :
  Type_ c = ContextMenuType_Folder →
  menu_keys t c = {[t; t ++ ["shell"]]} ∪ entries_keys (t ++ ["shell"]) (Items c).
Proof.
  intros H. destruct c as [? ? ? ? ? ? ? items]. simpl in *. rewrite decide_True by done.
  f_equal. unfold entries_keys. f_equal. apply list_fmap_ext. intros i [id [c'|]] _; [|done].
  simpl. by rewrite <-app_assoc.
Qed.

Lemma elem_of_entries_keys tp items q :
  q ∈ entries_keys tp items ↔ ∃ id c, (id, Some c) ∈ items ∧ q ∈ menu_keys (tp ++ [id]) c.
Proof.
  unfold entries_keys. rewrite elem_of_union_list. split.
  - intros (X & ([id [c|]] & -> & Hin)%list_elem_of_fmap & Hq); [by eauto|].
    by apply elem_of_empty in Hq.
  - intros (id & c & Hin & Hq). eexists. split; [|exact Hq].
    apply list_elem_of_fmap. by exists (id, Some c).
Qed.

(** The keys of an entry are at or below its key. *)
Lemma menu_keys_below c : ∀ t q, q ∈ menu_keys t c → t `prefix_of` q.
Proof.
  induction c as [c IH] using ContextMenu_tree_ind. intros t q.
  destruct (decide (Type_ c = ContextMenuType_Folder)) as [Hf|Hf].
  - rewrite menu_keys_folder by done.
    intros [[->%elem_of_singleton| ->%elem_of_singleton]%elem_of_union|Hq]%elem_of_union;
      [done|by apply prefix_app_r|].
    apply elem_of_entries_keys in Hq as (id & c' & Hin & Hq). apply (IH id c' Hin) in Hq.
    rewrite <-app_assoc in Hq. etrans; [|exact Hq]. by apply prefix_app_r.
  - rewrite menu_keys_item by done.
    intros [->%elem_of_singleton| ->%elem_of_singleton]%elem_of_union;
      [done|by apply prefix_app_r].
Qed.

(** The keys of siblings with distinct identifiers are apart. *)
Lemma siblings_apart tp (id1 id2 : string) q :
  tp ++ [id1] `prefix_of` q → tp ++ [id2] `prefix_of` q → id1 = id2.
Proof.
  intros [k1 ->] [k2 Hk]. rewrite <-!app_assoc in Hk. by apply app_inv_head in Hk as [= <- _].
Qed.

(** Below the key of an entry, the keys of a map are those of the entry. *)
Lemma entries_keys_at tp items id c q :
  NoDup items.*1 → (id, Some c) ∈ items → tp ++ [id] `prefix_of` q →
  q ∈ entries_keys tp items ↔ q ∈ menu_keys (tp ++ [id]) c.
Proof.
  intros Hnd Hin Hq. rewrite elem_of_entries_keys. split; [|by eauto].
  intros (id' & c' & Hin' & Hq').
  assert (id' = id) as -> by (eapply siblings_apart; [by eapply menu_keys_below|done]).
  by rewrite (inj Some _ _ (NoDup_fst_unique _ _ _ _ Hnd Hin Hin')).
Qed.

Lemma entries_keys_outside tp items q :
  (∀ id c, (id, Some c) ∈ items → ¬ tp ++ [id] `prefix_of` q) → q ∉ entries_keys tp items.
Proof.
  intros H (id & c & Hin & Hq%menu_keys_below)%elem_of_entries_keys. by apply (H id c).
Qed.

(** A path is below the key of an entry of a map, or of none. *)
Lemma entries_cases tp items q :
  (∃ id c, (id, Some c) ∈ items ∧ tp ++ [id] `prefix_of` q)
  ∨ (∀ id c, (id, Some c) ∈ items → ¬ tp ++ [id] `prefix_of` q).
Proof.
  destruct (decide (Exists (λ e, is_Some e.2 ∧ tp ++ [e.1] `prefix_of` q) items))
    as [([id o] & Hin & [c Ho] & Hq)%Exists_exists|Hn]; simpl in *; subst.
  - left. by eauto.
  - right. intros id c Hin Hq. apply Hn, Exists_exists. by exists (id, Some c).
Qed.

(** ** The keys after an installation *)

(** Another entry of the map leaves what is below the key of [id]. *)
Lemma installed_beside tp id id' c acc q :
  id ≠ id' → tp ++ [id] `prefix_of` q →
  installed (tp ++ [id']) c acc !! q = acc !! q.
Proof.
  intros Hne Hq. rewrite installed_framed by (intros Hq'; by eapply Hne, siblings_apart).
  rewrite lookup_refreshed, decide_False by (intros Hq'; by eapply Hne, siblings_apart).
  destruct (acc !! q); [done|]. rewrite decide_False; [done|].
  intros Hq'. eapply sibling_not_prefix; [done|by etrans].
Qed.

Lemma installed_entries_beside tp items id q :
  id ∉ items.*1 → tp ++ [id] `prefix_of` q →
  ∀ acc, installed_entries tp items acc !! q = acc !! q.
Proof.
  intros Hid Hq. induction items as [|[id' [c|]] items IH]; intros acc; [done|..];
    apply not_elem_of_cons in Hid as [Hne Hid]; [|by apply IH].
  rewrite installed_entries_cons, IH by done. by apply (installed_beside _ id).
Qed.

(** Below the key of an entry, the store after the loop is what the entry
    alone yields. *)
Lemma installed_entries_below tp items id c acc q :
  NoDup items.*1 → (id, Some c) ∈ items → tp ++ [id] `prefix_of` q →
  installed_entries tp items acc !! q = installed (tp ++ [id]) c ∅ !! q.
Proof.
  intros Hnd (l1 & l2 & ->)%list_elem_of_split Hq.
  rewrite fmap_app, fmap_cons in Hnd.
  apply NoDup_app in Hnd as (_ & _ & [Hid _]%NoDup_cons).
  rewrite installed_entries_app, installed_entries_cons, (installed_entries_beside _ _ id)
    by done.
  by apply installed_inside.
Qed.

(** At and below [t], the keys of the store are those of the entry. *)
Definition shaped (c : ContextMenu) : Prop :=
  ∀ t ks q, t `prefix_of` q → is_Some (installed t c ks !! q) ↔ q ∈ menu_keys t c.

(** The keys after the loop: those of the entries, and those there were
    beside them. *)
Lemma installed_entries_shape tp items acc q :
  NoDup items.*1 → (∀ id c, (id, Some c) ∈ items → shaped c) →
  (∀ p, p `prefix_of` tp → is_Some (acc !! p)) →
  is_Some (installed_entries tp items acc !! q)
  ↔ q ∈ entries_keys tp items
    ∨ is_Some (acc !! q) ∧ ∀ id c, (id, Some c) ∈ items → ¬ tp ++ [id] `prefix_of` q.
Proof.
  intros Hnd Hsh Hup. destruct (entries_cases tp items q) as [(id & c & Hin & Hq)|Hout].
  - rewrite (installed_entries_below _ _ id c), (Hsh id c Hin _ ∅ q Hq),
      (entries_keys_at _ _ id c) by done.
    split; [by left|]. intros [?|[_ Hout]]; [done|]. by destruct (Hout id c).
  - rewrite installed_entries_outside by (done || intros; apply installed_framed).
    split; [by right|]. intros [Hq|[? _]]; [|done]. by apply entries_keys_outside in Hq.
Qed.

(** The key of an entry and one subkey, in place of what was at and below
    the key. *)
Lemma entry_keys_shape t sub vs vs' ks q :
  t `prefix_of` q →
  is_Some (<[t ++ [sub] := vs']> (<[t := vs]> (refreshed t ks)) !! q)
  ↔ q = t ∨ q = t ++ [sub].
Proof.
  intros Hq. destruct (decide (q = t ++ [sub])) as [->|Hs].
  { rewrite lookup_insert_eq. split; [by right|done]. }
  rewrite lookup_insert_ne by done. destruct (decide (q = t)) as [->|Ht].
  { rewrite lookup_insert_eq. split; [by left|done]. }
  rewrite lookup_insert_ne, lookup_refreshed, decide_True, decide_False by done.
  split; [by intros [? ?]|by intros [?|?]].
Qed.

Lemma folder_keys_up t vs ks p :
  p `prefix_of` t ++ ["shell"] →
  is_Some (<[t ++ ["shell"] := ∅]> (<[t := vs]> (refreshed t ks)) !! p).
Proof.
  intros Hp. destruct (decide (p = t ++ ["shell"])) as [->|]; [by rewrite lookup_insert_eq|].
  rewrite lookup_insert_ne by done. apply refreshed_up.
  by apply prefix_snoc_inv in Hp as [?|?].
Qed.

Lemma installed_shaped c : menu_wf c → shaped c.
Proof.
  induction c as [c IH] using ContextMenu_tree_ind. intros Hwf t ks q Hq.
  destruct (decide (Type_ c = ContextMenuType_Folder)) as [Hf|Hf].
  - rewrite installed_folder, menu_keys_folder by done.
    rewrite installed_entries_shape; [| | |apply folder_keys_up].
    + rewrite entry_keys_shape, !elem_of_union, !elem_of_singleton by done. split.
      * intros [?|[? _]]; [by right|by left].
      * intros [Hq'|?]; [|by left]. right. split; [done|]. intros id c' _ Hpre.
        apply prefix_length in Hpre. rewrite !length_app in Hpre.
        destruct Hq' as [->| ->]; rewrite ?length_app in Hpre; simpl in Hpre; lia.
    + apply entries_wf_NoDup. unfold entries_wf. by rewrite <-menu_wfb_unfold.
    + intros id c' Hin. apply (IH id c' Hin).
      by destruct (menu_wf_children c id (Some c') Hwf Hin) as [_ (? & [= <-] & ?)].
  - rewrite installed_item, menu_keys_item, elem_of_union, !elem_of_singleton by done.
    by apply entry_keys_shape.
Qed.

(** ** Beside the entries *)

(** A path that is at or below the key of no entry is as it was, or is a
    key on the way to the entries that the first creation made. *)
Lemma installed_entries_frame tp items q :
  (∀ id, (id, None) ∉ items) →
  (∀ id c, (id, Some c) ∈ items → ¬ tp ++ [id] `prefix_of` q) →
  ∀ acc, installed_entries tp items acc !! q
         = match acc !! q with
           | Some v => Some v
           | None => if decide (items ≠ [] ∧ q `prefix_of` tp) then Some ∅ else None
           end.
Proof.
  induction items as [|[id [c|]] items IH]; intros Hnil Hq acc.
  - rewrite decide_False by (by intros [[] _]). simpl. by destruct (acc !! q).
  - rewrite installed_entries_cons, IH.
    2: intros id' Hin; apply (Hnil id'); by right.
    2: intros id' c' Hin; apply (Hq id' c'); by right.
    assert (¬ tp ++ [id] `prefix_of` q) as Hid by (apply (Hq id c); by left).
    rewrite installed_framed, lookup_refreshed, decide_False by done.
    destruct (acc !! q); [done|].
    destruct (decide (q `prefix_of` tp)) as [Hup|Hup].
    + rewrite (decide_True (P := q `prefix_of` tp ++ [id]))
        by (by etrans; [|apply prefix_app_r]).
      by rewrite decide_True.
    + rewrite (decide_False (P := q `prefix_of` tp ++ [id])).
      2: { intros [?|Heq]%prefix_snoc_inv; [done|apply Hid; by rewrite Heq]. }
      by rewrite !decide_False by (by intros [_ ?]).
  - destruct (Hnil id). by left.
Qed.

End keys.

(** ** The theorem *)

(** C16.  The keys of the installed menu.  After an installation that
    succeeds, the keys at and below the key of an entry of the manifest are
    those of the entry and no others, whatever was there before: the key of
    the entry, the [command] key of an item, the [shell] key of a folder, and
    the keys of the children of a folder below it.  Keys of an older
    manifest that the new one does not name are gone from the subtree of
    every entry that is still named. *)
Theorem install_keys env manifestDir helper manifest w :
  reg_wf (registry w) → entries_wf (manifest_Items manifest) →
  unrefused shell_path (registry w) →
  (∀ id c, (id, Some c) ∈ manifest_Items manifest → elevated c = true →
           helper_found env helper (_nircmdPath w)) →
  ∃ w', install env manifest manifestDir w = Ok tt w'
        ∧ ∀ id c q, (id, Some c) ∈ manifest_Items manifest →
            shell_path ++ [id] `prefix_of` q →
            q ∈ dom (keys (registry w')) ↔ q ∈ menu_keys (shell_path ++ [id]) c.
Proof.
  intros Hwf Hm Hu Hh.
  destruct (install_Ok env manifestDir helper (_nircmdPath w) manifest w)
    as (w' & Hrun & [Hk _ _ _]); [done..|by left|done|].
  exists w'. split; [done|]. intros id c q Hin Hq.
  destruct (entries_wf_elem _ _ _ Hm Hin) as [_ (? & [= <-] & Hc)].
  rewrite elem_of_dom, Hk, (installed_entries_below _ _ _ _ id c)
    by auto using entries_wf_NoDup.
  by apply installed_shaped.
Qed.

(** What the manifest does not name.  An installation that succeeds
    leaves every key at or below the key of an identifier that is not in
    the manifest as it was, with its values: an entry that was removed from
    the top level of the manifest stays installed after the next run, and
    nothing in the program removes it. *)
Theorem install_leaves_unnamed env manifestDir helper manifest w id :
  reg_wf (registry w) → entries_wf (manifest_Items manifest) →
  unrefused shell_path (registry w) →
  (∀ id c, (id, Some c) ∈ manifest_Items manifest → elevated c = true →
           helper_found env helper (_nircmdPath w)) →
  id ∉ (manifest_Items manifest).*1 →
  ∃ w', install env manifest manifestDir w = Ok tt w'
        ∧ ∀ q, shell_path ++ [id] `prefix_of` q →
               keys (registry w') !! q = keys (registry w) !! q.
Proof.
  intros Hwf Hm Hu Hh Hid.
  destruct (install_Ok env manifestDir helper (_nircmdPath w) manifest w)
    as (w' & Hrun & [Hk _ _ _]); [done..|by left|done|].
  exists w'. split; [done|]. intros q Hq. rewrite Hk.
  by apply (installed_entries_beside _ _ _ _ id).
Qed.

(** C25.  What an installation leaves alone.  After an installation that
    succeeds, a path that is at or below the key of no entry of the manifest
    is as it was before, with its values, whether it holds a key or not:
    the rest of the registry, the siblings of the menu and the entries the
    manifest does not name.  The one exception are the keys on the way to
    the menu that were missing: a manifest with an entry creates them,
    without values. *)
Theorem install_frame env manifestDir helper manifest w :
  reg_wf (registry w) → entries_wf (manifest_Items manifest) →
  unrefused shell_path (registry w) →
  (∀ id c, (id, Some c) ∈ manifest_Items manifest → elevated c = true →
           helper_found env helper (_nircmdPath w)) →
  ∃ w', install env manifest manifestDir w = Ok tt w'
        ∧ ∀ q, (∀ id, id ∈ (manifest_Items manifest).*1 → ¬ shell_path ++ [id] `prefix_of` q) →
            keys (registry w') !! q
            = match keys (registry w) !! q with
              | Some v => Some v
              | None => if decide (manifest_Items manifest ≠ [] ∧ q `prefix_of` shell_path)
                        then Some ∅ else None
              end.
Proof.
  intros Hwf Hm Hu Hh.
  destruct (install_Ok env manifestDir helper (_nircmdPath w) manifest w)
    as (w' & Hrun & [Hk _ _ _]); [done..|by left|done|].
  exists w'. split; [done|]. intros q Hq. rewrite Hk.
  apply installed_entries_frame; [intros id; by apply entries_wf_no_nil|].
  intros id c Hin. apply Hq, list_elem_of_fmap. by exists (id, Some c).
Qed.

(** A store in which an older manifest left a folder at the key of the
    entry [open], which the sample manifest makes an item. *)
Definition sample_stale : World :=
  mkWorld
    (mkRegistry
       (<[shell_path ++ ["open"; "shell"; "old"] := {["MUIVerb" := REG_SZ "Old"]}]>
          (<[shell_path ++ ["open"; "shell"] := ∅]> (keys sample_store)))
       ∅ ∅ 0)
    EmptyString.

Example sample_stale_key :
  shell_path ++ ["open"; "shell"; "old"] ∈ dom (keys (registry sample_stale))
  ∧ shell_path ++ ["open"; "shell"; "old"] ∉ menu_keys (shell_path ++ ["open"]) sample_item.
Proof. split; by_compute. Qed.

Lemma install_keys_witness :
  ∃ w', install sample_env sample_manifest "C:\menu" sample_stale = Ok tt w'
        ∧ ∀ id c q, (id, Some c) ∈ manifest_Items sample_manifest →
            shell_path ++ [id] `prefix_of` q →
            q ∈ dom (keys (registry w')) ↔ q ∈ menu_keys (shell_path ++ [id]) c.
Proof.
  apply (install_keys sample_env "C:\menu" sample_helper);
    [by_compute|done|by_compute|intros; apply sample_helper_found].
Defined.

(** The manifest without the entry [open], which the sample store has. *)
Definition sample_manifest_less : Manifest :=
  mkManifest [("tools", Some sample_folder); ("last", Some sample_item)].

Lemma install_leaves_unnamed_witness :
  ∃ w', install sample_env sample_manifest_less "C:\menu" sample_world = Ok tt w'
        ∧ ∀ q, shell_path ++ ["open"] `prefix_of` q →
               keys (registry w') !! q = keys (registry sample_world) !! q.
Proof.
  apply (install_leaves_unnamed sample_env "C:\menu" sample_helper);
    [apply sample_store_wf|done|by_compute|intros; apply sample_helper_found|by_compute].
Defined.

(** A store without the menu key and its parents. *)
Definition sample_bare : World := mkWorld empty_registry EmptyString.

Lemma install_frame_witness :
  ∃ w', install sample_env sample_manifest "C:\menu" sample_bare = Ok tt w'
        ∧ ∀ q, (∀ id, id ∈ (manifest_Items sample_manifest).*1 →
                       ¬ shell_path ++ [id] `prefix_of` q) →
            keys (registry w') !! q
            = match keys (registry sample_bare) !! q with
              | Some v => Some v
              | None => if decide (manifest_Items sample_manifest ≠ [] ∧ q `prefix_of` shell_path)
                        then Some ∅ else None
              end.
Proof.
  apply (install_frame sample_env "C:\menu" sample_helper);
    [by_compute|done|by_compute|intros; apply sample_helper_found].
Defined.
