(* ===== verification/Run.v ===== *)
(** * The entry point: [run] and [main]

    [run] (main.go:86-111) finds the manifest, reads and decodes it and
    installs its entries; [main] (main.go:179-183) ends the process with
    [log.Fatal] when [run] returns an error.  The contents of files and the
    JSON decoder are a parameter, [Host].  The theorems show that the steps
    before the installation leave the store alone, that the process always
    comes to an end with an exit status, and what the store holds when that
    status is zero, for any host and for the host that decodes with
    [Unmarshal]. *)

From stdpp Require Import gmap strings list.
From S2P Require Import Prelude GoStrings GoErrors Registry Eraser.
From S2P Require Import Manifest Decode Locator Projector Sync Render Siblings.

(** ** The host *)

(** What [run] asks of the host beyond [Env]: the contents of a file
    ([os.ReadFile]) and the decoding of a document into a [Manifest]
    ([json.Unmarshal] at the type of main.go:203-205). *)
Record Host := mkHost {
  os_ReadFile : string → error + string;
  json_Unmarshal : string → error + Manifest;
}.

(** A host that decodes with [Unmarshal] the document its parser reads off
    the file. *)
Definition json_host (read : string → error + string) (parse : string → error + json)
    : Host :=
  mkHost read (λ data, and_then (parse data) Unmarshal).

(** ** run and main *)

(** main.go:86-111 *)
Definition run (env : Env) (host : Host) : M World unit :=
  manifestPath <- of_result (findManifest env) ;;
  let manifestDir := filepath_Dir manifestPath in
  manifestData <- wrap (Errorf "failed to read manifest.json: %w" [])
                    (of_result (os_ReadFile host manifestPath)) ;;
  manifest <- wrap (Errorf "failed to parse manifest.json: %w" [])
                (of_result (json_Unmarshal host manifestData)) ;;
  install env manifest manifestDir.

(** main.go:179-183 *)
Definition main (env : Env) (host : Host) : M World unit :=
  r <- try (run env host) ;;
  match r with
  | inl err => fatal err
  | inr _ => ret tt
  end.

(** The exit status of the process: 0 when [main] returns, 1 after
    [log.Fatal], 2 after a panic. *)
Definition exit_status {S A} (o : Outcome S A) : option nat :=
  match o with
  | Ok _ _ => Some 0
  | Crash (LogFatal _) _ => Some 1
  | Crash NilDeref _ => Some 2
  | Err _ _ | OutOfFuel => None
  end.

(** ** The reference for the steps before the installation *)

(** The manifest and its directory, or the error [run] returns before it
    touches the store. *)
Definition load (env : Env) (host : Host) : error + (Manifest * string) :=
  match findManifest env with
  | inl err => inl err
  | inr manifestPath =>
      match os_ReadFile host manifestPath with
      | inl err => inl (Errorf "failed to read manifest.json: %w" [] err)
      | inr manifestData =>
          match json_Unmarshal host manifestData with
          | inl err => inl (Errorf "failed to parse manifest.json: %w" [] err)
          | inr manifest => inr (manifest, filepath_Dir manifestPath)
          end
      end
  end.

(** What [run] does after [load]. *)
Definition run_loaded (env : Env) (l : error + (Manifest * string)) : M World unit :=
  match l with
  | inl err => throw err
  | inr (manifest, manifestDir) => install env manifest manifestDir
  end.

Section run.
Context (env : Env) (host : Host).
Implicit Types (w : World) (e : error) (manifest : Manifest).

Lemma run_run_loaded w : run env host w = run_loaded env (load env host) w.
Proof.
  unfold run, load, bind, wrap, of_result. destruct (findManifest env) as [e|p]; [done|].
  simpl. destruct (os_ReadFile host p) as [e|data]; [done|].
  simpl. by destruct (json_Unmarshal host data) as [e|m].
Qed.

Lemma main_unfold w :
  main env host w = match run env host w with
                    | Ok _ w' => Ok tt w'
                    | Err e w' => Crash (LogFatal e) w'
                    | Crash c w' => Crash c w'
                    | OutOfFuel => OutOfFuel
                    end.
Proof. unfold main, bind, try. by destruct (run env host w). Qed.

(** [main] turns the postcondition of [run] for errors into one of the end
    of the process. *)
Lemma post_main w (Q : unit → World → Prop) E (C : crash → World → Prop) :
  post (run env host w) Q (λ e, C (LogFatal e)) C → post (main env host w) Q E C.
Proof. rewrite main_unfold. destruct (run env host w) as [[] ?| | |]; done. Qed.

(** Why and in which state [run] can end the process. *)
Definition run_ends (r0 : Registry) (cr : crash) (w : World) : Prop :=
  match load env host with
  | inr (manifest, _) =>
      ends r0 (entries_has_nil (manifest_Items manifest))
              (entries_elevated (manifest_Items manifest)) cr w
  | inl _ => False
  end.

Lemma run_kept r0 w :
  kept r0 w → post (run env host w) (λ _, kept r0) (λ _, kept r0) (run_ends r0).
Proof.
  intros Hw. rewrite run_run_loaded. unfold run_ends.
  destruct (load env host) as [e|[manifest manifestDir]]; [done|].
  by apply install_kept.
Qed.

(** The steps before the installation fail: the error is returned and the
    state is as it was. *)
Lemma run_load_inl w e :
  load env host = inl e →
  run env host w = Err e w ∧ main env host w = Crash (LogFatal e) w.
Proof. intros H. by rewrite main_unfold, run_run_loaded, H. Qed.

(** The steps before the installation succeed: [run] is the loop over the
    manifest, with the directory the manifest was found in. *)
Lemma run_load_inr w manifest manifestDir :
  load env host = inr (manifest, manifestDir) →
  run env host w = install env manifest manifestDir w.
Proof. intros H. by rewrite run_run_loaded, H. Qed.

Lemma load_inr manifest manifestDir :
  load env host = inr (manifest, manifestDir) →
  ∃ p data, findManifest env = inr p ∧ os_ReadFile host p = inr data
            ∧ json_Unmarshal host data = inr manifest ∧ manifestDir = filepath_Dir p.
Proof.
  unfold load. destruct (findManifest env) as [|p]; [done|].
  destruct (os_ReadFile host p) as [|data] eqn:?; [done|].
  destruct (json_Unmarshal host data) eqn:?; [done|]. intros [= <- <-]. eauto 6.
Qed.

Lemma load_decoded p data manifest :
  findManifest env = inr p → os_ReadFile host p = inr data →
  json_Unmarshal host data = inr manifest →
  load env host = inr (manifest, filepath_Dir p).
Proof. intros H1 H2 H3. unfold load. by rewrite H1, H2, H3. Qed.

(** The error of [load] says which step failed. *)
Lemma load_inl e :
  load env host = inl e →
  (findManifest env = inl e ∧ root_cause e = ErrNotExist)
  ∨ (∃ p e', findManifest env = inr p ∧ os_ReadFile host p = inl e'
             ∧ e = Errorf "failed to read manifest.json: %w" [] e')
  ∨ (∃ p data e', findManifest env = inr p ∧ os_ReadFile host p = inr data
                  ∧ json_Unmarshal host data = inl e'
                  ∧ e = Errorf "failed to parse manifest.json: %w" [] e').
Proof.
  unfold load. destruct (findManifest env) as [e0|p] eqn:Hf.
  { intros [= <-]. left. split; [done|]. exact (findManifest_not_found_cause env _ Hf). }
  destruct (os_ReadFile host p) as [e1|data] eqn:?; [intros [= <-]; eauto 8|].
  destruct (json_Unmarshal host data) as [e2|] eqn:?; [intros [= <-]|done].
  do 2 right. eauto 8.
Qed.

(** [main] on every path: it returns or ends the process, in a state of the
    frame. *)
Lemma main_kept r0 w :
  kept r0 w → post (main env host w) (λ _, kept r0) (λ _ _, False) (λ _, kept r0).
Proof.
  intros Hw. apply post_main. eapply post_mono; [by apply run_kept|done..|].
  intros cr w'. unfold run_ends. destruct (load env host) as [|[? ?]]; [done|].
  by intros [? _].
Qed.

Lemma exit_status_post {A} (o : Outcome World A) Q C :
  post o Q (λ _ _, False) C → ∃ n, exit_status o = Some n.
Proof. destruct o as [| |[|]|]; simpl; eauto; done. Qed.

Lemma exit_status_main w :
  exit_status (main env host w) = Some 0 ↔ ∃ w', run env host w = Ok tt w'.
Proof.
  rewrite main_unfold. destruct (run env host w) as [[] w1|e w1|[|] w1|]; simpl;
    split; try done; eauto; by intros [? ?].
Qed.

(** A nil entry that is visited first ends the process. *)
Lemma install_nil_first manifestDir id rest w :
  reg_wf (registry w) →
  erasable (split_path (keyPath_of EmptyString id)) (registry w) →
  (ACreate, split_path (keyPath_of EmptyString id)) ∉ refused (registry w) →
  ∃ w', install env (mkManifest ((id, None) :: rest)) manifestDir w = Crash NilDeref w'
        ∧ keys (registry w')
          = refreshed (split_path (keyPath_of EmptyString id)) (keys (registry w))
        ∧ _nircmdPath w' = _nircmdPath w.
Proof.
  intros Hwf He Hc.
  destruct (nil_entry_Crash env EmptyString id manifestDir w) as (w' & Hrun & ?); [done..|].
  exists w'. split; [|done]. unfold install, create_entries.
  apply (for_each_Crash _ [] (id, None) rest w w); [done|]. by apply wrap_Crash.
Qed.

End run.

(** ** The theorems *)

(** C12.  Safety of the program.  In any environment, with any file contents
    and any decoder, [main] on a store that satisfies the invariant comes to
    an end: it returns or it ends the process, it never leaves an error
    unreported and never lacks fuel.  On each path the store satisfies the
    invariant, refuses what it refused and keeps every open handle open. *)
Theorem main_safe env host w :
  reg_wf (registry w) →
  post (main env host w)
    (λ _, kept (registry w)) (λ _ _, False) (λ _, kept (registry w)).
Proof. intros Hwf. by apply main_kept, sync_frame_refl. Qed.

(** C23.  Termination of the program.  Every run of [main] on a store that
    satisfies the invariant ends with an exit status, and the status is zero
    exactly when [run] returned without an error. *)
Theorem main_exits env host w :
  reg_wf (registry w) →
  ∃ n, exit_status (main env host w) = Some n
       ∧ (n = 0 ↔ ∃ w', run env host w = Ok tt w').
Proof.
  intros Hwf. destruct (exit_status_post (main env host w) _ _
    (main_kept env host _ w (sync_frame_refl _ Hwf))) as [n Hn].
  exists n. split; [done|]. rewrite <-exit_status_main, Hn. naive_solver.
Qed.

(** C24.  Errors before the installation.  When the manifest is not found,
    cannot be read or cannot be decoded, [run] returns the error and [main]
    ends the process with it, and the store and the cache are as they were.
    The error is [os.ErrNotExist] under the message of [findManifest], or
    the error of the read or of the decoder under the message of [run]. *)
Theorem run_undecoded env host w e :
  load env host = inl e →
  run env host w = Err e w ∧ main env host w = Crash (LogFatal e) w
  ∧ ((findManifest env = inl e ∧ root_cause e = ErrNotExist)
     ∨ (∃ p e', findManifest env = inr p ∧ os_ReadFile host p = inl e'
                ∧ e = Errorf "failed to read manifest.json: %w" [] e')
     ∨ (∃ p data e', findManifest env = inr p ∧ os_ReadFile host p = inr data
                     ∧ json_Unmarshal host data = inl e'
                     ∧ e = Errorf "failed to parse manifest.json: %w" [] e')).
Proof.
  intros H. destruct (run_load_inl env host w e H). eauto using load_inl.
Qed.

(** What [main] leaves when the manifest is found, read and decoded to a
    well-formed manifest. *)
Lemma main_Ok_installs env host helper p data manifest w :
  findManifest env = inr p → os_ReadFile host p = inr data →
  json_Unmarshal host data = inr manifest →
  reg_wf (registry w) → entries_wf (manifest_Items manifest) →
  unrefused shell_path (registry w) →
  (∀ id c, (id, Some c) ∈ manifest_Items manifest → elevated c = true →
           helper_found env helper (_nircmdPath w)) →
  ∃ w', main env host w = Ok tt w'
        ∧ installs (cache_inv env helper (_nircmdPath w))
            (installed_entries helper (filepath_Dir p) shell_path
               (manifest_Items manifest) (keys (registry w))) w w'.
Proof.
  intros H1 H2 H3 Hwf Hm Hu Hh.
  destruct (install_Ok env (filepath_Dir p) helper (_nircmdPath w) manifest w)
    as (w' & Hrun & Hi); [done..|by left|done|].
  exists w'. split; [|done].
  by rewrite main_unfold, (run_load_inr env host w manifest (filepath_Dir p)), Hrun
    by by apply load_decoded with data.
Qed.

(** C11.  Refinement, for the program.  When the manifest at [p] is found,
    read and decoded to a well-formed manifest, on a store that satisfies
    the invariant and refuses nothing at or below the shell key, with the
    helper found if an entry asks for elevation, [main] returns, and the
    keys of the store are those [installed_entries] computes with the
    directory of [p] for the placeholder. *)
Theorem main_installs env host helper p data manifest w :
  findManifest env = inr p → os_ReadFile host p = inr data →
  json_Unmarshal host data = inr manifest →
  reg_wf (registry w) → entries_wf (manifest_Items manifest) →
  unrefused shell_path (registry w) →
  (∀ id c, (id, Some c) ∈ manifest_Items manifest → elevated c = true →
           helper_found env helper (_nircmdPath w)) →
  ∃ w', main env host w = Ok tt w'
        ∧ installs (cache_inv env helper (_nircmdPath w))
            (installed_entries helper (filepath_Dir p) shell_path
               (manifest_Items manifest) (keys (registry w))) w w'.
Proof. apply main_Ok_installs. Qed.

(** C28.  From the document to the store.  With the decoder of the model for
    [json.Unmarshal], a manifest file whose document is decoded to a
    manifest in which every identifier is a key name and no entry is null
    is installed: [main] returns, and the keys of the store are those
    [installed_entries] computes.  That the identifiers of siblings are
    distinct is not asked for: the decoder keeps one entry for each
    identifier. *)
Theorem main_document_installs env read parse helper p data doc manifest w :
  findManifest env = inr p → read p = inr data → parse data = inr doc →
  Unmarshal doc = inr manifest → entries_named (manifest_Items manifest) = true →
  reg_wf (registry w) → unrefused shell_path (registry w) →
  (∀ id c, (id, Some c) ∈ manifest_Items manifest → elevated c = true →
           helper_found env helper (_nircmdPath w)) →
  ∃ w', main env (json_host read parse) w = Ok tt w'
        ∧ installs (cache_inv env helper (_nircmdPath w))
            (installed_entries helper (filepath_Dir p) shell_path
               (manifest_Items manifest) (keys (registry w))) w w'.
Proof.
  intros H1 H2 H3 H4 Hn Hwf Hu Hh.
  apply (main_Ok_installs env (json_host read parse) helper p data); try done.
  - simpl. by rewrite H3.
  - by eapply Unmarshal_wf.
Qed.

(** C32.  A null entry, from the document to the end of the process.  When
    the decoder returns a manifest whose entry visited first is nil, as it
    does for a document in which that entry is [null], [main] ends with a
    nil pointer dereference; the subtree that was at the key of the entry
    is erased and an empty key is in its place. *)
Theorem main_null_entry env host p data id rest w :
  findManifest env = inr p → os_ReadFile host p = inr data →
  json_Unmarshal host data = inr (mkManifest ((id, None) :: rest)) →
  reg_wf (registry w) →
  erasable (split_path (keyPath_of EmptyString id)) (registry w) →
  (ACreate, split_path (keyPath_of EmptyString id)) ∉ refused (registry w) →
  ∃ w', main env host w = Crash NilDeref w'
        ∧ exit_status (main env host w) = Some 2
        ∧ keys (registry w')
          = refreshed (split_path (keyPath_of EmptyString id)) (keys (registry w)).
Proof.
  intros H1 H2 H3 Hwf He Hc.
  destruct (install_nil_first env (filepath_Dir p) id rest w) as (w' & Hrun & Hk & _);
    [done..|].
  exists w'.
  rewrite main_unfold, (run_load_inr env host w _ (filepath_Dir p)), Hrun
    by by apply load_decoded with data.
  done.
Qed.

(** ** A concrete run *)

(** The document, by a name: the decoder of [sample_host] reads
    [sample_manifest] off it. *)
Definition sample_data : string := "manifest.json of C:\menu".

Definition sample_host : Host :=
  mkHost (λ p, if decide (p = "C:\menu\manifest.json") then inr sample_data
               else inl ErrNotExist)
         (λ data, if decide (data = sample_data) then inr sample_manifest
                  else inl (ErrOther "unexpected end of JSON input")).

(** A host whose decoder accepts nothing. *)
Definition broken_host : Host :=
  mkHost (os_ReadFile sample_host) (λ _, inl (ErrOther "unexpected end of JSON input")).

Lemma main_safe_witness :
  post (main sample_env sample_host sample_world)
    (λ _, kept (registry sample_world)) (λ _ _, False) (λ _, kept (registry sample_world)).
Proof. apply main_safe, sample_store_wf. Defined.

Lemma main_exits_witness :
  ∃ n, exit_status (main sample_env sample_host sample_world) = Some n
       ∧ (n = 0 ↔ ∃ w', run sample_env sample_host sample_world = Ok tt w').
Proof. apply main_exits, sample_store_wf. Defined.

Lemma run_undecoded_witness :
  let e := Errorf "failed to parse manifest.json: %w" []
             (ErrOther "unexpected end of JSON input") in
  run sample_env broken_host sample_world = Err e sample_world
  ∧ main sample_env broken_host sample_world = Crash (LogFatal e) sample_world
  ∧ ((findManifest sample_env = inl e ∧ root_cause e = ErrNotExist)
     ∨ (∃ p e', findManifest sample_env = inr p ∧ os_ReadFile broken_host p = inl e'
                ∧ e = Errorf "failed to read manifest.json: %w" [] e')
     ∨ (∃ p data e', findManifest sample_env = inr p ∧ os_ReadFile broken_host p = inr data
                     ∧ json_Unmarshal broken_host data = inl e'
                     ∧ e = Errorf "failed to parse manifest.json: %w" [] e')).
Proof. intros e. apply run_undecoded. reflexivity. Defined.

Lemma main_installs_witness :
  ∃ w', main sample_env sample_host sample_world = Ok tt w'
        ∧ installs (cache_inv sample_env sample_helper EmptyString)
            (installed_entries sample_helper (filepath_Dir "C:\menu\manifest.json")
               shell_path (manifest_Items sample_manifest) (keys sample_store))
            sample_world w'.
Proof.
  apply (main_installs sample_env sample_host sample_helper _ sample_data);
    [reflexivity..|apply sample_store_wf|done|by_compute|intros; apply sample_helper_found].
Defined.

(** A file with the document of the sample manifest. *)
Definition document_host : Host :=
  json_host (os_ReadFile sample_host) (λ _, inr (Marshal sample_manifest)).

Lemma main_document_installs_witness :
  ∃ w', main sample_env document_host sample_world = Ok tt w'
        ∧ installs (cache_inv sample_env sample_helper EmptyString)
            (installed_entries sample_helper (filepath_Dir "C:\menu\manifest.json")
               shell_path (manifest_Items sample_manifest) (keys sample_store))
            sample_world w'.
Proof.
  apply (main_document_installs sample_env _ _ sample_helper _ sample_data
           (Marshal sample_manifest));
    [reflexivity|reflexivity|reflexivity|by vm_compute|by vm_compute
    |apply sample_store_wf|by_compute|intros; apply sample_helper_found].
Defined.

(** A file whose document has the entry [open] with the value [null]. *)
Definition null_host : Host :=
  json_host (os_ReadFile sample_host)
            (λ _, inr (JObject [("items", JObject [("open", JNull)])])).

Lemma main_null_entry_witness :
  ∃ w', main sample_env null_host sample_world = Crash NilDeref w'
        ∧ exit_status (main sample_env null_host sample_world) = Some 2
        ∧ keys (registry w')
          = refreshed (split_path (keyPath_of EmptyString "open")) (keys sample_store).
Proof.
  apply (main_null_entry sample_env null_host "C:\menu\manifest.json" sample_data "open" []);
    [reflexivity..|apply sample_store_wf|by_compute|by_compute].
Defined.
