(* ===== verification/Respect.v ===== *)
(** * The handles play no part, on any path

    The program never closes the handles [registry.CreateKey] gives it, and
    the numbers of the handles it opens depend on how many were opened
    before.  This file shows that nothing the program does depends on them:
    two runs from stores with the same keys, values and refusals, whatever
    handles are open in them, end the same way (with a result, with the
    same error, with the same end of the process) in stores that again have
    the same keys, values and refusals.  The manifest may be any manifest
    and the store may refuse anything: the statement is about every path of
    the code, not only about the runs that succeed.

    The proof runs the two executions side by side with the rules of [rel]:
    [twin] relates the two stores, [linked] two handles that stand for the
    same key, and each operation of the package is shown to take related
    stores and handles to related results. *)

From stdpp Require Import gmap strings list.
From S2P Require Import Prelude GoStrings GoErrors Registry Eraser.
From S2P Require Import Manifest Decode Locator Projector Sync Render Run.

(** ** Stores and handles that are alike *)

(** Two stores with the same keys, values and refusals, both well formed. *)
Record twin (r1 r2 : Registry) : Prop := {
  tw_equiv : r1 ≡ r2;
  tw_wf1 : reg_wf r1;
  tw_wf2 : reg_wf r2;
}.

(** Two handles that stand for the same key, each in its store. *)
Definition linked (k1 k2 : Key) (r1 r2 : Registry) : Prop :=
  ∃ p, resolve k1 r1 = Some p ∧ resolve k2 r2 = Some p.

(** The second pair of stores is alike, and has every handle of the first
    still open. *)
Record grown (r1 r2 r1' r2' : Registry) : Prop := {
  gr_twin : twin r1' r2';
  gr_handles1 : handles r1 ⊆ handles r1';
  gr_handles2 : handles r2 ⊆ handles r2';
}.

(** The second pair of stores is alike, and has the handle tables of the
    first. *)
Record restored (r1 r2 r1' r2' : Registry) : Prop := {
  rs_twin : twin r1' r2';
  rs_handles1 : handles r1' = handles r1;
  rs_handles2 : handles r2' = handles r2;
}.

Definition never {S1 S2} : crash → S1 → S2 → Prop := λ _ _ _, False.

Section alike.
Implicit Types (r s : Registry) (k key : Key) (p target : keypath).

Lemma linked_root r1 r2 : linked CURRENT_USER CURRENT_USER r1 r2.
Proof. by exists []. Qed.

Lemma linked_handles k1 k2 r1 r2 s1 s2 :
  linked k1 k2 r1 r2 → handles r1 ⊆ handles s1 → handles r2 ⊆ handles s2 →
  linked k1 k2 s1 s2.
Proof.
  intros (p & H1 & H2) Hs1 Hs2. exists p.
  destruct k1, k2; simpl in *; eauto using lookup_weaken.
Qed.

Lemma linked_grown k1 k2 r1 r2 s1 s2 :
  linked k1 k2 r1 r2 → grown r1 r2 s1 s2 → linked k1 k2 s1 s2.
Proof. intros Hk [_ ? ?]. by eapply linked_handles. Qed.

Lemma grown_refl r1 r2 : twin r1 r2 → grown r1 r2 r1 r2.
Proof. by split. Qed.

Lemma grown_trans r1 r2 s1 s2 t1 t2 :
  grown r1 r2 s1 s2 → grown s1 s2 t1 t2 → grown r1 r2 t1 t2.
Proof. intros [_ ? ?] [? ? ?]. split; [done|by etrans..]. Qed.

Lemma restored_grown r1 r2 s1 s2 : restored r1 r2 s1 s2 → grown r1 r2 s1 s2.
Proof. intros [? H1 H2]. split; [done|by rewrite H1|by rewrite H2]. Qed.

Lemma restored_refl r1 r2 : twin r1 r2 → restored r1 r2 r1 r2.
Proof. by split. Qed.

(** The new handle of each store stands for the key it was opened on. *)
Lemma twin_with_handle target r1 r2 :
  twin r1 r2 →
  twin (with_handle target r1) (with_handle target r2)
  ∧ linked (Opened (next_handle r1)) (Opened (next_handle r2))
           (with_handle target r1) (with_handle target r2).
Proof.
  intros [He ? ?]. split.
  - split; [|by apply with_handle_wf..]. by rewrite !with_handle_equiv.
  - exists target. simpl. by rewrite !lookup_insert_eq.
Qed.

Lemma grown_with_handle target r1 r2 :
  twin r1 r2 → grown r1 r2 (with_handle target r1) (with_handle target r2).
Proof.
  intros Ht. split; [by apply twin_with_handle|..]; simpl;
    apply insert_subseteq, wf_fresh_handle, Ht.
Qed.

Lemma twin_set_keys ks r1 r2 :
  twin r1 r2 → reg_wf (set_keys ks r1) → twin (set_keys ks r1) (set_keys ks r2).
Proof.
  intros [[Hk Hr] Hw1 Hw2] Hwf. split; [by split|done|].
  split; try apply Hw2; apply Hwf.
Qed.

(** ** The operations, side by side *)

Lemma resolve_live_linked k1 k2 r1 r2 :
  r1 ≡ r2 → linked k1 k2 r1 r2 → resolve_live k1 r1 = resolve_live k2 r2.
Proof. intros [Hk _] (p & H1 & H2). unfold resolve_live. by rewrite H1, H2, Hk. Qed.

Lemma OpenKey_rel k1 k2 sub r1 r2 :
  r1 ≡ r2 → linked k1 k2 r1 r2 →
  rel (OpenKey k1 sub r1) (OpenKey k2 sub r2)
    (λ key1 r1' key2 r2', ∃ target,
        (key1 = Opened (next_handle r1) ∧ r1' = with_handle target r1)
        ∧ key2 = Opened (next_handle r2) ∧ r2' = with_handle target r2)
    (λ _ r1' r2', r1' = r1 ∧ r2' = r2) never.
Proof.
  intros He Hk. reg_unfold. rewrite (resolve_live_linked _ _ _ _ He Hk).
  destruct He as [-> ->]. unfold errno, throw.
  destruct (resolve_live k2 r2); simpl; [done|]. repeat case_decide; simpl; eauto.
Qed.

Lemma ReadSubKeyNames_rel k1 k2 r1 r2 :
  r1 ≡ r2 → linked k1 k2 r1 r2 →
  rel (ReadSubKeyNames k1 r1) (ReadSubKeyNames k2 r2)
    (λ names1 r1' names2 r2', names1 = names2 ∧ r1' = r1 ∧ r2' = r2)
    (λ _ r1' r2', r1' = r1 ∧ r2' = r2) never.
Proof.
  intros He Hk. reg_unfold. rewrite (resolve_live_linked _ _ _ _ He Hk).
  destruct He as [-> ->]. unfold errno, throw.
  destruct (resolve_live k2 r2); simpl; [done|]. repeat case_decide; simpl; eauto.
Qed.

Lemma DeleteKey_rel k1 k2 sub r1 r2 :
  twin r1 r2 → linked k1 k2 r1 r2 →
  rel (DeleteKey k1 sub r1) (DeleteKey k2 sub r2)
    (λ _ r1' _ r2', restored r1 r2 r1' r2') (λ _ r1' r2', r1' = r1 ∧ r2' = r2) never.
Proof.
  intros Ht Hk. pose proof (tw_equiv _ _ Ht) as He.
  pose proof (DeleteKey_post k1 sub r1) as Hpost. revert Hpost.
  reg_unfold. rewrite (resolve_live_linked _ _ _ _ He Hk).
  destruct He as [Hkeys Href]. rewrite Hkeys, Href. unfold errno, throw.
  destruct (resolve_live k2 r2) as [e|base]; simpl; [done|]. intros Hpost.
  specialize (Hpost base eq_refl). revert Hpost.
  repeat case_decide; simpl; try done. intros (_ & Hne & Hnil).
  split; [|done..]. apply twin_set_keys; [done|]. rewrite <-Hkeys in *.
  by apply delete_wf; [apply Ht|..].
Qed.

Lemma set_value_rel k1 k2 name v r1 r2 :
  twin r1 r2 → linked k1 k2 r1 r2 →
  rel (set_value k1 name v r1) (set_value k2 name v r2)
    (λ _ r1' _ r2', restored r1 r2 r1' r2') (λ _ r1' r2', r1' = r1 ∧ r2' = r2) never.
Proof.
  intros Ht Hk. pose proof (tw_equiv _ _ Ht) as He. unfold set_value.
  rewrite (resolve_live_linked _ _ _ _ He Hk).
  destruct He as [Hkeys Href]. rewrite Href. unfold errno, throw.
  destruct (resolve_live k2 r2) as [e|p]; simpl; [done|].
  case_decide; simpl; [done|]. split; [|done..].
  rewrite Hkeys. apply twin_set_keys; [done|]. rewrite <-Hkeys. apply alter_wf, Ht.
Qed.

(** [registry.CreateKey] on the root, as the program calls it. *)
Lemma CreateKey_rel sub r1 r2 :
  twin r1 r2 →
  rel (CreateKey CURRENT_USER sub r1) (CreateKey CURRENT_USER sub r2)
    (λ res1 r1' res2 r2', grown r1 r2 r1' r2' ∧ linked res1.1 res2.1 r1' r2')
    (λ _ r1' r2', r1' = r1 ∧ r2' = r2) never.
Proof.
  intros Ht. pose proof (tw_equiv _ _ Ht) as [Hkeys Href]. reg_unfold.
  rewrite !resolve_live_root by apply Ht. simpl. rewrite Href. unfold errno, throw.
  case_decide; simpl; [done|]. unfold bind, alloc_handle, ret. simpl.
  assert (twin (set_keys (keys r1 ∪ fresh_keys (split_path sub)) r1)
               (set_keys (keys r2 ∪ fresh_keys (split_path sub)) r2)) as Ht'.
  { rewrite Hkeys. apply twin_set_keys; [done|]. rewrite <-Hkeys.
    apply create_wf; [apply Ht|apply split_path_valid_segs]. }
  destruct (twin_with_handle (split_path sub) _ _ Ht') as [Htw Hl].
  pose proof (grown_with_handle (split_path sub) _ _ Ht') as [_ H1 H2].
  split; [|exact Hl]. by split.
Qed.

(** The close of a handle that is open on both sides. *)
Lemma CloseKey_rel h1 h2 r1 r2 :
  twin r1 r2 → is_Some (handles r1 !! h1) → is_Some (handles r2 !! h2) →
  rel (CloseKey (Opened h1) r1) (CloseKey (Opened h2) r2)
    (λ _ r1' _ r2', twin r1' r2' ∧ r1' = without_handle h1 r1 ∧ r2' = without_handle h2 r2)
    (λ _ _ _, False) never.
Proof.
  intros [He ? ?] [p1 H1] [p2 H2]. rewrite (CloseKey_Ok _ _ _ H1), (CloseKey_Ok _ _ _ H2).
  simpl. split; [|done]. split; [|by apply without_handle_wf..].
  by rewrite !without_handle_equiv.
Qed.

End alike.

(** ** The eraser, side by side *)

(** What the recursive call is assumed to do, and the function is then
    shown to do: from stores that are alike, with handles that stand for
    the same key, the two runs end the same way, in stores that are alike
    and have their handle tables back. *)
Definition erases_alike (rec : Key → string → M Registry unit) : Prop :=
  ∀ k1 k2 path r1 r2, twin r1 r2 → linked k1 k2 r1 r2 →
    rel (rec k1 path r1) (rec k2 path r2)
        (λ _ r1' _ r2', restored r1 r2 r1' r2') (λ _, restored r1 r2) never.

(** The states while the function holds its handle: alike, and with the
    handle tables of the start and the new handle on [target]. *)
Record held_pair (target : keypath) (r1 r2 s1 s2 : Registry) : Prop := {
  hp_twin : twin s1 s2;
  hp_handles1 : handles s1 = <[next_handle r1 := target]> (handles r1);
  hp_handles2 : handles s2 = <[next_handle r2 := target]> (handles r2);
}.

Section eraser.
Context (r1 r2 : Registry) (Hr : twin r1 r2).
Context (k1 k2 : Key) (Hk : linked k1 k2 r1 r2) (path : string).
Implicit Types (s t : Registry) (target : keypath).

Local Abbreviation key1 := (Opened (next_handle r1)).
Local Abbreviation key2 := (Opened (next_handle r2)).

Lemma restored_trans s1 s2 t1 t2 :
  restored r1 r2 s1 s2 → restored s1 s2 t1 t2 → restored r1 r2 t1 t2.
Proof. intros [_ H1 H2] [? H1' H2']. split; [done|congruence..]. Qed.

Lemma held_start target : held_pair target r1 r2 (with_handle target r1) (with_handle target r2).
Proof. split; [by apply twin_with_handle|done..]. Qed.

Lemma held_linked target s1 s2 : held_pair target r1 r2 s1 s2 → linked key1 key2 s1 s2.
Proof. intros [_ H1 H2]. exists target. simpl. by rewrite H1, H2, !lookup_insert_eq. Qed.

Lemma held_restored target s1 s2 t1 t2 :
  held_pair target r1 r2 s1 s2 → restored s1 s2 t1 t2 → held_pair target r1 r2 t1 t2.
Proof. intros [_ H1 H2] [? H1' H2']. split; [done|congruence..]. Qed.

Lemma erase_open_rel :
  rel (erase_open k1 path r1) (erase_open k2 path r2)
    (λ o1 s1 o2 s2,
       (o1 = None ∧ o2 = None) ∧ restored r1 r2 s1 s2
       ∨ (o1 = Some key1 ∧ o2 = Some key2) ∧ ∃ target, held_pair target r1 r2 s1 s2)
    (λ _, restored r1 r2) never.
Proof.
  pose proof (OpenKey_rel k1 k2 path r1 r2 (tw_equiv _ _ Hr) Hk) as H.
  unfold erase_open, bind, try.
  destruct (OpenKey k1 path r1), (OpenKey k2 path r2); simpl in *; try done.
  - destruct H as (target & [-> ->] & -> & ->). right. eauto using held_start.
  - destruct H as (-> & -> & ->).
    destruct (errors_Is _ _); simpl; auto using restored_refl.
Qed.

(** The close of the handle the function holds gives the handle tables of
    the start back. *)
Lemma close_held target s1 s2 E :
  held_pair target r1 r2 s1 s2 →
  rel (ignore_err (CloseKey key1) s1) (ignore_err (CloseKey key2) s2)
      (λ _ t1 _ t2, restored r1 r2 t1 t2) E never.
Proof.
  intros [Hs H1 H2]. unfold ignore_err.
  rewrite (CloseKey_Ok _ s1 target), (CloseKey_Ok _ s2 target)
    by (by rewrite ?H1, ?H2, lookup_insert_eq).
  simpl. split; simpl.
  - split; [|apply without_handle_wf, Hs..]. rewrite !without_handle_equiv. apply Hs.
  - rewrite H1. apply delete_insert_id, wf_fresh_handle, Hr.
  - rewrite H2. apply delete_insert_id, wf_fresh_handle, Hr.
Qed.

Lemma erase_delete_rel s1 s2 :
  restored r1 r2 s1 s2 →
  rel (erase_delete k1 path s1) (erase_delete k2 path s2)
      (λ _ t1 _ t2, restored r1 r2 t1 t2) (λ _, restored r1 r2) never.
Proof.
  intros Hs. assert (linked k1 k2 s1 s2) as Hk'.
  { destruct Hs as [_ H1 H2]. eapply linked_handles; [done|by rewrite H1|by rewrite H2]. }
  pose proof (DeleteKey_rel k1 k2 path s1 s2 (rs_twin _ _ _ _ Hs) Hk') as H.
  unfold erase_delete, bind, try.
  destruct (DeleteKey k1 path s1), (DeleteKey k2 path s2); simpl in *; try done.
  - by eapply restored_trans.
  - destruct H as (-> & -> & ->). by destruct (errors_Is _ _).
Qed.

Section loop.
Context (rec : Key → string → M Registry unit) (Hrec : erases_alike rec).

Lemma erase_children_rel target names s1 s2 :
  held_pair target r1 r2 s1 s2 →
  rel (erase_children rec key1 path names s1) (erase_children rec key2 path names s2)
      (λ _ t1 _ t2, held_pair target r1 r2 t1 t2) (λ _, held_pair target r1 r2) never.
Proof.
  intros Hs. unfold erase_children. apply rel_for_each; [done|].
  intros name t1 t2 _ Ht. apply rel_wrap.
  eapply rel_mono; [apply Hrec; [apply Ht|by eapply held_linked]|cbv beta..];
    eauto using held_restored.
Qed.

(** The function from the enumeration on: the error is a value of the
    result; with it comes the handle, still open, or the zero handle and
    the handle tables of the start. *)
Lemma erase_opened_rel target s1 s2 E :
  held_pair target r1 r2 s1 s2 →
  rel (erase_opened rec k1 path key1 s1) (erase_opened rec k2 path key2 s2)
      (λ res1 t1 res2 t2,
         res1.2 = res2.2
         ∧ ((res1.1 = key1 ∧ res2.1 = key2) ∧ held_pair target r1 r2 t1 t2
            ∨ (res1.1 = emptyKey ∧ res2.1 = emptyKey) ∧ restored r1 r2 t1 t2))
      E never.
Proof.
  intros Hs. unfold erase_opened.
  eapply (rel_bind _ _ _ _ _ _ (λ x1 t1 x2 t2, x1 = x2 ∧ t1 = s1 ∧ t2 = s2)).
  { apply rel_try. eapply rel_mono;
      [apply ReadSubKeyNames_rel; [apply Hs|by eapply held_linked]|cbv beta..];
      [by intros ???? (-> & -> & ->)|by intros ??? [-> ->]|done]. }
  intros x1 ? x2 ? (-> & -> & ->). destruct x2 as [err|names]; [apply rel_ret; auto|].
  eapply (rel_bind _ _ _ _ _ _ (λ x1 t1 x2 t2, x1 = x2 ∧ held_pair target r1 r2 t1 t2)).
  { apply rel_try. eapply rel_mono; [by apply erase_children_rel|cbv beta..];
      [by intros [] ? [] ?|done..]. }
  intros x1 t1 x2 t2 [-> Ht]. destruct x2 as [err|[]]; [apply rel_ret; auto|].
  eapply rel_bind; [by eapply close_held|]. intros ? u1 ? u2 Hu. cbv beta in Hu.
  eapply (rel_bind _ _ _ _ _ _ (λ x1 v1 x2 v2, x1 = x2 ∧ restored r1 r2 v1 v2)).
  { apply rel_try. eapply rel_mono; [by apply erase_delete_rel|cbv beta..];
      [by intros [] ? [] ?|done..]. }
  intros x1 v1 x2 v2 [-> Hv]. apply rel_ret. auto.
Qed.

(** main.go:243-282 *)
Lemma erase_body_rel :
  rel (erase_body rec k1 path r1) (erase_body rec k2 path r2)
      (λ _ t1 _ t2, restored r1 r2 t1 t2) (λ _, restored r1 r2) never.
Proof.
  unfold erase_body. eapply rel_bind; [apply erase_open_rel|]. cbv beta.
  intros o1 s1 o2 s2 [[[-> ->] Hs]|[[-> ->] [target Hs]]]; [by apply rel_ret|].
  eapply rel_bind; [by apply (erase_opened_rel target)|]. cbv beta.
  intros res1 t1 res2 t2 [Hres Hcase].
  eapply (rel_bind _ _ _ _ _ _ (λ _ u1 _ u2, restored r1 r2 u1 u2)).
  - unfold erase_deferred. destruct Hcase as [[[-> ->] Ht]|[[-> ->] Ht]].
    + rewrite !decide_True by done. by eapply close_held.
    + rewrite !decide_False by (by intros []). by apply rel_ret.
  - intros ? u1 ? u2 Hu. rewrite Hres.
    destruct (res2.2) as [err|[]]; [by apply rel_throw|by apply rel_ret].
Qed.

End loop.
End eraser.

(** Nothing [deleteRegKeyRecursive] does depends on the handles: from
    stores that are alike, through handles that stand for the same key, the
    two runs end the same way, in stores that are alike and have their
    handle tables back. *)
Lemma deleteRegKeyRecursive_rel fuel : erases_alike (deleteRegKeyRecursive fuel).
Proof.
  induction fuel as [|fuel IH]; intros k1 k2 path r1 r2 Hr Hk; [done|].
  by apply erase_body_rel.
Qed.

(** ** The synchronizer, side by side *)

(** Two states of the process that are alike: the stores are, and the cache
    of the helper is the same. *)
Record twins (w1 w2 : World) : Prop := {
  tws_registry : twin (registry w1) (registry w2);
  tws_cache : _nircmdPath w1 = _nircmdPath w2;
}.

Section registry.
Context (r1 r2 : Registry) (Hr : twin r1 r2).
Implicit Types (s t : Registry) (key : Key).

Lemma grown_restored s1 s2 t1 t2 :
  grown r1 r2 s1 s2 → restored s1 s2 t1 t2 → grown r1 r2 t1 t2.
Proof. intros Hs Ht. eapply grown_trans; [done|by apply restored_grown]. Qed.

Lemma erase_rel path :
  rel (erase CURRENT_USER path r1) (erase CURRENT_USER path r2)
      (λ _ s1 _ s2, restored r1 r2 s1 s2) (λ _, restored r1 r2) never.
Proof.
  unfold erase, erase_fuel. rewrite (keys_proper _ _ (tw_equiv _ _ Hr)).
  apply deleteRegKeyRecursive_rel; [done|apply linked_root].
Qed.

(** main.go:23-30 *)
Lemma create_fresh_rel keyPath :
  rel (create_fresh keyPath r1) (create_fresh keyPath r2)
      (λ key1 s1 key2 s2, grown r1 r2 s1 s2 ∧ linked key1 key2 s1 s2)
      (λ _, grown r1 r2) never.
Proof.
  unfold create_fresh.
  eapply (rel_bind _ _ _ _ _ _ (λ _ s1 _ s2, restored r1 r2 s1 s2)).
  { apply rel_wrap. eapply rel_mono; [apply erase_rel|cbv beta..];
      eauto using restored_grown. }
  intros ? s1 ? s2 Hs.
  eapply (rel_bind _ _ _ _ _ _
            (λ res1 t1 res2 t2, grown r1 r2 t1 t2 ∧ linked res1.1 res2.1 t1 t2)).
  { apply rel_wrap. eapply rel_mono; [apply CreateKey_rel, Hs|cbv beta..].
    - intros ???? [Ht ?]. split; [|done]. eapply grown_trans; [|done]. by apply restored_grown.
    - intros ??? [-> ->]. by apply restored_grown.
    - done. }
  intros res1 t1 res2 t2 Ht. by apply rel_ret.
Qed.

(** A value set through handles that stand for the same key. *)
Lemma set_rel w key1 key2 name (v : RegValue) s1 s2 :
  grown r1 r2 s1 s2 → linked key1 key2 s1 s2 →
  rel (wrap w (set_value key1 name v) s1) (wrap w (set_value key2 name v) s2)
      (λ _ t1 _ t2, grown r1 r2 t1 t2 ∧ linked key1 key2 t1 t2) (λ _, grown r1 r2) never.
Proof.
  intros Hs Hk. apply rel_wrap.
  eapply rel_mono; [apply set_value_rel; [apply Hs|done]|cbv beta..].
  - intros ? t1 ? t2 Ht. split; [by eapply grown_restored|].
    eapply linked_grown; [done|by apply restored_grown].
  - by intros ??? [-> ->].
  - done.
Qed.

(** main.go:31-52 *)
Lemma set_attributes_rel key1 key2 item manifestDir s1 s2 :
  grown r1 r2 s1 s2 → linked key1 key2 s1 s2 →
  rel (set_attributes key1 item manifestDir s1) (set_attributes key2 item manifestDir s2)
      (λ _ t1 _ t2, grown r1 r2 t1 t2 ∧ linked key1 key2 t1 t2) (λ _, grown r1 r2) never.
Proof.
  intros Hs Hk. unfold set_attributes. reg_values.
  eapply rel_bind; [by apply set_rel|]. cbv beta. intros ? t1 ? t2 [Ht Hk1].
  eapply (rel_bind _ _ _ _ _ _ (λ _ u1 _ u2, grown r1 r2 u1 u2 ∧ linked key1 key2 u1 u2)).
  { case_decide; [by apply set_rel|by apply rel_ret]. }
  intros ? u1 ? u2 [Hu Hk2].
  eapply (rel_bind _ _ _ _ _ _ (λ _ v1 _ v2, grown r1 r2 v1 v2 ∧ linked key1 key2 v1 v2)).
  { destruct (Extended item); [by apply set_rel|by apply rel_ret]. }
  intros ? v1 ? v2 [Hv Hk3].
  destruct (Admin item); [by apply set_rel|by apply rel_ret].
Qed.

(** main.go:54-61 *)
Lemma create_folder_rel key1 key2 keyPath s1 s2 :
  grown r1 r2 s1 s2 → linked key1 key2 s1 s2 →
  rel (create_folder key1 keyPath s1) (create_folder key2 keyPath s2)
      (λ _ t1 _ t2, grown r1 r2 t1 t2) (λ _, grown r1 r2) never.
Proof.
  intros Hs Hk. unfold create_folder. reg_values.
  eapply rel_bind; [by apply set_rel|]. cbv beta. intros ? t1 ? t2 [Ht _].
  eapply (rel_bind _ _ _ _ _ _ (λ _ u1 _ u2, grown r1 r2 u1 u2)); [|by intros; apply rel_ret].
  apply rel_wrap. eapply rel_mono; [apply CreateKey_rel, Ht|cbv beta..].
  - intros ???? [Hu _]. by eapply grown_trans.
  - by intros ??? [-> ->].
  - done.
Qed.

End registry.

Section world.
Context (env : Env) (manifestDir : string).
Implicit Types (w : World) (item : ContextMenu) (keyPath parent id : string).

(** The two ends of a run of the process that are alike. *)
Local Abbreviation ends_alike :=
  (λ (o1 o2 : Outcome World unit),
     rel o1 o2 (λ _ w1' _ w2', twins w1' w2') (λ _, twins) (λ _, twins)).

Lemma on_registry_rel {A1 A2} (m1 : M Registry A1) (m2 : M Registry A2) w1 w2
    (L : A1 → Registry → A2 → Registry → Prop) :
  twins w1 w2 →
  rel (m1 (registry w1)) (m2 (registry w2))
      (λ a1 s1 a2 s2, grown (registry w1) (registry w2) s1 s2 ∧ L a1 s1 a2 s2)
      (λ _, grown (registry w1) (registry w2)) never →
  rel (on_registry m1 w1) (on_registry m2 w2)
      (λ a1 w1' a2 w2', twins w1' w2' ∧ L a1 (registry w1') a2 (registry w2'))
      (λ _, twins) (λ _, twins).
Proof.
  intros [Hr Hc] H. unfold on_registry. apply rel_zoom.
  eapply rel_mono; [exact H|cbv beta; simpl..].
  - intros ? s1 ? s2 [Hs HL]. split; [|done]. split; [apply Hs|done].
  - intros ? s1 s2 Hs. split; [apply Hs|done].
  - by intros ??? [].
Qed.

(** A computation on the cache does the same on both sides, and leaves
    the stores. *)
Lemma on_cache_rel {A} (m : M string A) w1 w2 :
  twins w1 w2 →
  rel (on_cache m w1) (on_cache m w2)
      (λ a1 w1' a2 w2', a1 = a2 ∧ twins w1' w2'
                        ∧ registry w1' = registry w1 ∧ registry w2' = registry w2)
      (λ _, twins) (λ _, twins).
Proof.
  intros [Hr Hc]. unfold on_cache, zoom. rewrite Hc.
  by destruct (m (_nircmdPath w2)); simpl; [split; [|split]|split..|].
Qed.

Lemma fresh_world keyPath w1 w2 :
  twins w1 w2 →
  rel (on_registry (create_fresh keyPath) w1) (on_registry (create_fresh keyPath) w2)
      (λ key1 w1' key2 w2', twins w1' w2' ∧ linked key1 key2 (registry w1') (registry w2'))
      (λ _, twins) (λ _, twins).
Proof.
  intros Hw. apply (on_registry_rel _ _ _ _ (λ key1 s1 key2 s2, linked key1 key2 s1 s2) Hw).
  apply create_fresh_rel, Hw.
Qed.

(** main.go:69-81 *)
Lemma create_command_rel keyPath item w1 w2 :
  twins w1 w2 →
  ends_alike (create_command env keyPath item manifestDir w1)
             (create_command env keyPath item manifestDir w2).
Proof.
  intros Hw. unfold create_command.
  eapply rel_bind; [by apply fresh_world|]. cbv beta. intros key1 u1 key2 u2 [Hu Hk].
  eapply rel_bind; [by apply on_cache_rel|]. cbv beta.
  intros cmd v1 ? v2 (<- & Hv & H1 & H2). rewrite <-H1, <-H2 in Hk.
  eapply rel_mono;
    [apply (on_registry_rel _ _ _ _ (λ _ _ _ _, True) Hv)|cbv beta..];
    [|by intros ???? [? _]|done..].
  reg_values. eapply rel_mono;
    [apply set_rel; [apply grown_refl, Hv|done]|cbv beta..];
    [by intros ???? [? _]|done..].
Qed.

(** main.go:23-31 for a nil entry *)
Lemma nil_entry_rel keyPath w1 w2 :
  twins w1 w2 →
  ends_alike ((on_registry (create_fresh keyPath) ;; nil_deref) w1)
             ((on_registry (create_fresh keyPath) ;; nil_deref) w2).
Proof.
  intros Hw. eapply rel_bind; [by apply fresh_world|]. cbv beta.
  intros ???? [? _]. by apply rel_crash.
Qed.

(** main.go:62-67 and 104-109 *)
Lemma create_entries_rel (create : string → option ContextMenu → M World unit) items w1 w2 :
  twins w1 w2 →
  (∀ e w1 w2, e ∈ items → twins w1 w2 → ends_alike (create e.1 e.2 w1) (create e.1 e.2 w2)) →
  ends_alike (create_entries create items w1) (create_entries create items w2).
Proof.
  intros Hw Hcreate. unfold create_entries. apply rel_for_each; [done|].
  intros e u1 u2 He Hu. apply rel_wrap. by apply Hcreate.
Qed.

(** main.go:18-84 *)
Lemma create_menu_rel item : ∀ parent id w1 w2,
  twins w1 w2 →
  ends_alike (create_menu env parent id item manifestDir w1)
             (create_menu env parent id item manifestDir w2).
Proof.
  induction item as [item IH] using ContextMenu_tree_ind. intros parent id w1 w2 Hw.
  rewrite !create_menu_unfold. cbv zeta.
  eapply rel_bind; [by apply fresh_world|]. cbv beta. intros key1 u1 key2 u2 [Hu Hk].
  eapply (rel_bind _ _ _ _ _ _
            (λ _ v1 _ v2, twins v1 v2 ∧ linked key1 key2 (registry v1) (registry v2))).
  { apply (on_registry_rel _ _ _ _ (λ _ s1 _ s2, linked key1 key2 s1 s2) Hu).
    apply set_attributes_rel; [apply grown_refl, Hu|done]. }
  intros ? v1 ? v2 [Hv Hk']. case_decide; [|by apply create_command_rel].
  eapply (rel_bind _ _ _ _ _ _ (λ _ x1 _ x2, twins x1 x2)).
  { eapply rel_mono;
      [apply (on_registry_rel _ _ _ _ (λ _ _ _ _, True) Hv)|cbv beta..];
      [|by intros ???? [? _]|done..].
    eapply rel_mono; [by apply create_folder_rel; [apply grown_refl, Hv|]|cbv beta..];
      [by intros|done..]. }
  intros ? x1 ? x2 Hx. apply create_entries_rel; [done|].
  intros [id' [c|]] y1 y2 Hin Hy; simpl; [by eapply IH|by apply nil_entry_rel].
Qed.

Lemma createContextMenu_rel parent id (item : option ContextMenu) w1 w2 :
  twins w1 w2 →
  ends_alike (createContextMenu env parent id item manifestDir w1)
             (createContextMenu env parent id item manifestDir w2).
Proof.
  intros Hw. destruct item; [by apply create_menu_rel|by apply nil_entry_rel].
Qed.

Lemma install_rel manifest w1 w2 :
  twins w1 w2 →
  ends_alike (install env manifest manifestDir w1) (install env manifest manifestDir w2).
Proof.
  intros Hw. unfold install. apply create_entries_rel; [done|].
  intros. by apply createContextMenu_rel.
Qed.

End world.

(** ** The whole program *)

Section program.
Context (env : Env) (host : Host).

Lemma rel_exit_status {A1 A2} (o1 : Outcome World A1) (o2 : Outcome World A2) Q E C :
  rel o1 o2 Q E C → exit_status o1 = exit_status o2.
Proof. destruct o1, o2; simpl; try done. by intros [-> _]. Qed.

(** main.go:185-210 *)
Lemma run_rel w1 w2 :
  twins w1 w2 →
  rel (run env host w1) (run env host w2) (λ _ w1' _ w2', twins w1' w2') (λ _, twins)
      (λ _, twins).
Proof.
  intros Hw. rewrite !run_run_loaded. destruct (load env host) as [e|[manifest dir]]; simpl.
  - done.
  - by apply install_rel.
Qed.

(** main.go:179-183 *)
Lemma main_rel w1 w2 :
  twins w1 w2 →
  rel (main env host w1) (main env host w2) (λ _ w1' _ w2', twins w1' w2') (λ _ _ _, False)
      (λ _, twins).
Proof.
  intros Hw. pose proof (run_rel w1 w2 Hw) as H. rewrite !main_unfold.
  destruct (run env host w1) as [[] ?| | |], (run env host w2) as [[] ?| | |];
    simpl in *; try done.
  by destruct H as [-> ?].
Qed.

Lemma main_alike w1 w2 :
  twins w1 w2 →
  rel (main env host w1) (main env host w2) (λ _ w1' _ w2', twins w1' w2') (λ _ _ _, False)
      (λ _, twins)
  ∧ ∃ n, exit_status (main env host w1) = Some n ∧ exit_status (main env host w2) = Some n.
Proof.
  intros Hw. pose proof (main_rel w1 w2 Hw) as H. split; [done|].
  destruct (exit_status_post (main env host w1) _ _
    (main_kept env host _ w1 (sync_frame_refl _ (tw_wf1 _ _ (tws_registry _ _ Hw))))) as [n Hn].
  exists n. split; [done|]. by rewrite <-(rel_exit_status _ _ _ _ _ H).
Qed.

End program.

(** ** The claim *)

(** C21.  The handles play no part, on any path.  The program never closes
    the handles of the keys it creates, so the table of open handles differs
    from run to run.  Two runs of [main] with the same manifest file, from
    two states with the same keys, values, refusals and cached helper path,
    whatever handles are open in them, end alike: both return, or both end
    the process for the same reason ([log.Fatal] with the same error, or the
    same panic), with the same exit status, and they leave the same keys,
    values, refusals and cache.  Nothing is assumed of the manifest, of the
    files or of the refusals. *)
Theorem main_respects env host w1 w2 :
  registry w1 ≡ registry w2 → _nircmdPath w1 = _nircmdPath w2 →
  reg_wf (registry w1) → reg_wf (registry w2) →
  rel (main env host w1) (main env host w2) (λ _ w1' _ w2', twins w1' w2') (λ _ _ _, False)
      (λ _, twins)
  ∧ ∃ n, exit_status (main env host w1) = Some n ∧ exit_status (main env host w2) = Some n.
Proof. intros. by apply main_alike. Qed.

(** The refusing sample store with a handle left open on the shell key. *)
Definition sample_refusing_open : World :=
  mkWorld (with_handle shell_path (registry sample_world_refusing))
          (_nircmdPath sample_world_refusing).

Lemma main_respects_witness :
  rel (main sample_env sample_host sample_world_refusing)
      (main sample_env sample_host sample_refusing_open)
      (λ _ w1' _ w2', twins w1' w2') (λ _ _ _, False) (λ _, twins)
  ∧ ∃ n, exit_status (main sample_env sample_host sample_world_refusing) = Some n
         ∧ exit_status (main sample_env sample_host sample_refusing_open) = Some n.
Proof.
  apply main_respects; [symmetry; apply with_handle_equiv|done|by_compute|by_compute].
Defined.
