(* ===== verification/Handles.v ===== *)
(** * The handles a run leaves open

    [createContextMenu] calls [registry.CreateKey] twice for every entry:
    for the key of the entry (main.go:27) and for its [command] key (main.go:74)
    or its [shell] key (main.go:58), and closes neither handle;
    [deleteRegKeyRecursive] closes every handle it opens.  This file counts:
    a run that succeeds leaves exactly two more handles open for every entry
    it visited, and a run that fails or ends the process at most that many.
    The number grows with the manifest and is bounded by nothing else. *)

From stdpp Require Import gmap strings list.
From S2P Require Import Prelude GoStrings GoErrors Registry Eraser.
From S2P Require Import Manifest Locator Projector Sync.

(** ** The calls of [registry.CreateKey] for a tree *)

(** The handles the call for the entry [c] opens and leaves: two for the
    entry, and those of the children when the entry is a folder.  A nil
    child has its key created before the process panics. *)
Fixpoint opens (c : ContextMenu) : nat :=
  2 + (if decide (Type_ c = ContextMenuType_Folder)
       then list_sum ((λ e, match e.2 with Some c' => opens c' | None => 1 end) <$> Items c)
       else 0).

Definition entry_opens (o : option ContextMenu) : nat :=
  match o with Some c => opens c | None => 1 end.

Definition entries_opens (l : list (string * option ContextMenu)) : nat :=
  list_sum ((λ e, entry_opens e.2) <$> l).

Lemma opens_folder c :
  Type_ c = ContextMenuType_Folder → opens c = 2 + entries_opens (Items c).
Proof. intros H. destruct c. simpl in *. by rewrite decide_True. Qed.

Lemma opens_item c : Type_ c ≠ ContextMenuType_Folder → opens c = 2.
Proof. intros H. destruct c. simpl in *. by rewrite decide_False. Qed.

Lemma entries_opens_snoc l e : entries_opens (l ++ [e]) = entries_opens l + entry_opens e.2.
Proof. unfold entries_opens. rewrite fmap_app, list_sum_app. simpl. lia. Qed.

Lemma entries_opens_prefix l l' : l `prefix_of` l' → entries_opens l ≤ entries_opens l'.
Proof. intros [rest ->]. unfold entries_opens. rewrite fmap_app, list_sum_app. lia. Qed.

(** ** Counting along the code *)

Section count.
Context (env : Env) (manifestDir : string) (r0 : Registry).
Implicit Types (r : Registry) (w : World) (p : keypath) (key : Key) (k j : nat).

(** The store keeps the frame of [r0] and has [k] handles more. *)
Definition counted k r : Prop :=
  sync_frame r0 r ∧ size (handles r) = size (handles r0) + k.

(** At most [k] handles more. *)
Definition within k r : Prop :=
  sync_frame r0 r ∧ size (handles r) ≤ size (handles r0) + k.

(** [k] handles more, and [key] is one that is open on the key [p]. *)
Definition holds k key p r : Prop := counted k r ∧ resolve_live key r = inr p.

Lemma counted_within k j r : counted k r → k ≤ j → within j r.
Proof. intros [? Hs] ?. split; [done|lia]. Qed.

(** *** The operations *)

Lemma erase_counted path r k j :
  counted k r → k ≤ j →
  post (erase CURRENT_USER path r) (λ _, counted k) (λ _, within j) no_crash.
Proof.
  intros [Hf Hs] Hj. unfold erase. eapply post_mono; [|..|done].
  - eapply (deleteRegKeyRecursive_erase_safe _ _ _ _ []);
      eauto using resolve_live_root, sf_wf, erase_fuel_pos, height_below_erase_fuel.
  - intros ? r' He. cbv beta in He. split; [by eapply sync_frame_erase|].
    by rewrite (fr_handles _ _ _ He).
  - intros ? r' He. cbv beta in He. apply (counted_within k); [|done].
    split; [by eapply sync_frame_erase|]. by rewrite (fr_handles _ _ _ He).
Qed.

Lemma CreateKey_counted sub r k j :
  counted k r → k < j →
  post (CreateKey CURRENT_USER sub r)
    (λ res, holds (S k) res.1 (split_path sub)) (λ _, within j) no_crash.
Proof.
  intros [Hf Hs] Hj. eapply post_mono;
    [apply (post_and _ _ _ _ _ _ _ (CreateKey_frame_post r0 sub r Hf)
              (CreateKey_post _ sub r [] (resolve_live_root _ (sf_wf _ _ Hf))))|..].
  - intros [key ?] r' [[Hf' Hk] [_ ->]]. split; [split; [done|]|done]. simpl.
    rewrite map_size_insert_None by apply wf_fresh_handle, Hf. lia.
  - intros ? r' [Hf' ->]. apply (counted_within k); [by split|lia].
  - by intros ? ? [[] _].
Qed.

Lemma set_counted fmt key name (v : RegValue) r p k j :
  holds k key p r → k ≤ j →
  post (wrap (Errorf fmt []) (set_value key name v) r)
    (λ _, holds k key p) (λ _, within j) no_crash.
Proof.
  intros [[Hf Hs] Hk] Hj. eapply post_mono;
    [apply (post_and _ _ _ _ _ _ _ (set_wrapped_post r0 fmt key name v r p (conj Hf Hk))
              (post_wrap _ _ _ _ (λ _ r', r' = r) _ (set_value_post key name v r p Hk)))|..].
  - intros ? r' [[Hf' Hk'] ->]. by split; [split|].
  - intros ? r' [Hf' ->]. apply (counted_within k); [by split|done].
  - by intros ? ? [[] _].
Qed.

(** *** The steps of [createContextMenu] *)

(** main.go:23-30: the handle of the new key is one more. *)
Lemma create_fresh_counted keyPath r k j :
  counted k r → k < j →
  post (create_fresh keyPath r)
    (λ key, holds (S k) key (split_path keyPath)) (λ _, within j) no_crash.
Proof.
  intros H Hj. unfold create_fresh.
  eapply post_seq; [apply post_wrap, (erase_counted _ _ k); [done|lia]|].
  intros ? r1 H1. cbv beta in H1.
  eapply post_seq; [by apply post_wrap, (CreateKey_counted _ _ k)|]. by intros [key ?] r2 H2.
Qed.

(** main.go:31-52: the values of the entry open nothing. *)
Lemma set_attributes_counted key item r p k j :
  holds k key p r → k ≤ j →
  post (set_attributes key item manifestDir r) (λ _, holds k key p) (λ _, within j) no_crash.
Proof.
  intros H Hj. unfold set_attributes. reg_values.
  eapply post_seq; [by eapply set_counted|]. intros ? r1 H1. cbv beta in H1.
  eapply post_seq.
  { case_decide; [by eapply set_counted|by apply post_ret]. }
  intros ? r2 H2. cbv beta in H2. eapply post_seq.
  { apply post_when; [intros _; by eapply set_counted|done]. }
  intros ? r3 H3. cbv beta in H3. apply post_when; [intros _; by eapply set_counted|done].
Qed.

(** main.go:54-61: the handle of the [shell] key is one more, and is dropped. *)
Lemma create_folder_counted key keyPath r p k j :
  holds k key p r → k < j →
  post (create_folder key keyPath r) (λ _, counted (S k)) (λ _, within j) no_crash.
Proof.
  intros H Hj. unfold create_folder. reg_values.
  eapply post_seq; [eapply set_counted; [done|lia]|]. intros ? r1 [H1 _].
  eapply post_seq; [by apply post_wrap, (CreateKey_counted _ _ k)|]. by intros ? r2 [H2 _].
Qed.

(** The same for the state of the process. *)
Local Abbreviation counts k := (λ (_ : unit) w, counted k (registry w)).
Local Abbreviation stays j := (λ (_ : error) w, within j (registry w)).
Local Abbreviation ends j := (λ (_ : crash) w, within j (registry w)).

Lemma create_fresh_opens keyPath w k j :
  counted k (registry w) → k < j →
  post (on_registry (create_fresh keyPath) w)
    (λ key w', holds (S k) key (split_path keyPath) (registry w')) (stays j) (ends j).
Proof.
  intros. eapply on_registry_post; [by apply (create_fresh_counted _ _ k)|done..].
Qed.

(** main.go:69-81: the handle of the [command] key is one more. *)
Lemma create_command_counted keyPath item w k j :
  counted k (registry w) → k < j →
  post (create_command env keyPath item manifestDir w) (counts (S k)) (stays j) (ends j).
Proof.
  intros H Hj. unfold create_command.
  eapply post_seq; [by apply (create_fresh_opens _ _ k)|].
  intros key w1 H1. cbv beta in H1.
  eapply (post_seq _ _ _ (λ _ w2, registry w2 = registry w1)).
  { apply post_zoom. eapply post_mono; [apply CommandString_post|done|done|].
    intros ? ? _. simpl. apply (counted_within (S k)); [apply H1|lia]. }
  intros cmd w2 Hr. reg_values.
  eapply on_registry_post; [eapply (set_counted _ _ _ _ _ _ (S k) j); [by rewrite Hr|lia]|..].
  - by intros ? r3 [H3 _].
  - by intros.
Qed.

(** A nil entry: one handle, and the end of the process. *)
Lemma nil_entry_counted parent id w k j :
  counted k (registry w) → k < j →
  post (createContextMenu env parent id None manifestDir w) (counts (S k)) (stays j) (ends j).
Proof.
  intros H Hj. simpl.
  eapply post_seq; [by apply (create_fresh_opens _ _ k)|].
  intros key w1 [H1 _]. simpl in *. apply (counted_within (S k)); [done|lia].
Qed.

(** The loop: the handles of the entries add up. *)
Lemma create_entries_counted create items w k j :
  counted k (registry w) → k + entries_opens items ≤ j →
  (∀ id o w i, (id, o) ∈ items → counted i (registry w) → i + entry_opens o ≤ j →
     post (create id o w) (counts (i + entry_opens o)) (stays j) (ends j)) →
  post (create_entries create items w) (counts (k + entries_opens items)) (stays j) (ends j).
Proof.
  intros H Hj Hc. unfold create_entries.
  apply (post_for_each_inv _ _ _ (λ done w', counted (k + entries_opens done) (registry w'))).
  { by rewrite Nat.add_0_r. }
  intros done [id o] w' Hpre Hw'. apply post_wrap. rewrite entries_opens_snoc, Nat.add_assoc.
  pose proof (entries_opens_prefix _ _ Hpre) as Hle. rewrite entries_opens_snoc in Hle.
  apply Hc; [|done|simpl in *; lia]. destruct Hpre as [rest ->]. set_solver.
Qed.

(** main.go:18-84: two handles for the entry and those of its children. *)
Lemma create_menu_counted item : ∀ parent id w k j,
  counted k (registry w) → k + opens item ≤ j →
  post (create_menu env parent id item manifestDir w) (counts (k + opens item)) (stays j)
       (ends j).
Proof.
  induction item as [item IH] using ContextMenu_tree_ind. intros parent id w k j Hw Hj.
  rewrite create_menu_unfold. cbv zeta.
  assert (2 ≤ opens item) by (destruct item; simpl; lia).
  eapply post_seq; [apply (create_fresh_opens _ _ k); [done|lia]|].
  intros key w1 H1. cbv beta in H1.
  eapply (post_seq _ _ _ (λ _ w2, holds (S k) key (split_path (keyPath_of parent id))
                                          (registry w2))).
  { eapply on_registry_post;
      [eapply (set_attributes_counted _ _ _ _ (S k) j); [done|lia]|done..]. }
  intros ? w2 H2. cbv beta in H2. case_decide as Hf.
  2:{ rewrite opens_item in * by done. replace (k + 2) with (S (S k)) by lia.
      apply create_command_counted; [apply H2|lia]. }
  rewrite opens_folder in * by done.
  eapply (post_seq _ _ _ (counts (S (S k)))).
  { eapply on_registry_post;
      [eapply (create_folder_counted _ _ _ _ (S k) j); [done|lia]|done..]. }
  intros ? w3 H3. cbv beta in H3.
  replace (k + (2 + entries_opens (Items item)))
    with (S (S k) + entries_opens (Items item)) by lia.
  apply create_entries_counted; [done|lia|]. intros subID [sub|] w4 i Hin H4 Hi.
  - by apply (IH subID).
  - simpl entry_opens in *. replace (i + 1) with (S i) by lia.
    apply nil_entry_counted; [done|lia].
Qed.

Lemma createContextMenu_counted parent id o w k j :
  counted k (registry w) → k + entry_opens o ≤ j →
  post (createContextMenu env parent id o manifestDir w) (counts (k + entry_opens o))
       (stays j) (ends j).
Proof.
  intros Hw Hj. destruct o as [c|]; [by apply create_menu_counted|].
  simpl entry_opens in *. replace (k + 1) with (S k) by lia.
  apply nil_entry_counted; [done|lia].
Qed.

(** main.go:104-109 *)
Lemma install_counted manifest w k j :
  counted k (registry w) → k + entries_opens (manifest_Items manifest) ≤ j →
  post (install env manifest manifestDir w)
       (counts (k + entries_opens (manifest_Items manifest))) (stays j) (ends j).
Proof.
  intros Hw Hj. apply create_entries_counted; [done..|].
  intros. by apply createContextMenu_counted.
Qed.

End count.

Lemma within_size r0 k r :
  within r0 k r → size (handles r0) ≤ size (handles r) ≤ size (handles r0) + k.
Proof. intros [Hf ?]. split; [|done]. apply map_subseteq_size, Hf. Qed.

(** ** The theorem *)

Lemma install_opens env manifest manifestDir w :
  reg_wf (registry w) →
  post (install env manifest manifestDir w)
    (λ _ w', size (handles (registry w'))
             = size (handles (registry w)) + entries_opens (manifest_Items manifest))
    (λ _ w', size (handles (registry w)) ≤ size (handles (registry w'))
             ≤ size (handles (registry w)) + entries_opens (manifest_Items manifest))
    (λ _ w', size (handles (registry w)) ≤ size (handles (registry w'))
             ≤ size (handles (registry w)) + entries_opens (manifest_Items manifest)).
Proof.
  intros Hwf. eapply post_mono;
    [apply (install_counted env manifestDir (registry w) manifest w 0
              (entries_opens (manifest_Items manifest)))|..].
  - split; [by apply sync_frame_refl|lia].
  - done.
  - by intros ? w' [_ ?].
  - intros ? w'. apply within_size.
  - intros ? w'. apply within_size.
Qed.

(** C31.  The handles a run leaves open.  The installation opens a handle
    with every [registry.CreateKey] and closes none of them, while the
    eraser closes what it opens.  On a store that satisfies the invariant,
    a run that returns without an error has left exactly two more handles
    open for every entry of the tree it visited, the children of folders
    included; a run that returns an error or ends the process has left at
    most that many more, and no fewer than were open before.  The leak is
    bounded by the size of the manifest and by nothing else. *)
Theorem install_handles env manifest manifestDir w :
  reg_wf (registry w) →
  post (install env manifest manifestDir w)
    (λ _ w', size (handles (registry w'))
             = size (handles (registry w)) + entries_opens (manifest_Items manifest))
    (λ _ w', size (handles (registry w)) ≤ size (handles (registry w'))
             ≤ size (handles (registry w)) + entries_opens (manifest_Items manifest))
    (λ _ w', size (handles (registry w)) ≤ size (handles (registry w'))
             ≤ size (handles (registry w)) + entries_opens (manifest_Items manifest)).
Proof. apply install_opens. Qed.

Lemma install_handles_witness :
  post (install sample_env sample_manifest "C:\menu" sample_world)
    (λ _ w', size (handles (registry w')) = 0 + 10)
    (λ _ w', 0 ≤ size (handles (registry w')) ≤ 0 + 10)
    (λ _ w', 0 ≤ size (handles (registry w')) ≤ 0 + 10).
Proof. apply (install_handles sample_env sample_manifest "C:\menu" sample_world), sample_store_wf. Defined.
